(** * Staged Blueprint Planning: the staged entity store, its diffs, its
    connection graphs and the update protocol, embedded from the sources.

    Layout: one module per source file, definitions first; the facts proved
    about them follow in the second half of the file.

    Conventions of the embedding.
    - A Lua table used as a record or a dictionary is a [gmap]; reading an
      absent key gives [None] (Lua's nil).
    - An object reference (an entity held by several tables at once) is an
      [EntityRef]; the objects live in a heap, so that a write through one
      reference is seen through every other.
    - [error] and a failed [assert] end the call: [Raised].
    - Calls into the world adapter are recorded, in order, in a log. *)

From Stdlib Require Import ZArith QArith Qround Lia Bool.
From stdpp Require Import functions base gmap sets list strings pretty sorting fin_maps.

Open Scope Z_scope.
Set Warnings "-register-all,-clear-no-such-hyp".

(* ===================================================================== *)
(** ** Lua values and call outcomes *)
(* ===================================================================== *)

Module Lua.

(** A non-nil Lua value; a table is the list of its fields. *)
Inductive value : Type :=
  | VBool (b : bool)
  | VNum (n : Z)
  | VStr (s : string)
  | VTable (fields : list (string * value)).

(** [t[k]]: the field [k] of a table, nil when there is none. *)
Fixpoint field (k : string) (fields : list (string * value)) : option value :=
  match fields with
  | [] => None
  | (k', v) :: rest => if String.eqb k k' then Some v else field k rest
  end.

(** [a === b] on values: the same primitive, or the same table.  Values
    carry no reference, so two tables are taken to be the same one when
    they are written field for field alike; [deepCompare] answers true on
    such a pair on either path, so reading [===] this way changes none of
    its answers. *)
Fixpoint identical (a b : value) {struct a} : bool :=
  match a, b with
  | VBool x, VBool y => Bool.eqb x y
  | VNum x, VNum y => Z.eqb x y
  | VStr x, VStr y => String.eqb x y
  | VTable fa, VTable fb =>
      (fix all2 (l1 l2 : list (string * value)) {struct l1} : bool :=
         match l1, l2 with
         | [], [] => true
         | (k1, v1) :: t1, (k2, v2) :: t2 =>
             String.eqb k1 k2 && identical v1 v2 && all2 t1 t2
         | _, _ => false
         end) fa fb
  | _, _ => false
  end.

(** How a call ends: it returns, or [error]/[assert] raised. *)
Inductive outcome (A : Type) : Type :=
  | Returned (a : A)
  | Raised (msg : string).
Arguments Returned {A} a.
Arguments Raised {A} msg.

#[export] Instance outcome_ret : MRet outcome := fun A a => Returned a.
#[export] Instance outcome_bind : MBind outcome := fun A B k m =>
  match m with
  | Returned a => k a
  | Raised msg => Raised msg
  end.

(** [assert(c, msg)] *)
Definition assert (c : bool) (msg : string) : outcome unit :=
  if c then Returned tt else Raised msg.

End Lua.

Export Lua.

(* ===================================================================== *)
(** ** src/lib/util.ts *)
(* ===================================================================== *)

Module Util.

(** [deepCompare(a, b)] on two non-nil values. *)
Fixpoint deepCompareValue (a b : value) {struct a} : bool :=
  if identical a b then true
  else
    match a, b with
    | VTable fa, VTable fb =>
        (fix each (l : list (string * value)) {struct l} : bool :=
           match l with
           | [] => true
           | (k, v) :: rest =>
               match field k fb with
               | Some w => if deepCompareValue v w then each rest else false
               | None => false
               end
           end) fa
        && forallb (fun kv => bool_decide (is_Some (field kv.1 fa))) fb
    | _, _ => false
    end.

(** [deepCompare(a, b)], either of which may be nil. *)
Definition deepCompare (a b : option value) : bool :=
  match a, b with
  | None, None => true
  | Some x, Some y => deepCompareValue x y
  | _, _ => false
  end.

(** [shallowCopy]: tables are values here, a copy is the table itself. *)
Definition shallowCopy {A} (obj : A) : A := obj.
Definition mutableShallowCopy {A} (obj : A) : A := shallowCopy obj.
Definition ownedShallowCopy {A} (obj : A) : A := shallowCopy obj.

(** [isEmpty(obj)]: [next(obj)[0] === nil]. *)
Definition isEmpty `{FinMap K M} {A} (obj : M A) : bool :=
  bool_decide (map_to_list obj = []).

(** [nilIfEmpty(obj)] *)
Definition nilIfEmpty `{FinMap K M} {A} (obj : M A) : option (M A) :=
  if isEmpty obj then None else Some obj.

End Util.

(* ===================================================================== *)
(** ** src/lib/geometry/position.ts *)
(* ===================================================================== *)

Module Pos.

(** A map position.  Coordinates are only added, subtracted and compared
    here; integers stand for them. *)
Record Position : Type := mkPosition { x : Z; y : Z }.

#[export] Instance Position_eq_dec : EqDecision Position.
Proof. solve_decision. Defined.

Definition Pos (x y : Z) : Position := mkPosition x y.
Definition from (position : Position) : Position := Pos (x position) (y position).
Definition plus (pos1 pos2 : Position) : Position :=
  Pos (x pos1 + x pos2) (y pos1 + y pos2).
Definition add (pos : Position) (dx dy : Z) : Position := Pos (x pos + dx) (y pos + dy).
Definition minus (pos1 pos2 : Position) : Position :=
  Pos (x pos1 - x pos2) (y pos1 - y pos2).
Definition equals (pos1 pos2 : Position) : bool :=
  bool_decide (x pos1 = x pos2) && bool_decide (y pos1 = y pos2).
Definition isZero (pos1 : Position) : bool :=
  bool_decide (x pos1 = 0) && bool_decide (y pos1 = 0).

(** The position as a property value, [{x, y}]. *)
Definition toValue (pos : Position) : value :=
  VTable [("x", VNum (x pos)); ("y", VNum (y pos))].

End Pos.

(* ===================================================================== *)
(** ** The game runtime: rendered instances *)
(* ===================================================================== *)

Module Factorio.
Import Pos.

(** The fields [findCompatibleWithLuaEntity] reads off an entity. *)
Record EntityIdentification : Type := mkIdent {
  id_name : string;
  id_type : string;
  id_position : Position;
  id_direction : Z;
  id_belt_to_ground_type : option string;
  (** ["LuaEntity"] for a rendered instance *)
  id_object_name : option string;
  id_unit_number : option Z
}.

(** A rendered instance, as the updater reads it. *)
Record LuaEntity : Type := mkLuaEntity {
  unit_number : Z;
  valid : bool;
  name : string;
  type : string;
  position : Position;
  direction : Z;
  belt_to_ground_type : string;
  loader_type : string;
  pickup_position : Position;
  drop_position : Position;
  (** [get_upgrade_target()?.name] *)
  upgrade_target : option string;
  (** [get_upgrade_direction()] *)
  upgrade_direction : option Z;
  (** the other end of an underground belt, if the world sees one *)
  neighbours : option EntityIdentification
}.

Definition identify (e : LuaEntity) : EntityIdentification :=
  {| id_name := name e; id_type := type e; id_position := position e;
     id_direction := direction e;
     id_belt_to_ground_type := Some (belt_to_ground_type e);
     id_object_name := Some "LuaEntity";
     id_unit_number := Some (unit_number e) |}.

(** [oppositedirection] of the runtime's util library, on its eight
    directions. *)
Definition oppositedirection (d : Z) : Z := (d + 4) `mod` 8.

End Factorio.

(* ===================================================================== *)
(** ** src/entity/diff.ts, first part: property diffs *)
(* ===================================================================== *)

Module Diff.
Import Util.

(** An entity's property snapshot. *)
Abbreviation Entity := (gmap string value).

(** A value of a diff: a property value, or the placeholder that stands
    for nil. *)
Inductive diffValue : Type :=
  | NilPlaceholder
  | Prop_ (v : value).

Abbreviation LayerDiff := (gmap string diffValue).

Definition ignoredProps : gset string := {[ "position"; "direction" ]}.

Definition getEntityDiff (below above : Entity) : option LayerDiff :=
  let changes : LayerDiff := ∅ in
  let changes :=
    map_fold (fun key value (changes : LayerDiff) =>
                if negb (bool_decide (key ∈ ignoredProps))
                   && negb (deepCompare (Some value) (below !! key))
                then <[key := Prop_ value]> changes else changes)
             changes above in
  let changes :=
    map_fold (fun key (_ : value) (changes : LayerDiff) =>
                if negb (bool_decide (key ∈ ignoredProps))
                   && bool_decide (above !! key = None)
                then <[key := NilPlaceholder]> changes else changes)
             changes below in
  nilIfEmpty changes.

Definition applyDiffToDiff (existing diff : LayerDiff) : LayerDiff :=
  map_fold (fun key value (existing : LayerDiff) => <[key := value]> existing)
           existing diff.

Definition applyDiffToEntity (entity : Entity) (diff : LayerDiff) : Entity :=
  map_fold (fun key value (entity : Entity) =>
              match value with
              | NilPlaceholder => delete key entity
              | Prop_ v => <[key := v]> entity
              end)
           entity diff.

(** A diff that may be nil, as [getEntityDiff] returns it and its callers
    store it: nil changes nothing. *)
Definition applyOptionalDiff (entity : Entity) (diff : option LayerDiff) : Entity :=
  match diff with
  | Some d => applyDiffToEntity entity d
  | None => entity
  end.

End Diff.

(* ===================================================================== *)
(** ** Tables keyed by layer (stage) numbers *)
(* ===================================================================== *)

Module StageTable.

(** The loops over [layerChanges] stop at the first key above the layer
    they look for: they read the table by increasing layer number, which
    is the order the runtime walks small integer keys in.  [pairs] is
    that walk. *)
Definition keyLe {A} (p q : Z * A) : Prop := p.1 ≤ q.1.

#[export] Instance keyLe_dec {A} (p q : Z * A) : Decision (keyLe p q) :=
  Z_le_dec p.1 q.1.

Definition pairs {A} (t : gmap Z A) : list (Z * A) :=
  merge_sort keyLe (map_to_list t).

(** [t[k] = v] where [v] may be nil: assigning nil removes the key. *)
Definition set {A} (k : Z) (v : option A) (t : gmap Z A) : gmap Z A :=
  match v with
  | Some a => <[k := a]> t
  | None => delete k t
  end.

End StageTable.

(* ===================================================================== *)
(** ** src/entity/diff.ts, second part: AssemblyEntity *)
(* ===================================================================== *)

Module AssemblyEntity.
Import Util Diff.
Export Pos.

Abbreviation LayerNumber := Z.
Abbreviation AnyWorldEntity := Factorio.LuaEntity.

Abbreviation LayerChanges := (gmap Z LayerDiff).

Record AssemblyEntityImpl : Type := mkAssemblyEntity {
  categoryName : string;
  position : Position;
  direction : option Z;
  isLostReference : bool;
  baseLayer : LayerNumber;
  baseValue : Entity;
  layerChanges : LayerChanges;
  worldEntities : gmap string (gmap Z AnyWorldEntity)
}.

Definition setBase (baseLayer' : LayerNumber) (baseValue' : Entity)
    (layerChanges' : LayerChanges) (this : AssemblyEntityImpl) : AssemblyEntityImpl :=
  {| categoryName := categoryName this;
     position := position this;
     direction := direction this;
     isLostReference := isLostReference this;
     baseLayer := baseLayer';
     baseValue := baseValue';
     layerChanges := layerChanges';
     worldEntities := worldEntities this |}.

Definition setWorldEntities (w : gmap string (gmap Z AnyWorldEntity))
    (this : AssemblyEntityImpl) : AssemblyEntityImpl :=
  {| categoryName := categoryName this;
     position := position this;
     direction := direction this;
     isLostReference := isLostReference this;
     baseLayer := baseLayer this;
     baseValue := baseValue this;
     layerChanges := layerChanges this;
     worldEntities := w |}.

(** [getCategoryName(entity)]: [entity.name]; the empty string stands for a
    missing name. *)
Definition getCategoryName (entity : Entity) : string :=
  match entity !! "name" with
  | Some (VStr s) => s
  | _ => ""
  end.

(** [new AssemblyEntityImpl(baseLayer, baseEntity, position, direction)] *)
Definition new (baseLayer : LayerNumber) (baseEntity : Entity)
    (position : Position) (direction : option Z) : AssemblyEntityImpl :=
  {| categoryName := getCategoryName baseEntity;
     position := position;
     direction := if bool_decide (direction = Some 0) then None else direction;
     isLostReference := false;
     baseLayer := baseLayer;
     baseValue := ownedShallowCopy baseEntity;
     layerChanges := ∅;
     worldEntities := ∅ |}.

Definition createAssemblyEntity (entity : Entity) (position : Position)
    (direction : option Z) (layerNumber : LayerNumber) : AssemblyEntityImpl :=
  new layerNumber entity position direction.

Definition getBaseLayer (this : AssemblyEntityImpl) : LayerNumber := baseLayer this.
Definition getBaseValue (this : AssemblyEntityImpl) : Entity := baseValue this.

Definition applyDiffAtLayer (this : AssemblyEntityImpl) (layer : LayerNumber)
    (diff : LayerDiff) : outcome AssemblyEntityImpl :=
  _ ← assert (bool_decide (layer >= baseLayer this)) "layer must be >= first layer";
  if bool_decide (layer = baseLayer this) then
    mret (setBase (baseLayer this) (applyDiffToEntity (baseValue this) diff)
                  (layerChanges this) this)
  else
    match layerChanges this !! layer with
    | Some existingDiff =>
        mret (setBase (baseLayer this) (baseValue this)
                (<[layer := applyDiffToDiff existingDiff diff]> (layerChanges this)) this)
    | None =>
        mret (setBase (baseLayer this) (baseValue this)
                (<[layer := ownedShallowCopy diff]> (layerChanges this)) this)
    end.

Definition hasLayerChanges (this : AssemblyEntityImpl) : bool :=
  negb (isEmpty (layerChanges this)).

Definition _getLayerChanges (this : AssemblyEntityImpl) : LayerChanges :=
  layerChanges this.

(** The loop of [getValueAtLayer]: apply the diffs met, stop at the first
    one above [layer]. *)
Fixpoint applyChangesUpTo (layer : LayerNumber) (changes : list (Z * LayerDiff))
    (value : Entity) : Entity :=
  match changes with
  | [] => value
  | (changedLayer, diff) :: rest =>
      if bool_decide (changedLayer > layer) then value
      else applyChangesUpTo layer rest (applyDiffToEntity value diff)
  end.

Definition getValueAtLayer (this : AssemblyEntityImpl) (layer : LayerNumber)
    : outcome (option Entity) :=
  _ ← assert (bool_decide (layer >= 1)) "layer must be >= 1";
  if bool_decide (layer < baseLayer this) then mret None
  else
    let value := mutableShallowCopy (baseValue this) in
    mret (Some (applyChangesUpTo layer (StageTable.pairs (layerChanges this)) value)).

(** The loop of [moveUp]: fold the diffs met into the base value and drop
    them from the table, stop at the first one above [higherLayer]. *)
Fixpoint foldChangesUpTo (higherLayer : LayerNumber) (changes : list (Z * LayerDiff))
    (baseValue : Entity) (layerChanges : LayerChanges) : Entity * LayerChanges :=
  match changes with
  | [] => (baseValue, layerChanges)
  | (changeLayer, changed) :: rest =>
      if bool_decide (changeLayer > higherLayer) then (baseValue, layerChanges)
      else foldChangesUpTo higherLayer rest (applyDiffToEntity baseValue changed)
             (StageTable.set changeLayer None layerChanges)
  end.

Definition moveDown (this : AssemblyEntityImpl) (lowerLayer : LayerNumber)
    (newValue : option Entity) (createDiffAtOldLayer : bool)
    : outcome (AssemblyEntityImpl * LayerNumber) :=
  let higherLayer := baseLayer this in
  let higherValue := baseValue this in
  _ ← assert (bool_decide (lowerLayer < higherLayer))
        "new layer number must be greater than old layer number";
  let lowerValue :=
    match newValue with
    | Some v => ownedShallowCopy v
    | None => higherValue
    end in
  let newDiff :=
    if createDiffAtOldLayer then getEntityDiff lowerValue higherValue else None in
  mret (setBase lowerLayer lowerValue
          (StageTable.set higherLayer newDiff (layerChanges this)) this,
        higherLayer).

Definition moveUp (this : AssemblyEntityImpl) (higherLayer : LayerNumber)
    : outcome (AssemblyEntityImpl * LayerNumber) :=
  let lowerLayer := baseLayer this in
  _ ← assert (bool_decide (higherLayer > lowerLayer))
        "new layer number must be greater than old layer number";
  let '(baseValue', layerChanges') :=
    foldChangesUpTo higherLayer (StageTable.pairs (layerChanges this))
      (baseValue this) (layerChanges this) in
  mret (setBase higherLayer baseValue' layerChanges' this, lowerLayer).

Definition moveToLayer (this : AssemblyEntityImpl) (layer : LayerNumber)
    : outcome AssemblyEntityImpl :=
  if bool_decide (layer > baseLayer this) then
    r ← moveUp this layer; mret r.1
  else if bool_decide (layer < baseLayer this) then
    r ← moveDown this layer None false; mret r.1
  else mret this.

(** [getWorldEntity(layer, type)]: the rendered instance when it is there
    and valid; a stale handle is dropped from the table. *)
Definition getWorldEntity (this : AssemblyEntityImpl) (layer : LayerNumber)
    (type : string) : option AnyWorldEntity * AssemblyEntityImpl :=
  match worldEntities this !! type with
  | None => (None, this)
  | Some byType =>
      match byType !! layer with
      | Some worldEntity =>
          if Factorio.valid worldEntity then (Some worldEntity, this)
          else
            let byType := delete layer byType in
            (None,
             setWorldEntities
               (if isEmpty byType then delete type (worldEntities this)
                else <[type := byType]> (worldEntities this)) this)
      | None =>
          let byType := delete layer byType in
          (None,
           setWorldEntities
             (if isEmpty byType then delete type (worldEntities this)
              else <[type := byType]> (worldEntities this)) this)
      end
  end.

(** Does not check position. *)
Definition isCompatibleEntity (a : AssemblyEntityImpl) (categoryName' : string)
    (direction' : option Z) : bool :=
  bool_decide (categoryName a = categoryName') && bool_decide (direction a = direction').

End AssemblyEntity.

(* ===================================================================== *)
(** ** The staged entity of the store and the updater *)
(* ===================================================================== *)

Module ProjectEntity.
Import Util Diff.

(** A reference to an entity object. *)
Abbreviation EntityRef := positive.
Abbreviation StageNumber := Z.

(** Modelled from the spec: the staged entity of §3 ("StagedEntity"), whose
    class file (ProjectEntity.ts, earlier AssemblyEntity.ts with stages) is
    not among the sources.  It is the [AssemblyEntityImpl] of diff.ts, whose
    [baseLayer], [baseValue] and [layerChanges] the spec calls [firstStage],
    [baseValue] ([firstValue] in the callers) and [stageDiffs], extended
    with the two fields the spec adds: [lastStage] and [isSettingsRemnant]. *)
Record ProjectEntity : Type := mkProjectEntity {
  core : AssemblyEntity.AssemblyEntityImpl;
  lastStage : option StageNumber;
  isSettingsRemnant : bool
}.

Definition firstStage (this : ProjectEntity) : StageNumber :=
  AssemblyEntity.baseLayer (core this).
Definition firstValue (this : ProjectEntity) : Entity :=
  AssemblyEntity.baseValue (core this).
Definition stageDiffs (this : ProjectEntity) : gmap Z LayerDiff :=
  AssemblyEntity.layerChanges (core this).
Definition direction (this : ProjectEntity) : option Z :=
  AssemblyEntity.direction (core this).
Definition position (this : ProjectEntity) : Pos.Position :=
  AssemblyEntity.position (core this).

Definition withCore (c : AssemblyEntity.AssemblyEntityImpl) (this : ProjectEntity)
    : ProjectEntity :=
  {| core := c; lastStage := lastStage this; isSettingsRemnant := isSettingsRemnant this |}.

(** [this.direction = d] *)
Definition setDirection (d : option Z) (this : ProjectEntity) : ProjectEntity :=
  withCore
    {| AssemblyEntity.categoryName := AssemblyEntity.categoryName (core this);
       AssemblyEntity.position := AssemblyEntity.position (core this);
       AssemblyEntity.direction := d;
       AssemblyEntity.isLostReference := AssemblyEntity.isLostReference (core this);
       AssemblyEntity.baseLayer := AssemblyEntity.baseLayer (core this);
       AssemblyEntity.baseValue := AssemblyEntity.baseValue (core this);
       AssemblyEntity.layerChanges := AssemblyEntity.layerChanges (core this);
       AssemblyEntity.worldEntities := AssemblyEntity.worldEntities (core this) |} this.

(** [this.isSettingsRemnant = b] ([true], or nil for [false]) *)
Definition setIsSettingsRemnant (b : bool) (this : ProjectEntity) : ProjectEntity :=
  {| core := core this; lastStage := lastStage this; isSettingsRemnant := b |}.

Definition setLastStageUnchecked (stage : option StageNumber) (this : ProjectEntity)
    : ProjectEntity :=
  {| core := core this; lastStage := stage; isSettingsRemnant := isSettingsRemnant this |}.

Definition setPositionUnchecked (pos : Pos.Position) (this : ProjectEntity) : ProjectEntity :=
  withCore
    {| AssemblyEntity.categoryName := AssemblyEntity.categoryName (core this);
       AssemblyEntity.position := pos;
       AssemblyEntity.direction := AssemblyEntity.direction (core this);
       AssemblyEntity.isLostReference := AssemblyEntity.isLostReference (core this);
       AssemblyEntity.baseLayer := AssemblyEntity.baseLayer (core this);
       AssemblyEntity.baseValue := AssemblyEntity.baseValue (core this);
       AssemblyEntity.layerChanges := AssemblyEntity.layerChanges (core this);
       AssemblyEntity.worldEntities := AssemblyEntity.worldEntities (core this) |} this.

(** [this.firstValue[key] = v]; assigning nil removes the property. *)
Definition setFirstValueProp (key : string) (v : option value) (this : ProjectEntity)
    : ProjectEntity :=
  withCore (AssemblyEntity.setBase (firstStage this)
              (match v with
               | Some v => <[key := v]> (firstValue this)
               | None => delete key (firstValue this)
               end)
              (stageDiffs this) (core this)) this.

(** The [name] of a property snapshot. *)
Definition nameOf (entity : Entity) : option string :=
  match entity !! "name" with
  | Some (VStr s) => Some s
  | _ => None
  end.

(** [getDirection()]: [direction ?? 0] *)
Definition getDirection (this : ProjectEntity) : Z := default 0 (direction this).

(** Modelled from the spec: [createProjectEntityNoCopy(value, position,
    direction, stage)], the constructor of diff.ts with no last stage and
    no remnant flag.  The direction is kept as given, 0 included: the test
    "simple add" of [addNewEntity] reads [entity.direction] as 0 for an
    entity created from an instance that faces north. *)
Definition createProjectEntityNoCopy (entity : Entity) (position : Pos.Position)
    (direction : option Z) (stage : StageNumber) : ProjectEntity :=
  setDirection direction
    {| core := AssemblyEntity.createAssemblyEntity entity position direction stage;
       lastStage := None; isSettingsRemnant := false |}.

(** Modelled from the spec: [hasStageDiff()], "the entity has any stage diff
    beyond its base"; [hasLayerChanges] of diff.ts. *)
Definition hasStageDiff (this : ProjectEntity) : bool :=
  AssemblyEntity.hasLayerChanges (core this).

(** Modelled from the spec: [getValueAtStage(s)]; [getValueAtLayer] of
    diff.ts. *)
Definition getValueAtStage (this : ProjectEntity) (stage : StageNumber)
    : outcome (option Entity) :=
  AssemblyEntity.getValueAtLayer (core this) stage.

(** Modelled from the spec: [getNameAtStage(stage)], the name that the base
    value has once the diffs up to [stage] are applied. *)
Definition getNameAtStage (this : ProjectEntity) (stage : StageNumber) : option string :=
  nameOf (AssemblyEntity.applyChangesUpTo stage (StageTable.pairs (stageDiffs this))
            (firstValue this)).

(** Modelled from the spec: [applyDiffAtStage(s, delta)], "if s == firstStage,
    merges into baseValue directly; otherwise merges into (or creates) the
    diff at s"; a stage below the first stage is the hard assertion of §7.
    [applyDiffAtLayer] of diff.ts. *)
Definition applyDiffAtStage (this : ProjectEntity) (stage : StageNumber)
    (diff : LayerDiff) : outcome ProjectEntity :=
  c ← AssemblyEntity.applyDiffAtLayer (core this) stage diff;
  mret (withCore c this).

(** Modelled from the spec: [applyUpgradeAtStage(stage, newName)], the diff
    [{name = newName}] applied at the stage; it reports whether the name at
    the stage changed. *)
Definition applyUpgradeAtStage (this : ProjectEntity) (stage : StageNumber)
    (newName : string) : outcome (ProjectEntity * bool) :=
  if bool_decide (getNameAtStage this stage = Some newName) then mret (this, false)
  else
    this' ← applyDiffAtStage this stage {[ "name" := Prop_ (VStr newName) ]};
    mret (this', true).

(** Modelled from the spec: [adjustValueAtStage(stage, value)], "compare the
    observed value against the value stored at the event stage; if
    different, record a diff at that stage". *)
Definition adjustValueAtStage (this : ProjectEntity) (stage : StageNumber)
    (newValue : Entity) : outcome (ProjectEntity * bool) :=
  current ← getValueAtStage this stage;
  match current with
  | None => Raised "stage must be >= first stage"
  | Some current =>
      match getEntityDiff current newValue with
      | None => mret (this, false)
      | Some diff => this' ← applyDiffAtStage this stage diff; mret (this', true)
      end
  end.

(** [setTypeProperty(type)]: [firstValue.type = type] *)
Definition setTypeProperty (type : option string) (this : ProjectEntity) : ProjectEntity :=
  setFirstValueProp "type" (VStr <$> type) this.
Definition setPickupPosition (pos : Pos.Position) (this : ProjectEntity) : ProjectEntity :=
  setFirstValueProp "pickup_position" (Some (Pos.toValue pos)) this.
Definition setDropPosition (pos : Pos.Position) (this : ProjectEntity) : ProjectEntity :=
  setFirstValueProp "drop_position" (Some (Pos.toValue pos)) this.

(** Modelled from the spec: [setFirstStageUnchecked(stage)], the
    [moveToStage] of §4.1; [moveToLayer] of diff.ts. *)
Definition setFirstStageUnchecked (this : ProjectEntity) (stage : StageNumber)
    : outcome ProjectEntity :=
  c ← AssemblyEntity.moveToLayer (core this) stage;
  mret (withCore c this).

(** Modelled from the spec: [getWorldEntity(stage)], the rendered instance of
    the entity at the stage (§6), nil when there is none or it is no longer
    valid; the read of [getWorldEntity] of diff.ts (its dropping of a stale
    handle, which no later read tells from an absent one, is left out). *)
Definition getWorldEntity (this : ProjectEntity) (stage : StageNumber)
    : option Factorio.LuaEntity :=
  (AssemblyEntity.getWorldEntity (core this) stage "main").1.

End ProjectEntity.

(* ===================================================================== *)
(** ** Connection points and circuit connections *)
(* ===================================================================== *)

Module Connections.
Import ProjectEntity.

(** A cable connection point: an entity, or one side of a power switch
    [{entity, connectionId}]. *)
Inductive CableConnectionPoint : Type :=
  | EntityPoint (entity : EntityRef)
  | PowerSwitchPoint (entity : EntityRef) (connectionId : Z).

#[export] Instance CableConnectionPoint_eq_dec : EqDecision CableConnectionPoint.
Proof. solve_decision. Defined.

#[export] Instance CableConnectionPoint_countable : Countable CableConnectionPoint.
Proof.
  refine (inj_countable'
    (fun p => match p with
              | EntityPoint e => inl e
              | PowerSwitchPoint e c => inr (e, c)
              end)
    (fun s => match s with
              | inl e => EntityPoint e
              | inr (e, c) => PowerSwitchPoint e c
              end) _).
  by intros [].
Defined.

(** Modelled from the spec: cable-connection.ts is not among the sources, its
    test is: a point is a power-switch point when it is an
    [{entity, connectionId}] pair, and its entity is the entity itself or the
    pair's [entity]. *)
Definition isPowerSwitchConnectionPoint (point : CableConnectionPoint) : bool :=
  match point with
  | EntityPoint _ => false
  | PowerSwitchPoint _ _ => true
  end.

Definition getEntityOfConnectionPoint (point : CableConnectionPoint) : EntityRef :=
  match point with
  | EntityPoint e => e
  | PowerSwitchPoint e _ => e
  end.

Record AsmCircuitConnection : Type := mkCircuitConnection {
  fromEntity : EntityRef;
  fromId : Z;
  toEntity : EntityRef;
  toId : Z;
  wire : Z
}.

#[export] Instance AsmCircuitConnection_eq_dec : EqDecision AsmCircuitConnection.
Proof. solve_decision. Defined.

#[export] Instance AsmCircuitConnection_countable : Countable AsmCircuitConnection.
Proof.
  refine (inj_countable'
    (fun c => (fromEntity c, fromId c, toEntity c, toId c, wire c))
    (fun t => match t with (a, b, c, d, e) => mkCircuitConnection a b c d e end) _).
  by intros [].
Defined.

(** Modelled from the spec: circuit-connection.ts is not among the sources,
    its test is: "duplicate detection uses a symmetric-equality comparison
    (endpoints may be recorded in either order)". *)
Definition circuitConnectionEquals (a b : AsmCircuitConnection) : bool :=
  bool_decide (a = b)
  || (bool_decide (wire a = wire b)
      && ((bool_decide (fromEntity a = fromEntity b) && bool_decide (fromId a = fromId b)
           && bool_decide (toEntity a = toEntity b) && bool_decide (toId a = toId b))
          || (bool_decide (fromEntity a = toEntity b) && bool_decide (fromId a = toId b)
              && bool_decide (toEntity a = fromEntity b) && bool_decide (toId a = fromId b)))).

(** The same connection read from its other end. *)
Definition mirrored (c : AsmCircuitConnection) : AsmCircuitConnection :=
  {| fromEntity := toEntity c; fromId := toId c;
     toEntity := fromEntity c; toId := fromId c; wire := wire c |}.

End Connections.

(* ===================================================================== *)
(** ** src/unnamed/part_005: AssemblyContent, the content store *)
(* ===================================================================== *)

Module AssemblyContent.
Import Util ProjectEntity Connections.

Inductive CableAddResult : Type :=
  | Added
  | Error
  | AlreadyExists
  | MaxConnectionsReached.

(** hard-coded in game *)
Definition MaxCableConnections : nat := 5.

Inductive PasteCompatibleRotationType : Type :=
  | AnyDirection
  | Flippable.

(** The prototype tables and helpers the store imports (entity-prototype-info,
    registration, underground-belt); they are data of the game, taken as
    given. *)
Record EntityPrototypeInfo : Type := mkPrototypeInfo {
  nameToType : gmap string string;
  nameToCategory : gmap string string;
  getPasteRotatableType : string → option PasteCompatibleRotationType;
  rollingStockTypes : gset string;
  (** [getRegisteredAssemblyEntity], by the instance's unit number *)
  getRegisteredAssemblyEntity : Z → option EntityRef;
  getUndergroundDirection : Z → option string → Z
}.

(** The entity objects, by reference. *)
Abbreviation Heap := (EntityRef → ProjectEntity).

Abbreviation AsmEntityCircuitConnections := (gmap EntityRef (gset AsmCircuitConnection)).
Abbreviation AsmEntityCableConnections := (gset CableConnectionPoint).

Record AssemblyContentImpl : Type := mkContent {
  (** [Map2D]: per position, the chain of entities linked by [_next] *)
  byPosition : gmap (Z * Z) (list EntityRef);
  entities : gset EntityRef;
  circuitConnections : gmap EntityRef AsmEntityCircuitConnections;
  cableConnections : gmap CableConnectionPoint AsmEntityCableConnections;
  (** currently only used for power switches; nil until first asked for *)
  extraCableConnectionPoints : option (gmap EntityRef (gset Z))
}.

Definition newAssemblyContent : AssemblyContentImpl :=
  {| byPosition := ∅; entities := ∅; circuitConnections := ∅;
     cableConnections := ∅; extraCableConnectionPoints := None |}.

Definition setByPosition (m : gmap (Z * Z) (list EntityRef)) (this : AssemblyContentImpl) :=
  {| byPosition := m; entities := entities this;
     circuitConnections := circuitConnections this;
     cableConnections := cableConnections this;
     extraCableConnectionPoints := extraCableConnectionPoints this |}.
Definition setEntities (s : gset EntityRef) (this : AssemblyContentImpl) :=
  {| byPosition := byPosition this; entities := s;
     circuitConnections := circuitConnections this;
     cableConnections := cableConnections this;
     extraCableConnectionPoints := extraCableConnectionPoints this |}.
Definition setCircuitConnections (m : gmap EntityRef AsmEntityCircuitConnections)
    (this : AssemblyContentImpl) :=
  {| byPosition := byPosition this; entities := entities this;
     circuitConnections := m;
     cableConnections := cableConnections this;
     extraCableConnectionPoints := extraCableConnectionPoints this |}.
Definition setCableConnections (m : gmap CableConnectionPoint AsmEntityCableConnections)
    (this : AssemblyContentImpl) :=
  {| byPosition := byPosition this; entities := entities this;
     circuitConnections := circuitConnections this;
     cableConnections := m;
     extraCableConnectionPoints := extraCableConnectionPoints this |}.
Definition setExtraCableConnectionPoints
    (m : option (gmap EntityRef (gset Z)))
    (this : AssemblyContentImpl) :=
  {| byPosition := byPosition this; entities := entities this;
     circuitConnections := circuitConnections this;
     cableConnections := cableConnections this;
     extraCableConnectionPoints := m |}.

(** Modelled from the spec: the position index ("buckets are keyed by exact
    position; each bucket holds a list"), whose file map2d.ts is not among
    the sources.  [get] gives the chain at a position, [add] links an
    entity in front of it, [delete] unlinks it. *)
Definition Map2D_get (m : gmap (Z * Z) (list EntityRef)) (x y : Z) : list EntityRef :=
  default [] (m !! (x, y)).
Definition Map2D_add (m : gmap (Z * Z) (list EntityRef)) (x y : Z) (entity : EntityRef) :=
  <[(x, y) := entity :: Map2D_get m x y]> m.
Definition Map2D_delete (m : gmap (Z * Z) (list EntityRef)) (x y : Z) (entity : EntityRef) :=
  match filter (fun e => e ≠ entity) (Map2D_get m x y) with
  | [] => delete (x, y) m
  | chain => <[(x, y) := chain]> m
  end.

Definition has (this : AssemblyContentImpl) (entity : EntityRef) : bool :=
  bool_decide (entity ∈ entities this).

Section WithPrototypes.
Variable info : EntityPrototypeInfo.
Variable heap : Heap.

(** [isUndergroundBelt()] of an entity: its type is "underground-belt". *)
Definition isUndergroundBelt (entity : ProjectEntity) : bool :=
  bool_decide (nameToType info !! default "" (nameOf (firstValue entity))
               = Some "underground-belt").

(** The three tests a candidate of [findCompatibleByProps] must pass. *)
Definition directionMatches (direction : option Z) (cur : ProjectEntity) : bool :=
  match direction with
  | None => true
  | Some d => bool_decide (d = default 0 (ProjectEntity.direction cur))
  end.
Definition reachesStage (stage : StageNumber) (cur : ProjectEntity) : bool :=
  match lastStage cur with
  | None => true
  | Some l => bool_decide (l >= stage)
  end.
Definition nameMatches (entityName : string) (category : option string)
    (cur : ProjectEntity) : bool :=
  bool_decide (nameOf (firstValue cur) = Some entityName)
  || match category with
     | Some c =>
         bool_decide ((n ← nameOf (firstValue cur); nameToCategory info !! n) = Some c)
     | None => false
     end.

(** The [while (cur != nil)] loop of [findCompatibleByProps]. *)
Fixpoint findCompatibleLoop (entityName : string) (category : option string)
    (direction : option Z) (stage : StageNumber)
    (chain : list EntityRef) (candidate : option EntityRef) : option EntityRef :=
  match chain with
  | [] => candidate
  | cur :: _next =>
      let candidate :=
        if directionMatches direction (heap cur)
           && reachesStage stage (heap cur)
           && nameMatches entityName category (heap cur)
           && match candidate with
              | None => true
              | Some c => bool_decide (firstStage (heap cur) < firstStage (heap c))
              end
        then Some cur else candidate in
      findCompatibleLoop entityName category direction stage _next candidate
  end.

Definition findCompatibleByProps (this : AssemblyContentImpl) (entityName : string)
    (position : Pos.Position) (direction : option Z) (stage : StageNumber)
    : option EntityRef :=
  let cur := Map2D_get (byPosition this) (Pos.x position) (Pos.y position) in
  match cur with
  | [] => None
  | _ =>
      let category := nameToCategory info !! entityName in
      (* out of possible candidates, find one with the smallest firstStage *)
      findCompatibleLoop entityName category direction stage cur None
  end.

Definition findCompatibleWithLuaEntity (this : AssemblyContentImpl)
    (entity : Factorio.EntityIdentification) (previousDirection : option Z)
    (stage : StageNumber) : option EntityRef :=
  let type := Factorio.id_type entity in
  if bool_decide (type = "underground-belt") then
    match findCompatibleByProps this type (Factorio.id_position entity) None stage with
    | Some found =>
        if bool_decide
             (getUndergroundDirection info (getDirection (heap found))
                (match firstValue (heap found) !! "type" with
                 | Some (VStr t) => Some t
                 | _ => None
                 end)
              = getUndergroundDirection info (Factorio.id_direction entity)
                  (Factorio.id_belt_to_ground_type entity))
        then Some found else None
    | None => None
    end
  else if bool_decide (type ∈ rollingStockTypes info) then
    if bool_decide (Factorio.id_object_name entity = Some "LuaEntity") then
      match Factorio.id_unit_number entity ≫= getRegisteredAssemblyEntity info with
      | Some registered => if has this registered then Some registered else None
      | None => None
      end
    else None
  else
    (* now, worldDirection == savedDirection *)
    let name := Factorio.id_name entity in
    match getPasteRotatableType info name with
    | None =>
        findCompatibleByProps this name (Factorio.id_position entity)
          (Some (default (Factorio.id_direction entity) previousDirection)) stage
    | Some AnyDirection =>
        findCompatibleByProps this name (Factorio.id_position entity) None stage
    | Some Flippable =>
        let direction := default (Factorio.id_direction entity) previousDirection in
        let position := Factorio.id_position entity in
        if bool_decide (direction `mod` 2 = 1) then
          (* if diagonal, we _do_ care about the direction *)
          findCompatibleByProps this name position (Some direction) stage
        else
          match findCompatibleByProps this name position (Some direction) stage with
          | Some found => Some found
          | None =>
              findCompatibleByProps this name position
                (Some (Factorio.oppositedirection direction)) stage
          end
    end.

Definition findCompatibleWithExistingEntity (this : AssemblyContentImpl)
    (entity : EntityRef) (stage : StageNumber) : option EntityRef :=
  let name := default "" (nameOf (firstValue (heap entity))) in
  findCompatibleWithLuaEntity this
    {| Factorio.id_name := name;
       Factorio.id_type := default "unknown" (nameToType info !! name);
       Factorio.id_position := position (heap entity);
       Factorio.id_direction := getDirection (heap entity);
       Factorio.id_belt_to_ground_type :=
         if isUndergroundBelt (heap entity) then
           match firstValue (heap entity) !! "type" with
           | Some (VStr t) => Some t
           | _ => None
           end
         else None;
       Factorio.id_object_name := None;
       Factorio.id_unit_number := None |}
    None stage.

End WithPrototypes.

(** [add(entity)] *)
Definition add (heap : Heap) (this : AssemblyContentImpl) (entity : EntityRef)
    : AssemblyContentImpl :=
  if has this entity then this
  else
    let this := setEntities ({[ entity ]} ∪ entities this) this in
    let pos := position (heap entity) in
    setByPosition (Map2D_add (byPosition this) (Pos.x pos) (Pos.y pos) entity) this.

(** One round of the loop of [removeAllConnections]: [otherData.delete(key)],
    and [map.delete(otherKey)] when that leaves [otherData] empty.  The two
    overloads differ in what [otherData] is: a map keyed by entity (circuit
    connections) or a set of points (cable connections). *)
Definition dropCircuitKey (key otherKey : EntityRef)
    (map : gmap EntityRef AsmEntityCircuitConnections)
    : gmap EntityRef AsmEntityCircuitConnections :=
  match map !! otherKey with
  | Some otherData =>
      let otherData := delete key otherData in
      if isEmpty otherData then delete otherKey map else <[otherKey := otherData]> map
  | None => map
  end.

Definition dropCableKey (key otherKey : CableConnectionPoint)
    (map : gmap CableConnectionPoint AsmEntityCableConnections)
    : gmap CableConnectionPoint AsmEntityCableConnections :=
  match map !! otherKey with
  | Some otherData =>
      let otherData := otherData ∖ {[ key ]} in
      if bool_decide (otherData = ∅) then delete otherKey map
      else <[otherKey := otherData]> map
  | None => map
  end.

(** [removeAllConnections(entity, this.circuitConnections)] *)
Definition removeAllCircuitConnections (key : EntityRef)
    (map : gmap EntityRef AsmEntityCircuitConnections)
    : gmap EntityRef AsmEntityCircuitConnections :=
  match map !! key with
  | None => map
  | Some entityData =>
      let map := delete key map in
      foldl (fun map otherKey => dropCircuitKey key otherKey map) map
            (map_to_list entityData).*1
  end.

(** [removeAllConnections(point, this.cableConnections)] *)
Definition removeAllCableConnections (key : CableConnectionPoint)
    (map : gmap CableConnectionPoint AsmEntityCableConnections)
    : gmap CableConnectionPoint AsmEntityCableConnections :=
  match map !! key with
  | None => map
  | Some entityData =>
      let map := delete key map in
      foldl (fun map otherKey => dropCableKey key otherKey map) map (elements entityData)
  end.

(** [delete(entity)] *)
Definition delete (heap : Heap) (this : AssemblyContentImpl) (entity : EntityRef)
    : AssemblyContentImpl :=
  if negb (has this entity) then this
  else
    let this := setEntities (entities this ∖ {[ entity ]}) this in
    let pos := position (heap entity) in
    let this :=
      setByPosition (Map2D_delete (byPosition this) (Pos.x pos) (Pos.y pos) entity) this in
    let this :=
      setCircuitConnections (removeAllCircuitConnections entity (circuitConnections this))
        this in
    let this :=
      setCableConnections
        (removeAllCableConnections (EntityPoint entity) (cableConnections this)) this in
    match extraCableConnectionPoints this ≫= (.!! entity) with
    | Some extraPoints =>
        let this :=
          setCableConnections
            (foldl (fun map point => removeAllCableConnections point map)
                   (cableConnections this)
                   (PowerSwitchPoint entity <$> elements extraPoints)) this in
        setExtraCableConnectionPoints
          (base.delete entity <$> extraCableConnectionPoints this) this
    | None => this
    end.

(** [changePosition(entity, position)]; the entity's own [position] is
    written through the heap. *)
Definition changePosition (heap : Heap) (this : AssemblyContentImpl) (entity : EntityRef)
    (position : Pos.Position) : bool * Heap * AssemblyContentImpl :=
  if negb (has this entity) then (false, heap, this)
  else
    let pos := ProjectEntity.position (heap entity) in
    if bool_decide (Pos.x pos = Pos.x position) && bool_decide (Pos.y pos = Pos.y position)
    then (false, heap, this)
    else
      let byPosition := Map2D_delete (byPosition this) (Pos.x pos) (Pos.y pos) entity in
      let heap := <[entity := setPositionUnchecked position (heap entity)]> heap in
      let byPosition := Map2D_add byPosition (Pos.x position) (Pos.y position) entity in
      (true, heap, setByPosition byPosition this).

Definition getCircuitConnections (this : AssemblyContentImpl) (entity : EntityRef)
    : option AsmEntityCircuitConnections :=
  circuitConnections this !! entity.

(** [map.get(a)?.get(b)] on the double index *)
Definition getIn (a b : EntityRef) (map : gmap EntityRef AsmEntityCircuitConnections)
    : option (gset AsmCircuitConnection) :=
  map !! a ≫= (.!! b).

(** [map.get(a).set(b, connections)] *)
Definition setIn (a b : EntityRef) (connections : gset AsmCircuitConnection)
    (map : gmap EntityRef AsmEntityCircuitConnections)
    : gmap EntityRef AsmEntityCircuitConnections :=
  <[a := <[b := connections]> (default ∅ (map !! a))]> map.

(** [set.add(c)] on the set at [a][b] when [known] says the code holds one,
    [connections.set(b, newLuaSet(c))] otherwise.  The set is read where it
    lives, so that a write made through another name of the same table (a
    connection of an entity to itself) is seen. *)
Definition addIn (a b : EntityRef) (known : option (gset AsmCircuitConnection))
    (c : AsmCircuitConnection) (map : gmap EntityRef AsmEntityCircuitConnections) :=
  match known with
  | Some _ => setIn a b (default ∅ (getIn a b map) ∪ {[ c ]}) map
  | None => setIn a b {[ c ]} map
  end.

(** [set.delete(c)] on the set at [a][b], then the removal of what that
    leaves empty: the set from [map.get(a)], and that from [map].  The
    code's set is keyed by the connection tables themselves; a connection
    is a record of its fields here, so [c] stands for the stored table with
    these fields.  The callers pass a table read from the store, and
    [addCircuitConnection] stores no two tables with the same fields
    between two entities, so for them the two readings agree. *)
Definition removeIn (a b : EntityRef) (c : AsmCircuitConnection)
    (map : gmap EntityRef AsmEntityCircuitConnections) :=
  match map !! a with
  | Some connections =>
      match connections !! b with
      | Some set =>
          let set := set ∖ {[ c ]} in
          if bool_decide (set = ∅) then
            let connections := base.delete b connections in
            if isEmpty connections then base.delete a map
            else <[a := connections]> map
          else <[a := <[b := set]> connections]> map
      | None => map
      end
  | None => map
  end.

Definition addCircuitConnection (this : AssemblyContentImpl)
    (circuitConnection : AsmCircuitConnection) : bool * AssemblyContentImpl :=
  let fromEntity := fromEntity circuitConnection in
  let toEntity := toEntity circuitConnection in
  if negb (has this fromEntity) || negb (has this toEntity) then (false, this)
  else
    let map := circuitConnections this in
    let fromConnections := map !! fromEntity in
    if match fromConnections ≫= (.!! toEntity) with
       | Some fromSet =>
           existsb (circuitConnectionEquals circuitConnection) (elements fromSet)
       | None => false
       end
    then (false, this)
    else
      let map :=
        match fromConnections with
        | None => <[fromEntity := ∅]> map
        | Some _ => map
        end in
      let map :=
        match map !! toEntity with
        | None => <[toEntity := ∅]> map
        | Some _ => map
        end in
      let fromSet := getIn fromEntity toEntity map in
      let toSet := getIn toEntity fromEntity map in
      let map := addIn fromEntity toEntity fromSet circuitConnection map in
      let map := addIn toEntity fromEntity toSet circuitConnection map in
      (true, setCircuitConnections map this).

Definition removeCircuitConnection (this : AssemblyContentImpl)
    (circuitConnection : AsmCircuitConnection) : AssemblyContentImpl :=
  let fromEntity := fromEntity circuitConnection in
  let toEntity := toEntity circuitConnection in
  let map := circuitConnections this in
  match map !! fromEntity, map !! toEntity with
  | Some _, Some _ =>
      let map := removeIn fromEntity toEntity circuitConnection map in
      let map := removeIn toEntity fromEntity circuitConnection map in
      setCircuitConnections map this
  | _, _ => this
  end.

(** [getConnectionPointKey(point, createIfAbsent)].  The key object kept for
    [(entity, connectionId)] is a point with these two fields (the one place
    that stores a key stores [point] under [point.entity] and
    [point.connectionId]), so the registry is the set of connection ids
    registered per entity, and the key of a registered point is the point. *)
Definition getConnectionPointKey (this : AssemblyContentImpl)
    (point : CableConnectionPoint) (createIfAbsent : bool)
    : option CableConnectionPoint * AssemblyContentImpl :=
  match point with
  | EntityPoint _ => (Some point, this)
  | PowerSwitchPoint entity connectionId =>
      let map := default ∅ (extraCableConnectionPoints this) in
      match map !! entity with
      | None =>
          if createIfAbsent then
            (Some point,
             setExtraCableConnectionPoints (Some (<[entity := {[ connectionId ]}]> map)) this)
          else (None, setExtraCableConnectionPoints (Some map) this)
      | Some thisEntity =>
          if bool_decide (connectionId ∈ thisEntity) then
            (Some point, setExtraCableConnectionPoints (Some map) this)
          else if createIfAbsent then
            (Some point,
             setExtraCableConnectionPoints
               (Some (<[entity := {[ connectionId ]} ∪ thisEntity]> map)) this)
          else (None, setExtraCableConnectionPoints (Some map) this)
      end
  end.

Definition getCableConnections (this : AssemblyContentImpl) (entity : CableConnectionPoint)
    : option AsmEntityCableConnections * AssemblyContentImpl :=
  let '(key, this) := getConnectionPointKey this entity false in
  (key ≫= (cableConnections this !!.), this).

(** [data.delete(other)] on the set at [key], and [map.delete(key)] when that
    leaves it empty. *)
Definition removeCableIn (key other : CableConnectionPoint)
    (map : gmap CableConnectionPoint AsmEntityCableConnections) :=
  match map !! key with
  | Some data =>
      let data := data ∖ {[ other ]} in
      if bool_decide (data = ∅) then base.delete key map else <[key := data]> map
  | None => map
  end.

Definition removeCableConnection (this : AssemblyContentImpl)
    (_point1 _point2 : CableConnectionPoint) : AssemblyContentImpl :=
  let entity1 := getEntityOfConnectionPoint _point1 in
  let entity2 := getEntityOfConnectionPoint _point2 in
  if bool_decide (entity1 = entity2) || negb (has this entity1) || negb (has this entity2)
  then this
  else
    let '(key1, this) := getConnectionPointKey this _point1 false in
    let '(key2, this) := getConnectionPointKey this _point2 false in
    match key1, key2 with
    | Some key1, Some key2 =>
        let map := removeCableIn key1 key2 (cableConnections this) in
        let map := removeCableIn key2 key1 map in
        setCableConnections map this
    | _, _ => this
    end.

(** [if (data && isPowerSwitchConnectionPoint(_point))
       this.removeCableConnection(next(data)[0], key)]:
    a power switch side holds one cable, the one it has is dropped first. *)
Definition replacePowerSwitchCable (this : AssemblyContentImpl)
    (_point key : CableConnectionPoint) : outcome AssemblyContentImpl :=
  match cableConnections this !! key with
  | Some data =>
      if isPowerSwitchConnectionPoint _point then
        match elements data with
        | first :: _ => mret (removeCableConnection this first key)
        | [] => Raised "attempt to index a nil value"
        end
      else mret this
  | None => mret this
  end.

(** [data.add(other)] on the set at [key], or a new set there. *)
Definition addCableIn (key other : CableConnectionPoint)
    (map : gmap CableConnectionPoint AsmEntityCableConnections) :=
  match map !! key with
  | Some data => <[key := data ∪ {[ other ]}]> map
  | None => <[key := {[ other ]}]> map
  end.

(** [if (data) { if (data.has(other)) return AlreadyExists
                   if (table_size(data) >= MaxCableConnections)
                     return MaxConnectionsReached }] *)
Definition checkCableData (data : option AsmEntityCableConnections)
    (other : CableConnectionPoint) : option CableAddResult :=
  match data with
  | Some data =>
      if bool_decide (other ∈ data) then Some AlreadyExists
      else if bool_decide (MaxCableConnections ≤ size data)%nat
      then Some MaxConnectionsReached
      else None
  | None => None
  end.

Definition addCableConnection (this : AssemblyContentImpl)
    (_point1 _point2 : CableConnectionPoint) : outcome (CableAddResult * AssemblyContentImpl) :=
  let entity1 := getEntityOfConnectionPoint _point1 in
  let entity2 := getEntityOfConnectionPoint _point2 in
  if bool_decide (entity1 = entity2) then mret (Error, this)
  else if negb (has this entity1) || negb (has this entity2) then mret (Error, this)
  else
    let '(key1, this) := getConnectionPointKey this _point1 true in
    let '(key2, this) := getConnectionPointKey this _point2 true in
    match key1, key2 with
    | Some key1, Some key2 =>
        let data1 := cableConnections this !! key1 in
        let data2 := cableConnections this !! key2 in
        match checkCableData data1 key2 with
        | Some result => mret (result, this)
        | None =>
            match checkCableData data2 key1 with
            | Some result => mret (result, this)
            | None =>
                this ← replacePowerSwitchCable this _point1 key1;
                this ← replacePowerSwitchCable this _point2 key2;
                let map := addCableIn key1 key2 (cableConnections this) in
                let map := addCableIn key2 key1 map in
                mret (Added, setCableConnections map this)
            end
        end
    | _, _ => Raised "attempt to index a nil value"
    end.

End AssemblyContent.

(* ===================================================================== *)
(** ** src/project/project-updates.ts *)
(* ===================================================================== *)

Module EntityUpdateResult.
Inductive t : Type :=
  | Updated
  | NoChange
  | CannotRotate
  | CannotUpgradeChangedPair.
End EntityUpdateResult.

Module WireUpdateResult.
Inductive t : Type :=
  | Updated
  | NoChange
  | MaxConnectionsExceeded.
End WireUpdateResult.

Module StageMoveResult.
Inductive t : Type :=
  | Updated
  | NoChange
  | CannotMovePastLastStage
  | CannotMoveBeforeFirstStage
  | IntersectsAnotherEntity.
End StageMoveResult.

Module ProjectUpdates.
Import Util Diff ProjectEntity Connections AssemblyContent.

(** A call into the world adapter ([WorldEntityUpdates], and
    [forceFlipUnderground] of save-load on a rendered instance). *)
Inductive WorldCall : Type :=
  | deleteWorldEntities (entity : EntityRef)
  | makeSettingsRemnant (entity : EntityRef)
  | rebuildWorldEntityAtStage (entity : EntityRef) (stage : StageNumber)
  | refreshWorldEntityAtStage (entity : EntityRef) (stage : StageNumber)
  | resetUnderground (entity : EntityRef) (stage : StageNumber)
  | reviveSettingsRemnant (entity : EntityRef)
  | updateWireConnections (entity : EntityRef)
  (** [updateHighlights] is [None] when the caller leaves it out *)
  | updateWorldEntities (entity : EntityRef) (stage : StageNumber)
      (updateHighlights : option bool)
  | updateWorldEntitiesOnLastStageChanged (entity : EntityRef)
      (oldLastStage : option StageNumber)
  | updateAllHighlights (entity : EntityRef)
  | forceFlipUnderground (unit_number : Z).

(** The project as the updater sees it: the entity objects, the content
    store, and the calls made to the world adapter so far, oldest first. *)
Record Project : Type := mkProject {
  heap : Heap;
  content : AssemblyContentImpl;
  calls : list WorldCall
}.

(** A step of the updater: it reads and writes the project, and returns or
    raises. *)
Definition Update (A : Type) : Type := Project → outcome (A * Project).

#[export] Instance Update_ret : MRet Update := fun A a project => Returned (a, project).
#[export] Instance Update_bind : MBind Update := fun A B k m project =>
  match m project with
  | Returned (a, project) => k a project
  | Raised msg => Raised msg
  end.

(** Read an entity's fields. *)
Definition read (entity : EntityRef) : Update ProjectEntity :=
  fun project => Returned (heap project entity, project).
(** Write an entity's fields. *)
Definition write (entity : EntityRef) (f : ProjectEntity → ProjectEntity) : Update unit :=
  fun project =>
    Returned (tt, {| heap := <[entity := f (heap project entity)]> (heap project);
                     content := content project; calls := calls project |}).
(** Call a method of an entity that may raise and returns a result. *)
Definition invoke {A} (entity : EntityRef) (f : ProjectEntity → outcome (ProjectEntity * A))
    : Update A :=
  fun project =>
    match f (heap project entity) with
    | Returned (this, a) =>
        Returned (a, {| heap := <[entity := this]> (heap project);
                        content := content project; calls := calls project |})
    | Raised msg => Raised msg
    end.
(** Call the world adapter. *)
Definition world (c : WorldCall) : Update unit :=
  fun project =>
    Returned (tt, {| heap := heap project; content := content project;
                     calls := calls project ++ [c] |}).
Definition getContent : Update AssemblyContentImpl :=
  fun project => Returned (content project, project).
Definition getHeap : Update Heap := fun project => Returned (heap project, project).
Definition setContent (c : AssemblyContentImpl) : Update unit :=
  fun project =>
    Returned (tt, {| heap := heap project; content := c; calls := calls project |}).
Definition error {A} (msg : string) : Update A := fun _ => Raised msg.

(** [if (c) body] *)
Definition when (c : bool) (body : Update unit) : Update unit :=
  if c then body else mret tt.

(** What the updater imports and the sources do not hold: the prototype
    tables, [areUpgradeableTypes] (entity-prototype-info), [canBeAnyDirection]
    and [saveEntity] (save-load), [findUndergroundPair] (underground-belt). *)
Record Imports : Type := mkImports {
  info : EntityPrototypeInfo;
  areUpgradeableTypes : string → string → bool;
  canBeAnyDirection : Factorio.LuaEntity → bool;
  saveEntity : Factorio.LuaEntity → option Entity → option Entity;
  findUndergroundPair : Heap → AssemblyContentImpl → EntityRef → StageNumber → option EntityRef
}.

(** Lua's truth of a value that may be nil. *)
Definition truthy (v : option value) : bool :=
  match v with
  | None | Some (VBool false) => false
  | Some _ => true
  end.

(** [firstValue.type] of an underground belt or loader *)
Definition typeOf (this : ProjectEntity) : option string :=
  match firstValue this !! "type" with
  | Some (VStr t) => Some t
  | _ => None
  end.

Section Updates.
Variable imports : Imports.

Definition shouldMakeSettingsRemnant (entity : EntityRef) : Update bool :=
  this ← read entity;
  if hasStageDiff this then mret true
  else
    content ← getContent;
    match getCircuitConnections content entity with
    | None => mret false
    | Some connections =>
        let stage := firstStage this in
        heap ← getHeap;
        (* has a connection at the first stage, but not one in the world *)
        mret (existsb (fun otherEntity =>
                         bool_decide (getWorldEntity (heap otherEntity) stage = None))
                      (map_to_list connections).*1)
    end.

Definition deleteEntityOrCreateSettingsRemnant (entity : EntityRef) : Update unit :=
  should ← shouldMakeSettingsRemnant entity;
  if (should : bool) then
    _ ← write entity (setIsSettingsRemnant true);
    world (makeSettingsRemnant entity)
  else
    content ← getContent;
    heap ← getHeap;
    _ ← setContent (AssemblyContent.delete heap content entity);
    world (deleteWorldEntities entity).

Definition forceDeleteEntity (entity : EntityRef) : Update unit :=
  content ← getContent;
  heap ← getHeap;
  _ ← setContent (AssemblyContent.delete heap content entity);
  world (deleteWorldEntities entity).

Definition applyValueFromWorld (stage : StageNumber) (entity : EntityRef)
    (entitySource : Factorio.LuaEntity) (knownValue : option Entity) : Update bool :=
  match saveEntity imports entitySource knownValue with
  | None => mret false
  | Some newValue => invoke entity (fun this => adjustValueAtStage this stage newValue)
  end.

Definition checkUpgradeType (existing : EntityRef) (upgradeType : string) : Update unit :=
  this ← read existing;
  if negb (areUpgradeableTypes imports (default "" (nameOf (firstValue this))) upgradeType)
  then error "incompatible upgrade"
  else mret tt.

Definition updatePair (entity1 : EntityRef) (entity1Stage : StageNumber)
    (entity2 : EntityRef) (entity2Stage : StageNumber) : Update unit :=
  (* delay updating of highlights, since both pairs might need to be rotated
     together to avoid errors *)
  _ ← world (updateWorldEntities entity1 entity1Stage (Some false));
  _ ← world (updateWorldEntities entity2 entity2Stage (Some false));
  _ ← world (updateAllHighlights entity1);
  world (updateAllHighlights entity2).

Definition handleUndergroundFlippedBack (entity : EntityRef)
    (worldEntity : Factorio.LuaEntity) (stage : StageNumber) (targetDirection : Z)
    (pair : option EntityRef) : Update EntityUpdateResult.t :=
  match pair with
  | None =>
      (* allow *)
      _ ← world (updateWorldEntities entity stage None);
      mret EntityUpdateResult.NoChange
  | Some partner =>
      this ← read entity;
      other ← read partner;
      if bool_decide (direction other = Some targetDirection) then
        (* pair is already correct direction *)
        _ ← updatePair entity (firstStage this) partner (firstStage other);
        mret EntityUpdateResult.NoChange
      else
        (* this wasn't rotated, but pair was *)
        let rotateAllowed :=
          bool_decide (stage = firstStage this) || bool_decide (firstStage other = stage) in
        if negb rotateAllowed then
          _ ← world (forceFlipUnderground (Factorio.unit_number worldEntity));
          mret EntityUpdateResult.CannotRotate
        else
          (* rotate pair *)
          _ ← write partner (setDirection (Some (Factorio.direction worldEntity)));
          let oppositeType :=
            if bool_decide (Factorio.belt_to_ground_type worldEntity = "input")
            then "output" else "input" in
          _ ← write partner (setTypeProperty (Some oppositeType));
          this ← read entity;
          other ← read partner;
          _ ← updatePair entity (firstStage this) partner (firstStage other);
          mret EntityUpdateResult.Updated
  end.

Definition doUndergroundBeltUpdate (entity : EntityRef)
    (worldEntity : Factorio.LuaEntity) (pair : option EntityRef) (stage : StageNumber)
    (targetDirection : option Z) (targetUpgrade : string)
    : Update EntityUpdateResult.t :=
  this ← read entity;
  let rotated :=
    match targetDirection with
    | Some d => negb (bool_decide (Some d = direction this))
    | None => false
    end in
  let oldName := getNameAtStage this stage in
  let upgraded := negb (bool_decide (Some targetUpgrade = oldName)) in
  if negb rotated && negb upgraded then
    match targetDirection with
    | None => mret EntityUpdateResult.NoChange
    | Some targetDirection =>
        handleUndergroundFlippedBack entity worldEntity stage targetDirection pair
    end
  else
    heap0 ← getHeap;
    let isSelfOrPairFirstStage :=
      bool_decide (stage = firstStage this)
      || match pair with
         | Some partner => bool_decide (firstStage (heap0 partner) = stage)
         | None => false
         end in
    let rotateAllowed := isSelfOrPairFirstStage in
    if rotated && negb rotateAllowed then
      _ ← world (resetUnderground entity stage);
      mret EntityUpdateResult.CannotRotate
    else
      _ ← when rotated (
        _ ← write entity (setDirection targetDirection);
        this ← read entity;
        let oldType := typeOf this in
        let newType := if bool_decide (oldType = Some "input") then "output" else "input" in
        _ ← write entity (setTypeProperty (Some newType));
        match pair with
        | Some partner =>
            _ ← write partner (setDirection targetDirection);
            write partner (setTypeProperty oldType)
        | None => mret tt
        end);
      this ← read entity;
      heap1 ← getHeap;
      let applyStage := if isSelfOrPairFirstStage then firstStage this else stage in
      let pairApplyStage :=
        match pair with
        | Some partner =>
            if isSelfOrPairFirstStage then firstStage (heap1 partner) else stage
        | None => stage
        end in
      cannotUpgradeChangedPair ←
        (if upgraded then
           _ ← invoke entity (fun this => applyUpgradeAtStage this applyStage targetUpgrade);
           _ ← match pair with
               | Some partner =>
                   _ ← invoke partner
                         (fun this => applyUpgradeAtStage this pairApplyStage targetUpgrade);
                   mret tt
               | None => mret tt
               end;
           heap ← getHeap;
           content ← getContent;
           let newPair := findUndergroundPair imports heap content entity stage in
           let cannotUpgradeChangedPair := negb (bool_decide (newPair = pair)) in
           _ ← when cannotUpgradeChangedPair (
             _ ← invoke entity
                   (fun this => applyUpgradeAtStage this stage (default "" oldName));
             match pair with
             | Some partner =>
                 _ ← invoke partner
                       (fun this => applyUpgradeAtStage this pairApplyStage
                                      (default "" oldName));
                 mret tt
             | None => mret tt
             end);
           mret cannotUpgradeChangedPair
         else mret false);
      _ ← (if (cannotUpgradeChangedPair : bool) && negb rotated then
             _ ← world (refreshWorldEntityAtStage entity stage);
             match pair with
             | Some partner => world (refreshWorldEntityAtStage partner stage)
             | None => mret tt
             end
           else
             match pair with
             | None => world (updateWorldEntities entity applyStage None)
             | Some partner => updatePair entity applyStage partner pairApplyStage
             end);
      mret (if (cannotUpgradeChangedPair : bool)
            then EntityUpdateResult.CannotUpgradeChangedPair
            else EntityUpdateResult.Updated).

Definition handleUndergroundBeltUpdate (entity : EntityRef)
    (worldEntity : Factorio.LuaEntity) (stage : StageNumber)
    (targetDirection : option Z) (targetUpgrade : string)
    : Update EntityUpdateResult.t :=
  heap ← getHeap;
  content ← getContent;
  let pair := findUndergroundPair imports heap content entity stage in
  updateResult ← doUndergroundBeltUpdate entity worldEntity pair stage
                   targetDirection targetUpgrade;
  heap ← getHeap;
  content ← getContent;
  _ ← match getWorldEntity (heap entity) stage with
      | Some newWorldEntity =>
          match Factorio.neighbours newWorldEntity with
          | Some worldPair =>
              if match pair with
                 | None => true
                 | Some partner =>
                     negb (bool_decide
                             (Factorio.unit_number <$> getWorldEntity (heap partner) stage
                              = Factorio.id_unit_number worldPair))
                 end
              then
                (* this pair is not the expected pair, so doUndergroundBeltUpdate
                   didn't update it; this is an error state, just update
                   highlights *)
                match findCompatibleWithLuaEntity (info imports) heap content
                        worldPair None stage with
                | Some worldPairEntity => world (updateAllHighlights worldPairEntity)
                | None => mret tt
                end
              else mret tt
          | None => mret tt
          end
      | None => mret tt
      end;
  mret updateResult.

Definition handleUpdate (entity : EntityRef) (entitySource : Factorio.LuaEntity)
    (stage : StageNumber) (targetDirection : option Z) (targetUpgrade : option string)
    (getBpValue : bool) (knownBpValue : option Entity) : Update EntityUpdateResult.t :=
  this ← read entity;
  if isUndergroundBelt (info imports) this then
    handleUndergroundBeltUpdate entity entitySource stage targetDirection
      (default (default (Factorio.name entitySource) (knownBpValue ≫= nameOf))
               targetUpgrade)
  else
    let rotated :=
      match targetDirection with
      | Some d =>
          negb (bool_decide (Some d = direction this))
          && negb (canBeAnyDirection imports entitySource)
      | None => false
      end in
    let rotateAllowed := bool_decide (stage = firstStage this) in
    if rotated && negb rotateAllowed then
      _ ← world (refreshWorldEntityAtStage entity stage);
      mret EntityUpdateResult.CannotRotate
    else
      _ ← when rotated (
        _ ← write entity (setDirection targetDirection);
        let entityType := Factorio.type entitySource in
        if bool_decide (entityType = "loader") || bool_decide (entityType = "loader-1x1")
        then write entity (setTypeProperty (Some (Factorio.loader_type entitySource)))
        else if bool_decide (entityType = "inserter") then
          (* also update pickup and drop positions; the source gives absolute
             positions, the entity keeps them relative *)
          this ← read entity;
          _ ← when (truthy (firstValue this !! "pickup_position"))
                (write entity
                   (setPickupPosition (Pos.minus (Factorio.pickup_position entitySource)
                                                 (Factorio.position entitySource))));
          this ← read entity;
          when (truthy (firstValue this !! "drop_position"))
            (write entity
               (setDropPosition (Pos.minus (Factorio.drop_position entitySource)
                                           (Factorio.position entitySource))))
        else mret tt);
      applied ← (if getBpValue
                 then applyValueFromWorld stage entity entitySource knownBpValue
                 else mret false);
      hasDiff ←
        (if (applied : bool) then mret true
         else
           match targetUpgrade with
           | Some targetUpgrade =>
               _ ← checkUpgradeType entity targetUpgrade;
               invoke entity (fun this => applyUpgradeAtStage this stage targetUpgrade)
           | None => mret false
           end);
      if rotated || (hasDiff : bool) then
        _ ← world (updateWorldEntities entity stage None);
        mret EntityUpdateResult.Updated
      else mret EntityUpdateResult.NoChange.

Definition tryUpdateEntityFromWorld (entity : EntityRef) (stage : StageNumber)
    (knownValue : option Entity) : Update EntityUpdateResult.t :=
  this ← read entity;
  match getWorldEntity this stage with
  | None => mret EntityUpdateResult.NoChange
  | Some entitySource =>
      handleUpdate entity entitySource stage (Some (Factorio.direction entitySource))
        None true knownValue
  end.

Definition tryRotateEntityFromWorld (entity : EntityRef) (stage : StageNumber)
    : Update EntityUpdateResult.t :=
  this ← read entity;
  match getWorldEntity this stage with
  | None => mret EntityUpdateResult.NoChange
  | Some entitySource =>
      handleUpdate entity entitySource stage (Some (Factorio.direction entitySource))
        None false None
  end.

Definition tryUpgradeEntityFromWorld (entity : EntityRef) (stage : StageNumber)
    : Update EntityUpdateResult.t :=
  this ← read entity;
  match getWorldEntity this stage with
  | None => mret EntityUpdateResult.NoChange
  | Some entitySource =>
      let overrideUpgradeTarget := Factorio.upgrade_target entitySource in
      handleUpdate entity entitySource stage (Factorio.upgrade_direction entitySource)
        overrideUpgradeTarget false None
  end.

(** Despite its name, true when the move is allowed. *)
Definition firstStageChangeWillIntersect (entity : EntityRef) (newStage : StageNumber)
    : Update bool :=
  this ← read entity;
  (* moving up is ok *)
  if bool_decide (newStage >= firstStage this) then mret true
  else
    (* check moving down *)
    heap ← getHeap;
    content ← getContent;
    let foundBelow :=
      findCompatibleWithExistingEntity (info imports) heap content entity newStage in
    mret (bool_decide (foundBelow = None) || bool_decide (foundBelow = Some entity)).

Definition lastStageChangeWillIntersect (entity : EntityRef) (newStage : option StageNumber)
    : Update bool :=
  this ← read entity;
  match lastStage this with
  | None => mret true
  | Some lastStage =>
      (* moving down is ok *)
      if match newStage with Some n => bool_decide (n < lastStage) | None => false end
      then mret true
      else
        (* check moving up *)
        heap ← getHeap;
        content ← getContent;
        match findCompatibleWithExistingEntity (info imports) heap content entity
                (lastStage + 1) with
        | None => mret true
        | Some foundAbove =>
            mret match newStage with
                 | Some n => bool_decide (firstStage (heap foundAbove) > n)
                 | None => false
                 end
        end
  end.

Definition checkCanSetFirstStage (entity : EntityRef) (stage : StageNumber)
    : Update StageMoveResult.t :=
  this ← read entity;
  if isSettingsRemnant this || bool_decide (firstStage this = stage)
  then mret StageMoveResult.NoChange
  else if match lastStage this with
          | Some l => bool_decide (stage > l)
          | None => false
          end
  then mret StageMoveResult.CannotMovePastLastStage
  else
    ok ← firstStageChangeWillIntersect entity stage;
    if negb ok then mret StageMoveResult.IntersectsAnotherEntity
    else mret StageMoveResult.Updated.

Definition trySetFirstStage (entity : EntityRef) (stage : StageNumber)
    : Update StageMoveResult.t :=
  result ← checkCanSetFirstStage entity stage;
  _ ← match result with
      | StageMoveResult.Updated =>
          this ← read entity;
          let stageToUpdate := Z.min (firstStage this) stage in
          _ ← invoke entity (fun this => this' ← setFirstStageUnchecked this stage;
                                         mret (this', tt));
          world (updateWorldEntities entity stageToUpdate None)
      | _ => mret tt
      end;
  mret result.

Definition tryReviveSettingsRemnant (entity : EntityRef) (stage : StageNumber)
    : Update StageMoveResult.t :=
  this ← read entity;
  if negb (isSettingsRemnant this) then mret StageMoveResult.NoChange
  else
    result ← checkCanSetFirstStage entity stage;
    _ ← match result with
        | StageMoveResult.Updated | StageMoveResult.NoChange =>
            _ ← invoke entity (fun this => this' ← setFirstStageUnchecked this stage;
                                           mret (this', tt));
            _ ← write entity (setIsSettingsRemnant false);
            world (reviveSettingsRemnant entity)
        | _ => mret tt
        end;
    mret result.

Definition checkSetLastStage (entity : EntityRef) (stage : option StageNumber)
    : Update StageMoveResult.t :=
  this ← read entity;
  if isSettingsRemnant this then mret StageMoveResult.NoChange
  else
    let oldLastStage := lastStage this in
    if bool_decide (oldLastStage = stage) then mret StageMoveResult.NoChange
    (* check firstStage <= lastStage *)
    else if match stage with
            | Some s => bool_decide (s < firstStage this)
            | None => false
            end
    then mret StageMoveResult.CannotMoveBeforeFirstStage
    else
      ok ← lastStageChangeWillIntersect entity stage;
      if negb ok then mret StageMoveResult.IntersectsAnotherEntity
      else mret StageMoveResult.Updated.

Definition trySetLastStage (entity : EntityRef) (stage : option StageNumber)
    : Update StageMoveResult.t :=
  this ← read entity;
  if isSettingsRemnant this then mret StageMoveResult.NoChange
  else
    result ← checkSetLastStage entity stage;
    _ ← match result with
        | StageMoveResult.Updated =>
            this ← read entity;
            let oldLastStage := lastStage this in
            _ ← write entity (setLastStageUnchecked stage);
            world (updateWorldEntitiesOnLastStageChanged entity oldLastStage)
        | _ => mret tt
        end;
    mret result.

End Updates.

End ProjectUpdates.

(* ===================================================================== *)
(** ** src/entity/diff.ts, second part: iteration and rendered instances *)
(* ===================================================================== *)

Module AssemblyEntityViews.
Import Util Diff AssemblyEntity.

(** [applyDiffToEntity(value, diff)] where [value] may be nil, as in
    [iterateValues] started below the base layer: the loop over [diff]
    writes to [value], which raises on nil as soon as [diff] has a key. *)
Definition applyDiffToValue (value : option Entity) (diff : LayerDiff)
    : outcome (option Entity) :=
  match value with
  | Some v => mret (Some (applyDiffToEntity v diff))
  | None => if isEmpty diff then mret None else Raised "attempt to index a nil value"
  end.

(** The iterator function [next] of [iterateValues(start, end)].  It closes
    over the table [value] and updates it in place; the table is passed
    along here, and a result carries what it holds when it is yielded. *)
Definition iterateValues_next (start end_ : LayerNumber) (layerValues : LayerChanges)
    (value : option Entity) (prevLayer : option LayerNumber)
    : outcome (option (LayerNumber * option Entity)) :=
  match prevLayer with
  | None => mret (Some (start, value))
  | Some prevLayer =>
      let nextLayer := prevLayer + 1 in
      if bool_decide (nextLayer > end_) then mret None
      else
        value ← match layerValues !! nextLayer with
                | Some diff => applyDiffToValue value diff
                | None => mret value
                end;
        mret (Some (nextLayer, value))
  end.

(** The generic [for] over [next]: it calls [next] with the layer it got
    last, nil at first, until [next] returns nothing; the result is what
    the loop body is handed, in order.  [None] when [fuel] calls were not
    enough to reach the end. *)
Fixpoint iterateValues_for (fuel : nat) (start end_ : LayerNumber)
    (layerValues : LayerChanges) (value : option Entity) (control : option LayerNumber)
    : option (outcome (list (LayerNumber * option Entity))) :=
  match fuel with
  | O => None
  | S fuel =>
      match iterateValues_next start end_ layerValues value control with
      | Raised msg => Some (Raised msg)
      | Returned None => Some (Returned [])
      | Returned (Some (layer, value)) =>
          match iterateValues_for fuel start end_ layerValues value (Some layer) with
          | Some (Returned rest) => Some (Returned ((layer, value) :: rest))
          | other => other
          end
      end
  end.

(** [for (const [layer, value] of entity.iterateValues(start, end))] *)
Definition iterateValues (fuel : nat) (this : AssemblyEntityImpl)
    (start end_ : LayerNumber) : option (outcome (list (LayerNumber * option Entity))) :=
  match getValueAtLayer this start with
  | Raised msg => Some (Raised msg)
  | Returned value =>
      iterateValues_for fuel start end_ (layerChanges this) value None
  end.

(** [existing !== entity] on two handles: they are the same when they name
    the same instance of the game. *)
Definition sameInstance (existing : AnyWorldEntity) (entity : option AnyWorldEntity) : bool :=
  match entity with
  | Some entity => bool_decide (Factorio.unit_number existing = Factorio.unit_number entity)
  | None => false
  end.

(** [worldEntities[type] = byType], dropped when [byType] is empty. *)
Definition storeByType (type : string) (byType : gmap Z AnyWorldEntity)
    (this : AssemblyEntityImpl) : AssemblyEntityImpl :=
  setWorldEntities
    (if isEmpty byType then delete type (worldEntities this)
     else <[type := byType]> (worldEntities this)) this.

(** [existing.destroy()] as the entity sees it: the instance is no longer
    valid, through every handle of it.  A handle carries its validity
    here, so the handles of the instance that this entity holds, at
    whatever layer and type, are marked; those held elsewhere are the
    caller's to mark, for whom the instance is listed. *)
Definition invalidated (handle : AnyWorldEntity) : AnyWorldEntity :=
  {| Factorio.unit_number := Factorio.unit_number handle;
     Factorio.valid := false;
     Factorio.name := Factorio.name handle;
     Factorio.type := Factorio.type handle;
     Factorio.position := Factorio.position handle;
     Factorio.direction := Factorio.direction handle;
     Factorio.belt_to_ground_type := Factorio.belt_to_ground_type handle;
     Factorio.loader_type := Factorio.loader_type handle;
     Factorio.pickup_position := Factorio.pickup_position handle;
     Factorio.drop_position := Factorio.drop_position handle;
     Factorio.upgrade_target := Factorio.upgrade_target handle;
     Factorio.upgrade_direction := Factorio.upgrade_direction handle;
     Factorio.neighbours := Factorio.neighbours handle |}.
Definition destroy (instance : AnyWorldEntity)
    (tables : gmap string (gmap Z AnyWorldEntity)) : gmap string (gmap Z AnyWorldEntity) :=
  (fun byType : gmap Z AnyWorldEntity =>
     (fun handle => if sameInstance handle (Some instance) then invalidated handle
                    else handle) <$> byType)
  <$> tables.

(** [replaceWorldEntity(layer, entity, type)]; the second component lists the
    instances it destroys. *)
Definition replaceWorldEntity (this : AssemblyEntityImpl) (layer : LayerNumber)
    (entity : option AnyWorldEntity) (type : string)
    : AssemblyEntityImpl * list AnyWorldEntity :=
  let byType := default ∅ (worldEntities this !! type) in
  let '(this, destroyed) :=
    match byType !! layer with
    | Some existing =>
        if Factorio.valid existing && negb (sameInstance existing entity)
        then (setWorldEntities (destroy existing (worldEntities this)) this, [existing])
        else (this, [])
    | None => (this, [])
    end in
  let byType := default ∅ (worldEntities this !! type) in
  let byType := StageTable.set layer entity byType in
  (storeByType type byType this, destroyed).

(** The loop of [hasAnyWorldEntity]: stop at the first valid instance,
    drop the stale handles met before it. *)
Fixpoint pruneUntilValid (entries : list (Z * AnyWorldEntity))
    (byType : gmap Z AnyWorldEntity) : bool * gmap Z AnyWorldEntity :=
  match entries with
  | [] => (false, byType)
  | (key, entity) :: rest =>
      if Factorio.valid entity then (true, byType)
      else pruneUntilValid rest (StageTable.set key None byType)
  end.

Definition hasAnyWorldEntity (this : AssemblyEntityImpl) (type : string)
    : bool * AssemblyEntityImpl :=
  match worldEntities this !! type with
  | None => (false, this)
  | Some byType =>
      let '(found, byType) := pruneUntilValid (StageTable.pairs byType) byType in
      if found then
        (true, setWorldEntities (<[type := byType]> (worldEntities this)) this)
      else (false, storeByType type byType this)
  end.


End AssemblyEntityViews.

(* ===================================================================== *)
(** ** src/project/project-actions.ts *)
(* ===================================================================== *)

Module ProjectActions.
Import Util Diff ProjectEntity Connections AssemblyContent ProjectUpdates.

Section Actions.
Variable imports : Imports.

(** [onEntityDeleted(entity, stage, _byPlayer)] *)
Definition onEntityDeleted (entity : Factorio.EntityIdentification) (stage : StageNumber)
    : Update unit :=
  heap ← getHeap;
  content ← getContent;
  match findCompatibleWithLuaEntity (info imports) heap content entity None stage with
  | None => mret tt
  | Some projectEntity =>
      this ← read projectEntity;
      let firstStage := firstStage this in
      if negb (bool_decide (firstStage = stage)) then
        (* else: stage > existingStage; bug, ignore *)
        when (bool_decide (firstStage < stage))
          (world (rebuildWorldEntityAtStage projectEntity stage))
      else deleteEntityOrCreateSettingsRemnant projectEntity
  end.

End Actions.

End ProjectActions.

(* ===================================================================== *)
(** ** src/lib/geometry/position.ts, second part: rotation *)
(* ===================================================================== *)

Module PosRotation.
Import Pos.

(** [defines.direction]: the four directions a position is rotated by. *)
Definition north : Z := 0.
Definition east : Z := 2.
Definition south : Z := 4.
Definition west : Z := 6.

(** [rotateAboutOrigin(pos1, direction)]; down is positive y, right is
    positive x. *)
Definition rotateAboutOrigin (pos1 : Position) (direction : option Z) : outcome Position :=
  if bool_decide (direction = None) || bool_decide (direction = Some north)
  then Returned (from pos1)
  else if bool_decide (direction = Some south) then Returned (Pos (- x pos1) (- y pos1))
  else if bool_decide (direction = Some west) then Returned (Pos (y pos1) (- x pos1))
  else if bool_decide (direction = Some east) then Returned (Pos (- y pos1) (x pos1))
  else Raised "invalid direction".

End PosRotation.

(* ===================================================================== *)
(** ** src/assembly/world-register.ts *)
(* ===================================================================== *)

Module WorldRegister.
Import Util.

(** A map position whose coordinates may be fractions, and the three
    functions of position.ts that world-register.ts uses on it.  [floor]
    and [ceil] give whole coordinates. *)
Record MapPosition : Type := mkMapPosition { x : Q; y : Q }.

Definition div (pos1 : MapPosition) (factor : Q) : MapPosition :=
  mkMapPosition (x pos1 / factor)%Q (y pos1 / factor)%Q.
Definition floor (pos1 : MapPosition) : Pos.Position :=
  Pos.Pos (Qfloor (x pos1)) (Qfloor (y pos1)).
Definition ceil (pos1 : MapPosition) : Pos.Position :=
  Pos.Pos (Qceiling (x pos1)) (Qceiling (y pos1)).

Abbreviation SurfaceIndex := Z.

(** What is read of a [LuaSurface] and of a [LayerPosition]. *)
Record LuaSurface : Type := mkSurface { valid : bool; index : SurfaceIndex }.
Record LayerPosition : Type := mkLayer {
  surface : LuaSurface;
  left_top : MapPosition;
  right_bottom : MapPosition
}.

Abbreviation LayersByChunk := (gmap Z (gmap Z LayerPosition)).

(** [global.inWorldLayers] *)
Abbreviation InWorldLayers := (gmap SurfaceIndex LayersByChunk).

(** The handlers of [on_init], [on_surface_created] and
    [on_pre_surface_deleted]. *)
Definition on_init (surfaces : list LuaSurface) : InWorldLayers :=
  foldl (fun inWorldLayers surface => <[index surface := ∅]> inWorldLayers) ∅ surfaces.
Definition on_surface_created (surface_index : SurfaceIndex) (inWorldLayers : InWorldLayers)
    : InWorldLayers :=
  <[surface_index := ∅]> inWorldLayers.
Definition on_pre_surface_deleted (surface_index : SurfaceIndex)
    (inWorldLayers : InWorldLayers) : InWorldLayers :=
  delete surface_index inWorldLayers.

(** [$range(from, to)]: the whole numbers from [from] to [to], both
    included. *)
Definition range (from to : Z) : list Z := seqZ from (to - from + 1).

(** The chunks a layer lies on: columns and rows. *)
Definition chunkColumns (layer : LayerPosition) : list Z :=
  let topLeft := floor (div (left_top layer) 32) in
  let bottomRight := ceil (div (right_bottom layer) 32) in
  range (Pos.x topLeft) (Pos.x bottomRight - 1).
Definition chunkRows (layer : LayerPosition) : list Z :=
  let topLeft := floor (div (left_top layer) 32) in
  let bottomRight := ceil (div (right_bottom layer) 32) in
  range (Pos.y topLeft) (Pos.y bottomRight - 1).

(** A loop over [layersByChunk], which is [global.inWorldLayers[index]]:
    what the loop writes to it is written to the global table.  Indexing
    it when it is nil raises, which takes a first round of the loop. *)
Definition onLayersByChunk (surface_index : SurfaceIndex) (columns : list Z)
    (loop : LayersByChunk → LayersByChunk) (inWorldLayers : InWorldLayers)
    : outcome InWorldLayers :=
  match inWorldLayers !! surface_index with
  | Some layersByChunk => Returned (<[surface_index := loop layersByChunk]> inWorldLayers)
  | None =>
      match columns with
      | [] => Returned inWorldLayers
      | _ => Raised "attempt to index a nil value"
      end
  end.

(** [addLayer(layer)] *)
Definition addLayer (layer : LayerPosition) (inWorldLayers : InWorldLayers)
    : outcome InWorldLayers :=
  let surface := surface layer in
  if negb (valid surface) then Returned inWorldLayers
  else
    onLayersByChunk (index surface) (chunkColumns layer)
      (fun layersByChunk =>
         foldl (fun layersByChunk x =>
                  let byX := default ∅ (layersByChunk !! x) in
                  <[x := foldl (fun byX y => <[y := layer]> byX) byX (chunkRows layer)]>
                    layersByChunk)
               layersByChunk (chunkColumns layer))
      inWorldLayers.

(** [removeLayer(layer)] *)
Definition removeLayer (layer : LayerPosition) (inWorldLayers : InWorldLayers)
    : outcome InWorldLayers :=
  let surface := surface layer in
  if negb (valid surface) then Returned inWorldLayers
  else
    onLayersByChunk (index surface) (chunkColumns layer)
      (fun layersByChunk =>
         foldl (fun layersByChunk x =>
                  match layersByChunk !! x with
                  | None => layersByChunk
                  | Some byX =>
                      let byX := foldl (fun byX y => delete y byX) byX (chunkRows layer) in
                      if isEmpty byX then delete x layersByChunk
                      else <[x := byX]> layersByChunk
                  end)
               layersByChunk (chunkColumns layer))
      inWorldLayers.

(** [for (const layer of layers) f(layer)] *)
Fixpoint forEachLayer (f : LayerPosition → InWorldLayers → outcome InWorldLayers)
    (layers : list LayerPosition) (inWorldLayers : InWorldLayers) : outcome InWorldLayers :=
  match layers with
  | [] => Returned inWorldLayers
  | layer :: rest => f layer inWorldLayers ≫= forEachLayer f rest
  end.

(** [registerAssembly(assembly)] and [deleteAssembly(assembly)], given
    [assembly.layers] *)
Definition registerAssembly (layers : list LayerPosition) :=
  forEachLayer addLayer layers.
Definition deleteAssembly (layers : list LayerPosition) :=
  forEachLayer removeLayer layers.

(** [getLayerAtPosition(surface, position)] *)
Definition getLayerAtPosition (inWorldLayers : InWorldLayers) (surface : LuaSurface)
    (position : MapPosition) : option LayerPosition :=
  match inWorldLayers !! index surface with
  | None => None
  | Some bySurface =>
      match bySurface !! Qfloor (x position / 32)%Q with
      | None => None
      | Some byX => byX !! Qfloor (y position / 32)%Q
      end
  end.

End WorldRegister.

(* ===================================================================== *)
(** ** src/assembly/UserAssembly.ts *)
(* ===================================================================== *)

Module UserAssembly.

Abbreviation StageRef := positive.
Abbreviation SurfaceIndex := Z.
Abbreviation AssemblyId := Z.
Abbreviation StageNumber := Z.

(** The fields of a [StageImpl]; [name] is what [name.get()] gives. *)
Module Stage.
Record t : Type := mkStage {
  name : string;
  valid : bool;
  surfaceIndex : SurfaceIndex;
  stageNumber : StageNumber
}.
Definition withStageNumber (n : StageNumber) (this : t) : t :=
  {| name := name this; valid := valid this; surfaceIndex := surfaceIndex this;
     stageNumber := n |}.
Definition withValid (b : bool) (this : t) : t :=
  {| name := name this; valid := b; surfaceIndex := surfaceIndex this;
     stageNumber := stageNumber this |}.
End Stage.

#[export] Instance Stage_inhabited : Inhabited Stage.t :=
  populate (Stage.mkStage "" false 0 0).

(** A call out of the file: into the game, into surfaces.ts, into the
    content store, and the raising of an event (to the local listeners
    first, then to the global ones). *)
Inductive Call : Type :=
  | prepareArea (surface : SurfaceIndex)
  | delete_surface (surface : SurfaceIndex)
  | content_insertStage (index : StageNumber)
  | content_deleteStage (index : StageNumber)
  | raiseEvent (type : string) (stage : option StageRef)
  | localEvents_closeAll.

(** One assembly, [this], with the stage objects and the globals of the
    file: [id], [valid] and [stages] are the assembly's fields, [objects]
    holds the stage objects by reference, [assemblies] is the set of keys
    of [global.assemblies]. *)
Record State : Type := mkState {
  id : AssemblyId;
  valid : bool;
  stages : list StageRef;
  objects : gmap StageRef Stage.t;
  surfaceIndexToStage : gmap SurfaceIndex StageRef;
  assemblies : gset AssemblyId;
  calls : list Call
}.

Definition setValid (b : bool) (st : State) : State :=
  {| id := id st; valid := b; stages := stages st; objects := objects st;
     surfaceIndexToStage := surfaceIndexToStage st; assemblies := assemblies st;
     calls := calls st |}.
Definition setStages (l : list StageRef) (st : State) : State :=
  {| id := id st; valid := valid st; stages := l; objects := objects st;
     surfaceIndexToStage := surfaceIndexToStage st; assemblies := assemblies st;
     calls := calls st |}.
Definition setObjects (o : gmap StageRef Stage.t) (st : State) : State :=
  {| id := id st; valid := valid st; stages := stages st; objects := o;
     surfaceIndexToStage := surfaceIndexToStage st; assemblies := assemblies st;
     calls := calls st |}.
Definition setSurfaceIndexToStage (m : gmap SurfaceIndex StageRef) (st : State) : State :=
  {| id := id st; valid := valid st; stages := stages st; objects := objects st;
     surfaceIndexToStage := m; assemblies := assemblies st; calls := calls st |}.
Definition setAssemblies (s : gset AssemblyId) (st : State) : State :=
  {| id := id st; valid := valid st; stages := stages st; objects := objects st;
     surfaceIndexToStage := surfaceIndexToStage st; assemblies := s; calls := calls st |}.
Definition call (c : Call) (st : State) : State :=
  {| id := id st; valid := valid st; stages := stages st; objects := objects st;
     surfaceIndexToStage := surfaceIndexToStage st; assemblies := assemblies st;
     calls := calls st ++ [c] |}.

(** [this.stages[stageNumber]], nil outside [1..#stages]. *)
Definition getStage (st : State) (stageNumber : StageNumber) : option StageRef :=
  if bool_decide (1 ≤ stageNumber) then stages st !! Z.to_nat (stageNumber - 1) else None.

Definition maxStage (st : State) : Z := Z.of_nat (length (stages st)).

(** [getStageName(stageNumber)] *)
Definition getStageName (st : State) (stageNumber : StageNumber) : outcome string :=
  match getStage st stageNumber with
  | Some stage => Returned (Stage.name (objects st !!! stage))
  | None => Raised "attempt to index a nil value"
  end.

(** [getStageAtSurface(surfaceIndex)] *)
Definition getStageAtSurface (st : State) (surfaceIndex : SurfaceIndex) : option StageRef :=
  surfaceIndexToStage st !! surfaceIndex.

Section WithGame.
(** How the runtime writes a number in a string, and which surfaces the
    game holds valid. *)
Variable tostring : Z → string.
Variable surfaceValid : SurfaceIndex → bool.

(** The loop of [getNewStageName], from round [i] on; [None] when the
    rounds given do not suffice. *)
Fixpoint getNewStageName_loop (rounds : nat) (st : State) (i : Z) (subName : string)
    : option string :=
  match rounds with
  | O => None
  | S rounds =>
      let name := "<New stage>" +:+ subName in
      if existsb (fun stage => bool_decide (Stage.name (objects st !!! stage) = name))
           (stages st)
      then getNewStageName_loop rounds st (i + 1) (" (" +:+ tostring i +:+ ")")
      else Some name
  end.

Definition getNewStageName (rounds : nat) (st : State) : option string :=
  getNewStageName_loop rounds st 1 "".

(** [StageImpl.create(assembly, stageNumber, name)], where [surface] is
    the surface that [createStageSurface()] gave; the new object is
    [stage]. *)
Definition StageImpl_create (surface : SurfaceIndex) (stageNumber : StageNumber)
    (name : string) (st : State) : StageRef * State :=
  let st := call (prepareArea surface) st in
  let stage := fresh (dom (objects st)) in
  let st :=
    setObjects (<[stage := Stage.mkStage name true surface stageNumber]> (objects st)) st in
  let st :=
    if bool_decide (id st ≠ 0)
    then setSurfaceIndexToStage (<[surface := stage]> (surfaceIndexToStage st)) st
    else st in
  (stage, st).

(** [for (const i of $range(from, to)) this.stages[i].stageNumber = i] *)
Definition renumber (from to : Z) (st : State) : outcome State :=
  foldl (fun run i =>
           st ← run;
           match getStage st i with
           | Some stage =>
               Returned (setObjects (<[stage := Stage.withStageNumber i (objects st !!! stage)]>
                                       (objects st)) st)
           | None => Raised "attempt to index a nil value"
           end)
        (Returned st) (seqZ from (to - from + 1)).

(** [insertStage(index)]; [None] when the rounds do not suffice for
    [getNewStageName]. *)
Definition insertStage (rounds : nat) (surface : SurfaceIndex) (index : StageNumber)
    (st : State) : option (outcome (StageRef * State)) :=
  if negb (valid st) then Some (Raised "Assembly is invalid")
  else if negb (bool_decide (index >= 1) && bool_decide (index <= maxStage st + 1))
  then Some (Raised "Invalid new stage number")
  else
    match getNewStageName rounds st with
    | None => None
    | Some name =>
        let '(newStage, st) := StageImpl_create surface index name st in
        let st :=
          setStages (take (Z.to_nat (index - 1)) (stages st)
                     ++ newStage :: drop (Z.to_nat (index - 1)) (stages st)) st in
        (* update stages *)
        Some (st ← renumber index (maxStage st) st;
              let st := call (content_insertStage index) st in
              let st := call (raiseEvent "stage-added" (Some newStage)) st in
              Returned (newStage, st))
    end.

(** [_doDelete()] of a stage *)
Definition _doDelete (stage : StageRef) (st : State) : State :=
  let this := objects st !!! stage in
  if negb (Stage.valid this) then st
  else
    let st := setObjects (<[stage := Stage.withValid false this]> (objects st)) st in
    let st :=
      setSurfaceIndexToStage (delete (Stage.surfaceIndex this) (surfaceIndexToStage st)) st in
    if surfaceValid (Stage.surfaceIndex this)
    then call (delete_surface (Stage.surfaceIndex this)) st
    else st.

(** [delete()] of the assembly *)
Definition delete (st : State) : State :=
  if negb (valid st) then st
  else
    let st := setAssemblies (assemblies st ∖ {[ id st ]}) st in
    let st := setValid false st in
    let st := foldl (fun st stage => _doDelete stage st) st (stages st) in
    let st := call (raiseEvent "assembly-deleted" None) st in
    call localEvents_closeAll st.

(** [deleteStage(index)] *)
Definition deleteStage (index : StageNumber) (st : State) : outcome State :=
  if negb (valid st) then Raised "Assembly is invalid"
  else
    match getStage st index with
    | None => Raised "invalid stage number"
    | Some stage =>
        if bool_decide (maxStage st = 1) then Returned (delete st)
        else
          let st := call (raiseEvent "pre-stage-deleted" (Some stage)) st in
          let st := _doDelete stage st in
          let st := setStages (base.delete (Z.to_nat (index - 1)) (stages st)) st in
          (* update stages *)
          st ← renumber index (maxStage st) st;
          let st := call (content_deleteStage index) st in
          Returned (call (raiseEvent "stage-deleted" (Some stage)) st)
    end.

(** [deleteInAssembly()] of a stage *)
Definition deleteInAssembly (stage : StageRef) (st : State) : outcome State :=
  let this := objects st !!! stage in
  if negb (Stage.valid this) then Returned st
  else deleteStage (Stage.stageNumber this) st.

End WithGame.

End UserAssembly.

(* ===================================================================== *)
(* ===================================================================== *)
(** * Facts *)
(* ===================================================================== *)
(* ===================================================================== *)

(* ===================================================================== *)
(** ** Property diffs *)
(* ===================================================================== *)

Module DiffFacts.
Import Util Diff.

Lemma identical_refl : ∀ v, identical v v = true.
Proof.
  fix IH 1. intros [b|n|s|fields]; simpl.
  - by destruct b.
  - apply Z.eqb_refl.
  - apply String.eqb_refl.
  - induction fields as [|[k v] rest IHrest]; [done|].
    by rewrite String.eqb_refl, IH, IHrest.
Qed.

Lemma deepCompareValue_refl v : deepCompareValue v v = true.
Proof.
  assert (H : deepCompareValue v v = if identical v v then true else deepCompareValue v v)
    by (destruct v; simpl; repeat case_match; done).
  rewrite H. by rewrite identical_refl.
Qed.

Lemma deepCompare_refl o : deepCompare o o = true.
Proof. destruct o; [apply deepCompareValue_refl|done]. Qed.

Lemma isEmpty_true `{FinMap K M} {A} (m : M A) : isEmpty m = true ↔ m = ∅.
Proof. unfold isEmpty. rewrite bool_decide_eq_true. apply map_to_list_empty_iff. Qed.

Lemma nilIfEmpty_None `{FinMap K M} {A} (m : M A) : nilIfEmpty m = None ↔ m = ∅.
Proof.
  unfold nilIfEmpty. destruct (isEmpty m) eqn:E.
  - apply isEmpty_true in E. naive_solver.
  - split; [done|]. intros ->. by rewrite (proj2 (isEmpty_true _)) in E.
Qed.

Lemma nilIfEmpty_Some `{FinMap K M} {A} (m m' : M A) :
  nilIfEmpty m = Some m' → m' = m ∧ m ≠ ∅.
Proof.
  unfold nilIfEmpty. destruct (isEmpty m) eqn:E; [done|].
  intros [= <-]. split; [done|]. intros ->. by rewrite (proj2 (isEmpty_true _)) in E.
Qed.

(** A loop that sets or skips one key per entry of the table it walks. *)
Lemma lookup_fold_set {A B} (c : string → A → bool) (f : string → A → B)
    (acc : gmap string B) (m : gmap string A) k :
  map_fold (fun key a (acc : gmap string B) =>
              if c key a then <[key := f key a]> acc else acc) acc m !! k
  = match m !! k with
    | Some a => if c k a then Some (f k a) else acc !! k
    | None => acc !! k
    end.
Proof.
  revert k.
  apply (map_fold_weak_ind (fun r (m : gmap string A) => ∀ k, r !! k =
    match m !! k with
    | Some a => if c k a then Some (f k a) else acc !! k
    | None => acc !! k
    end)).
  - intros k. by rewrite lookup_empty.
  - intros i a m' r Hi IH k. destruct (decide (i = k)) as [->|Hne].
    + rewrite lookup_insert_eq. destruct (c k a); [by rewrite lookup_insert_eq|].
      by rewrite IH, Hi.
    + rewrite lookup_insert_ne by done.
      destruct (c i a); [rewrite lookup_insert_ne by done|]; apply IH.
Qed.

Lemma applyDiffToEntity_lookup (entity : Entity) (diff : LayerDiff) k :
  applyDiffToEntity entity diff !! k
  = match diff !! k with
    | Some NilPlaceholder => None
    | Some (Prop_ v) => Some v
    | None => entity !! k
    end.
Proof.
  unfold applyDiffToEntity. revert k.
  apply (map_fold_weak_ind (fun r (m : LayerDiff) => ∀ k, r !! k =
    match m !! k with
    | Some NilPlaceholder => None
    | Some (Prop_ v) => Some v
    | None => entity !! k
    end)).
  - intros k. by rewrite lookup_empty.
  - intros i a m' r Hi IH k. destruct (decide (i = k)) as [->|Hne].
    + rewrite lookup_insert_eq. destruct a; [apply lookup_delete_eq|apply lookup_insert_eq].
    + rewrite (lookup_insert_ne m') by done.
      destruct a; [rewrite lookup_delete_ne by done|rewrite lookup_insert_ne by done]; apply IH.
Qed.

Lemma applyDiffToDiff_lookup (existing diff : LayerDiff) k :
  applyDiffToDiff existing diff !! k
  = match diff !! k with Some v => Some v | None => existing !! k end.
Proof.
  unfold applyDiffToDiff.
  change (map_fold (fun key a (acc : LayerDiff) =>
            if (fun _ _ => true) key a then <[key := (fun _ v => v) key a]> acc else acc)
            existing diff !! k = match diff !! k with Some v => Some v | None => existing !! k end).
  by rewrite lookup_fold_set.
Qed.

(** The table [changes] that [getEntityDiff] builds, before [nilIfEmpty]. *)
Definition changesOf (below above : Entity) (k : string) : option diffValue :=
  if bool_decide (k ∈ ignoredProps) then None
  else match above !! k with
       | Some v => if deepCompare (Some v) (below !! k) then None else Some (Prop_ v)
       | None => match below !! k with Some _ => Some NilPlaceholder | None => None end
       end.

Lemma getEntityDiff_changes below above :
  ∃ changes : LayerDiff,
    (∀ k, changes !! k = changesOf below above k) ∧
    getEntityDiff below above = nilIfEmpty changes.
Proof.
  eexists. split; [|reflexivity]. intros k. unfold changesOf.
  rewrite (lookup_fold_set
    (fun key (_ : value) =>
       negb (bool_decide (key ∈ ignoredProps)) && bool_decide (above !! key = None))
    (fun _ _ => NilPlaceholder)).
  rewrite (lookup_fold_set
    (fun key value =>
       negb (bool_decide (key ∈ ignoredProps)) && negb (deepCompare (Some value) (below !! key)))
    (fun _ value => Prop_ value)).
  rewrite lookup_empty.
  destruct (bool_decide (k ∈ ignoredProps)); simpl.
  - by repeat case_match.
  - destruct (above !! k) as [v|] eqn:Ha, (below !! k) as [w|] eqn:Hb; simpl;
      rewrite ?bool_decide_eq_true_2, ?bool_decide_eq_false_2 by done; simpl;
      try done; by repeat case_match.
Qed.

Lemma applyOptionalDiff_getEntityDiff_lookup below above k :
  applyOptionalDiff below (getEntityDiff below above) !! k
  = match changesOf below above k with
    | Some NilPlaceholder => None
    | Some (Prop_ v) => Some v
    | None => below !! k
    end.
Proof.
  destruct (getEntityDiff_changes below above) as (changes & Hch & ->).
  destruct (nilIfEmpty changes) as [d|] eqn:E; simpl.
  - apply nilIfEmpty_Some in E as [-> _]. by rewrite applyDiffToEntity_lookup, Hch.
  - apply nilIfEmpty_None in E. subst. by rewrite <- Hch, lookup_empty.
Qed.

(** C2, amended.  For all snapshots [a] and [b], applying to [a] the diff
    that [getEntityDiff(a, b)] computes gives, at every property other than
    [position] and [direction], the value [b] has (the very value, or one
    that [deepCompare] finds equal to it), and no value where [b] has none:
    the placeholder restores absence.  [position] and [direction] are never
    part of a diff and stay as in [a].  The diff is nil exactly when no
    property other than these two changed. *)
Theorem getEntityDiff_roundtrip (a b : Entity) :
  (∀ k, k ∉ ignoredProps →
        deepCompare (b !! k) (applyOptionalDiff a (getEntityDiff a b) !! k) = true)
  ∧ (∀ k, k ∈ ignoredProps → applyOptionalDiff a (getEntityDiff a b) !! k = a !! k)
  ∧ (∀ k, b !! k = None → k ∉ ignoredProps →
          applyOptionalDiff a (getEntityDiff a b) !! k = None)
  ∧ (getEntityDiff a b = None ↔
       ∀ k, k ∉ ignoredProps → deepCompare (b !! k) (a !! k) = true).
Proof.
  repeat split.
  - intros k Hk. rewrite applyOptionalDiff_getEntityDiff_lookup. unfold changesOf.
    rewrite bool_decide_eq_false_2 by done.
    destruct (b !! k) as [v|] eqn:Hb.
    + destruct (deepCompare (Some v) (a !! k)) eqn:Hc; [done|apply deepCompareValue_refl].
    + by destruct (a !! k).
  - intros k Hk. rewrite applyOptionalDiff_getEntityDiff_lookup. unfold changesOf.
    by rewrite bool_decide_eq_true_2.
  - intros k Hb Hk. rewrite applyOptionalDiff_getEntityDiff_lookup. unfold changesOf.
    rewrite bool_decide_eq_false_2, Hb by done. by destruct (a !! k).
  - intros Hnil k Hk.
    destruct (getEntityDiff_changes a b) as (changes & Hch & Hd). rewrite Hd in Hnil.
    apply nilIfEmpty_None in Hnil. subst changes.
    specialize (Hch k). rewrite lookup_empty in Hch. unfold changesOf in Hch.
    rewrite bool_decide_eq_false_2 in Hch by done.
    destruct (b !! k) as [v|]; [by destruct (deepCompare (Some v) (a !! k))|].
    by destruct (a !! k).
  - intros Hsame.
    destruct (getEntityDiff_changes a b) as (changes & Hch & ->).
    apply nilIfEmpty_None, map_empty. intros k. rewrite Hch. unfold changesOf.
    case_bool_decide as Hk; [done|]. specialize (Hsame k Hk).
    destruct (b !! k) as [v|]; [by rewrite Hsame|]. by destruct (a !! k).
Qed.

(** C2, the claim as stated fails: two snapshots that differ in [position]
    have no diff, and applying it does not turn the first into the second. *)
Lemma getEntityDiff_skips_position :
  getEntityDiff {[ "position" := VNum 1 ]} {[ "position" := VNum 2 ]} = None
  ∧ applyOptionalDiff {[ "position" := VNum 1 ]}
      (getEntityDiff {[ "position" := VNum 1 ]} {[ "position" := VNum 2 ]})
    ≠ {[ "position" := VNum 2 ]}.
Proof. split; [by vm_compute|]. vm_compute. intros H. discriminate H. Qed.
End DiffFacts.

(* ===================================================================== *)
(** ** Values of an entity across layers *)
(* ===================================================================== *)

Module AssemblyEntityFacts.
Import Util Diff AssemblyEntity.

Definition keyLt {A} (p q : Z * A) : Prop := p.1 < q.1.

#[local] Instance keyLe_trans {A} : Transitive (@StageTable.keyLe A).
Proof. unfold StageTable.keyLe. intros ???; lia. Qed.
#[local] Instance keyLe_total {A} : Total (@StageTable.keyLe A).
Proof. unfold StageTable.keyLe. intros ??; lia. Qed.

Lemma pairs_elem_of {A} (t : gmap Z A) k a :
  (k, a) ∈ StageTable.pairs t ↔ t !! k = Some a.
Proof.
  unfold StageTable.pairs. rewrite merge_sort_Permutation. apply elem_of_map_to_list.
Qed.

Lemma pairs_NoDup_keys {A} (t : gmap Z A) : NoDup (StageTable.pairs t).*1.
Proof.
  unfold StageTable.pairs. rewrite merge_sort_Permutation. apply NoDup_fst_map_to_list.
Qed.

Lemma sorted_strict {A} (l : list (Z * A)) :
  StronglySorted StageTable.keyLe l → NoDup l.*1 → StronglySorted keyLt l.
Proof.
  induction 1 as [|p l Hs IH Hall]; intros Hnd; [constructor|].
  apply NoDup_cons in Hnd as [Hp Hnd]. constructor; [by apply IH|].
  rewrite Forall_forall in Hall |- *. intros q Hq. specialize (Hall q Hq).
  unfold keyLt, StageTable.keyLe in *.
  assert (p.1 ≠ q.1); [|lia].
  intros Heq. apply Hp. rewrite Heq. by apply list_elem_of_fmap_2.
Qed.

Lemma pairs_sorted {A} (t : gmap Z A) : StronglySorted keyLt (StageTable.pairs t).
Proof.
  apply sorted_strict; [|apply pairs_NoDup_keys].
  unfold StageTable.pairs. apply StronglySorted_merge_sort; apply _.
Qed.

Lemma filter_sorted {A} (R : relation A) (P : A → Prop) `{∀ x, Decision (P x)} l :
  StronglySorted R l → StronglySorted R (filter P l).
Proof.
  induction 1 as [|x l Hs IH Hall]; [constructor|].
  rewrite filter_cons. case_decide; [|done]. constructor; [done|].
  rewrite Forall_forall in Hall |- *. intros y [_ Hy]%list_elem_of_filter. auto.
Qed.

(** On a table read by increasing key, stopping at the first key above
    [layer] applies exactly the diffs at keys up to [layer]. *)
Lemma applyChangesUpTo_filter layer (changes : list (Z * LayerDiff)) value :
  StronglySorted keyLt changes →
  applyChangesUpTo layer changes value
  = foldl (fun v p => applyDiffToEntity v p.2) value
          (filter (fun p => p.1 ≤ layer) changes).
Proof.
  intros Hs. revert value. induction Hs as [|[k d] l Hs IH Hall]; intros value; [done|].
  simpl. case_bool_decide as Hk.
  - rewrite filter_cons_False by (simpl; lia).
    assert (filter (fun p : Z * LayerDiff => p.1 ≤ layer) l = []) as ->; [|done].
    clear IH Hs. induction l as [|q l IHl]; [done|].
    apply Forall_cons in Hall as [Hq Hall].
    rewrite filter_cons_False; [by apply IHl|]. unfold keyLt in Hq. simpl in *. lia.
  - rewrite filter_cons_True by (simpl; lia). simpl. apply IH.
Qed.

(** The entity of the scenario: created at layer 3 with [{size = 1}], then
    [{size = 3}] applied at layer 5. *)
Definition scenarioEntity : outcome AssemblyEntityImpl :=
  applyDiffAtLayer
    (createAssemblyEntity {[ "size" := VNum 1 ]} (mkPosition 0 0) None 3)
    5 {[ "size" := Prop_ (VNum 3) ]}.

(** C1.  For a layer [s >= 1], [getValueAtLayer(s)] is nil when [s] is below
    the entity's base layer, and otherwise the base value with the stored
    diffs whose key is [<= s] applied by increasing key.  An entity created
    at layer 3 with [{size = 1}], with [{size = 3}] applied at layer 5, has
    the values nil, [{size = 1}], [{size = 3}], [{size = 3}] at the layers 2,
    4, 5, 10. *)
Theorem getValueAtLayer_spec :
  (∀ (this : AssemblyEntityImpl) (s : LayerNumber), 1 ≤ s →
     (s < baseLayer this → getValueAtLayer this s = Returned None)
     ∧ (baseLayer this ≤ s →
        ∃ diffs : list (Z * LayerDiff),
          StronglySorted keyLt diffs
          ∧ (∀ k d, (k, d) ∈ diffs ↔ layerChanges this !! k = Some d ∧ k ≤ s)
          ∧ getValueAtLayer this s
            = Returned (Some (foldl (fun v p => applyDiffToEntity v p.2)
                                    (baseValue this) diffs))))
  ∧ (∃ E, scenarioEntity = Returned E
        ∧ getValueAtLayer E 2 = Returned None
        ∧ getValueAtLayer E 4 = Returned (Some {[ "size" := VNum 1 ]})
        ∧ getValueAtLayer E 5 = Returned (Some {[ "size" := VNum 3 ]})
        ∧ getValueAtLayer E 10 = Returned (Some {[ "size" := VNum 3 ]})).
Proof.
  split.
  - intros this s Hs. unfold getValueAtLayer, assert.
    rewrite (bool_decide_eq_true_2 (s >= 1)) by lia. simpl. split.
    + intros Hlt. by rewrite bool_decide_eq_true_2.
    + intros Hge. rewrite bool_decide_eq_false_2 by lia.
      exists (filter (fun p => p.1 ≤ s) (StageTable.pairs (layerChanges this))).
      split; [apply filter_sorted, pairs_sorted|]. split.
      * intros k d. rewrite list_elem_of_filter, pairs_elem_of. simpl. tauto.
      * by rewrite applyChangesUpTo_filter by apply pairs_sorted.
  - eexists. split; [vm_compute; reflexivity|]. repeat split; vm_compute; reflexivity.
Qed.

(** The entity of the scenario before its diff, read at layer 4. *)
Lemma getValueAtLayer_spec_witness :
  1 ≤ 4 ∧ 
  (∃ diffs : list (Z * LayerDiff), getValueAtLayer (createAssemblyEntity {[ "size" := VNum 1 ]} (mkPosition 0 0) None 3) 4 = Returned (Some (foldl (fun v p => applyDiffToEntity v p.2) {[ "size" := VNum 1 ]} diffs))).
Proof.
  split; [lia|].
  destruct (proj1 getValueAtLayer_spec (createAssemblyEntity {[ "size" := VNum 1 ]} (mkPosition 0 0) None 3) 4 ltac:(lia)) as [_ H].
  destruct (H ltac:(simpl; lia)) as (diffs & _ & _ & Heq). exists diffs. exact Heq.
Defined.
End AssemblyEntityFacts.

(* ===================================================================== *)
(** ** The compatibility resolver *)
(* ===================================================================== *)

Module ResolverFacts.
Import Util Diff ProjectEntity Connections AssemblyContent.

Section Resolver.
Variable info : EntityPrototypeInfo.
Variable heap : Heap.

(** The candidates of [findCompatibleByProps], in the spec's words: the
    entity reaches the stage, matches by exact name or by shared category,
    and matches the direction when one is asked for. *)
Definition isCandidate (entityName : string) (direction : option Z)
    (stage : StageNumber) (cur : EntityRef) : Prop :=
  (direction = None ∨ direction = Some (default 0 (ProjectEntity.direction (heap cur))))
  ∧ (lastStage (heap cur) = None ∨ ∃ l, lastStage (heap cur) = Some l ∧ stage ≤ l)
  ∧ (nameOf (firstValue (heap cur)) = Some entityName
     ∨ ∃ category n,
         nameToCategory info !! entityName = Some category
         ∧ nameOf (firstValue (heap cur)) = Some n
         ∧ nameToCategory info !! n = Some category).

Definition passes (entityName : string) (direction : option Z) (stage : StageNumber)
    (cur : EntityRef) : bool :=
  directionMatches direction (heap cur)
  && reachesStage stage (heap cur)
  && nameMatches info entityName (nameToCategory info !! entityName) (heap cur).

Lemma passes_isCandidate entityName direction stage cur :
  passes entityName direction stage cur = true ↔ isCandidate entityName direction stage cur.
Proof.
  unfold passes, isCandidate, directionMatches, reachesStage, nameMatches.
  rewrite !andb_true_iff, orb_true_iff.
  assert (match direction with
          | Some d => bool_decide (d = default 0 (ProjectEntity.direction (heap cur)))
          | None => true
          end = true
          ↔ direction = None
            ∨ direction = Some (default 0 (ProjectEntity.direction (heap cur)))) as H1.
  { destruct direction as [d|]; [|naive_solver].
    rewrite bool_decide_eq_true. naive_solver. }
  assert (match lastStage (heap cur) with
          | Some l => bool_decide (l >= stage)
          | None => true
          end = true
          ↔ lastStage (heap cur) = None
            ∨ ∃ l, lastStage (heap cur) = Some l ∧ stage ≤ l) as H2.
  { destruct (lastStage (heap cur)) as [l|]; [|naive_solver].
    rewrite bool_decide_eq_true. split; [right; exists l; split; [done|lia]|].
    intros [?|(l' & [= <-] & ?)]; [done|lia]. }
  assert (match nameToCategory info !! entityName with
          | Some c =>
              bool_decide ((n ← nameOf (firstValue (heap cur)); nameToCategory info !! n)
                           = Some c)
          | None => false
          end = true
          ↔ ∃ category n,
              nameToCategory info !! entityName = Some category
              ∧ nameOf (firstValue (heap cur)) = Some n
              ∧ nameToCategory info !! n = Some category) as H3.
  { destruct (nameToCategory info !! entityName) as [c|]; [|naive_solver].
    rewrite bool_decide_eq_true.
    destruct (nameOf (firstValue (heap cur))) as [n|]; simpl; naive_solver. }
  rewrite bool_decide_eq_true. tauto.
Qed.

(** What the scan holds after the entities [seen]: nothing when none of
    them is a candidate, else a candidate among them of least first stage. *)
Definition bestOf (entityName : string) (direction : option Z) (stage : StageNumber)
    (seen : list EntityRef) (candidate : option EntityRef) : Prop :=
  match candidate with
  | Some c =>
      c ∈ seen ∧ isCandidate entityName direction stage c
      ∧ ∀ c', c' ∈ seen → isCandidate entityName direction stage c' →
              firstStage (heap c) ≤ firstStage (heap c')
  | None => ∀ c', c' ∈ seen → ¬ isCandidate entityName direction stage c'
  end.

Lemma findCompatibleLoop_bestOf entityName direction stage chain :
  ∀ seen candidate,
    bestOf entityName direction stage seen candidate →
    bestOf entityName direction stage (seen ++ chain)
      (findCompatibleLoop info heap entityName (nameToCategory info !! entityName)
         direction stage chain candidate).
Proof.
  induction chain as [|cur rest IH]; intros seen candidate Hbest; simpl.
  - by rewrite app_nil_r.
  - replace (seen ++ cur :: rest) with ((seen ++ [cur]) ++ rest) by by rewrite <- app_assoc.
    apply IH. clear IH.
    pose proof (passes_isCandidate entityName direction stage cur) as Hp.
    unfold passes in Hp. destruct (_ && _ && _) eqn:Hpass; simpl.
    + assert (isCandidate entityName direction stage cur) as Hcur by by apply Hp.
      destruct candidate as [c|]; simpl in *.
      * destruct Hbest as (Hc & Hcand & Hmin). case_bool_decide as Hlt; simpl.
        -- split; [set_solver|]. split; [done|].
           intros c' [Hin| ->%list_elem_of_singleton]%elem_of_app Hc'; [|lia].
           specialize (Hmin c' Hin Hc'). lia.
        -- split; [set_solver|]. split; [done|].
           intros c' [Hin| ->%list_elem_of_singleton]%elem_of_app Hc'; [|lia].
           by apply Hmin.
      * split; [set_solver|]. split; [done|].
        intros c' [Hin| ->%list_elem_of_singleton]%elem_of_app Hc'; [|lia].
        by destruct (Hbest c' Hin).
    + assert (¬ isCandidate entityName direction stage cur) as Hcur
        by (rewrite <- Hp; congruence).
      destruct candidate as [c|]; simpl in *.
      * destruct Hbest as (Hc & Hcand & Hmin). split; [set_solver|]. split; [done|].
        intros c' [Hin| ->%list_elem_of_singleton]%elem_of_app Hc'; [|done].
        by apply Hmin.
      * intros c' [Hin| ->%list_elem_of_singleton]%elem_of_app; [by apply Hbest|done].
Qed.

(** C5.  [findCompatibleByProps] returns, among the entities of the bucket at
    the exact position that reach the stage, match by exact name or shared
    category, and match the direction when one is asked for, one whose first
    stage is the smallest; it returns nil when the bucket has no such
    entity. *)
Theorem findCompatibleByProps_smallest_firstStage
    (this : AssemblyContentImpl) (entityName : string) (position : Pos.Position)
    (direction : option Z) (stage : StageNumber) :
  match findCompatibleByProps info heap this entityName position direction stage with
  | Some found =>
      found ∈ Map2D_get (byPosition this) (Pos.x position) (Pos.y position)
      ∧ isCandidate entityName direction stage found
      ∧ ∀ other,
          other ∈ Map2D_get (byPosition this) (Pos.x position) (Pos.y position) →
          isCandidate entityName direction stage other →
          firstStage (heap found) ≤ firstStage (heap other)
  | None =>
      ∀ other,
        other ∈ Map2D_get (byPosition this) (Pos.x position) (Pos.y position) →
        ¬ isCandidate entityName direction stage other
  end.
Proof.
  unfold findCompatibleByProps.
  destruct (Map2D_get (byPosition this) (Pos.x position) (Pos.y position))
    as [|cur rest] eqn:Hbucket.
  - intros other Hin. by apply elem_of_nil in Hin.
  - apply (findCompatibleLoop_bestOf entityName direction stage (cur :: rest) [] None).
    intros c' Hin. by apply elem_of_nil in Hin.
Qed.

End Resolver.
End ResolverFacts.

(* ===================================================================== *)
(** ** Cable connections *)
(* ===================================================================== *)

(** Decide a closed proposition by evaluating its decision procedure. *)
Ltac by_compute := apply (bool_decide_unpack _); vm_compute; exact I.

Module CableFacts.
Import Util ProjectEntity Connections AssemblyContent.

(** Looking up or registering a connection point key touches nothing but
    the registry of power switch points, and leaves even that alone for a
    plain entity point. *)
Lemma getConnectionPointKey_frame this point createIfAbsent :
  let r := getConnectionPointKey this point createIfAbsent in
  byPosition r.2 = byPosition this
  ∧ entities r.2 = entities this
  ∧ circuitConnections r.2 = circuitConnections this
  ∧ cableConnections r.2 = cableConnections this
  ∧ (isPowerSwitchConnectionPoint point = false → r.2 = this).
Proof.
  destruct point as [e|e c]; simpl; [done|].
  destruct (default ∅ (extraCableConnectionPoints this) !! e) as [ids|];
    repeat case_match; simpl; done.
Qed.

Lemma getConnectionPointKey_create this point :
  (getConnectionPointKey this point true).1 = Some point.
Proof.
  destruct point as [e|e c]; simpl; [done|].
  destruct (default ∅ (extraCableConnectionPoints this) !! e) as [ids|];
    repeat case_match; simpl; done.
Qed.

(** A store with a full node: entity 1 is cabled to entities 2 to 6. *)
Definition fullStore : AssemblyContentImpl :=
  {| byPosition := ∅;
     entities := {[ 1%positive; 2%positive; 3%positive; 4%positive; 5%positive;
                    6%positive; 7%positive ]};
     circuitConnections := ∅;
     cableConnections :=
       {[ EntityPoint 1 := {[ EntityPoint 2; EntityPoint 3; EntityPoint 4;
                              EntityPoint 5; EntityPoint 6 ]};
          EntityPoint 2 := {[ EntityPoint 1 ]};
          EntityPoint 3 := {[ EntityPoint 1 ]};
          EntityPoint 4 := {[ EntityPoint 1 ]};
          EntityPoint 5 := {[ EntityPoint 1 ]};
          EntityPoint 6 := {[ EntityPoint 1 ]} ]};
     extraCableConnectionPoints := None |}.

(** C6, the claim as stated fails: both entities are in the store and
    distinct, entity 1 has 5 cables, and connecting it to entity 2, which it
    is already cabled to, answers [AlreadyExists]. *)
Lemma addCableConnection_full_already_connected :
  has fullStore 1%positive = true
  ∧ has fullStore 2%positive = true
  ∧ (size <$> cableConnections fullStore !! EntityPoint 1) = Some 5%nat
  ∧ addCableConnection fullStore (EntityPoint 1) (EntityPoint 2)
    = Returned (AlreadyExists, fullStore).
Proof. repeat split; vm_compute; reflexivity. Qed.

(** C6, amended.  A self-loop and an endpoint whose entity is not in the
    store are answered [Error], the store untouched.  For two points of
    distinct entities of the store that are not yet connected to each other,
    [MaxConnectionsReached] is the answer whenever either point already has
    5 (or more) cables, and the cable graph, like everything but the registry
    of power switch points, is as before; between two plain entity points
    the whole store is. *)
Theorem addCableConnection_degree_cap
    (this : AssemblyContentImpl) (point1 point2 : CableConnectionPoint) :
  (getEntityOfConnectionPoint point1 = getEntityOfConnectionPoint point2 →
   addCableConnection this point1 point2 = Returned (Error, this))
  ∧ (getEntityOfConnectionPoint point1 ∉ entities this
     ∨ getEntityOfConnectionPoint point2 ∉ entities this →
     addCableConnection this point1 point2 = Returned (Error, this))
  ∧ (getEntityOfConnectionPoint point1 ≠ getEntityOfConnectionPoint point2 →
     getEntityOfConnectionPoint point1 ∈ entities this →
     getEntityOfConnectionPoint point2 ∈ entities this →
     (∀ data1, cableConnections this !! point1 = Some data1 → point2 ∉ data1) →
     (∀ data2, cableConnections this !! point2 = Some data2 → point1 ∉ data2) →
     (∃ data, (cableConnections this !! point1 = Some data
               ∨ cableConnections this !! point2 = Some data)
              ∧ (5 ≤ size data)%nat) →
     ∃ this',
       addCableConnection this point1 point2 = Returned (MaxConnectionsReached, this')
       ∧ cableConnections this' = cableConnections this
       ∧ circuitConnections this' = circuitConnections this
       ∧ entities this' = entities this
       ∧ byPosition this' = byPosition this
       ∧ (isPowerSwitchConnectionPoint point1 = false →
          isPowerSwitchConnectionPoint point2 = false → this' = this)).
Proof.
  split; [|split].
  - intros Heq. unfold addCableConnection. by rewrite bool_decide_eq_true_2.
  - intros Habs. unfold addCableConnection, has. case_bool_decide; [done|].
    destruct Habs as [H1|H2].
    + by rewrite (bool_decide_eq_false_2 _ H1).
    + rewrite (bool_decide_eq_false_2 _ H2). by rewrite orb_true_r.
  - intros Hne Hin1 Hin2 Hnot1 Hnot2 (data & Hdata & Hfull).
    unfold addCableConnection, has.
    rewrite (bool_decide_eq_false_2 _ Hne), !bool_decide_eq_true_2 by done. simpl.
    pose proof (getConnectionPointKey_frame this point1 true) as Hf1.
    pose proof (getConnectionPointKey_create this point1) as Hk1.
    destruct (getConnectionPointKey this point1 true) as [key1 this1]. simpl in *.
    pose proof (getConnectionPointKey_frame this1 point2 true) as Hf2.
    pose proof (getConnectionPointKey_create this1 point2) as Hk2.
    destruct (getConnectionPointKey this1 point2 true) as [key2 this2]. simpl in *.
    subst key1 key2.
    destruct Hf1 as (Hb1 & He1 & Hc1 & Hcab1 & Hsame1).
    destruct Hf2 as (Hb2 & He2 & Hc2 & Hcab2 & Hsame2).
    assert (cableConnections this2 = cableConnections this) as Hcab by congruence.
    exists this2. rewrite Hcab.
    split; [|repeat split; try congruence;
             intros Hp1 Hp2; rewrite (Hsame2 Hp2); by apply Hsame1].
    unfold checkCableData, MaxCableConnections.
    destruct (cableConnections this !! point1) as [d1|] eqn:Hd1.
    + rewrite (bool_decide_eq_false_2 _ (Hnot1 d1 eq_refl)).
      case_bool_decide as Hsz1; [done|].
      destruct (cableConnections this !! point2) as [d2|] eqn:Hd2.
      * rewrite (bool_decide_eq_false_2 _ (Hnot2 d2 eq_refl)).
        case_bool_decide as Hsz2; [done|].
        destruct Hdata as [[= <-]|[= <-]]; lia.
      * destruct Hdata as [[= <-]|?]; [lia|done].
    + destruct (cableConnections this !! point2) as [d2|] eqn:Hd2.
      * rewrite (bool_decide_eq_false_2 _ (Hnot2 d2 eq_refl)).
        case_bool_decide as Hsz2; [done|].
        destruct Hdata as [?|[= <-]]; [done|lia].
      * by destruct Hdata.
Qed.

(** The cap at work: entity 7 is free, entity 1 is full. *)
Lemma addCableConnection_degree_cap_witness :
  addCableConnection fullStore (EntityPoint 7) (EntityPoint 1)
  = Returned (MaxConnectionsReached, fullStore).
Proof.
  destruct (proj2 (proj2 (addCableConnection_degree_cap fullStore (EntityPoint 7)
                            (EntityPoint 1))))
    as (this' & Hres & _ & _ & _ & _ & Hsame).
  - simpl. discriminate.
  - by_compute.
  - by_compute.
  - intros data1 Hdata1. vm_compute in Hdata1. discriminate Hdata1.
  - intros data2 Hdata2.
    assert (cableConnections fullStore !! EntityPoint 1
            = Some {[ EntityPoint 2; EntityPoint 3; EntityPoint 4;
                      EntityPoint 5; EntityPoint 6 ]}) as Heq by (vm_compute; reflexivity).
    rewrite Heq in Hdata2. injection Hdata2 as <-.
    by_compute.
  - exists {[ EntityPoint 2; EntityPoint 3; EntityPoint 4; EntityPoint 5; EntityPoint 6 ]}.
    split; [right; vm_compute; reflexivity|].
    by_compute.
  - rewrite Hres. by rewrite (Hsame eq_refl eq_refl).
Defined.

End CableFacts.

(* ===================================================================== *)
(** ** Circuit connections *)
(* ===================================================================== *)

Module CircuitFacts.
Import Util ProjectEntity Connections AssemblyContent.

Abbreviation Index := (gmap EntityRef AsmEntityCircuitConnections).

(** The connections recorded from [a] to [b], none when the index has no
    entry. *)
Definition connectionsAt (map : Index) (a b : EntityRef) : gset AsmCircuitConnection :=
  default ∅ (getIn a b map).

(** The index keeps no empty set, and no empty map: both operations remove
    what they empty. *)
Definition noEmptySet (map : Index) : Prop :=
  ∀ a connections b set, map !! a = Some connections → connections !! b = Some set → set ≠ ∅.
Definition noEmptyMap (map : Index) : Prop :=
  ∀ a connections, map !! a = Some connections → connections ≠ ∅.
Definition trimmed (map : Index) : Prop := noEmptySet map ∧ noEmptyMap map.

(** The index is symmetric: what is recorded from [a] to [b] is recorded
    from [b] to [a]. *)
Definition symmetricIndex (map : Index) : Prop :=
  ∀ a b c, c ∈ connectionsAt map a b → c ∈ connectionsAt map b a.

Lemma connectionsAt_Some map a b set :
  getIn a b map = Some set → connectionsAt map a b = set.
Proof. unfold connectionsAt. by intros ->. Qed.

Lemma getIn_Some map a b set :
  getIn a b map = Some set ↔ ∃ connections, map !! a = Some connections ∧ connections !! b = Some set.
Proof.
  unfold getIn. destruct (map !! a) as [connections|]; simpl; naive_solver.
Qed.

(** Two trimmed indexes that record the same connections are the same. *)
Lemma trimmed_ext (m1 m2 : Index) :
  trimmed m1 → trimmed m2 →
  (∀ a b, connectionsAt m1 a b = connectionsAt m2 a b) → m1 = m2.
Proof.
  assert (∀ (m1 m2 : Index) a connections,
    trimmed m1 → trimmed m2 →
    (∀ a b, connectionsAt m1 a b = connectionsAt m2 a b) →
    m1 !! a = Some connections → m2 !! a = Some connections) as Hhalf.
  { clear. intros m1 m2 a connections [Hs1 Hm1] [Hs2 Hm2] Heq Ha.
    destruct (m2 !! a) as [connections'|] eqn:Ha'.
    - f_equal. apply map_eq. intros b. specialize (Heq a b).
      unfold connectionsAt, getIn in Heq. rewrite Ha, Ha' in Heq. simpl in Heq.
      destruct (connections !! b) as [s|] eqn:Hb, (connections' !! b) as [s'|] eqn:Hb';
        simpl in Heq; subst; try done.
      + by destruct (Hs1 a connections b ∅).
      + by destruct (Hs2 a connections' b ∅).
    - exfalso. apply (Hm1 a connections Ha). apply map_empty. intros b.
      destruct (connections !! b) as [s|] eqn:Hb; [|done].
      specialize (Heq a b). unfold connectionsAt, getIn in Heq.
      rewrite Ha, Ha' in Heq. simpl in Heq. rewrite Hb in Heq. simpl in Heq.
      by destruct (Hs1 a connections b s). }
  intros H1 H2 Heq. apply map_eq. intros a.
  destruct (m1 !! a) as [c1|] eqn:Ha1.
  - symmetry. by apply (Hhalf m1 m2).
  - destruct (m2 !! a) as [c2|] eqn:Ha2; [|done].
    rewrite <- Ha1. by apply (Hhalf m2 m1).
Qed.

Lemma getIn_setIn map a b set a' b' :
  getIn a' b' (setIn a b set map)
  = if decide (a' = a ∧ b' = b) then Some set else getIn a' b' map.
Proof.
  unfold getIn, setIn. destruct (decide (a' = a)) as [->|Hne].
  - rewrite lookup_insert_eq. simpl. destruct (decide (b' = b)) as [->|Hneb].
    + rewrite lookup_insert_eq. by rewrite decide_True.
    + rewrite lookup_insert_ne by done. rewrite decide_False by naive_solver.
      by destruct (map !! a).
  - rewrite lookup_insert_ne by done. by rewrite decide_False by naive_solver.
Qed.

Lemma noEmptySet_setIn map a b set :
  set ≠ ∅ → noEmptySet map → noEmptySet (setIn a b set map).
Proof.
  intros Hset Hs a' connections b' set' Ha' Hb'.
  assert (getIn a' b' (setIn a b set map) = Some set') as Hget
    by (apply getIn_Some; eauto).
  rewrite getIn_setIn in Hget. case_decide; [congruence|].
  apply getIn_Some in Hget as (connections' & ? & ?). eauto.
Qed.

Lemma noEmptySet_ensure (map : Index) a :
  noEmptySet map → noEmptySet (match map !! a with None => <[a := ∅]> map | Some _ => map end).
Proof.
  intros Hs. destruct (map !! a) eqn:Ha; [done|].
  intros a' connections b set Ha' Hb. destruct (decide (a' = a)) as [->|Hne].
  - rewrite lookup_insert_eq in Ha'. injection Ha' as <-. by rewrite lookup_empty in Hb.
  - rewrite lookup_insert_ne in Ha' by done. eauto.
Qed.

Lemma getIn_ensure (map : Index) a a' b' :
  getIn a' b' (match map !! a with None => <[a := ∅]> map | Some _ => map end)
  = getIn a' b' map.
Proof.
  destruct (map !! a) eqn:Ha; [done|]. unfold getIn.
  destruct (decide (a' = a)) as [->|Hne].
  - by rewrite lookup_insert_eq, Ha.
  - by rewrite lookup_insert_ne.
Qed.

Lemma lookup_ensure_ne (map : Index) a a' :
  a' ≠ a →
  (match map !! a with None => <[a := ∅]> map | Some _ => map end) !! a' = map !! a'.
Proof. intros. destruct (map !! a); [done|]. by rewrite lookup_insert_ne. Qed.

Lemma connectionsAt_removeIn map a b c a' b' :
  connectionsAt (removeIn a b c map) a' b'
  = if decide (a' = a ∧ b' = b) then connectionsAt map a b ∖ {[ c ]}
    else connectionsAt map a' b'.
Proof.
  unfold connectionsAt, removeIn, getIn, isEmpty.
  destruct (map !! a) as [connections|] eqn:Ha; simpl.
  2: { case_decide as H; [|done]. destruct H as [-> ->]. rewrite ?Ha. simpl. set_solver. }
  destruct (connections !! b) as [set|] eqn:Hb; simpl.
  2: { case_decide as H; [|done]. destruct H as [-> ->]. rewrite ?Ha. simpl.
       rewrite ?Hb. simpl. set_solver. }
  destruct (decide (a' = a)) as [->|Hne].
  2: { rewrite decide_False by naive_solver.
       repeat case_bool_decide; by rewrite ?lookup_delete_ne, ?lookup_insert_ne by done. }
  rewrite Ha. simpl.
  destruct (decide (b' = b)) as [->|Hneb].
  - rewrite decide_True by done. rewrite ?Hb. simpl.
    repeat case_bool_decide;
      rewrite ?lookup_delete_eq, ?lookup_insert_eq; simpl;
      rewrite ?lookup_delete_eq, ?lookup_insert_eq; simpl; done.
  - rewrite decide_False by naive_solver.
    case_bool_decide as Hempty; [case_bool_decide as Hempty2|].
    + apply map_to_list_empty_iff in Hempty2. rewrite lookup_delete_eq. simpl.
      assert (base.delete b connections !! b' = None) as Hn by by rewrite Hempty2.
      rewrite lookup_delete_ne in Hn by done. by rewrite Hn.
    + rewrite lookup_insert_eq. simpl. by rewrite lookup_delete_ne.
    + rewrite lookup_insert_eq. simpl. by rewrite lookup_insert_ne.
Qed.

Lemma trimmed_removeIn map a b c : trimmed map → trimmed (removeIn a b c map).
Proof.
  intros [Hs Hm]. unfold removeIn, isEmpty.
  destruct (map !! a) as [connections|] eqn:Ha; [|done].
  destruct (connections !! b) as [set|] eqn:Hb; [|done].
  case_bool_decide as Hempty.
  - case_bool_decide as Hempty2.
    + split.
      * intros a' cs b' s Ha' Hb'. apply lookup_delete_Some in Ha' as [_ Ha']. eauto.
      * intros a' cs Ha'. apply lookup_delete_Some in Ha' as [_ Ha']. eauto.
    + rewrite map_to_list_empty_iff in Hempty2. split.
      * intros a' cs b' s Ha' Hb'. destruct (decide (a' = a)) as [->|Hne].
        -- rewrite lookup_insert_eq in Ha'. injection Ha' as <-.
           apply lookup_delete_Some in Hb' as [_ Hb']. eauto.
        -- rewrite lookup_insert_ne in Ha' by done. eauto.
      * intros a' cs Ha'. destruct (decide (a' = a)) as [->|Hne].
        -- rewrite lookup_insert_eq in Ha'. by injection Ha' as <-.
        -- rewrite lookup_insert_ne in Ha' by done. eauto.
  - split.
    + intros a' cs b' s Ha' Hb'. destruct (decide (a' = a)) as [->|Hne].
      * rewrite lookup_insert_eq in Ha'. injection Ha' as <-.
        destruct (decide (b' = b)) as [->|Hneb].
        -- rewrite lookup_insert_eq in Hb'. by injection Hb' as <-.
        -- rewrite lookup_insert_ne in Hb' by done. eauto.
      * rewrite lookup_insert_ne in Ha' by done. eauto.
    + intros a' cs Ha'. destruct (decide (a' = a)) as [->|Hne].
      * rewrite lookup_insert_eq in Ha'. injection Ha' as <-.
        apply insert_non_empty.
      * rewrite lookup_insert_ne in Ha' by done. eauto.
Qed.

Lemma lookup_setIn_ne map a b set a' : a' ≠ a → setIn a b set map !! a' = map !! a'.
Proof. intros. unfold setIn. by rewrite lookup_insert_ne. Qed.

Lemma connectionsAt_ensure (map : Index) a a' b' :
  connectionsAt (match map !! a with None => <[a := ∅]> map | Some _ => map end) a' b'
  = connectionsAt map a' b'.
Proof. unfold connectionsAt. by rewrite getIn_ensure. Qed.

(** The index after [addCircuitConnection] has got past its two early
    returns. *)
Definition indexAfterAdd (c : AsmCircuitConnection) (map : Index) : Index :=
  let map :=
    match map !! fromEntity c with
    | None => <[fromEntity c := ∅]> map
    | Some _ => map
    end in
  let map :=
    match map !! toEntity c with
    | None => <[toEntity c := ∅]> map
    | Some _ => map
    end in
  addIn (toEntity c) (fromEntity c) (getIn (toEntity c) (fromEntity c) map) c
    (addIn (fromEntity c) (toEntity c) (getIn (fromEntity c) (toEntity c) map) c map).

Lemma getIn_indexAfterAdd c map a' b' :
  getIn a' b' (indexAfterAdd c map)
  = if decide ((a' = fromEntity c ∧ b' = toEntity c) ∨ (a' = toEntity c ∧ b' = fromEntity c))
    then Some (connectionsAt map a' b' ∪ {[ c ]})
    else getIn a' b' map.
Proof.
  unfold indexAfterAdd.
  set (a := fromEntity c). set (b := toEntity c).
  set (m0 := match (match map !! a with None => <[a := ∅]> map | Some _ => map end) !! b with
             | None => <[b := ∅]> (match map !! a with None => <[a := ∅]> map | Some _ => map end)
             | Some _ => match map !! a with None => <[a := ∅]> map | Some _ => map end
             end).
  assert (∀ x y, getIn x y m0 = getIn x y map) as Hm0
    by (intros; unfold m0; by rewrite !getIn_ensure).
  assert (∀ x y, connectionsAt m0 x y = connectionsAt map x y) as Hc0
    by (intros; unfold connectionsAt; by rewrite Hm0).
  assert (getIn b a (addIn a b (getIn a b m0) c m0)
          = if decide (b = a) then Some (connectionsAt map a b ∪ {[ c ]}) else getIn b a map)
    as Hmid.
  { unfold addIn. destruct (getIn a b m0) as [s|] eqn:Hs; rewrite getIn_setIn.
    - rewrite <- Hc0. unfold connectionsAt at 1. rewrite Hs. simpl.
      destruct (decide (b = a)) as [->|]; [by rewrite decide_True|].
      rewrite decide_False by naive_solver. apply Hm0.
    - rewrite <- Hc0. unfold connectionsAt at 1. rewrite Hs. simpl.
      destruct (decide (b = a)) as [->|]; [rewrite decide_True by done|].
      + f_equal. set_solver.
      + rewrite decide_False by naive_solver. apply Hm0. }
  assert (match getIn b a m0 with
          | Some _ => default ∅ (getIn b a (addIn a b (getIn a b m0) c m0)) ∪ {[ c ]}
          | None => {[ c ]}
          end = connectionsAt map b a ∪ {[ c ]}) as Hnew.
  { rewrite Hmid. rewrite Hm0. unfold connectionsAt.
    destruct (decide (b = a)) as [->|Hne].
    - destruct (getIn a a map); simpl; set_solver.
    - destruct (getIn b a map); simpl; set_solver. }
  assert (addIn b a (getIn b a m0) c (addIn a b (getIn a b m0) c m0)
          = setIn b a (connectionsAt map b a ∪ {[ c ]}) (addIn a b (getIn a b m0) c m0)) as ->.
  { unfold addIn at 1. rewrite <- Hnew. by destruct (getIn b a m0). }
  rewrite getIn_setIn.
  destruct (decide (a' = b ∧ b' = a)) as [[-> ->]|Hne1].
  { by rewrite decide_True by naive_solver. }
  assert (addIn a b (getIn a b m0) c m0 = setIn a b (connectionsAt map a b ∪ {[ c ]}) m0) as ->.
  { unfold addIn. rewrite <- Hc0. unfold connectionsAt.
    destruct (getIn a b m0); simpl; [done|]. f_equal. set_solver. }
  rewrite getIn_setIn.
  destruct (decide (a' = a ∧ b' = b)) as [[-> ->]|Hne2].
  - by rewrite decide_True by naive_solver.
  - rewrite decide_False by naive_solver. apply Hm0.
Qed.

Lemma connectionsAt_indexAfterAdd c map a' b' :
  connectionsAt (indexAfterAdd c map) a' b'
  = if decide ((a' = fromEntity c ∧ b' = toEntity c) ∨ (a' = toEntity c ∧ b' = fromEntity c))
    then connectionsAt map a' b' ∪ {[ c ]}
    else connectionsAt map a' b'.
Proof. unfold connectionsAt at 1. rewrite getIn_indexAfterAdd. by case_decide. Qed.

Lemma lookup_indexAfterAdd_ne c map a' :
  a' ≠ fromEntity c → a' ≠ toEntity c → indexAfterAdd c map !! a' = map !! a'.
Proof.
  intros Ha Hb. unfold indexAfterAdd, addIn.
  repeat case_match; rewrite ?lookup_setIn_ne by done;
    rewrite ?lookup_insert_ne by done; done.
Qed.

Lemma trimmed_indexAfterAdd c map : trimmed map → trimmed (indexAfterAdd c map).
Proof.
  intros [Hs Hm]. split.
  - intros a connections b set Ha Hb.
    assert (getIn a b (indexAfterAdd c map) = Some set) as Hget by (apply getIn_Some; eauto).
    rewrite getIn_indexAfterAdd in Hget. case_decide.
    + injection Hget as <-. set_solver.
    + apply getIn_Some in Hget as (? & ? & ?). eauto.
  - intros a connections Ha Hempty. subst connections.
    destruct (decide (a = fromEntity c)) as [->|Hne1].
    { pose proof (getIn_indexAfterAdd c map (fromEntity c) (toEntity c)) as Hget.
      rewrite decide_True in Hget by naive_solver.
      apply getIn_Some in Hget as (? & Ha' & Hb). rewrite Ha in Ha'.
      injection Ha' as <-. by rewrite lookup_empty in Hb. }
    destruct (decide (a = toEntity c)) as [->|Hne2].
    { pose proof (getIn_indexAfterAdd c map (toEntity c) (fromEntity c)) as Hget.
      rewrite decide_True in Hget by naive_solver.
      apply getIn_Some in Hget as (? & Ha' & Hb). rewrite Ha in Ha'.
      injection Ha' as <-. by rewrite lookup_empty in Hb. }
    rewrite lookup_indexAfterAdd_ne in Ha by done. by apply (Hm a ∅).
Qed.

Lemma existsb_equals_false c (set : gset AsmCircuitConnection) :
  existsb (circuitConnectionEquals c) (elements set) = false →
  ∀ other, other ∈ set → circuitConnectionEquals c other = false.
Proof.
  intros Hex other Hin. destruct (circuitConnectionEquals c other) eqn:Heq; [|done].
  assert (existsb (circuitConnectionEquals c) (elements set) = true) as Ht; [|congruence].
  apply existsb_exists. exists other. split; [|done].
  apply list_elem_of_In. by apply elem_of_elements.
Qed.

Lemma existsb_equals_true c other (set : gset AsmCircuitConnection) :
  other ∈ set → circuitConnectionEquals c other = true →
  existsb (circuitConnectionEquals c) (elements set) = true.
Proof.
  intros Hin Heq. apply existsb_exists. exists other. split; [|done].
  apply list_elem_of_In. by apply elem_of_elements.
Qed.

Lemma circuitConnectionEquals_refl c : circuitConnectionEquals c c = true.
Proof. unfold circuitConnectionEquals. by rewrite bool_decide_eq_true_2. Qed.

Lemma circuitConnectionEquals_mirrored c : circuitConnectionEquals (mirrored c) c = true.
Proof.
  unfold circuitConnectionEquals, mirrored. simpl.
  rewrite (bool_decide_eq_true_2 (wire c = wire c)) by done.
  rewrite (bool_decide_eq_true_2 (toEntity c = toEntity c)) by done.
  rewrite (bool_decide_eq_true_2 (toId c = toId c)) by done.
  rewrite (bool_decide_eq_true_2 (fromEntity c = fromEntity c)) by done.
  rewrite (bool_decide_eq_true_2 (fromId c = fromId c)) by done.
  simpl. by rewrite !orb_true_r.
Qed.

(** What [addCircuitConnection] did when it answers true. *)
Lemma addCircuitConnection_true this c this' :
  addCircuitConnection this c = (true, this') →
  fromEntity c ∈ entities this ∧ toEntity c ∈ entities this
  ∧ (∀ other, other ∈ connectionsAt (circuitConnections this) (fromEntity c) (toEntity c) →
              circuitConnectionEquals c other = false)
  ∧ this' = setCircuitConnections (indexAfterAdd c (circuitConnections this)) this.
Proof.
  unfold addCircuitConnection, has.
  destruct (decide (fromEntity c ∈ entities this)) as [Hf|Hf];
    [rewrite (bool_decide_eq_true_2 _ Hf)|by rewrite (bool_decide_eq_false_2 _ Hf)].
  destruct (decide (toEntity c ∈ entities this)) as [Ht|Ht];
    [rewrite (bool_decide_eq_true_2 _ Ht)|by rewrite (bool_decide_eq_false_2 _ Ht)].
  simpl.
  destruct (circuitConnections this !! fromEntity c ≫= (.!! toEntity c)) as [fromSet|] eqn:Hset.
  - destruct (existsb _ _) eqn:Hex; [done|]. intros [= <-].
    repeat split; try done.
    unfold connectionsAt, getIn. rewrite Hset. simpl. by apply existsb_equals_false.
  - intros [= <-]. repeat split; try done.
    unfold connectionsAt, getIn. rewrite Hset. simpl. set_solver.
Qed.

(** An answer of false leaves the store as it was. *)
Lemma addCircuitConnection_false this c :
  (addCircuitConnection this c).1 = false → (addCircuitConnection this c).2 = this.
Proof.
  unfold addCircuitConnection. repeat case_match; simpl; done.
Qed.

(** A store that already holds the connection [1 -> 2]. *)
Definition wire12 : AsmCircuitConnection :=
  {| fromEntity := 1%positive; fromId := 1; toEntity := 2%positive; toId := 1; wire := 2 |}.
Definition wiredStore : AssemblyContentImpl :=
  {| byPosition := ∅;
     entities := {[ 1%positive; 2%positive ]};
     circuitConnections :=
       {[ 1%positive := {[ 2%positive := {[ wire12 ]} ]};
          2%positive := {[ 1%positive := {[ wire12 ]} ]} ]};
     cableConnections := ∅;
     extraCableConnectionPoints := None |}.
Definition unwiredStore : AssemblyContentImpl :=
  {| byPosition := ∅;
     entities := {[ 1%positive; 2%positive ]};
     circuitConnections := ∅;
     cableConnections := ∅;
     extraCableConnectionPoints := None |}.

(** C8, the claim as stated fails: both ends of [wire12] are in the store,
    which holds that very connection already; adding it again is refused,
    and removing it then takes the stored one out, leaving an index that is
    not the prior one. *)
Lemma add_remove_stored_connection :
  has wiredStore (fromEntity wire12) = true
  ∧ has wiredStore (toEntity wire12) = true
  ∧ (addCircuitConnection wiredStore wire12).1 = false
  ∧ removeCircuitConnection (addCircuitConnection wiredStore wire12).2 wire12 = unwiredStore
  ∧ circuitConnections unwiredStore !! 1%positive = None
  ∧ circuitConnections wiredStore !! 1%positive ≠ None.
Proof. repeat split; vm_compute; (reflexivity || discriminate). Qed.

(** C8, amended.  On a store whose circuit index is symmetric and keeps no
    emptied map or set (as the store's own operations leave it), when
    [addCircuitConnection(c)] answers true, [removeCircuitConnection(c)] gives
    back exactly the prior store, and adding [c] again, as it is or
    mirrored, answers false and changes nothing; whenever
    [addCircuitConnection] answers false the store is as before. *)
Theorem addCircuitConnection_removeCircuitConnection
    (this : AssemblyContentImpl) (c : AsmCircuitConnection) :
  trimmed (circuitConnections this) →
  symmetricIndex (circuitConnections this) →
  ((addCircuitConnection this c).1 = true →
     removeCircuitConnection (addCircuitConnection this c).2 c = this
     ∧ addCircuitConnection (addCircuitConnection this c).2 (mirrored c)
       = (false, (addCircuitConnection this c).2)
     ∧ addCircuitConnection (addCircuitConnection this c).2 c
       = (false, (addCircuitConnection this c).2))
  ∧ ((addCircuitConnection this c).1 = false → (addCircuitConnection this c).2 = this).
Proof.
  intros Htrim Hsym. split; [|apply addCircuitConnection_false].
  destruct (addCircuitConnection this c) as [r this'] eqn:Hadd. simpl. intros ->.
  apply addCircuitConnection_true in Hadd as (Hf & Ht & Hfresh & ->).
  set (m := circuitConnections this) in *.
  set (a := fromEntity c) in *. set (b := toEntity c) in *.
  assert (c ∉ connectionsAt m a b) as Hab.
  { intros Hin. specialize (Hfresh c Hin). by rewrite circuitConnectionEquals_refl in Hfresh. }
  assert (c ∉ connectionsAt m b a) as Hba by (intros Hin; by apply Hab, Hsym).
  pose proof (getIn_indexAfterAdd c m a b) as Hgab.
  rewrite decide_True in Hgab by (left; done).
  pose proof (getIn_indexAfterAdd c m b a) as Hgba.
  rewrite decide_True in Hgba by (right; done).
  split; [|split].
  - unfold removeCircuitConnection. simpl. fold a b.
    apply getIn_Some in Hgab as Hgab'. destruct Hgab' as (ca & Hca & _).
    apply getIn_Some in Hgba as Hgba'. destruct Hgba' as (cb & Hcb & _).
    rewrite Hca, Hcb.
    assert (removeIn b a c (removeIn a b c (indexAfterAdd c m)) = m) as ->.
    2: { unfold setCircuitConnections. simpl. by destruct this. }
    apply trimmed_ext; [by do 2 apply trimmed_removeIn; apply trimmed_indexAfterAdd|done|].
    intros a' b'. rewrite !connectionsAt_removeIn, !connectionsAt_indexAfterAdd.
    fold a b. repeat (case_decide; simplify_eq); try naive_solver; set_solver.
  - unfold addCircuitConnection, has. simpl.
    rewrite !bool_decide_eq_true_2 by done. simpl.
    change (circuitConnections this) with m. fold a b.
    change (indexAfterAdd c m !! b ≫= (.!! a)) with (getIn b a (indexAfterAdd c m)).
    rewrite Hgba.
    by rewrite (existsb_equals_true (mirrored c) c)
      by (set_solver || apply circuitConnectionEquals_mirrored).
  - unfold addCircuitConnection, has. simpl.
    rewrite !bool_decide_eq_true_2 by done. simpl.
    change (circuitConnections this) with m. fold a b.
    change (indexAfterAdd c m !! a ≫= (.!! b)) with (getIn a b (indexAfterAdd c m)).
    rewrite Hgab.
    by rewrite (existsb_equals_true c c)
      by (set_solver || apply circuitConnectionEquals_refl).
Qed.

Lemma trimmed_empty : trimmed (∅ : Index).
Proof. split; intros a connections; [intros b set|]; by rewrite lookup_empty. Qed.

Lemma symmetricIndex_empty : symmetricIndex (∅ : Index).
Proof. intros a b c. unfold connectionsAt, getIn. rewrite lookup_empty. set_solver. Qed.

(** On the store with entities 1 and 2 and no wire: adding [wire12] and
    removing it gives the store back. *)
Lemma addCircuitConnection_removeCircuitConnection_witness :
  (addCircuitConnection unwiredStore wire12).1 = true
  ∧ removeCircuitConnection (addCircuitConnection unwiredStore wire12).2 wire12
    = unwiredStore.
Proof.
  split; [vm_compute; reflexivity|].
  apply (addCircuitConnection_removeCircuitConnection unwiredStore wire12
           trimmed_empty symmetricIndex_empty).
  vm_compute. reflexivity.
Defined.

End CircuitFacts.

(* ===================================================================== *)
(** ** Deleting an entity from the store *)
(* ===================================================================== *)

Module DeleteFacts.
Import Util ProjectEntity Connections AssemblyContent CircuitFacts.

(** *** The circuit index *)

(** What one round of the loop makes of the entry it visits. *)
Definition withoutCircuitKey (key : EntityRef) (data : option AsmEntityCircuitConnections)
    : option AsmEntityCircuitConnections :=
  match data with
  | Some data =>
      if isEmpty (base.delete key data) then None else Some (base.delete key data)
  | None => None
  end.

Lemma lookup_dropCircuitKey key otherKey (map : Index) k :
  dropCircuitKey key otherKey map !! k
  = if decide (k = otherKey) then withoutCircuitKey key (map !! k) else map !! k.
Proof.
  unfold dropCircuitKey, withoutCircuitKey.
  destruct (decide (k = otherKey)) as [->|Hne].
  - destruct (map !! otherKey) as [d|] eqn:Hd; [|done].
    destruct (isEmpty (base.delete key d)); [apply lookup_delete_eq|apply lookup_insert_eq].
  - destruct (map !! otherKey) as [d|]; [|done].
    destruct (isEmpty (base.delete key d));
      [by rewrite lookup_delete_ne|by rewrite lookup_insert_ne].
Qed.

Lemma withoutCircuitKey_idemp key data :
  withoutCircuitKey key (withoutCircuitKey key data) = withoutCircuitKey key data.
Proof.
  unfold withoutCircuitKey. destruct data as [d|]; [|done].
  destruct (isEmpty (base.delete key d)) eqn:He; [done|].
  by rewrite delete_delete_eq, He.
Qed.

Lemma lookup_dropCircuitKeys key (l : list EntityRef) (map : Index) k :
  foldl (fun map otherKey => dropCircuitKey key otherKey map) map l !! k
  = if decide (k ∈ l) then withoutCircuitKey key (map !! k) else map !! k.
Proof.
  induction l as [|x l IH] using rev_ind.
  - done.
  - rewrite foldl_snoc, lookup_dropCircuitKey, IH.
    destruct (decide (k = x)) as [->|Hne].
    + rewrite (decide_True (P := x ∈ l ++ [x])) by set_solver.
      case_decide; [apply withoutCircuitKey_idemp|done].
    + destruct (decide (k ∈ l)).
      * by rewrite decide_True by set_solver.
      * by rewrite decide_False by set_solver.
Qed.

(** Every key of the index is a key of each of its neighbours. *)
Definition keySymmetric (map : Index) : Prop :=
  ∀ a b, is_Some (getIn a b map) → is_Some (getIn b a map).

Lemma withoutCircuitKey_Some key data d :
  withoutCircuitKey key data = Some d →
  ∃ d0, data = Some d0 ∧ d = base.delete key d0.
Proof.
  unfold withoutCircuitKey. destruct data as [d0|]; [|done].
  destruct (isEmpty _); [done|]. intros [= <-]. eauto.
Qed.

(** After [removeAllConnections(entity, circuitConnections)] the entity is
    neither a key of the index nor a key of any entry, and what is left was
    there before. *)
Lemma removeAllCircuitConnections_spec key (map : Index) k d :
  keySymmetric map →
  removeAllCircuitConnections key map !! k = Some d →
  k ≠ key ∧ d !! key = None
  ∧ ∃ d0, map !! k = Some d0 ∧ ∀ b, is_Some (d !! b) → is_Some (d0 !! b).
Proof.
  intros Hsym. unfold removeAllCircuitConnections.
  destruct (map !! key) as [entityData|] eqn:Hkey.
  - rewrite lookup_dropCircuitKeys.
    assert (k ≠ key → base.delete key map !! k = map !! k) as Hother
      by (intros; by rewrite lookup_delete_ne).
    destruct (decide (k = key)) as [->|Hne].
    { rewrite lookup_delete_eq. by case_decide. }
    rewrite Hother by done. case_decide as Hin.
    + intros (d0 & Hd0 & ->)%withoutCircuitKey_Some.
      split; [done|]. split; [apply lookup_delete_eq|].
      exists d0. split; [done|]. intros b [x Hx]. apply lookup_delete_Some in Hx as [_ Hx]. eauto.
    + intros Hk. split; [done|]. split; [|eauto].
      destruct (d !! key) as [s|] eqn:Hs; [|done]. exfalso. apply Hin.
      destruct (Hsym k key) as [s' Hs'].
      { exists s. apply getIn_Some. eauto. }
      apply getIn_Some in Hs' as (cs & Hcs & Hk'). rewrite Hkey in Hcs. injection Hcs as <-.
      apply list_elem_of_fmap. exists (k, s'). split; [done|]. by apply elem_of_map_to_list.
  - intros Hk. split; [congruence|]. split; [|eauto].
    destruct (d !! key) as [s|] eqn:Hs; [|done]. exfalso.
    destruct (Hsym k key) as [s' Hs'].
    { exists s. apply getIn_Some. eauto. }
    apply getIn_Some in Hs' as (cs & Hcs & _). congruence.
Qed.

(** *** The cable graph *)

Abbreviation Cables := (gmap CableConnectionPoint AsmEntityCableConnections).

Definition withoutCablePoint (key : CableConnectionPoint)
    (data : option AsmEntityCableConnections) : option AsmEntityCableConnections :=
  match data with
  | Some data => if bool_decide (data ∖ {[ key ]} = ∅) then None else Some (data ∖ {[ key ]})
  | None => None
  end.

Lemma lookup_dropCableKey key otherKey (map : Cables) k :
  dropCableKey key otherKey map !! k
  = if decide (k = otherKey) then withoutCablePoint key (map !! k) else map !! k.
Proof.
  unfold dropCableKey, withoutCablePoint.
  destruct (decide (k = otherKey)) as [->|Hne].
  - destruct (map !! otherKey) as [d|] eqn:Hd; [|done].
    case_bool_decide; [apply lookup_delete_eq|apply lookup_insert_eq].
  - destruct (map !! otherKey) as [d|]; [|done].
    case_bool_decide; [by rewrite lookup_delete_ne|by rewrite lookup_insert_ne].
Qed.

Lemma withoutCablePoint_idemp key data :
  withoutCablePoint key (withoutCablePoint key data) = withoutCablePoint key data.
Proof.
  unfold withoutCablePoint. destruct data as [d|]; [|done].
  case_bool_decide as He; [done|].
  assert (d ∖ {[ key ]} ∖ {[ key ]} = d ∖ {[ key ]}) as -> by set_solver.
  by rewrite bool_decide_eq_false_2.
Qed.

Lemma lookup_dropCableKeys key (l : list CableConnectionPoint) (map : Cables) k :
  foldl (fun map otherKey => dropCableKey key otherKey map) map l !! k
  = if decide (k ∈ l) then withoutCablePoint key (map !! k) else map !! k.
Proof.
  induction l as [|x l IH] using rev_ind; [done|].
  rewrite foldl_snoc, lookup_dropCableKey, IH.
  destruct (decide (k = x)) as [->|Hne].
  - rewrite (decide_True (P := x ∈ l ++ [x])) by set_solver.
    case_decide; [apply withoutCablePoint_idemp|done].
  - destruct (decide (k ∈ l)).
    + by rewrite decide_True by set_solver.
    + by rewrite decide_False by set_solver.
Qed.

Lemma lookup_removeAllCableConnections key (map : Cables) k :
  removeAllCableConnections key map !! k
  = match map !! key with
    | None => map !! k
    | Some entityData =>
        if decide (k = key) then None
        else if decide (k ∈ entityData) then withoutCablePoint key (map !! k)
        else map !! k
    end.
Proof.
  unfold removeAllCableConnections. destruct (map !! key) as [entityData|] eqn:Hkey; [|done].
  rewrite lookup_dropCableKeys. destruct (decide (k = key)) as [->|Hne].
  - rewrite lookup_delete_eq. by case_decide.
  - rewrite lookup_delete_ne by done.
    destruct (decide (k ∈ entityData)).
    + by rewrite decide_True by by apply elem_of_elements.
    + by rewrite decide_False by by rewrite elem_of_elements.
Qed.

(** Cables are recorded at both ends. *)
Definition cableSymmetric (map : Cables) : Prop :=
  ∀ p q d, map !! p = Some d → q ∈ d → ∃ d', map !! q = Some d' ∧ p ∈ d'.

(** The point is an end of some cable of the graph. *)
Definition mentions (map : Cables) (q : CableConnectionPoint) : Prop :=
  is_Some (map !! q) ∨ ∃ p d, map !! p = Some d ∧ q ∈ d.

Lemma withoutCablePoint_Some key data d :
  withoutCablePoint key data = Some d → ∃ d0, data = Some d0 ∧ d = d0 ∖ {[ key ]}.
Proof.
  unfold withoutCablePoint. destruct data as [d0|]; [|done].
  case_bool_decide; [done|]. intros [= <-]. eauto.
Qed.

Lemma removeAllCableConnections_sub key (map : Cables) k d :
  removeAllCableConnections key map !! k = Some d →
  ∃ d0, map !! k = Some d0 ∧ d ⊆ d0.
Proof.
  rewrite lookup_removeAllCableConnections.
  destruct (map !! key) as [entityData|]; [|by eauto].
  repeat case_decide; [done| |by eauto].
  intros (d0 & -> & ->)%withoutCablePoint_Some. exists d0. split; [done|set_solver].
Qed.

Lemma removeAllCableConnections_keeps_unmentioned key (map : Cables) q :
  ¬ mentions map q → ¬ mentions (removeAllCableConnections key map) q.
Proof.
  intros Hno [[d Hd]|(p & d & Hd & Hq)].
  - apply removeAllCableConnections_sub in Hd as (d0 & Hd0 & _). apply Hno. left. eauto.
  - apply removeAllCableConnections_sub in Hd as (d0 & Hd0 & Hsub).
    apply Hno. right. exists p, d0. split; [done|set_solver].
Qed.

Lemma removeAllCableConnections_unmentions key (map : Cables) :
  cableSymmetric map → ¬ mentions (removeAllCableConnections key map) key.
Proof.
  intros Hsym.
  assert (∀ p d, removeAllCableConnections key map !! p = Some d → key ∉ d) as Hmem.
  { intros p d. rewrite lookup_removeAllCableConnections.
    destruct (map !! key) as [entityData|] eqn:Hkey.
    - repeat case_decide; [done| |].
      + intros (d0 & _ & ->)%withoutCablePoint_Some. set_solver.
      + intros Hp Hin. destruct (Hsym p key d Hp Hin) as (d' & Hd' & Hp').
        rewrite Hkey in Hd'. by injection Hd' as <-.
    - intros Hp Hin. destruct (Hsym p key d Hp Hin) as (d' & Hd' & _). congruence. }
  intros [[d Hd]|(p & d & Hd & Hq)]; [|by eapply Hmem].
  rewrite lookup_removeAllCableConnections in Hd.
  destruct (map !! key) as [entityData|] eqn:Hkey; [|done].
  by rewrite decide_True in Hd.
Qed.

Lemma removeAllCableConnections_symmetric key (map : Cables) :
  cableSymmetric map → cableSymmetric (removeAllCableConnections key map).
Proof.
  intros Hsym p q d Hp Hq.
  assert (¬ mentions (removeAllCableConnections key map) key) as Hkeyfree
    by by apply removeAllCableConnections_unmentions.
  assert (q ≠ key) as Hqk.
  { intros ->. apply Hkeyfree. right. eauto. }
  assert (p ≠ key) as Hpk.
  { intros ->. apply Hkeyfree. left. eauto. }
  destruct (removeAllCableConnections_sub _ _ _ _ Hp) as (d0 & Hd0 & Hsub).
  destruct (Hsym p q d0 Hd0 (Hsub q Hq)) as (d0' & Hd0' & Hp').
  rewrite lookup_removeAllCableConnections.
  destruct (map !! key) as [entityData|] eqn:Hkey; [|by eauto].
  rewrite decide_False by done. case_decide; [|by eauto].
  rewrite Hd0'. unfold withoutCablePoint.
  rewrite bool_decide_eq_false_2 by set_solver. eexists. split; [done|set_solver].
Qed.

(** The loop of [delete] over the registered power switch points. *)
Lemma removeAllCableConnections_fold (l : list CableConnectionPoint) (map : Cables) :
  cableSymmetric map →
  let map' := foldl (fun map point => removeAllCableConnections point map) map l in
  cableSymmetric map'
  ∧ (∀ q, q ∈ l → ¬ mentions map' q)
  ∧ (∀ q, ¬ mentions map q → ¬ mentions map' q)
  ∧ (∀ k d, map' !! k = Some d → ∃ d0, map !! k = Some d0 ∧ d ⊆ d0).
Proof.
  revert map. induction l as [|x l IH]; intros map Hsym; simpl.
  - repeat split; [done|by intros ? ?%elem_of_nil|done|by eauto].
  - destruct (IH (removeAllCableConnections x map)) as (Hs & Hl & Hkeep & Hsub).
    { by apply removeAllCableConnections_symmetric. }
    repeat split; [done| | |].
    + intros q [->|Hin]%elem_of_cons; [|by apply Hl].
      by apply Hkeep, removeAllCableConnections_unmentions.
    + intros q Hq. by apply Hkeep, removeAllCableConnections_keeps_unmentioned.
    + intros k d Hk. destruct (Hsub k d Hk) as (d1 & Hd1 & Hsub1).
      destruct (removeAllCableConnections_sub _ _ _ _ Hd1) as (d0 & Hd0 & Hsub0).
      exists d0. split; [done|set_solver].
Qed.

(** *** The store *)

(** Some connection entry of the store names the entity, or one of its
    connection points, as an end. *)
Definition references (this : AssemblyContentImpl) (entity : EntityRef) : Prop :=
  (∃ a connections,
      circuitConnections this !! a = Some connections
      ∧ (a = entity ∨ is_Some (connections !! entity)))
  ∨ (∃ q, getEntityOfConnectionPoint q = entity ∧ mentions (cableConnections this) q).

(** Every end of every connection is an entity of the store. *)
Definition endpointsPresent (this : AssemblyContentImpl) : Prop :=
  (∀ a connections,
      circuitConnections this !! a = Some connections →
      a ∈ entities this ∧ ∀ b, is_Some (connections !! b) → b ∈ entities this)
  ∧ (∀ q, mentions (cableConnections this) q →
          getEntityOfConnectionPoint q ∈ entities this).

(** Every power switch point that is an end of a cable is registered. *)
Definition switchPointsRegistered (this : AssemblyContentImpl) : Prop :=
  ∀ entity connectionId,
    mentions (cableConnections this) (PowerSwitchPoint entity connectionId) →
    ∃ registry ids,
      extraCableConnectionPoints this = Some registry
      ∧ registry !! entity = Some ids ∧ connectionId ∈ ids.

(** What [_assertCorrect] checks of the two graphs. *)
Definition consistent (this : AssemblyContentImpl) : Prop :=
  keySymmetric (circuitConnections this)
  ∧ cableSymmetric (cableConnections this)
  ∧ endpointsPresent this
  ∧ switchPointsRegistered this.

Lemma consistent_new : consistent newAssemblyContent.
Proof.
  split; [|split; [|split; [split|]]].
  - intros a b [s Hs]. unfold getIn in Hs. simpl in Hs. by rewrite lookup_empty in Hs.
  - intros p q d Hp. simpl in Hp. by rewrite lookup_empty in Hp.
  - intros a connections Ha. simpl in Ha. by rewrite lookup_empty in Ha.
  - intros q [[d Hd]|(p & d & Hd & _)]; simpl in Hd; by rewrite lookup_empty in Hd.
  - intros e cid [[d Hd]|(p & d & Hd & _)]; simpl in Hd; by rewrite lookup_empty in Hd.
Qed.

(** The cable graph that [delete] leaves, with what it took to get there. *)
Lemma delete_cables heap this entity :
  entity ∈ entities this →
  ∃ l : list CableConnectionPoint,
    cableConnections (AssemblyContent.delete heap this entity)
    = foldl (fun map point => removeAllCableConnections point map)
            (removeAllCableConnections (EntityPoint entity) (cableConnections this)) l
    ∧ ∀ connectionId,
        (∃ registry ids, extraCableConnectionPoints this = Some registry
                         ∧ registry !! entity = Some ids ∧ connectionId ∈ ids) →
        PowerSwitchPoint entity connectionId ∈ l.
Proof.
  intros Hin. unfold AssemblyContent.delete, has.
  rewrite bool_decide_eq_true_2 by done. simpl.
  destruct (extraCableConnectionPoints this) as [registry|] eqn:Hreg; simpl.
  - destruct (registry !! entity) as [ids|] eqn:Hids; simpl.
    + eexists. split; [reflexivity|]. intros cid (r & i & [= <-] & Hi & Hcid).
      rewrite Hids in Hi. injection Hi as <-.
      apply list_elem_of_fmap. exists cid. split; [done|]. by apply elem_of_elements.
    + exists []. split; [done|]. intros cid (r & i & [= <-] & Hi & _). congruence.
  - exists []. split; [done|]. by intros cid (r & i & ? & _).
Qed.

Lemma delete_circuits heap this entity :
  entity ∈ entities this →
  circuitConnections (AssemblyContent.delete heap this entity)
  = removeAllCircuitConnections entity (circuitConnections this).
Proof.
  intros Hin. unfold AssemblyContent.delete, has.
  rewrite bool_decide_eq_true_2 by done. simpl.
  by destruct (extraCableConnectionPoints this ≫= (.!! entity)).
Qed.

Lemma delete_entities heap this entity :
  entities (AssemblyContent.delete heap this entity) = entities this ∖ {[ entity ]}.
Proof.
  unfold AssemblyContent.delete, has. case_bool_decide as Hin; simpl.
  - by destruct (extraCableConnectionPoints this ≫= (.!! entity)).
  - set_solver.
Qed.

(** C10.  On a store whose two graphs are symmetric, with every end in the
    store and every power switch point registered, [delete(entity)] leaves
    no circuit or cable entry that names the entity or one of its connection
    points, and every end of every connection left is an entity of the
    store. *)
Theorem delete_leaves_no_dangling_connection
    (heap : Heap) (this : AssemblyContentImpl) (entity : EntityRef) :
  consistent this →
  ¬ references (AssemblyContent.delete heap this entity) entity
  ∧ endpointsPresent (AssemblyContent.delete heap this entity).
Proof.
  intros (Hksym & Hcsym & [Hcirc Hcab] & Hreg).
  destruct (decide (entity ∈ entities this)) as [Hin|Hout].
  2: { assert (AssemblyContent.delete heap this entity = this) as ->.
       { unfold AssemblyContent.delete, has. by rewrite bool_decide_eq_false_2. }
       split; [|done]. intros [(a & cs & Ha & [->|Hb])|(q & <- & Hq)].
       - by destruct (Hcirc _ _ Ha).
       - destruct (Hcirc _ _ Ha) as [_ Hb']. auto.
       - auto. }
  destruct (delete_cables heap this entity Hin) as (l & Hcables & Hl).
  pose proof (delete_circuits heap this entity Hin) as Hcircuits.
  pose proof (delete_entities heap this entity) as Hents.
  set (this' := AssemblyContent.delete heap this entity) in *.
  destruct (removeAllCableConnections_fold l
              (removeAllCableConnections (EntityPoint entity) (cableConnections this)))
    as (_ & Hgone & Hkeep & Hsub).
  { by apply removeAllCableConnections_symmetric. }
  rewrite <- Hcables in Hgone, Hkeep, Hsub.
  assert (∀ q, mentions (cableConnections this') q → mentions (cableConnections this) q)
    as Hwas.
  { intros q [[d Hd]|(p & d & Hd & Hq)].
    - destruct (Hsub _ _ Hd) as (d1 & Hd1 & _).
      apply removeAllCableConnections_sub in Hd1 as (d0 & Hd0 & _). left. eauto.
    - destruct (Hsub _ _ Hd) as (d1 & Hd1 & Hs1).
      apply removeAllCableConnections_sub in Hd1 as (d0 & Hd0 & Hs0).
      right. exists p, d0. split; [done|set_solver]. }
  assert (∀ q, getEntityOfConnectionPoint q = entity →
               ¬ mentions (cableConnections this') q) as Hnone.
  { intros [e|e cid] Heq Hq; simpl in Heq; subst e.
    - by apply (Hkeep _ (removeAllCableConnections_unmentions _ _ Hcsym)) in Hq.
    - by apply (Hgone _ (Hl _ (Hreg _ _ (Hwas _ Hq)))) in Hq. }
  split.
  - intros [(a & cs & Ha & Hor)|(q & Heq & Hq)]; [|by eapply Hnone].
    rewrite Hcircuits in Ha.
    apply removeAllCircuitConnections_spec in Ha as (Hne & Hkey & _); [|done].
    destruct Hor as [->|[x Hx]]; [done|congruence].
  - split.
    + intros a cs Ha. rewrite Hcircuits in Ha.
      apply removeAllCircuitConnections_spec in Ha as (Hne & Hkey & d0 & Hd0 & Hd); [|done].
      destruct (Hcirc _ _ Hd0) as [Ha' Hb']. rewrite Hents. split; [set_solver|].
      intros b Hb. assert (b ≠ entity) by (intros ->; rewrite Hkey in Hb; by destruct Hb).
      specialize (Hb' b (Hd b Hb)). set_solver.
    + intros q Hq. rewrite Hents. specialize (Hcab q (Hwas q Hq)).
      assert (getEntityOfConnectionPoint q ≠ entity) by (intros Heq; by eapply Hnone).
      set_solver.
Qed.

(** *** Checking a given store *)

(** The checks of [consistent], run over the entries of a store. *)
Definition allPoints (f : CableConnectionPoint → bool) (map : Cables) : bool :=
  forallb (fun entry : CableConnectionPoint * AsmEntityCableConnections =>
             f entry.1 && forallb f (elements entry.2))
          (map_to_list map).

Definition checkConsistent (this : AssemblyContentImpl) : bool :=
  forallb (fun entry : EntityRef * AsmEntityCircuitConnections =>
             bool_decide (entry.1 ∈ entities this)
             && forallb (fun other : EntityRef * gset AsmCircuitConnection =>
                           bool_decide (other.1 ∈ entities this)
                           && bool_decide
                                (is_Some (getIn other.1 entry.1 (circuitConnections this))))
                        (map_to_list entry.2))
          (map_to_list (circuitConnections this))
  && forallb (fun entry : CableConnectionPoint * AsmEntityCableConnections =>
                forallb (fun other =>
                           bool_decide
                             (entry.1 ∈ default ∅ (cableConnections this !! other)))
                        (elements entry.2))
             (map_to_list (cableConnections this))
  && allPoints (fun q => bool_decide (getEntityOfConnectionPoint q ∈ entities this))
       (cableConnections this)
  && allPoints (fun q =>
                  match q with
                  | EntityPoint _ => true
                  | PowerSwitchPoint entity connectionId =>
                      bool_decide
                        (connectionId
                           ∈ default ∅ (extraCableConnectionPoints this ≫= (.!! entity)))
                  end)
       (cableConnections this).

Lemma forallb_elem_of {A} (f : A → bool) (l : list A) x :
  forallb f l = true → x ∈ l → f x = true.
Proof. rewrite forallb_forall. intros H Hin. by apply H, list_elem_of_In. Qed.

Lemma allPoints_mentions f (map : Cables) q :
  allPoints f map = true → mentions map q → f q = true.
Proof.
  intros Hall [[d Hd]|(p & d & Hd & Hq)].
  - apply (forallb_elem_of _ _ (q, d)) in Hall; [|by apply elem_of_map_to_list].
    by apply andb_true_iff in Hall as [? _].
  - apply (forallb_elem_of _ _ (p, d)) in Hall; [|by apply elem_of_map_to_list].
    apply andb_true_iff in Hall as [_ Hall].
    apply (forallb_elem_of _ _ q Hall). by apply elem_of_elements.
Qed.

Lemma checkConsistent_sound this : checkConsistent this = true → consistent this.
Proof.
  unfold checkConsistent. rewrite !andb_true_iff.
  intros [[[Hcirc Hsym] Hpresent] Hreg].
  assert (∀ a connections,
            circuitConnections this !! a = Some connections →
            a ∈ entities this
            ∧ ∀ b, is_Some (connections !! b) →
                   b ∈ entities this ∧ is_Some (getIn b a (circuitConnections this)))
    as Hc.
  { intros a cs Ha.
    apply (forallb_elem_of _ _ (a, cs)) in Hcirc; [|by apply elem_of_map_to_list].
    apply andb_true_iff in Hcirc as [Hin Hall]. apply bool_decide_eq_true in Hin.
    split; [done|]. intros b [s Hs].
    apply (forallb_elem_of _ _ (b, s)) in Hall; [|by apply elem_of_map_to_list].
    apply andb_true_iff in Hall as [H1 H2].
    by apply bool_decide_eq_true in H1, H2. }
  split; [|split; [|split; [split|]]].
  - intros a b [s (cs & Ha & Hb)%getIn_Some].
    destruct (Hc a cs Ha) as [_ Hall]. by destruct (Hall b (mk_is_Some _ _ Hb)).
  - intros p q d Hp Hq.
    apply (forallb_elem_of _ _ (p, d)) in Hsym; [|by apply elem_of_map_to_list].
    apply (forallb_elem_of _ _ q) in Hsym; [|by apply elem_of_elements].
    apply bool_decide_eq_true in Hsym. simpl in Hsym.
    destruct (cableConnections this !! q) as [d'|]; [eauto|set_solver].
  - intros a cs Ha. destruct (Hc a cs Ha) as [Hin Hall]. split; [done|].
    intros b Hb. by destruct (Hall b Hb).
  - intros q Hq. apply (allPoints_mentions _ _ q) in Hpresent; [|done].
    by apply bool_decide_eq_true in Hpresent.
  - intros e cid Hq. apply (allPoints_mentions _ _ _ Hreg) in Hq.
    apply bool_decide_eq_true in Hq.
    destruct (extraCableConnectionPoints this) as [registry|]; simpl in Hq; [|set_solver].
    destruct (registry !! e) as [ids|] eqn:Hids; simpl in Hq; [eauto|set_solver].
Qed.

(** A store with a circuit wire and a cable between entities 1 and 2, and a
    cable from entity 3 to a registered side of the power switch 1. *)
Definition connectedStore : AssemblyContentImpl :=
  {| byPosition := ∅;
     entities := {[ 1%positive; 2%positive; 3%positive ]};
     circuitConnections :=
       {[ 1%positive := {[ 2%positive := {[ wire12 ]} ]};
          2%positive := {[ 1%positive := {[ wire12 ]} ]} ]};
     cableConnections :=
       {[ EntityPoint 1 := {[ EntityPoint 2 ]};
          EntityPoint 2 := {[ EntityPoint 1 ]};
          PowerSwitchPoint 1 0 := {[ EntityPoint 3 ]};
          EntityPoint 3 := {[ PowerSwitchPoint 1 0 ]} ]};
     extraCableConnectionPoints := Some {[ 1%positive := {[ 0 ]} ]} |}.

(** Deleting entity 1 from it leaves the entities 2 and 3 and no
    connection at all. *)
Lemma delete_leaves_no_dangling_connection_witness :
  consistent connectedStore
  ∧ ¬ references (AssemblyContent.delete (fun _ => createProjectEntityNoCopy ∅ (Pos.Pos 0 0) None 1)
                    connectedStore 1%positive) 1%positive.
Proof.
  assert (consistent connectedStore) as H
    by (apply checkConsistent_sound; vm_compute; reflexivity).
  split; [exact H|].
  exact (proj1 (delete_leaves_no_dangling_connection _ connectedStore 1%positive H)).
Defined.

End DeleteFacts.

(* ===================================================================== *)
(** ** Steps of the updater *)
(* ===================================================================== *)

Module UpdateFacts.
Import ProjectUpdates.

(** Running a step after one whose run is known. *)
Lemma bind_run {A B} (m : Update A) (k : A → Update B) project a project' :
  m project = Returned (a, project') → (m ≫= k) project = k a project'.
Proof. unfold mbind, Update_bind. by intros ->. Qed.

Lemma bind_raised {A B} (m : Update A) (k : A → Update B) project msg :
  m project = Raised msg → (m ≫= k) project = Raised msg.
Proof. unfold mbind, Update_bind. by intros ->. Qed.

End UpdateFacts.

(* ===================================================================== *)
(** ** Deleting an entity, or keeping it as a settings remnant *)
(* ===================================================================== *)

Module RemnantFacts.
Import Util Diff ProjectEntity Connections AssemblyContent ProjectUpdates UpdateFacts.

(** When deletion would lose something: the entity has a stage diff, or one
    of its circuit connections leads to an entity with no rendered instance
    at the entity's first stage.  The connections read are those of
    [getCircuitConnections], keyed by the entity at the other end: the
    entity itself for a wire between its own connectors.  Cables are not
    read. *)
Definition wouldLoseSettings (project : Project) (entity : EntityRef) : Prop :=
  hasStageDiff (heap project entity) = true
  ∨ ∃ connections otherEntity,
      getCircuitConnections (content project) entity = Some connections
      ∧ is_Some (connections !! otherEntity)
      ∧ getWorldEntity (heap project otherEntity) (firstStage (heap project entity)) = None.

Section Remnant.
Variable imports : Imports.

Lemma shouldMakeSettingsRemnant_spec project entity :
  ∃ should : bool,
    shouldMakeSettingsRemnant entity project = Returned (should, project)
    ∧ (should = true ↔ wouldLoseSettings project entity).
Proof.
  unfold shouldMakeSettingsRemnant, wouldLoseSettings, read, getContent, getHeap.
  unfold mbind, Update_bind, mret, Update_ret. simpl.
  destruct (hasStageDiff (heap project entity)) eqn:Hdiff.
  { exists true. split; [done|]. split; [by left|done]. }
  destruct (getCircuitConnections (content project) entity) as [connections|] eqn:Hconn.
  2: { exists false. split; [done|]. split; [done|].
       intros [?|(cs & o & ? & _)]; done. }
  eexists. split; [reflexivity|].
  rewrite existsb_exists. split.
  - intros (other & Hin & Hnone). right. exists connections, other.
    apply list_elem_of_In, list_elem_of_fmap in Hin as ([o s] & -> & Hin).
    apply elem_of_map_to_list in Hin. apply bool_decide_eq_true in Hnone.
    split; [done|]. split; [by eexists|done].
  - intros [?|(cs & other & [= <-] & [s Hs] & Hnone)]; [done|].
    exists other. split; [|by apply bool_decide_eq_true].
    apply list_elem_of_In, list_elem_of_fmap. exists (other, s).
    split; [done|]. by apply elem_of_map_to_list.
Qed.

(** C9, amended.  The entity is marked as a settings remnant, and stays
    in the store, exactly when it has a stage diff or a circuit connection
    to an entity with no rendered instance at its first stage; the entity
    is one of these itself when a wire joins its own two connectors, and a
    cable is no such connection.  In every other case it is removed from
    the store and its rendered instances are deleted. *)
Theorem deleteEntityOrCreateSettingsRemnant_cases (project : Project) (entity : EntityRef) :
  (wouldLoseSettings project entity →
     deleteEntityOrCreateSettingsRemnant entity project
     = Returned (tt, {| heap := <[entity := setIsSettingsRemnant true (heap project entity)]>
                                  (heap project);
                        content := content project;
                        calls := calls project ++ [makeSettingsRemnant entity] |}))
  ∧ (¬ wouldLoseSettings project entity →
       deleteEntityOrCreateSettingsRemnant entity project
       = Returned (tt, {| heap := heap project;
                          content := AssemblyContent.delete (heap project)
                                       (content project) entity;
                          calls := calls project ++ [deleteWorldEntities entity] |})
       ∧ entity ∉ entities (AssemblyContent.delete (heap project) (content project) entity)).
Proof.
  destruct (shouldMakeSettingsRemnant_spec project entity) as (should & Hrun & Hiff).
  unfold deleteEntityOrCreateSettingsRemnant.
  rewrite !(bind_run _ _ _ _ _ Hrun).
  split.
  - intros Hlose. apply Hiff in Hlose as ->. reflexivity.
  - intros Hkeep. destruct should; [by destruct Hkeep; apply Hiff|].
    split; [reflexivity|]. rewrite DeleteFacts.delete_entities. set_solver.
Qed.

End Remnant.

(** Two entities at stage 1, neither rendered anywhere and neither with a
    stage diff. *)
Definition unrendered (name : string) : ProjectEntity :=
  {| core := AssemblyEntity.createAssemblyEntity {[ "name" := VStr name ]} (Pos.Pos 0 0) None 1;
     lastStage := None; isSettingsRemnant := false |}.
Definition twoUnrendered (name : string) : AssemblyContentImpl :=
  let heap : Heap := fun _ => unrendered name in
  add heap (add heap newAssemblyContent 1%positive) 2%positive.
Definition holding (name : string) (content : AssemblyContentImpl) : Project :=
  {| heap := fun _ => unrendered name; content := content; calls := [] |}.

(** Two poles joined by a cable, and a combinator whose output is wired to
    its own input. *)
Definition cabledPoles : Project :=
  holding "small-electric-pole"
    match addCableConnection (twoUnrendered "small-electric-pole")
            (EntityPoint 1%positive) (EntityPoint 2%positive) with
    | Returned (_, content) => content
    | Raised _ => twoUnrendered "small-electric-pole"
    end.
Definition ownWire : AsmCircuitConnection :=
  {| fromEntity := 1%positive; fromId := 2; toEntity := 1%positive; toId := 1; wire := 2 |}.
Definition selfWired : Project :=
  holding "arithmetic-combinator"
    (addCircuitConnection (twoUnrendered "arithmetic-combinator") ownWire).2.

(** What is left of entity 1 after a run: its flag, whether the store
    holds it, and the calls made. *)
Definition outcomeOf (run : outcome (unit * Project))
    : option (bool * bool * list WorldCall) :=
  match run with
  | Returned (_, project) =>
      Some (isSettingsRemnant (heap project 1%positive),
            has (content project) 1%positive, calls project)
  | Raised _ => None
  end.

(** C9, the claim as stated fails, twice.  A pole whose only connection is
    a cable to a pole with no rendered instance is removed from the store:
    cables are not looked at.  A combinator with no rendered instance and
    no connection to another entity, but with a wire between its own two
    connectors, is kept as a settings remnant: the wire is an entry of its
    circuit connections under the entity itself. *)
Lemma deleteEntityOrCreateSettingsRemnant_cable_and_own_wire :
  (addCableConnection (twoUnrendered "small-electric-pole")
     (EntityPoint 1%positive) (EntityPoint 2%positive)
   = Returned (Added, content cabledPoles)
   ∧ hasStageDiff (heap cabledPoles 1%positive) = false
   ∧ (getCableConnections (content cabledPoles) (EntityPoint 1%positive)).1
     = Some {[ EntityPoint 2%positive ]}
   ∧ getWorldEntity (heap cabledPoles 2%positive) (firstStage (heap cabledPoles 1%positive))
     = None
   ∧ outcomeOf (deleteEntityOrCreateSettingsRemnant 1%positive cabledPoles)
     = Some (false, false, [deleteWorldEntities 1%positive]))
  ∧ ((addCircuitConnection (twoUnrendered "arithmetic-combinator") ownWire).1 = true
     ∧ hasStageDiff (heap selfWired 1%positive) = false
     ∧ getCircuitConnections (content selfWired) 1%positive
       = Some {[ 1%positive := {[ ownWire ]} ]}
     ∧ getCircuitConnections (content selfWired) 2%positive = None
     ∧ outcomeOf (deleteEntityOrCreateSettingsRemnant 1%positive selfWired)
       = Some (true, true, [makeSettingsRemnant 1%positive])).
Proof. repeat split; by vm_compute. Qed.

End RemnantFacts.

(* ===================================================================== *)
(** ** Moving the first stage *)
(* ===================================================================== *)

Module StageMoveFacts.
Import Util Diff ProjectEntity Connections AssemblyContent ProjectUpdates UpdateFacts.

Lemma moveToLayer_baseLayer this layer :
  ∃ this', AssemblyEntity.moveToLayer this layer = Returned this'
           ∧ AssemblyEntity.baseLayer this' = layer.
Proof.
  unfold AssemblyEntity.moveToLayer. case_bool_decide as Hup.
  - unfold AssemblyEntity.moveUp, assert. rewrite bool_decide_eq_true_2 by done. simpl.
    destruct (AssemblyEntity.foldChangesUpTo _ _ _ _). simpl. eauto.
  - case_bool_decide as Hdown.
    + unfold AssemblyEntity.moveDown, assert. rewrite bool_decide_eq_true_2 by done.
      simpl. eauto.
    + exists this. split; [done|]. lia.
Qed.

Lemma setFirstStageUnchecked_firstStage this stage :
  ∃ this', setFirstStageUnchecked this stage = Returned this'
           ∧ firstStage this' = stage
           ∧ lastStage this' = lastStage this
           ∧ isSettingsRemnant this' = isSettingsRemnant this.
Proof.
  unfold setFirstStageUnchecked.
  destruct (moveToLayer_baseLayer (core this) stage) as (c & -> & Hc). simpl. eauto.
Qed.

Section StageMove.
Variable imports : Imports.

(** What [checkCanSetFirstStage] answers; it reads the project and leaves
    it as it is. *)
Definition firstStageVerdict (project : Project) (entity : EntityRef) (stage : StageNumber)
    : StageMoveResult.t :=
  let this := heap project entity in
  if isSettingsRemnant this || bool_decide (firstStage this = stage)
  then StageMoveResult.NoChange
  else if match lastStage this with Some l => bool_decide (stage > l) | None => false end
  then StageMoveResult.CannotMovePastLastStage
  else if bool_decide (stage >= firstStage this) then StageMoveResult.Updated
  else
    match findCompatibleWithExistingEntity (info imports) (heap project) (content project)
            entity stage with
    | None => StageMoveResult.Updated
    | Some found =>
        if bool_decide (found = entity) then StageMoveResult.Updated
        else StageMoveResult.IntersectsAnotherEntity
    end.

Lemma checkCanSetFirstStage_run project entity stage :
  checkCanSetFirstStage imports entity stage project
  = Returned (firstStageVerdict project entity stage, project).
Proof.
  unfold checkCanSetFirstStage, firstStageVerdict, firstStageChangeWillIntersect.
  unfold read, getHeap, getContent, mbind, Update_bind, mret, Update_ret. simpl.
  destruct (isSettingsRemnant (heap project entity) || _); [done|].
  destruct (match lastStage (heap project entity) with Some _ => _ | None => _ end); [done|].
  case_bool_decide; [done|].
  destruct (findCompatibleWithExistingEntity _ _ _ _ _) as [found|]; simpl; [|done].
  destruct (decide (found = entity)) as [->|Hne].
  - by rewrite !bool_decide_eq_true_2.
  - by rewrite !(bool_decide_eq_false_2 (Some found = Some entity)),
      (bool_decide_eq_false_2 (found = entity)) by congruence.
Qed.

Lemma trySetFirstStage_run project entity stage :
  trySetFirstStage imports entity stage project
  = match firstStageVerdict project entity stage with
    | StageMoveResult.Updated =>
        match setFirstStageUnchecked (heap project entity) stage with
        | Returned this' =>
            Returned (StageMoveResult.Updated,
                      {| heap := <[entity := this']> (heap project);
                         content := content project;
                         calls := calls project
                                  ++ [updateWorldEntities entity
                                        (Z.min (firstStage (heap project entity)) stage)
                                        None] |})
        | Raised msg => Raised msg
        end
    | verdict => Returned (verdict, project)
    end.
Proof.
  unfold trySetFirstStage. rewrite (bind_run _ _ _ _ _ (checkCanSetFirstStage_run _ _ _)).
  destruct (firstStageVerdict project entity stage); try reflexivity.
  unfold read, invoke, world, mbind, Update_bind, mret, Update_ret. simpl.
  unfold mbind, outcome_bind.
  by destruct (setFirstStageUnchecked (heap project entity) stage).
Qed.

(** Another entity stands where the entity stands, with its name or
    category and its direction, and its stage range holds the stage. *)
Definition occupiedBy (project : Project) (entity other : EntityRef)
    (stage : StageNumber) : Prop :=
  let this := heap project entity in
  other ≠ entity
  ∧ other ∈ Map2D_get (byPosition (content project))
              (Pos.x (position this)) (Pos.y (position this))
  ∧ ResolverFacts.isCandidate (info imports) (heap project)
      (default "" (nameOf (firstValue this))) (Some (getDirection this)) stage other
  ∧ firstStage (heap project other) ≤ stage.

(** The type the resolver reads for an entity of the store. *)
Definition typeOfEntity (project : Project) (entity : EntityRef) : string :=
  default "unknown"
    (nameToType (info imports) !! default "" (nameOf (firstValue (heap project entity)))).

(** The underground direction the resolver reads for an entity of the
    store. *)
Definition undergroundDirectionOf (project : Project) (entity : EntityRef) : Z :=
  let this := heap project entity in
  getUndergroundDirection (info imports) (getDirection this)
    (match firstValue this !! "type" with
     | Some (VStr t) => Some t
     | _ => None
     end).

(** Another underground belt stands where the entity stands, its stage
    range holds the stage, and it has the entity's underground direction,
    as has every underground belt there that reaches the stage and starts
    no later. *)
Definition occupiedByUnderground (project : Project) (entity other : EntityRef)
    (stage : StageNumber) : Prop :=
  let this := heap project entity in
  let bucket :=
    Map2D_get (byPosition (content project)) (Pos.x (position this)) (Pos.y (position this)) in
  other ≠ entity
  ∧ other ∈ bucket
  ∧ ResolverFacts.isCandidate (info imports) (heap project) "underground-belt" None stage
      other
  ∧ firstStage (heap project other) ≤ stage
  ∧ ∀ lower,
      lower ∈ bucket →
      ResolverFacts.isCandidate (info imports) (heap project) "underground-belt" None stage
        lower →
      firstStage (heap project lower) ≤ firstStage (heap project other) →
      undergroundDirectionOf project lower = undergroundDirectionOf project entity.

Lemma findCompatibleByProps_finds (project : Project) (name : string)
    (position : Pos.Position) (direction : option Z) (stage : StageNumber)
    (other : EntityRef) :
  other ∈ Map2D_get (byPosition (content project)) (Pos.x position) (Pos.y position) →
  ResolverFacts.isCandidate (info imports) (heap project) name direction stage other →
  ∃ found,
    findCompatibleByProps (info imports) (heap project) (content project) name position
      direction stage = Some found
    ∧ found ∈ Map2D_get (byPosition (content project)) (Pos.x position) (Pos.y position)
    ∧ ResolverFacts.isCandidate (info imports) (heap project) name direction stage found
    ∧ firstStage (heap project found) ≤ firstStage (heap project other).
Proof.
  intros Hin Hcand. unfold findCompatibleByProps.
  destruct (Map2D_get (byPosition (content project)) (Pos.x position) (Pos.y position))
    as [|cur rest] eqn:Hbucket; [by apply elem_of_nil in Hin|].
  pose proof (ResolverFacts.findCompatibleLoop_bestOf (info imports) (heap project)
                name direction stage (cur :: rest) [] None) as Hbest.
  specialize (Hbest ltac:(by intros ? ?%elem_of_nil)).
  rewrite app_nil_l in Hbest.
  destruct (findCompatibleLoop _ _ _ _ _ _ (cur :: rest) None) as [found|].
  - exists found. split; [done|]. destruct Hbest as (Hfound & Hpasses & Hmin).
    split; [done|]. split; [done|]. by apply Hmin.
  - exfalso. apply (Hbest other Hin Hcand).
Qed.

(** For an entity that is neither an underground belt nor rolling stock,
    a stage below its first stage that another entity occupies is found
    to intersect, whatever the rotation type of its shape. *)
Lemma occupied_stage_is_found (project : Project) (entity other : EntityRef)
    (stage : StageNumber) :
  typeOfEntity project entity ≠ "underground-belt" →
  typeOfEntity project entity ∉ rollingStockTypes (info imports) →
  occupiedBy project entity other stage →
  stage < firstStage (heap project entity) →
  ∃ found,
    findCompatibleWithExistingEntity (info imports) (heap project) (content project)
      entity stage = Some found
    ∧ found ≠ entity.
Proof.
  unfold typeOfEntity, occupiedBy. cbn zeta.
  set (this := heap project entity). set (name := default "" (nameOf (firstValue this))).
  intros Htype Hrolling (_ & Hin & Hcand & Hfirst) Hlt.
  assert (Hany : ResolverFacts.isCandidate (info imports) (heap project) name None stage
                   other).
  { destruct Hcand as (_ & ? & ?). split; [by left|done]. }
  assert (Hfound : ∀ direction,
            ResolverFacts.isCandidate (info imports) (heap project) name direction stage
              other →
            ∃ found,
              findCompatibleByProps (info imports) (heap project) (content project) name
                (position this) direction stage = Some found
              ∧ found ≠ entity).
  { intros direction Hdir.
    destruct (findCompatibleByProps_finds project name (position this) direction stage
                other Hin Hdir) as (found & Hrun & _ & _ & Hmin).
    exists found. split; [done|]. intros ->. fold this in Hmin. lia. }
  unfold findCompatibleWithExistingEntity, findCompatibleWithLuaEntity. simpl.
  fold this. fold name.
  rewrite (bool_decide_eq_false_2 _ Htype), (bool_decide_eq_false_2 _ Hrolling).
  destruct (getPasteRotatableType (info imports) name) as [[]|]; simpl.
  - by apply Hfound.
  - case_bool_decide; [by apply Hfound|].
    destruct (Hfound _ Hcand) as (found & -> & Hne). by exists found.
  - by apply Hfound.
Qed.

(** For an underground belt, a stage below its first stage that another
    underground belt of its underground direction occupies is found to
    intersect. *)
Lemma underground_stage_is_found (project : Project) (entity other : EntityRef)
    (stage : StageNumber) :
  typeOfEntity project entity = "underground-belt" →
  occupiedByUnderground project entity other stage →
  stage < firstStage (heap project entity) →
  ∃ found,
    findCompatibleWithExistingEntity (info imports) (heap project) (content project)
      entity stage = Some found
    ∧ found ≠ entity.
Proof.
  unfold typeOfEntity, occupiedByUnderground, undergroundDirectionOf. cbn zeta.
  set (this := heap project entity).
  intros Htype (_ & Hin & Hcand & Hfirst & Hsame) Hlt.
  destruct (findCompatibleByProps_finds project "underground-belt" (position this) None
              stage other Hin Hcand) as (found & Hrun & Hfound & Hpasses & Hmin).
  exists found. split; [|intros ->; fold this in Hmin; lia].
  assert (isUndergroundBelt (info imports) this = true) as Hbelt.
  { unfold isUndergroundBelt. apply bool_decide_eq_true_2.
    destruct (nameToType (info imports) !! default "" (nameOf (firstValue this)))
      as [type|] eqn:Hname; simpl in Htype; [by subst|done]. }
  unfold findCompatibleWithExistingEntity, findCompatibleWithLuaEntity. simpl.
  fold this. rewrite Htype, Hbelt, Hrun.
  rewrite (bool_decide_eq_true_2 ("underground-belt" = "underground-belt")) by done.
  by rewrite bool_decide_eq_true_2 by by apply Hsame.
Qed.

(** Rolling stock is looked up by its registered instance only: for an
    entity of the store, which is no instance, nothing is found. *)
Lemma rolling_stock_is_not_found (project : Project) (entity : EntityRef)
    (stage : StageNumber) :
  typeOfEntity project entity ≠ "underground-belt" →
  typeOfEntity project entity ∈ rollingStockTypes (info imports) →
  findCompatibleWithExistingEntity (info imports) (heap project) (content project)
    entity stage = None.
Proof.
  unfold typeOfEntity. intros Htype Hrolling.
  unfold findCompatibleWithExistingEntity, findCompatibleWithLuaEntity. simpl.
  by rewrite (bool_decide_eq_false_2 _ Htype), (bool_decide_eq_true_2 _ Hrolling).
Qed.

(** A found entity other than the entity itself refuses the move down. *)
Lemma firstStageVerdict_refused (project : Project) (entity : EntityRef)
    (stage : StageNumber) (found : EntityRef) :
  isSettingsRemnant (heap project entity) = false →
  stage < firstStage (heap project entity) →
  (∀ l, lastStage (heap project entity) = Some l → stage ≤ l) →
  findCompatibleWithExistingEntity (info imports) (heap project) (content project)
    entity stage = Some found →
  found ≠ entity →
  firstStageVerdict project entity stage = StageMoveResult.IntersectsAnotherEntity.
Proof.
  intros Hremnant Hlt Hlast Hfound Hne. unfold firstStageVerdict.
  rewrite Hremnant, Hfound. simpl.
  rewrite bool_decide_eq_false_2 by lia.
  assert (match lastStage (heap project entity) with
          | Some l => bool_decide (stage > l)
          | None => false
          end = false) as ->.
  { destruct (lastStage (heap project entity)) as [l|] eqn:Hl; [|done].
    specialize (Hlast l eq_refl). apply bool_decide_eq_false_2. lia. }
  rewrite bool_decide_eq_false_2 by lia.
  by rewrite bool_decide_eq_false_2.
Qed.

(** C7, amended.  For an entity that is not a settings remnant:
    [trySetFirstStage] answers [IntersectsAnotherEntity], with the project
    as it was and no call to the world, when the stage is below the first
    stage, not past the last stage, and occupied by another entity at the
    same position: for an entity that is neither an underground belt nor
    rolling stock, one with the entity's name or category and its
    direction; for an underground belt, an underground belt with its
    underground direction, none of another underground direction starting
    as early.  For rolling stock it never gives this answer.  It answers
    [CannotMovePastLastStage], again with nothing changed, when the stage
    is past the entity's last stage; whenever the answer is not [Updated]
    nothing is changed; and an answer of [Updated] comes with the first
    stage set to the stage and one call to [updateWorldEntities] from the
    smaller of the old and the new first stage.  The call always
    returns. *)
Theorem trySetFirstStage_cases (project : Project) (entity : EntityRef)
    (stage : StageNumber) :
  isSettingsRemnant (heap project entity) = false →
  (stage < firstStage (heap project entity) →
   (∀ l, lastStage (heap project entity) = Some l → stage ≤ l) →
   typeOfEntity project entity ≠ "underground-belt" →
   typeOfEntity project entity ∉ rollingStockTypes (info imports) →
   (∃ other, occupiedBy project entity other stage) →
   trySetFirstStage imports entity stage project
   = Returned (StageMoveResult.IntersectsAnotherEntity, project))
  ∧ (stage < firstStage (heap project entity) →
     (∀ l, lastStage (heap project entity) = Some l → stage ≤ l) →
     typeOfEntity project entity = "underground-belt" →
     (∃ other, occupiedByUnderground project entity other stage) →
     trySetFirstStage imports entity stage project
     = Returned (StageMoveResult.IntersectsAnotherEntity, project))
  ∧ (typeOfEntity project entity ≠ "underground-belt" →
     typeOfEntity project entity ∈ rollingStockTypes (info imports) →
     ∀ project', trySetFirstStage imports entity stage project
                 ≠ Returned (StageMoveResult.IntersectsAnotherEntity, project'))
  ∧ (stage ≠ firstStage (heap project entity) →
     (∃ l, lastStage (heap project entity) = Some l ∧ l < stage) →
     trySetFirstStage imports entity stage project
     = Returned (StageMoveResult.CannotMovePastLastStage, project))
  ∧ (∃ verdict project',
       trySetFirstStage imports entity stage project = Returned (verdict, project')
       ∧ (verdict ≠ StageMoveResult.Updated → project' = project)
       ∧ (verdict = StageMoveResult.Updated →
          firstStage (heap project' entity) = stage
          ∧ (∀ other, other ≠ entity → heap project' other = heap project other)
          ∧ content project' = content project
          ∧ calls project'
            = calls project
              ++ [updateWorldEntities entity
                    (Z.min (firstStage (heap project entity)) stage) None])).
Proof.
  intros Hremnant. rewrite trySetFirstStage_run.
  split.
  { intros Hlt Hlast Htype Hrolling [other Hother].
    destruct (occupied_stage_is_found project entity other stage Htype Hrolling Hother Hlt)
      as (found & Hfound & Hne).
    by rewrite (firstStageVerdict_refused project entity stage found). }
  split.
  { intros Hlt Hlast Htype [other Hother].
    destruct (underground_stage_is_found project entity other stage Htype Hother Hlt)
      as (found & Hfound & Hne).
    by rewrite (firstStageVerdict_refused project entity stage found). }
  unfold firstStageVerdict. rewrite Hremnant. simpl. split; [|split].
  - intros Htype Hrolling project'.
    rewrite (rolling_stock_is_not_found project entity stage Htype Hrolling).
    destruct (setFirstStageUnchecked (heap project entity) stage);
      repeat case_match; congruence.
  - intros Hne (l & Hl & Hpast). rewrite bool_decide_eq_false_2 by done.
    rewrite Hl. by rewrite bool_decide_eq_true_2 by lia.
  - destruct (setFirstStageUnchecked_firstStage (heap project entity) stage)
      as (this' & Hset & Hfirst & _).
    rewrite Hset.
    assert (∀ verdict : StageMoveResult.t,
              verdict ≠ StageMoveResult.Updated →
              ∃ v p', Returned (verdict, project) = Returned (v, p')
                      ∧ (v ≠ StageMoveResult.Updated → p' = project)
                      ∧ (v = StageMoveResult.Updated →
                         firstStage (heap p' entity) = stage
                         ∧ (∀ other, other ≠ entity → heap p' other = heap project other)
                         ∧ content p' = content project
                         ∧ calls p'
                           = calls project
                             ++ [updateWorldEntities entity
                                   (Z.min (firstStage (heap project entity)) stage) None]))
      as Hrejected.
    { intros verdict Hv. exists verdict, project. split; [done|]. split; [done|]. done. }
    assert (∃ v p',
              Returned (StageMoveResult.Updated,
                        {| heap := <[entity := this']> (heap project);
                           content := content project;
                           calls := calls project
                                    ++ [updateWorldEntities entity
                                          (Z.min (firstStage (heap project entity)) stage)
                                          None] |})
              = Returned (v, p')
              ∧ (v ≠ StageMoveResult.Updated → p' = project)
              ∧ (v = StageMoveResult.Updated →
                 firstStage (heap p' entity) = stage
                 ∧ (∀ other, other ≠ entity → heap p' other = heap project other)
                 ∧ content p' = content project
                 ∧ calls p'
                   = calls project
                     ++ [updateWorldEntities entity
                           (Z.min (firstStage (heap project entity)) stage) None]))
      as Haccepted.
    { eexists _, _. split; [reflexivity|]. split; [done|]. intros _. simpl.
      rewrite fn_lookup_insert. split; [done|]. split; [|done].
      intros other Hother. by rewrite fn_lookup_insert_ne. }
    repeat case_match; solve [exact Haccepted | by apply Hrejected].
Qed.

End StageMove.

(** No prototype is special, no collaborator does anything. *)
Definition plainInfo : EntityPrototypeInfo :=
  {| nameToType := ∅; nameToCategory := ∅;
     getPasteRotatableType := fun _ => None;
     rollingStockTypes := ∅;
     getRegisteredAssemblyEntity := fun _ => None;
     getUndergroundDirection := fun d _ => d |}.
Definition plainImports : Imports :=
  {| info := plainInfo;
     areUpgradeableTypes := fun _ _ => true;
     canBeAnyDirection := fun _ => false;
     saveEntity := fun _ known => known;
     findUndergroundPair := fun _ _ _ _ => None |}.

(** Two inserters at one position: the first lives in stages 1 to 2, the
    second from stage 3 on. *)
Definition inserterAt (stage : StageNumber) (last : option StageNumber) (remnant : bool)
    : ProjectEntity :=
  {| core := AssemblyEntity.createAssemblyEntity {[ "name" := VStr "inserter" ]}
               (Pos.Pos 0 0) None stage;
     lastStage := last; isSettingsRemnant := remnant |}.
Definition stackedHeap (remnant : bool) : Heap :=
  fun entity => if bool_decide (entity = 1%positive) then inserterAt 1 (Some 2) remnant
                else inserterAt 3 None false.
Definition stackedProject (remnant : bool) : Project :=
  {| heap := stackedHeap remnant;
     content := add (stackedHeap remnant)
                  (add (stackedHeap remnant) newAssemblyContent 1%positive) 2%positive;
     calls := [] |}.

(** Two locomotives at one position, the first in stages 1 to 2, the
    second from stage 3 on; and two underground belts likewise, the first
    an output, the second an input. *)
Definition kindsInfo : EntityPrototypeInfo :=
  {| nameToType := {[ "locomotive" := "locomotive";
                      "underground-belt" := "underground-belt" ]};
     nameToCategory := ∅;
     getPasteRotatableType := fun name =>
       if bool_decide (name = "storage-tank") then Some Flippable else None;
     rollingStockTypes := {[ "locomotive" ]};
     getRegisteredAssemblyEntity := fun _ => None;
     getUndergroundDirection := fun d type =>
       if bool_decide (type = Some "output") then Factorio.oppositedirection d else d |}.
Definition kindsImports : Imports :=
  {| info := kindsInfo;
     areUpgradeableTypes := fun _ _ => true;
     canBeAnyDirection := fun _ => false;
     saveEntity := fun _ known => known;
     findUndergroundPair := fun _ _ _ _ => None |}.
Definition facing (direction1 : option Z) (value1 value2 : Entity) : Project :=
  let heap : Heap := fun entity =>
    if bool_decide (entity = 1%positive)
    then {| core := AssemblyEntity.createAssemblyEntity value1 (Pos.Pos 0 0) direction1 1;
            lastStage := Some 2; isSettingsRemnant := false |}
    else {| core := AssemblyEntity.createAssemblyEntity value2 (Pos.Pos 0 0) None 3;
            lastStage := None; isSettingsRemnant := false |} in
  {| heap := heap;
     content := add heap (add heap newAssemblyContent 1%positive) 2%positive;
     calls := [] |}.
Definition stackedOf (value1 value2 : Entity) : Project := facing None value1 value2.
Definition trainProject : Project :=
  stackedOf {[ "name" := VStr "locomotive" ]} {[ "name" := VStr "locomotive" ]}.
Definition beltProject : Project :=
  stackedOf {[ "name" := VStr "underground-belt"; "type" := VStr "output" ]}
            {[ "name" := VStr "underground-belt"; "type" := VStr "input" ]}.
Definition inputsProject : Project :=
  stackedOf {[ "name" := VStr "underground-belt"; "type" := VStr "input" ]}
            {[ "name" := VStr "underground-belt"; "type" := VStr "input" ]}.
Definition tankProject : Project :=
  facing (Some 4) {[ "name" := VStr "storage-tank" ]} {[ "name" := VStr "storage-tank" ]}.

(** The answer of a run. *)
Definition answer {A} (run : outcome (A * Project)) : option A :=
  match run with
  | Returned (a, _) => Some a
  | Raised _ => None
  end.

Lemma stackedOf_occupied (imports : Imports) (value1 value2 : Entity) (name : string) :
  nameOf value1 = Some name → nameOf value2 = Some name →
  occupiedBy imports (stackedOf value1 value2) 2%positive 1%positive 2.
Proof.
  intros Hname1 Hname2. split; [done|]. split.
  { vm_compute. apply list_elem_of_In. simpl. auto. }
  split; [|by vm_compute].
  split; [by right|]. split; [right; exists 2; by split|].
  left. change (nameOf value1 = Some (default "" (nameOf value2))).
  by rewrite Hname1, Hname2.
Qed.

(** C7, the claim as stated fails, four times.  A settings remnant with
    last stage 2, asked to move its first stage to 5, past its last stage,
    is answered [NoChange].  The second of two locomotives at one position
    is moved down to stage 2, which the first one occupies: rolling stock
    is never found by the resolver.  The second of two underground belts
    at one position, an input, is moved down to stage 2, which the first
    one, an output facing the same way, occupies: the resolver drops a
    belt whose underground direction is the other one.  The second of two
    storage tanks at one position, which may be flipped, is moved down to
    stage 2, which the first one, facing the other way, occupies: the
    resolver looks for the tank's own direction first, and finds the tank
    itself. *)
Lemma trySetFirstStage_unrefused_moves :
  (lastStage (heap (stackedProject true) 1%positive) = Some 2
   ∧ isSettingsRemnant (heap (stackedProject true) 1%positive) = true
   ∧ trySetFirstStage plainImports 1%positive 5 (stackedProject true)
     = Returned (StageMoveResult.NoChange, stackedProject true))
  ∧ (occupiedBy kindsImports trainProject 2%positive 1%positive 2
     ∧ answer (trySetFirstStage kindsImports 2%positive 2 trainProject)
       = Some StageMoveResult.Updated)
  ∧ (occupiedBy kindsImports beltProject 2%positive 1%positive 2
     ∧ answer (trySetFirstStage kindsImports 2%positive 2 beltProject)
       = Some StageMoveResult.Updated)
  ∧ (getPasteRotatableType kindsInfo "storage-tank" = Some Flippable
     ∧ 1%positive ∈ Map2D_get (byPosition (content tankProject)) 0 0
     ∧ ResolverFacts.isCandidate kindsInfo (heap tankProject) "storage-tank"
         (Some (Factorio.oppositedirection (getDirection (heap tankProject 2%positive))))
         2 1%positive
     ∧ firstStage (heap tankProject 1%positive) ≤ 2
     ∧ answer (trySetFirstStage kindsImports 2%positive 2 tankProject)
       = Some StageMoveResult.Updated).
Proof.
  split; [by repeat split|]. split; [|split].
  - split; [by apply (stackedOf_occupied _ _ _ "locomotive")|by vm_compute].
  - split; [by apply (stackedOf_occupied _ _ _ "underground-belt")|by vm_compute].
  - split; [done|]. split.
    { vm_compute. apply list_elem_of_In. simpl. auto. }
    split; [|by vm_compute].
    split; [by right|]. split; [right; exists 2; by split|]. by left.
Qed.

(** The second inserter cannot move down to stage 2, where the first one
    is, and neither can the second of two underground inputs. *)
Lemma trySetFirstStage_cases_witness :
  isSettingsRemnant (heap (stackedProject false) 2%positive) = false
  ∧ trySetFirstStage plainImports 2%positive 2 (stackedProject false)
    = Returned (StageMoveResult.IntersectsAnotherEntity, stackedProject false)
  ∧ trySetFirstStage kindsImports 2%positive 2 inputsProject
    = Returned (StageMoveResult.IntersectsAnotherEntity, inputsProject).
Proof.
  split; [reflexivity|]. split; cycle 1.
  { apply (proj1 (proj2 (trySetFirstStage_cases kindsImports inputsProject 2%positive 2
                           eq_refl))).
    - reflexivity.
    - intros l Hl. discriminate Hl.
    - reflexivity.
    - exists 1%positive. split; [discriminate|]. split.
      { vm_compute. apply list_elem_of_In. simpl. auto. }
      split.
      { split; [by left|]. split; [right; exists 2; by split|]. by left. }
      split; [by vm_compute|].
      intros lower Hlower _ _.
      assert (lower = 2%positive ∨ lower = 1%positive) as [-> | ->]; [|done..].
      revert Hlower. vm_compute. intros Hlower%list_elem_of_In. simpl in Hlower.
      destruct Hlower as [<- | [<- | []]]; auto. }
  apply (proj1 (trySetFirstStage_cases plainImports (stackedProject false) 2%positive 2
                  eq_refl)).
  - reflexivity.
  - intros l Hl. discriminate Hl.
  - discriminate.
  - vm_compute. set_solver.
  - exists 1%positive. split; [discriminate|]. split.
    { vm_compute. apply list_elem_of_In. simpl. auto. }
    split; [|by vm_compute].
    split; [by right|]. split; [right; exists 2; by split|]. by left.
Defined.

End StageMoveFacts.

(* ===================================================================== *)
(** ** Rotations *)
(* ===================================================================== *)

Module RotationFacts.
Import Util Diff ProjectEntity Connections AssemblyContent ProjectUpdates UpdateFacts.


Section Rotation.
Variable imports : Imports.






(** At the first stage a rotation alone is taken over. *)
Lemma handleUpdate_rotates_at_first_stage project entity entitySource d :
  isUndergroundBelt (info imports) (heap project entity) = false →
  Some d ≠ direction (heap project entity) →
  canBeAnyDirection imports entitySource = false →
  ∃ project',
    handleUpdate imports entity entitySource (firstStage (heap project entity)) (Some d)
      None false None project
    = Returned (EntityUpdateResult.Updated, project')
    ∧ direction (heap project' entity) = Some d
    ∧ firstStage (heap project' entity) = firstStage (heap project entity).
Proof.
  intros Hkind Hdir Hany. unfold handleUpdate.
  rewrite (bind_run _ _ project (heap project entity) project) by reflexivity.
  rewrite Hkind, Hany, (bool_decide_eq_false_2 _ Hdir).
  rewrite (bool_decide_eq_true_2 (firstStage (heap project entity) = _)) by done.
  unfold when, write, read, world, mbind, Update_bind, mret, Update_ret. simpl.
  repeat case_match; simplify_eq/=;
    (eexists; split; [reflexivity|]); simpl; rewrite ?fn_lookup_insert; done.
Qed.

End Rotation.



End RotationFacts.

(* ===================================================================== *)
(** ** Upgrading an underground belt whose pair would change *)
(* ===================================================================== *)

Module UndergroundFacts.
Import Util Diff ProjectEntity Connections AssemblyContent ProjectUpdates UpdateFacts.

(** Three belts on a line: a pair of underground belts, entity 1 from stage
    1 and entity 2 from stage 2, and a fast underground belt, entity 3,
    between them.  The rendered instance of entity 1 at stage 2 is marked for
    upgrade to the fast belt. *)
Definition markedBelt : Factorio.LuaEntity :=
  {| Factorio.unit_number := 1; Factorio.valid := true;
     Factorio.name := "underground-belt"; Factorio.type := "underground-belt";
     Factorio.position := Pos.Pos 0 0; Factorio.direction := 6;
     Factorio.belt_to_ground_type := "input"; Factorio.loader_type := "input";
     Factorio.pickup_position := Pos.Pos 0 0; Factorio.drop_position := Pos.Pos 0 0;
     Factorio.upgrade_target := Some "fast-underground-belt";
     Factorio.upgrade_direction := None;
     Factorio.neighbours := None |}.

Definition belt (name type : string) (x : Z) (stage : StageNumber)
    (rendered : gmap string (gmap Z Factorio.LuaEntity)) : ProjectEntity :=
  {| core :=
       AssemblyEntity.setWorldEntities rendered
         (AssemblyEntity.createAssemblyEntity
            {[ "name" := VStr name; "type" := VStr type ]} (Pos.Pos x 0) (Some 6) stage);
     lastStage := None; isSettingsRemnant := false |}.

Definition beltHeap : Heap :=
  fun entity =>
    if bool_decide (entity = 1%positive)
    then belt "underground-belt" "input" 0 1 {[ "main" := {[ 2 := markedBelt ]} ]}
    else if bool_decide (entity = 2%positive)
    then belt "underground-belt" "output" (-3) 2 ∅
    else belt "fast-underground-belt" "output" (-2) 1 ∅.

Definition beltProject : Project :=
  {| heap := beltHeap;
     content := add beltHeap (add beltHeap (add beltHeap newAssemblyContent 1%positive)
                                2%positive) 3%positive;
     calls := [] |}.

(** The pair of entity 1 at a stage is the nearest belt of its name on the
    line: entity 2 while it is a plain underground belt there, the fast belt
    in between, entity 3, once it is a fast one. *)
Definition beltImports : Imports :=
  {| info :=
       {| nameToType := {[ "underground-belt" := "underground-belt";
                           "fast-underground-belt" := "underground-belt" ]};
          nameToCategory := ∅;
          getPasteRotatableType := fun _ => None;
          rollingStockTypes := ∅;
          getRegisteredAssemblyEntity := fun _ => None;
          getUndergroundDirection := fun d type =>
            if bool_decide (type = Some "output") then Factorio.oppositedirection d else d |};
     areUpgradeableTypes := fun _ _ => true;
     canBeAnyDirection := fun _ => false;
     saveEntity := fun _ known => known;
     findUndergroundPair := fun heap _ entity stage =>
       if bool_decide (entity = 1%positive) then
         if bool_decide (getNameAtStage (heap 1%positive) stage = Some "underground-belt")
         then Some 2%positive else Some 3%positive
       else None |}.

(** C4, where the code misses: the upgrade is seen at stage 2, the first
    stage of the pair and not of entity 1.  It is applied to entity 1 at its
    own first stage, 1, and found to change the pair; the rollback is applied
    at stage 2.  The answer is [CannotUpgradeChangedPair], the pair is as
    before, and entity 1 is not: its first value stays upgraded, and it has
    got a diff at stage 2 that names the old belt. *)
Lemma upgrade_rollback_misses_first_stage :
  ∃ project',
    tryUpgradeEntityFromWorld beltImports 1%positive 2 beltProject
    = Returned (EntityUpdateResult.CannotUpgradeChangedPair, project')
    ∧ nameOf (firstValue (heap beltProject 1%positive)) = Some "underground-belt"
    ∧ stageDiffs (heap beltProject 1%positive) = ∅
    ∧ nameOf (firstValue (heap project' 1%positive)) = Some "fast-underground-belt"
    ∧ stageDiffs (heap project' 1%positive)
      = {[ 2 := {[ "name" := Prop_ (VStr "underground-belt") ]} ]}
    ∧ firstValue (heap project' 2%positive) = firstValue (heap beltProject 2%positive)
    ∧ stageDiffs (heap project' 2%positive) = stageDiffs (heap beltProject 2%positive)
    ∧ calls project' = [refreshWorldEntityAtStage 1%positive 2;
                        refreshWorldEntityAtStage 2%positive 2].
Proof.
  eexists. split; [vm_compute; reflexivity|].
  repeat split; vm_compute; reflexivity.
Qed.

End UndergroundFacts.

(* ===================================================================== *)
(** ** The circuit index stays trimmed and symmetric *)
(* ===================================================================== *)

Module CircuitInvariantFacts.
Import Util ProjectEntity Connections AssemblyContent CircuitFacts.

Lemma symmetricIndex_indexAfterAdd c map :
  symmetricIndex map → symmetricIndex (indexAfterAdd c map).
Proof.
  intros Hsym a b c'. rewrite !connectionsAt_indexAfterAdd.
  specialize (Hsym a b c').
  repeat case_decide; set_solver.
Qed.

Lemma symmetricIndex_removed c map :
  symmetricIndex map →
  symmetricIndex (removeIn (toEntity c) (fromEntity c) c
                    (removeIn (fromEntity c) (toEntity c) c map)).
Proof.
  intros Hsym a b c'. rewrite !connectionsAt_removeIn.
  specialize (Hsym a b c').
  repeat (case_decide; simplify_eq); try naive_solver; set_solver.
Qed.

(** [addCircuitConnection] and [removeCircuitConnection] keep the circuit
    index symmetric and free of emptied maps and sets; the new store has
    such an index. *)
Lemma addCircuitConnection_keeps_index this c :
  trimmed (circuitConnections this) → symmetricIndex (circuitConnections this) →
  trimmed (circuitConnections (addCircuitConnection this c).2)
  ∧ symmetricIndex (circuitConnections (addCircuitConnection this c).2).
Proof.
  intros Htrim Hsym. destruct (addCircuitConnection this c) as [[] this'] eqn:Hadd.
  - apply addCircuitConnection_true in Hadd as (_ & _ & _ & ->). simpl.
    split; [by apply trimmed_indexAfterAdd|by apply symmetricIndex_indexAfterAdd].
  - pose proof (addCircuitConnection_false this c) as Hsame.
    rewrite Hadd in Hsame. simpl in *. by rewrite Hsame.
Qed.

Lemma removeCircuitConnection_keeps_index this c :
  trimmed (circuitConnections this) → symmetricIndex (circuitConnections this) →
  trimmed (circuitConnections (removeCircuitConnection this c))
  ∧ symmetricIndex (circuitConnections (removeCircuitConnection this c)).
Proof.
  intros Htrim Hsym. unfold removeCircuitConnection.
  destruct (circuitConnections this !! fromEntity c); [|done].
  destruct (circuitConnections this !! toEntity c); [|done]. simpl.
  split; [by do 2 apply trimmed_removeIn|by apply symmetricIndex_removed].
Qed.

Lemma newAssemblyContent_index :
  trimmed (circuitConnections newAssemblyContent)
  ∧ symmetricIndex (circuitConnections newAssemblyContent).
Proof. split; [apply trimmed_empty|apply symmetricIndex_empty]. Qed.

End CircuitInvariantFacts.

(* ===================================================================== *)
(** ** The repository's tests, run on the embedding *)
(* ===================================================================== *)

Module Tests.
Import Util Diff ProjectEntity Connections AssemblyContent ProjectUpdates.
Import StageMoveFacts.

(** AsmCircuitConnection.test.ts, "circuitConnectionEquals" *)
Example circuitConnectionEquals_test :
  let circuitConnectionA :=
    {| fromEntity := 1%positive; fromId := 1; toEntity := 2%positive; toId := 2; wire := 2 |} in
  let identical := circuitConnectionA in
  let circuitConnectionB :=
    {| toEntity := 1%positive; toId := 1; fromEntity := 2%positive; fromId := 2; wire := 2 |} in
  let different :=
    {| toEntity := 1%positive; toId := 2; fromEntity := 1%positive; fromId := 1; wire := 2 |} in
  circuitConnectionEquals circuitConnectionA identical = true
  ∧ circuitConnectionEquals circuitConnectionA circuitConnectionB = true
  ∧ circuitConnectionEquals circuitConnectionA different = false
  ∧ circuitConnectionEquals circuitConnectionB different = false.
Proof. repeat split. Qed.

(** cable-connection tests *)
Example isPowerSwitchConnectionPoint_test :
  isPowerSwitchConnectionPoint (EntityPoint 1) = false
  ∧ isPowerSwitchConnectionPoint (PowerSwitchPoint 1 1) = true
  ∧ getEntityOfConnectionPoint (EntityPoint 1) = 1%positive
  ∧ getEntityOfConnectionPoint (PowerSwitchPoint 1 1) = 1%positive.
Proof. repeat split. Qed.

(** A project with one inserter, from the given stage on. *)
Definition loneProject (stage : StageNumber) (last : option StageNumber) (remnant : bool)
    : Project :=
  {| heap := fun _ => inserterAt stage last remnant;
     content := add (fun _ => inserterAt stage last remnant) newAssemblyContent 1%positive;
     calls := [] |}.

(** What a test reads after a stage move: the answer, the entity's first
    stage, and the calls to the world. *)
Definition moved (run : outcome (StageMoveResult.t * Project))
    : option (StageMoveResult.t * StageNumber * list WorldCall) :=
  match run with
  | Returned (result, project) =>
      Some (result, firstStage (heap project 1%positive), calls project)
  | Raised _ => None
  end.

(** "trySetFirstStage": "can move up" *)
Example trySetFirstStage_can_move_up :
  moved (trySetFirstStage plainImports 1%positive 2 (loneProject 1 None false))
  = Some (StageMoveResult.Updated, 2, [updateWorldEntities 1%positive 1 None]).
Proof. reflexivity. Qed.

(** "can move down to preview" *)
Example trySetFirstStage_can_move_down :
  moved (trySetFirstStage plainImports 1%positive 3 (loneProject 4 None false))
  = Some (StageMoveResult.Updated, 3, [updateWorldEntities 1%positive 3 None]).
Proof. vm_compute. reflexivity. Qed.

(** "ignores settings remnants" *)
Example trySetFirstStage_ignores_settings_remnants :
  moved (trySetFirstStage plainImports 1%positive 2 (loneProject 1 None true))
  = Some (StageMoveResult.NoChange, 1, []).
Proof. reflexivity. Qed.

(** "returns no-change if already at stage" *)
Example trySetFirstStage_already_at_stage :
  moved (trySetFirstStage plainImports 1%positive 1 (loneProject 1 None false))
  = Some (StageMoveResult.NoChange, 1, []).
Proof. reflexivity. Qed.

(** "cannot move past last stage" *)
Example trySetFirstStage_cannot_move_past_last_stage :
  moved (trySetFirstStage plainImports 1%positive 5 (loneProject 1 (Some 2) false))
  = Some (StageMoveResult.CannotMovePastLastStage, 1, []).
Proof. reflexivity. Qed.

(** "deleteEntityOrCreateSettingsRemnant": what a test reads after it. *)
Definition deleted (run : outcome (unit * Project))
    : option (bool * list EntityRef * list WorldCall) :=
  match run with
  | Returned (_, project) =>
      Some (isSettingsRemnant (heap project 1%positive),
            elements (entities (content project)), calls project)
  | Raised _ => None
  end.

(** "deletes normal entity" *)
Example deleteEntity_deletes_normal_entity :
  deleted (deleteEntityOrCreateSettingsRemnant 1%positive (loneProject 1 None false))
  = Some (false, [], [deleteWorldEntities 1%positive]).
Proof. vm_compute. reflexivity. Qed.

(** The inserter with [{override_stack_size = 2}] applied at stage 2. *)
Definition adjustedProject : Project :=
  {| heap := fun _ =>
       match applyDiffAtStage (inserterAt 1 None false) 2
               {[ "override_stack_size" := Prop_ (VNum 2) ]} with
       | Returned this => this
       | Raised _ => inserterAt 1 None false
       end;
     content := content (loneProject 1 None false);
     calls := [] |}.

(** "creates settings remnant if entity has stage diffs" *)
Example deleteEntity_keeps_entity_with_stage_diffs :
  deleted (deleteEntityOrCreateSettingsRemnant 1%positive adjustedProject)
  = Some (true, [1%positive], [makeSettingsRemnant 1%positive]).
Proof. vm_compute. reflexivity. Qed.

(** Two inserters wired to each other; the second is rendered at stage 1
    or not. *)
Definition renderedInserter : Factorio.LuaEntity :=
  {| Factorio.unit_number := 2; Factorio.valid := true;
     Factorio.name := "filter-inserter"; Factorio.type := "inserter";
     Factorio.position := Pos.Pos 0 1; Factorio.direction := 0;
     Factorio.belt_to_ground_type := "input"; Factorio.loader_type := "input";
     Factorio.pickup_position := Pos.Pos 0 0; Factorio.drop_position := Pos.Pos 0 2;
     Factorio.upgrade_target := None; Factorio.upgrade_direction := None;
     Factorio.neighbours := None |}.
Definition wiredHeap (rendered : bool) : Heap :=
  fun entity =>
    if bool_decide (entity = 1%positive) then inserterAt 1 None false
    else
      {| core :=
           AssemblyEntity.setWorldEntities
             (if rendered then {[ "main" := {[ 1 := renderedInserter ]} ]} else ∅)
             (AssemblyEntity.createAssemblyEntity {[ "name" := VStr "filter-inserter" ]}
                (Pos.Pos 0 0) None 1);
         lastStage := None; isSettingsRemnant := false |}.
Definition wiredProject (rendered : bool) : Project :=
  {| heap := wiredHeap rendered;
     content :=
       (addCircuitConnection
          (add (wiredHeap rendered) (add (wiredHeap rendered) newAssemblyContent 1%positive)
               2%positive)
          {| fromEntity := 2%positive; toEntity := 1%positive; fromId := 1; toId := 1;
             wire := 3 |}).2;
     calls := [] |}.

(** "creates settings remnant if entity has circuit connections" *)
Example deleteEntity_keeps_entity_with_unrendered_connection :
  deleted (deleteEntityOrCreateSettingsRemnant 1%positive (wiredProject false))
  = Some (true, [2%positive; 1%positive], [makeSettingsRemnant 1%positive]).
Proof. vm_compute. reflexivity. Qed.

(** "deletes if entity has with circuit connections, but connections have
    world entity" *)
Example deleteEntity_deletes_entity_with_rendered_connection :
  deleted (deleteEntityOrCreateSettingsRemnant 1%positive (wiredProject true))
  = Some (false, [2%positive], [deleteWorldEntities 1%positive]).
Proof. vm_compute. reflexivity. Qed.

End Tests.

(* ===================================================================== *)
(** ** Layer diffs: how they compose, and what moving an entity keeps *)
(* ===================================================================== *)

Module LayerFacts.
Import Util Diff AssemblyEntity AssemblyEntityViews DiffFacts AssemblyEntityFacts.

#[local] Instance keyLt_antisymm {A} : AntiSymm (=) (@keyLt A).
Proof. intros p q H1 H2. unfold keyLt in *. lia. Qed.

Lemma sorted_NoDup {A} (l : list (Z * A)) : StronglySorted keyLt l → NoDup l.
Proof.
  induction 1 as [|p l Hs IH Hall]; constructor; [|done].
  intros Hin. rewrite Forall_forall in Hall. specialize (Hall p Hin).
  unfold keyLt in Hall. lia.
Qed.

(** Two tables read by increasing key that hold the same entries read the
    same. *)
Lemma sorted_ext {A} (l1 l2 : list (Z * A)) :
  StronglySorted keyLt l1 → StronglySorted keyLt l2 → (∀ p, p ∈ l1 ↔ p ∈ l2) → l1 = l2.
Proof.
  intros H1 H2 Hext. apply (StronglySorted_unique keyLt); [done..|].
  apply NoDup_Permutation; [by apply sorted_NoDup..|done].
Qed.

(** The entries of a table whose key satisfies [P], by increasing key. *)
Definition entriesWhere {A} (P : Z → Prop) `{∀ k, Decision (P k)} (t : gmap Z A)
    : list (Z * A) :=
  filter (fun p => P p.1) (StageTable.pairs t).

Lemma entriesWhere_elem_of {A} (P : Z → Prop) `{∀ k, Decision (P k)} (t : gmap Z A) k a :
  (k, a) ∈ entriesWhere P t ↔ P k ∧ t !! k = Some a.
Proof. unfold entriesWhere. by rewrite list_elem_of_filter, pairs_elem_of. Qed.

Lemma entriesWhere_sorted {A} (P : Z → Prop) `{∀ k, Decision (P k)} (t : gmap Z A) :
  StronglySorted keyLt (entriesWhere P t).
Proof. apply filter_sorted, pairs_sorted. Qed.

Lemma entriesWhere_ext {A} (P Q : Z → Prop) `{∀ k, Decision (P k)} `{∀ k, Decision (Q k)}
    (t t' : gmap Z A) :
  (∀ k, P k ↔ Q k) → (∀ k, P k → t !! k = t' !! k) →
  entriesWhere P t = entriesWhere Q t'.
Proof.
  intros HPQ Hsame. apply sorted_ext; [apply entriesWhere_sorted..|].
  intros [k a]. rewrite !entriesWhere_elem_of, <- HPQ.
  split; intros [HP Hk]; (split; [done|]); [by rewrite <- Hsame|by rewrite Hsame].
Qed.

Lemma entriesWhere_app {A} (P Q R : Z → Prop) `{∀ k, Decision (P k)}
    `{∀ k, Decision (Q k)} `{∀ k, Decision (R k)} (t : gmap Z A) :
  (∀ k, R k ↔ P k ∨ Q k) → (∀ j k, P j → Q k → j < k) →
  entriesWhere R t = entriesWhere P t ++ entriesWhere Q t.
Proof.
  intros HR Hlt. apply sorted_ext; [apply entriesWhere_sorted| |].
  - apply StronglySorted_app_2; [|apply entriesWhere_sorted..].
    intros [j a] [k b]. rewrite !entriesWhere_elem_of. intros [HP _] [HQ _].
    unfold keyLt. simpl. eauto.
  - intros [k a]. rewrite elem_of_app, !entriesWhere_elem_of, HR. tauto.
Qed.

Lemma entriesWhere_nil {A} (P : Z → Prop) `{∀ k, Decision (P k)} (t : gmap Z A) :
  (∀ k, P k → t !! k = None) → entriesWhere P t = [].
Proof.
  intros Hnone. apply sorted_ext; [apply entriesWhere_sorted|constructor|].
  intros [k a]. rewrite entriesWhere_elem_of, elem_of_nil.
  split; [|done]. intros [HP Hk]. by rewrite Hnone in Hk.
Qed.

Lemma entriesWhere_one {A} (P : Z → Prop) `{∀ k, Decision (P k)} (t : gmap Z A) k :
  (∀ j, P j ↔ j = k) →
  entriesWhere P t = match t !! k with Some a => [(k, a)] | None => [] end.
Proof.
  intros HP. apply sorted_ext; [apply entriesWhere_sorted| |].
  - destruct (t !! k); repeat constructor.
  - intros [j a]. rewrite entriesWhere_elem_of, HP.
    destruct (t !! k) as [b|] eqn:Hk.
    + rewrite list_elem_of_singleton. split; [by intros [-> ?]; simplify_eq|].
      by intros [= -> ->].
    + rewrite elem_of_nil. split; [|done]. intros [-> ?]. congruence.
Qed.

(** The value a layer shows over [base]: the diffs up to it, applied by
    increasing layer. *)
Definition valueUpTo (layer : LayerNumber) (changes : LayerChanges) (base : Entity)
    : Entity :=
  foldl (fun v p => applyDiffToEntity v p.2) base (entriesWhere (fun k => k ≤ layer) changes).

Lemma getValueAtLayer_valueUpTo this layer :
  1 ≤ layer →
  getValueAtLayer this layer
  = Returned (if bool_decide (layer < baseLayer this) then None
              else Some (valueUpTo layer (layerChanges this) (baseValue this))).
Proof.
  intros Hl. unfold getValueAtLayer, assert.
  rewrite (bool_decide_eq_true_2 (layer >= 1)) by lia. simpl.
  case_bool_decide; [done|].
  by rewrite applyChangesUpTo_filter by apply pairs_sorted.
Qed.

(** An entity keeps its diffs strictly above its base layer. *)
Definition wellLayered (this : AssemblyEntityImpl) : Prop :=
  ∀ k, is_Some (layerChanges this !! k) → baseLayer this < k.

Lemma valueUpTo_base layer changes base :
  (∀ k, k ≤ layer → changes !! k = None) → valueUpTo layer changes base = base.
Proof. intros H. unfold valueUpTo. by rewrite entriesWhere_nil. Qed.

Lemma valueUpTo_split lower layer changes base :
  lower ≤ layer →
  valueUpTo layer changes base
  = foldl (fun v p => applyDiffToEntity v p.2) (valueUpTo lower changes base)
          (entriesWhere (fun k => lower < k ≤ layer) changes).
Proof.
  intros Hle. unfold valueUpTo. rewrite <- foldl_app. f_equal.
  apply entriesWhere_app; intros; lia.
Qed.

(** X1.  Merging a diff into the one stored at a layer ([applyDiffToDiff])
    and applying the result is applying the stored diff, then the new one. *)
Theorem applyDiffToDiff_then_apply (entity : Entity) (existing diff : LayerDiff) :
  applyDiffToEntity entity (applyDiffToDiff existing diff)
  = applyDiffToEntity (applyDiffToEntity entity existing) diff.
Proof.
  apply map_eq. intros k.
  rewrite !applyDiffToEntity_lookup, applyDiffToDiff_lookup.
  by destruct (diff !! k) as [[|v]|].
Qed.

Lemma valueUpTo_step layer changes base :
  valueUpTo (layer + 1) changes base
  = match changes !! (layer + 1) with
    | Some diff => applyDiffToEntity (valueUpTo layer changes base) diff
    | None => valueUpTo layer changes base
    end.
Proof.
  rewrite (valueUpTo_split layer (layer + 1)) by lia.
  rewrite (entriesWhere_ext (fun k => layer < k ≤ layer + 1) (fun k => k = layer + 1)
             changes changes) by (intros; lia || done).
  rewrite (entriesWhere_one _ _ (layer + 1)) by done.
  by destruct (changes !! (layer + 1)).
Qed.

Lemma valueUpTo_ext layer changes changes' base :
  (∀ k, k ≤ layer → changes !! k = changes' !! k) →
  valueUpTo layer changes base = valueUpTo layer changes' base.
Proof. intros H. unfold valueUpTo. f_equal. by apply entriesWhere_ext. Qed.

(** The value at [layer] itself: the value below it, then the diff stored
    at [layer]. *)
Lemma valueUpTo_at layer changes base :
  valueUpTo layer changes base
  = match changes !! layer with
    | Some diff => applyDiffToEntity (valueUpTo (layer - 1) changes base) diff
    | None => valueUpTo (layer - 1) changes base
    end.
Proof.
  pose proof (valueUpTo_step (layer - 1) changes base) as H.
  by replace (layer - 1 + 1) with layer in H by lia.
Qed.

(** X2.  [applyDiffAtLayer(layer, diff)] raises below the base layer.
    From the base layer on, it changes the value the entity shows at
    [layer] into that value with [diff] applied, whether [layer] is the
    base layer, holds a diff already or holds none, and it leaves the
    value at every lower layer as it was. *)
Theorem applyDiffAtLayer_getValueAtLayer (this : AssemblyEntityImpl)
    (layer : LayerNumber) (diff : LayerDiff) :
  wellLayered this → 1 ≤ layer →
  (layer < baseLayer this →
   applyDiffAtLayer this layer diff = Raised "layer must be >= first layer")
  ∧ (baseLayer this ≤ layer →
     ∃ this' v,
       applyDiffAtLayer this layer diff = Returned this'
       ∧ getValueAtLayer this layer = Returned (Some v)
       ∧ getValueAtLayer this' layer = Returned (Some (applyDiffToEntity v diff))
       ∧ (∀ l, 1 ≤ l < layer → getValueAtLayer this' l = getValueAtLayer this l)
       ∧ wellLayered this').
Proof.
  intros Hwell Hl. unfold applyDiffAtLayer, assert. split.
  - intros Hlt. by rewrite (bool_decide_eq_false_2 (layer >= baseLayer this)) by lia.
  - intros Hge. rewrite (bool_decide_eq_true_2 (layer >= baseLayer this)) by lia. simpl.
    assert (Hnone : ∀ k, k ≤ baseLayer this → layerChanges this !! k = None).
    { intros k Hk. destruct (layerChanges this !! k) eqn:E; [|done].
      specialize (Hwell k ltac:(by rewrite E)). lia. }
    case_bool_decide as Heq.
    + subst layer. eexists _, _. split; [reflexivity|].
      rewrite !getValueAtLayer_valueUpTo by done. simpl.
      rewrite !bool_decide_eq_false_2 by lia.
      rewrite !valueUpTo_base by done. repeat split; try done.
      intros l Hlow. rewrite !getValueAtLayer_valueUpTo by lia. simpl.
      by rewrite !bool_decide_eq_true_2 by lia.
    + assert (Hstep : ∀ d : LayerDiff,
               valueUpTo layer (<[layer := d]> (layerChanges this)) (baseValue this)
               = applyDiffToEntity
                   (valueUpTo (layer - 1) (layerChanges this) (baseValue this)) d).
      { intros d. rewrite valueUpTo_at, lookup_insert_eq. f_equal.
        apply valueUpTo_ext. intros k Hk. apply lookup_insert_ne. lia. }
      assert (Hlow : ∀ (d : LayerDiff) l, l < layer →
               valueUpTo l (<[layer := d]> (layerChanges this)) (baseValue this)
               = valueUpTo l (layerChanges this) (baseValue this)).
      { intros d l Hlt. apply valueUpTo_ext. intros k Hk. apply lookup_insert_ne. lia. }
      assert (Hkeep : ∀ d : LayerDiff,
               wellLayered (setBase (baseLayer this) (baseValue this)
                              (<[layer := d]> (layerChanges this)) this)).
      { intros d k. simpl. destruct (decide (k = layer)) as [->|Hne]; [lia|].
        rewrite lookup_insert_ne by done. apply Hwell. }
      destruct (layerChanges this !! layer) as [existingDiff|] eqn:Hex.
      * eexists _, _. split; [reflexivity|].
        rewrite !getValueAtLayer_valueUpTo by done. simpl.
        rewrite !bool_decide_eq_false_2 by lia.
        rewrite Hstep, (valueUpTo_at layer), Hex, applyDiffToDiff_then_apply.
        repeat split; try done.
        intros l Hlt. rewrite !getValueAtLayer_valueUpTo by lia. simpl.
        by rewrite Hlow by lia.
      * eexists _, _. split; [reflexivity|].
        rewrite !getValueAtLayer_valueUpTo by done. simpl.
        rewrite !bool_decide_eq_false_2 by lia.
        rewrite Hstep, (valueUpTo_at layer), Hex.
        repeat split; try done.
        intros l Hlt. rewrite !getValueAtLayer_valueUpTo by lia. simpl.
        by rewrite Hlow by lia.
Qed.

(** The loop of [moveUp] on a table read by increasing key: it folds the
    diffs up to [higherLayer] into the base value and removes their keys. *)
Lemma foldChangesUpTo_sorted higherLayer (changes : list (Z * LayerDiff)) baseValue
    (layerChanges : LayerChanges) :
  StronglySorted keyLt changes →
  foldChangesUpTo higherLayer changes baseValue layerChanges
  = (foldl (fun v p => applyDiffToEntity v p.2) baseValue
       (filter (fun p => p.1 ≤ higherLayer) changes),
     foldl (fun t p => delete p.1 t) layerChanges
       (filter (fun p => p.1 ≤ higherLayer) changes)).
Proof.
  intros Hs. revert baseValue layerChanges.
  induction Hs as [|[k d] l Hs IH Hall]; intros baseValue layerChanges; [done|].
  simpl. case_bool_decide as Hk.
  - rewrite filter_cons_False by (simpl; lia).
    assert (filter (fun p : Z * LayerDiff => p.1 ≤ higherLayer) l = []) as ->; [|done].
    clear IH Hs. induction l as [|q l IHl]; [done|].
    apply Forall_cons in Hall as [Hq Hall].
    rewrite filter_cons_False; [by apply IHl|]. unfold keyLt in Hq. simpl in *. lia.
  - rewrite filter_cons_True by (simpl; lia). simpl. apply IH.
Qed.

Lemma lookup_foldl_delete {A} (l : list (Z * A)) (t : gmap Z A) k :
  foldl (fun t p => delete p.1 t) t l !! k
  = if bool_decide (k ∈ l.*1) then None else t !! k.
Proof.
  revert t. induction l as [|[j a] l IH]; intros t; [done|].
  rewrite fmap_cons. cbn [foldl fst]. rewrite IH.
  destruct (decide (k = j)) as [->|Hne].
  - rewrite lookup_delete_eq, (bool_decide_eq_true_2 (j ∈ j :: l.*1)) by left.
    by case_bool_decide.
  - rewrite lookup_delete_ne by done.
    repeat case_bool_decide; set_solver.
Qed.

(** X3.  [moveUp(higherLayer)] raises unless the layer is above the base
    layer.  Otherwise it returns the old base layer, and the entity shows
    at every layer from [higherLayer] on the value it showed before, and
    nothing below: the diffs up to [higherLayer] are folded into the base
    value and leave the table, the later ones stay. *)
Theorem moveUp_getValueAtLayer (this : AssemblyEntityImpl) (higherLayer : LayerNumber) :
  (higherLayer ≤ baseLayer this →
   moveUp this higherLayer
   = Raised "new layer number must be greater than old layer number")
  ∧ (baseLayer this < higherLayer →
     ∃ this',
       moveUp this higherLayer = Returned (this', baseLayer this)
       ∧ baseLayer this' = higherLayer
       ∧ (∀ l, 1 ≤ l → higherLayer ≤ l →
               getValueAtLayer this' l = getValueAtLayer this l)
       ∧ (∀ l, 1 ≤ l < higherLayer → getValueAtLayer this' l = Returned None)
       ∧ (∀ k, layerChanges this' !! k
               = if bool_decide (k ≤ higherLayer) then None else layerChanges this !! k)
       ∧ wellLayered this').
Proof.
  unfold moveUp, assert. split.
  - intros Hle. by rewrite bool_decide_eq_false_2 by lia.
  - intros Hlt. rewrite bool_decide_eq_true_2 by lia. simpl.
    rewrite foldChangesUpTo_sorted by apply pairs_sorted.
    set (changes' := foldl (fun t p => delete p.1 t) _ _).
    set (base' := foldl (fun v p => applyDiffToEntity v p.2) _ _).
    assert (Hbase : base' = valueUpTo higherLayer (layerChanges this) (baseValue this))
      by reflexivity.
    assert (Hlook : ∀ k,
      changes' !! k
      = if bool_decide (k ≤ higherLayer) then None else layerChanges this !! k).
    { intros k. unfold changes'. rewrite lookup_foldl_delete.
      case_bool_decide as H1; case_bool_decide as H2; try done.
      - apply list_elem_of_fmap in H1 as ([j a] & -> & [Hj _]%list_elem_of_filter).
        simpl in *. lia.
      - destruct (layerChanges this !! k) as [d|] eqn:Hk; [|done]. destruct H1.
        apply list_elem_of_fmap. exists (k, d). split; [done|].
        apply list_elem_of_filter. split; [simpl; lia|]. by apply pairs_elem_of. }
    clearbody changes' base'.
    eexists. split; [reflexivity|]. simpl. split; [done|]. repeat split.
    + intros l Hl Hge. rewrite !getValueAtLayer_valueUpTo by done. simpl.
      rewrite !bool_decide_eq_false_2 by lia. do 2 f_equal.
      rewrite (valueUpTo_split higherLayer l (layerChanges this)) by done.
      rewrite <- Hbase. unfold valueUpTo. f_equal.
      apply sorted_ext; [apply entriesWhere_sorted..|].
      intros [k d]. rewrite !entriesWhere_elem_of, Hlook.
      case_bool_decide; naive_solver lia.
    + intros l Hl. rewrite getValueAtLayer_valueUpTo by lia. simpl.
      by rewrite bool_decide_eq_true_2 by lia.
    + done.
    + intros k. simpl. rewrite Hlook. case_bool_decide; [by intros [? ?]|].
      intros _. lia.
Qed.

(** X4.  [moveDown(lowerLayer)] without a new value raises unless the layer
    is below the base layer.  Otherwise it returns the old base layer; the
    entity shows its old base value from [lowerLayer] up to the old base
    layer, and from there on the value it showed before.  Asking for a
    diff at the old layer changes nothing here: a value has no diff to
    itself. *)
Theorem moveDown_getValueAtLayer (this : AssemblyEntityImpl) (lowerLayer : LayerNumber)
    (createDiffAtOldLayer : bool) :
  wellLayered this →
  (baseLayer this ≤ lowerLayer →
   moveDown this lowerLayer None createDiffAtOldLayer
   = Raised "new layer number must be greater than old layer number")
  ∧ (lowerLayer < baseLayer this →
     ∃ this',
       moveDown this lowerLayer None createDiffAtOldLayer = Returned (this', baseLayer this)
       ∧ baseLayer this' = lowerLayer
       ∧ (∀ l, 1 ≤ l → lowerLayer ≤ l < baseLayer this →
               getValueAtLayer this' l = Returned (Some (baseValue this)))
       ∧ (∀ l, 1 ≤ l → baseLayer this ≤ l →
               getValueAtLayer this' l = getValueAtLayer this l)
       ∧ layerChanges this' = layerChanges this
       ∧ wellLayered this').
Proof.
  intros Hwell. unfold moveDown, assert. split.
  - intros Hle. by rewrite bool_decide_eq_false_2 by lia.
  - intros Hlt. rewrite bool_decide_eq_true_2 by lia. simpl.
    assert (Hnone : ∀ k, k ≤ baseLayer this → layerChanges this !! k = None).
    { intros k Hk. destruct (layerChanges this !! k) eqn:E; [|done].
      specialize (Hwell k ltac:(by rewrite E)). lia. }
    assert ((if createDiffAtOldLayer then getEntityDiff (baseValue this) (baseValue this)
             else None) = None) as ->.
    { destruct createDiffAtOldLayer; [|done].
      destruct (getEntityDiff_changes (baseValue this) (baseValue this))
        as (changes & Hch & ->).
      apply nilIfEmpty_None, map_empty. intros k. rewrite Hch. unfold changesOf.
      case_bool_decide; [done|].
      destruct (baseValue this !! k) eqn:E; [|done]. by rewrite deepCompare_refl. }
    simpl. rewrite (delete_id (layerChanges this)) by (apply Hnone; lia).
    eexists. split; [reflexivity|]. simpl. repeat split; try done.
    + intros l Hl Hin. rewrite getValueAtLayer_valueUpTo by done. simpl.
      rewrite bool_decide_eq_false_2 by lia.
      rewrite valueUpTo_base; [done|]. intros k Hk. apply Hnone. lia.
    + intros l Hl Hge. rewrite !getValueAtLayer_valueUpTo by done. simpl.
      by rewrite !bool_decide_eq_false_2 by lia.
    + intros k Hk. simpl in *. specialize (Hwell k Hk). lia.
Qed.

(** What a property shows after a list of diffs depends on what it showed
    before and on the diffs only. *)
Lemma foldl_apply_similar (diffs : list (Z * LayerDiff)) (e1 e2 : Entity) k :
  deepCompare (e1 !! k) (e2 !! k) = true →
  deepCompare (foldl (fun v p => applyDiffToEntity v p.2) e1 diffs !! k)
              (foldl (fun v p => applyDiffToEntity v p.2) e2 diffs !! k) = true.
Proof.
  revert e1 e2. induction diffs as [|[j d] diffs IH]; intros e1 e2 Hsim; [done|].
  simpl. apply IH. rewrite !applyDiffToEntity_lookup.
  destruct (d !! k) as [[|v]|]; [done|apply deepCompareValue_refl|done].
Qed.

Lemma foldl_apply_same (diffs : list (Z * LayerDiff)) (e1 e2 : Entity) k :
  e1 !! k = e2 !! k →
  foldl (fun v p => applyDiffToEntity v p.2) e1 diffs !! k
  = foldl (fun v p => applyDiffToEntity v p.2) e2 diffs !! k.
Proof.
  revert e1 e2. induction diffs as [|[j d] diffs IH]; intros e1 e2 Hsame; [done|].
  simpl. apply IH. rewrite !applyDiffToEntity_lookup. by rewrite Hsame.
Qed.

(** X5.  [moveDown(lowerLayer, newValue, true)] gives the entity
    [newValue] from [lowerLayer] up to the old base layer, and stores at
    the old base layer the diff from [newValue] to the old base value.
    From the old base layer on, every property other than [position] and
    [direction] shows a value that [deepCompare] finds equal to the one it
    showed before; [position] and [direction] are not part of a diff and
    show what [newValue] and the later diffs give them. *)
Theorem moveDown_with_value (this : AssemblyEntityImpl) (lowerLayer : LayerNumber)
    (newValue : Entity) :
  wellLayered this → lowerLayer < baseLayer this →
  ∃ this',
    moveDown this lowerLayer (Some newValue) true = Returned (this', baseLayer this)
    ∧ baseLayer this' = lowerLayer
    ∧ baseValue this' = newValue
    ∧ (∀ l, 1 ≤ l → lowerLayer ≤ l < baseLayer this →
            getValueAtLayer this' l = Returned (Some newValue))
    ∧ (∀ l, 1 ≤ l → baseLayer this ≤ l →
       ∃ before after,
         getValueAtLayer this l = Returned (Some before)
         ∧ getValueAtLayer this' l = Returned (Some after)
         ∧ (∀ k, k ∉ ignoredProps → deepCompare (before !! k) (after !! k) = true)
         ∧ (∀ k, k ∈ ignoredProps →
                 after !! k = valueUpTo l (layerChanges this) newValue !! k))
    ∧ wellLayered this'.
Proof.
  intros Hwell Hlt. unfold moveDown, assert, ownedShallowCopy, shallowCopy.
  rewrite bool_decide_eq_true_2 by lia. simpl.
  assert (Hnone : ∀ k, k ≤ baseLayer this → layerChanges this !! k = None).
  { intros k Hk. destruct (layerChanges this !! k) eqn:E; [|done].
    specialize (Hwell k ltac:(by rewrite E)). lia. }
  set (newDiff := getEntityDiff newValue (baseValue this)).
  set (changes' := StageTable.set (baseLayer this) newDiff (layerChanges this)).
  assert (Hlook : ∀ k, changes' !! k
            = if bool_decide (k = baseLayer this) then newDiff else layerChanges this !! k).
  { intros k. unfold changes', StageTable.set. case_bool_decide as Hk.
    - subst k. destruct newDiff; [apply lookup_insert_eq|apply lookup_delete_eq].
    - destruct newDiff; [by apply lookup_insert_ne|by apply lookup_delete_ne]. }
  eexists. split; [reflexivity|]. simpl. repeat split.
  - intros l Hl Hin. rewrite getValueAtLayer_valueUpTo by done. simpl.
    rewrite bool_decide_eq_false_2 by lia.
    rewrite valueUpTo_base; [done|]. intros k Hk. rewrite Hlook.
    rewrite bool_decide_eq_false_2 by lia. apply Hnone. lia.
  - intros l Hl Hge. eexists _, _.
    rewrite !getValueAtLayer_valueUpTo by done. simpl.
    rewrite !bool_decide_eq_false_2 by lia.
    split; [reflexivity|]. split; [reflexivity|].
    rewrite (valueUpTo_split (baseLayer this) l (layerChanges this)) by done.
    rewrite (valueUpTo_split (baseLayer this) l changes') by done.
    rewrite (valueUpTo_split (baseLayer this) l (layerChanges this) newValue) by done.
    rewrite (entriesWhere_ext (fun k => baseLayer this < k ≤ l)
               (fun k => baseLayer this < k ≤ l) changes' (layerChanges this));
      [|done|intros k Hk; rewrite Hlook; by rewrite bool_decide_eq_false_2 by lia].
    rewrite !(valueUpTo_base (baseLayer this) (layerChanges this)) by done.
    assert (valueUpTo (baseLayer this) changes' newValue
            = applyOptionalDiff newValue newDiff) as ->.
    { rewrite valueUpTo_at, Hlook, bool_decide_eq_true_2 by done.
      rewrite valueUpTo_base; [by destruct newDiff|].
      intros k Hk. rewrite Hlook, bool_decide_eq_false_2 by lia. apply Hnone. lia. }
    split.
    + intros k Hk. apply foldl_apply_similar. unfold newDiff.
      rewrite applyOptionalDiff_getEntityDiff_lookup. unfold changesOf.
      rewrite bool_decide_eq_false_2 by done.
      destruct (baseValue this !! k) as [v|] eqn:Hb.
      * destruct (deepCompare (Some v) (newValue !! k)) eqn:Hc;
          [done|apply deepCompareValue_refl].
      * by destruct (newValue !! k).
    + intros k Hk. apply foldl_apply_same. unfold newDiff.
      rewrite applyOptionalDiff_getEntityDiff_lookup. unfold changesOf.
      by rewrite bool_decide_eq_true_2.
  - intros k. simpl. fold newDiff. fold changes'. rewrite Hlook. case_bool_decide.
    + intros _. lia.
    + intros Hk. specialize (Hwell k Hk). lia.
Qed.

(** X6.  Moving an entity down and back up to its old base layer with
    [moveToLayer] gives back the entity as it was: its base layer, its base
    value and its diffs. *)
Theorem moveToLayer_down_up (this : AssemblyEntityImpl) (lowerLayer : LayerNumber) :
  wellLayered this → lowerLayer < baseLayer this →
  ∃ moved,
    moveToLayer this lowerLayer = Returned moved
    ∧ baseLayer moved = lowerLayer
    ∧ moveToLayer moved (baseLayer this) = Returned this.
Proof.
  intros Hwell Hlt.
  assert (Hnone : ∀ k, k ≤ baseLayer this → layerChanges this !! k = None).
  { intros k Hk. destruct (layerChanges this !! k) eqn:E; [|done].
    specialize (Hwell k ltac:(by rewrite E)). lia. }
  unfold moveToLayer at 1.
  rewrite bool_decide_eq_false_2, bool_decide_eq_true_2 by lia.
  unfold moveDown, assert. rewrite bool_decide_eq_true_2 by lia. simpl.
  rewrite (delete_id (layerChanges this)) by (apply Hnone; lia).
  eexists. split; [reflexivity|]. split; [done|].
  unfold moveToLayer. simpl. rewrite bool_decide_eq_true_2 by lia.
  unfold moveUp, assert. simpl. rewrite bool_decide_eq_true_2 by lia. simpl.
  rewrite foldChangesUpTo_sorted by apply pairs_sorted.
  change (filter (fun p : Z * LayerDiff => p.1 ≤ baseLayer this)
            (StageTable.pairs (layerChanges this)))
    with (entriesWhere (fun k => k ≤ baseLayer this) (layerChanges this)).
  rewrite entriesWhere_nil by done. simpl. by destruct this.
Qed.

Lemma iterateValues_next_step (start end_ : LayerNumber) (changes : LayerChanges)
    (base : Entity) (prev : LayerNumber) :
  iterateValues_next start end_ changes (Some (valueUpTo prev changes base)) (Some prev)
  = Returned (if bool_decide (prev + 1 > end_) then None
              else Some (prev + 1, Some (valueUpTo (prev + 1) changes base))).
Proof.
  unfold iterateValues_next. case_bool_decide; [done|].
  rewrite valueUpTo_step. by destruct (changes !! (prev + 1)).
Qed.

(** The loop of [iterateValues] from a layer on: it hands over the layers
    up to [end_], each with the value the entity shows there. *)
Lemma iterateValues_for_from (fuel : nat) (start end_ : LayerNumber)
    (changes : LayerChanges) (base : Entity) (prev : LayerNumber) :
  (Z.to_nat (end_ - prev) + 1 ≤ fuel)%nat →
  iterateValues_for fuel start end_ changes (Some (valueUpTo prev changes base)) (Some prev)
  = Some (Returned ((fun l => (l, Some (valueUpTo l changes base)))
                      <$> seqZ (prev + 1) (end_ - prev))).
Proof.
  revert prev. induction fuel as [|fuel IH]; intros prev Hfuel; [lia|].
  cbn [iterateValues_for]. rewrite iterateValues_next_step.
  case_bool_decide as Hend.
  - by rewrite seqZ_nil by lia.
  - rewrite IH by lia.
    rewrite (seqZ_cons (prev + 1) (end_ - prev)) by lia. rewrite fmap_cons.
    by replace (Z.pred (end_ - prev)) with (end_ - (prev + 1)) by lia.
Qed.

(** X7.  From a layer [start] at or above the base layer,
    [iterateValues(start, end)] hands the loop the layers [start],
    [start + 1], ..., [end] in order, each with the value
    [getValueAtLayer] gives for it; the layer [start] is handed over even
    when [end] is below it.  The loop ends after [end - start + 2] calls of
    the iterator at most. *)
Theorem iterateValues_getValueAtLayer (this : AssemblyEntityImpl)
    (start end_ : LayerNumber) (fuel : nat) :
  1 ≤ start → baseLayer this ≤ start → (Z.to_nat (end_ - start) + 2 ≤ fuel)%nat →
  ∃ values,
    iterateValues fuel this start end_ = Some (Returned values)
    ∧ values.*1 = start :: seqZ (start + 1) (end_ - start)
    ∧ ∀ l v, (l, v) ∈ values → getValueAtLayer this l = Returned v.
Proof.
  intros Hstart Hbase Hfuel. unfold iterateValues.
  rewrite getValueAtLayer_valueUpTo, bool_decide_eq_false_2 by lia.
  destruct fuel as [|fuel]; [lia|]. cbn [iterateValues_for iterateValues_next].
  cbn [mret outcome_ret].
  rewrite iterateValues_for_from by lia.
  eexists. split; [reflexivity|]. split.
  - rewrite fmap_cons. cbn [fst]. f_equal. rewrite <- list_fmap_compose.
    by apply list_fmap_id.
  - intros l v [[= -> ->]|Hin]%elem_of_cons.
    + by rewrite getValueAtLayer_valueUpTo, bool_decide_eq_false_2 by lia.
    + apply list_elem_of_fmap in Hin as (l' & [= -> ->] & Hl'%elem_of_seqZ).
      by rewrite getValueAtLayer_valueUpTo, bool_decide_eq_false_2 by lia.
Qed.

(** An entity made at layer 3 with [{size = 1}] that holds [{size = 3}] at
    layer 5. *)
Definition layeredEntity : AssemblyEntityImpl :=
  setBase 3 {[ "size" := VNum 1 ]} {[ 5 := {[ "size" := Prop_ (VNum 3) ]} ]}
    (createAssemblyEntity {[ "size" := VNum 1 ]} (mkPosition 0 0) None 3).

Lemma layeredEntity_wellLayered : wellLayered layeredEntity.
Proof.
  intros k [d Hd]. change (baseLayer layeredEntity) with 3.
  change (layerChanges layeredEntity)
    with ({[ 5 := {[ "size" := Prop_ (VNum 3) ]} ]} : LayerChanges) in Hd.
  apply lookup_singleton_Some in Hd as [<- _]. lia.
Qed.

Lemma layeredEntity_base : baseLayer layeredEntity = 3.
Proof. reflexivity. Qed.

Lemma applyDiffAtLayer_getValueAtLayer_witness :
  wellLayered layeredEntity ∧ 1 ≤ 5 ∧ baseLayer layeredEntity ≤ 5
  ∧ ∃ this' v,
      applyDiffAtLayer layeredEntity 5 {[ "size" := NilPlaceholder ]} = Returned this'
      ∧ getValueAtLayer layeredEntity 5 = Returned (Some v)
      ∧ getValueAtLayer this' 5
        = Returned (Some (applyDiffToEntity v {[ "size" := NilPlaceholder ]})).
Proof.
  split; [apply layeredEntity_wellLayered|]. split; [lia|]. split; [rewrite ?layeredEntity_base; lia|].
  destruct (proj2 (applyDiffAtLayer_getValueAtLayer layeredEntity 5
                     {[ "size" := NilPlaceholder ]} layeredEntity_wellLayered
                     ltac:(lia)) ltac:(rewrite ?layeredEntity_base; lia))
    as (this' & v & H1 & H2 & H3 & _).
  exists this', v. split; [exact H1|]. split; [exact H2|exact H3].
Defined.

Lemma moveDown_getValueAtLayer_witness :
  wellLayered layeredEntity ∧ 1 < baseLayer layeredEntity
  ∧ ∃ this',
      moveDown layeredEntity 1 None false = Returned (this', 3)
      ∧ getValueAtLayer this' 2 = Returned (Some {[ "size" := VNum 1 ]})
      ∧ getValueAtLayer this' 5 = getValueAtLayer layeredEntity 5.
Proof.
  split; [apply layeredEntity_wellLayered|]. split; [rewrite ?layeredEntity_base; lia|].
  destruct (proj2 (moveDown_getValueAtLayer layeredEntity 1 false
                     layeredEntity_wellLayered) ltac:(rewrite ?layeredEntity_base; lia))
    as (this' & H1 & _ & H2 & H3 & _).
  exists this'. split; [exact H1|]. split.
  - apply (H2 2); rewrite ?layeredEntity_base; lia.
  - apply (H3 5); rewrite ?layeredEntity_base; lia.
Defined.

Lemma moveDown_with_value_witness :
  wellLayered layeredEntity ∧ 1 < baseLayer layeredEntity
  ∧ ∃ this',
      moveDown layeredEntity 1 (Some {[ "size" := VNum 7 ]}) true = Returned (this', 3)
      ∧ getValueAtLayer this' 2 = Returned (Some {[ "size" := VNum 7 ]}).
Proof.
  split; [apply layeredEntity_wellLayered|]. split; [rewrite ?layeredEntity_base; lia|].
  destruct (moveDown_with_value layeredEntity 1 {[ "size" := VNum 7 ]}
              layeredEntity_wellLayered ltac:(rewrite ?layeredEntity_base; lia))
    as (this' & H1 & _ & _ & H2 & _).
  exists this'. split; [exact H1|]. apply (H2 2); rewrite ?layeredEntity_base; lia.
Defined.

Lemma moveToLayer_down_up_witness :
  wellLayered layeredEntity ∧ 1 < baseLayer layeredEntity
  ∧ ∃ moved,
      moveToLayer layeredEntity 1 = Returned moved
      ∧ moveToLayer moved 3 = Returned layeredEntity.
Proof.
  split; [apply layeredEntity_wellLayered|]. split; [rewrite ?layeredEntity_base; lia|].
  destruct (moveToLayer_down_up layeredEntity 1 layeredEntity_wellLayered
              ltac:(rewrite ?layeredEntity_base; lia)) as (moved & H1 & _ & H2).
  exists moved. split; [exact H1|exact H2].
Defined.

Lemma iterateValues_getValueAtLayer_witness :
  1 ≤ 4 ∧ baseLayer layeredEntity ≤ 4
  ∧ ∃ values,
      iterateValues 4 layeredEntity 4 6 = Some (Returned values)
      ∧ values.*1 = [4; 5; 6].
Proof.
  split; [lia|]. split; [rewrite ?layeredEntity_base; lia|].
  destruct (iterateValues_getValueAtLayer layeredEntity 4 6 4
              ltac:(lia) ltac:(rewrite ?layeredEntity_base; lia) ltac:(rewrite ?layeredEntity_base; lia))
    as (values & H1 & H2 & _).
  exists values. split; [exact H1|exact H2].
Defined.

End LayerFacts.

(* ===================================================================== *)
(** ** The rendered instances an entity holds *)
(* ===================================================================== *)

Module WorldEntityFacts.
Import Util Diff AssemblyEntity AssemblyEntityViews DiffFacts AssemblyEntityFacts.

(** The handle stored for a layer and a type, when it is valid. *)
Definition validAt (this : AssemblyEntityImpl) (layer : LayerNumber) (type : string)
    : option AnyWorldEntity :=
  match worldEntities this !! type ≫= (.!! layer) with
  | Some entity => if Factorio.valid entity then Some entity else None
  | None => None
  end.

(** No type is stored with an empty table. *)
Definition noEmptyTable (this : AssemblyEntityImpl) : Prop :=
  ∀ type, worldEntities this !! type ≠ Some ∅.

Lemma getWorldEntity_validAt this layer type :
  (getWorldEntity this layer type).1 = validAt this layer type.
Proof.
  unfold getWorldEntity, validAt.
  destruct (worldEntities this !! type) as [byType|]; simpl; [|done].
  destruct (byType !! layer) as [entity|]; simpl; [|done].
  by destruct (Factorio.valid entity).
Qed.

Lemma validAt_storeByType this type byType layer type' :
  validAt (storeByType type byType this) layer type'
  = if decide (type' = type)
    then match byType !! layer with
         | Some entity => if Factorio.valid entity then Some entity else None
         | None => None
         end
    else validAt this layer type'.
Proof.
  unfold validAt, storeByType. simpl. case_decide as Hty.
  - subst type'. destruct (isEmpty byType) eqn:E.
    + apply isEmpty_true in E. subst byType.
      by rewrite lookup_delete_eq, lookup_empty.
    + by rewrite lookup_insert_eq.
  - destruct (isEmpty byType); by rewrite ?lookup_delete_ne, ?lookup_insert_ne.
Qed.

Lemma noEmptyTable_storeByType this type byType :
  noEmptyTable this → noEmptyTable (storeByType type byType this).
Proof.
  intros Hne type'. unfold storeByType. simpl.
  destruct (isEmpty byType) eqn:E.
  - destruct (decide (type' = type)) as [->|Hty];
      [by rewrite lookup_delete_eq|by rewrite lookup_delete_ne].
  - destruct (decide (type' = type)) as [->|Hty]; [|by rewrite lookup_insert_ne].
    rewrite lookup_insert_eq. intros [= ->].
    by rewrite (proj2 (isEmpty_true _)) in E.
Qed.

(** A handle that reads as valid still does once the instances listed are
    destroyed, unless it is a handle of one of them. *)
Definition unlessDestroyed (destroyed : list AnyWorldEntity) (held : option AnyWorldEntity)
    : option AnyWorldEntity :=
  held ≫= fun handle =>
    if existsb (fun instance => sameInstance handle (Some instance)) destroyed then None
    else Some handle.

Lemma validAt_destroy this instance layer type :
  validAt (setWorldEntities (destroy instance (worldEntities this)) this) layer type
  = unlessDestroyed [instance] (validAt this layer type).
Proof.
  unfold validAt, destroy, unlessDestroyed. cbn [worldEntities setWorldEntities existsb].
  rewrite lookup_fmap. destruct (worldEntities this !! type) as [byType|]; [|done].
  cbn. rewrite lookup_fmap. destruct (byType !! layer) as [handle|]; [|done].
  unfold sameInstance. cbn.
  case_bool_decide as Hsame; destruct (Factorio.valid handle); cbn;
    rewrite ?bool_decide_eq_true_2, ?bool_decide_eq_false_2 by done; done.
Qed.

Lemma noEmptyTable_destroy this instance :
  noEmptyTable this →
  noEmptyTable (setWorldEntities (destroy instance (worldEntities this)) this).
Proof.
  intros Hne type. unfold destroy. cbn [worldEntities setWorldEntities].
  rewrite lookup_fmap. destruct (worldEntities this !! type) as [byType|] eqn:Htype; [|done].
  cbn. intros [= Hempty]. apply fmap_empty_inv in Hempty. subst. by apply (Hne type).
Qed.

(** X8.  After [replaceWorldEntity(layer, entity, type)],
    [getWorldEntity(layer, type)] gives [entity] when it is a valid instance
    and nil otherwise.  The call destroys the instance that
    [getWorldEntity] gave for this layer before, unless it is [entity]
    itself, and nothing else.  For every other layer or type
    [getWorldEntity] gives what it gave before, unless that was a handle
    of the instance destroyed, which now reads nil.  No type is left with
    an empty table. *)
Theorem replaceWorldEntity_getWorldEntity (this : AssemblyEntityImpl)
    (layer : LayerNumber) (entity : option AnyWorldEntity) (type : string) :
  let this' := (replaceWorldEntity this layer entity type).1 in
  let destroyed := (replaceWorldEntity this layer entity type).2 in
  (getWorldEntity this' layer type).1
  = match entity with
    | Some e => if Factorio.valid e then Some e else None
    | None => None
    end
  ∧ (∀ l ty, (l, ty) ≠ (layer, type) →
             (getWorldEntity this' l ty).1
             = unlessDestroyed destroyed (getWorldEntity this l ty).1)
  ∧ destroyed
    = match (getWorldEntity this layer type).1 with
      | Some existing => if sameInstance existing entity then [] else [existing]
      | None => []
      end
  ∧ (noEmptyTable this → noEmptyTable this').
Proof.
  cbn zeta. unfold replaceWorldEntity.
  set (step := match default ∅ (worldEntities this !! type) !! layer with
               | Some existing =>
                   if Factorio.valid existing && negb (sameInstance existing entity)
                   then (setWorldEntities (destroy existing (worldEntities this)) this,
                         [existing])
                   else (this, [])
               | None => (this, [])
               end).
  assert (Hstep : step
                  = match validAt this layer type with
                    | Some existing =>
                        if sameInstance existing entity then (this, [])
                        else (setWorldEntities (destroy existing (worldEntities this)) this,
                              [existing])
                    | None => (this, [])
                    end).
  { unfold step, validAt.
    destruct (worldEntities this !! type) as [byType|]; cbn; [|done].
    destruct (byType !! layer) as [existing|]; [|done].
    destruct (Factorio.valid existing); cbn; [|done].
    by destruct (sameInstance existing entity). }
  destruct step as [this1 destroyed]. cbn [fst snd].
  assert (Hdestroyed : destroyed
                       = match validAt this layer type with
                         | Some existing =>
                             if sameInstance existing entity then [] else [existing]
                         | None => []
                         end)
    by (repeat case_match; congruence).
  assert (Hvalid1 : ∀ l ty, validAt this1 l ty = unlessDestroyed destroyed (validAt this l ty)).
  { intros l ty.
    destruct (validAt this layer type) as [existing|];
      [destruct (sameInstance existing entity)|]; simplify_eq.
    - unfold unlessDestroyed. cbn. by destruct (validAt this l ty).
    - apply validAt_destroy.
    - unfold unlessDestroyed. cbn. by destruct (validAt this l ty). }
  assert (Hempty1 : noEmptyTable this → noEmptyTable this1).
  { intros Hne. repeat case_match; simplify_eq; try done; by apply noEmptyTable_destroy. }
  clear Hstep.
  split; [|split; [|split]].
  - rewrite getWorldEntity_validAt, validAt_storeByType, decide_True by done.
    destruct entity as [e|]; cbn; [by rewrite lookup_insert_eq|].
    by rewrite lookup_delete_eq.
  - intros l ty Hne. rewrite !getWorldEntity_validAt, validAt_storeByType, <- Hvalid1.
    case_decide as Hty; [|done]. subst ty.
    assert (l ≠ layer) by congruence.
    unfold validAt. destruct (worldEntities this1 !! type) as [byType|]; cbn.
    + destruct entity; cbn; by rewrite ?lookup_insert_ne, ?lookup_delete_ne.
    + destruct entity; cbn;
        by rewrite ?lookup_insert_ne, ?lookup_delete_ne, ?lookup_empty.
  - by rewrite getWorldEntity_validAt.
  - intros Hne. by apply noEmptyTable_storeByType, Hempty1.
Qed.

(** One instance rendered at layers 1 and 2; another one replaces it at
    layer 1: the first is destroyed, and layer 2 reads nil. *)
Definition instance (unit_number : Z) : AnyWorldEntity :=
  {| Factorio.unit_number := unit_number; Factorio.valid := true;
     Factorio.name := "inserter"; Factorio.type := "inserter";
     Factorio.position := Pos.Pos 0 0; Factorio.direction := 0;
     Factorio.belt_to_ground_type := "input"; Factorio.loader_type := "input";
     Factorio.pickup_position := Pos.Pos 0 (-1); Factorio.drop_position := Pos.Pos 0 1;
     Factorio.upgrade_target := None; Factorio.upgrade_direction := None;
     Factorio.neighbours := None |}.
Definition renderedTwice : AssemblyEntityImpl :=
  setWorldEntities {[ "main" := {[ 1 := instance 7; 2 := instance 7 ]} ]}
    (createAssemblyEntity {[ "name" := VStr "inserter" ]} (Pos.mkPosition 0 0) None 1).

Lemma replaceWorldEntity_getWorldEntity_witness :
  let this' := (replaceWorldEntity renderedTwice 1 (Some (instance 8)) "main").1 in
  (getWorldEntity renderedTwice 2 "main").1 = Some (instance 7)
  ∧ (replaceWorldEntity renderedTwice 1 (Some (instance 8)) "main").2 = [instance 7]
  ∧ (getWorldEntity this' 1 "main").1 = Some (instance 8)
  ∧ (getWorldEntity this' 2 "main").1 = None.
Proof.
  cbn zeta.
  destruct (replaceWorldEntity_getWorldEntity renderedTwice 1 (Some (instance 8)) "main")
    as (Hhere & Hother & Hdestroyed & _).
  split; [reflexivity|]. split; [by rewrite Hdestroyed|]. split; [exact Hhere|].
  rewrite (Hother 2 "main") by discriminate. by rewrite Hdestroyed.
Defined.

(** The loop of [hasAnyWorldEntity] only removes handles. *)
Lemma pruneUntilValid_None (entries : list (Z * AnyWorldEntity))
    (byType : gmap Z AnyWorldEntity) j :
  byType !! j = None → (pruneUntilValid entries byType).2 !! j = None.
Proof.
  revert byType. induction entries as [|[i a] entries IH]; intros byType Hj; [done|].
  simpl. destruct (Factorio.valid a); [done|]. apply IH.
  destruct (decide (j = i)) as [->|?];
    [apply lookup_delete_eq|by rewrite lookup_delete_ne].
Qed.

(** The loop of [hasAnyWorldEntity] on the entries of the table it walks. *)
Lemma pruneUntilValid_spec (entries : list (Z * AnyWorldEntity))
    (byType : gmap Z AnyWorldEntity) :
  NoDup entries.*1 → (∀ k e, (k, e) ∈ entries → byType !! k = Some e) →
  ((pruneUntilValid entries byType).1 = true
   ↔ ∃ k e, (k, e) ∈ entries ∧ Factorio.valid e = true)
  ∧ (∀ l, match (pruneUntilValid entries byType).2 !! l with
          | Some entity => if Factorio.valid entity then Some entity else None
          | None => None
          end
          = match byType !! l with
            | Some entity => if Factorio.valid entity then Some entity else None
            | None => None
            end)
  ∧ ((pruneUntilValid entries byType).1 = false →
     ∀ k e, (k, e) ∈ entries → (pruneUntilValid entries byType).2 !! k = None).
Proof.
  revert byType. induction entries as [|[k e] entries IH]; intros byType Hnd Hin.
  { simpl. split; [|split]; [|done|by intros _ ? ? ?%elem_of_nil].
    split; [done|]. by intros (? & ? & ?%elem_of_nil & _). }
  apply NoDup_cons in Hnd as [Hk Hnd]. simpl.
  destruct (Factorio.valid e) eqn:Hv; simpl.
  - split; [|split]; [|done|done]. split; [|done]. intros _. exists k, e.
    split; [left|done].
  - destruct (IH (delete k byType) Hnd) as (IH1 & IH2 & IH3).
    { intros k' e' Hin'. rewrite lookup_delete_ne; [apply Hin; by right|].
      intros <-. apply Hk. apply list_elem_of_fmap. by exists (k, e'). }
    split; [|split].
    + rewrite IH1. split.
      * intros (k' & e' & Hin' & Hv'). exists k', e'. split; [by right|done].
      * intros (k' & e' & [[= -> ->]|Hin']%elem_of_cons & Hv'); [congruence|eauto].
    + intros l. rewrite IH2. destruct (decide (l = k)) as [->|Hne].
      * rewrite lookup_delete_eq, (Hin k e) by left. by rewrite Hv.
      * by rewrite lookup_delete_ne.
    + intros Hf k' e' [[= -> ->]|Hin']%elem_of_cons; [|by eapply IH3].
      specialize (IH2 k). rewrite lookup_delete_eq in IH2.
      destruct (_ !! k) as [e''|] eqn:E; [|done].
      (* the entry at [k] stays removed *)
      rewrite pruneUntilValid_None in E; [done|apply lookup_delete_eq].
Qed.

(** X9.  [hasAnyWorldEntity(type)] is true exactly when
    [getWorldEntity(layer, type)] gives an instance for some layer.  The
    stale handles it drops on the way change no answer of [getWorldEntity],
    and when it answers false no handle of this type is left. *)
Theorem hasAnyWorldEntity_getWorldEntity (this : AssemblyEntityImpl) (type : string) :
  let this' := (hasAnyWorldEntity this type).2 in
  ((hasAnyWorldEntity this type).1 = true
   ↔ ∃ layer entity, (getWorldEntity this layer type).1 = Some entity)
  ∧ (∀ l ty, (getWorldEntity this' l ty).1 = (getWorldEntity this l ty).1)
  ∧ ((hasAnyWorldEntity this type).1 = false → worldEntities this' !! type = None).
Proof.
  simpl. unfold hasAnyWorldEntity.
  destruct (worldEntities this !! type) as [byType|] eqn:Hty; simpl.
  2:{ split; [|done]. split; [done|]. intros (layer & entity & H).
      rewrite getWorldEntity_validAt in H. unfold validAt in H. by rewrite Hty in H. }
  destruct (pruneUntilValid_spec (StageTable.pairs byType) byType) as (H1 & H2 & H3).
  { apply pairs_NoDup_keys. }
  { intros k e. by rewrite pairs_elem_of. }
  destruct (pruneUntilValid (StageTable.pairs byType) byType) as [found byType'] eqn:Hp.
  simpl in *.
  assert (Hexists : found = true
            ↔ ∃ layer entity, (getWorldEntity this layer type).1 = Some entity).
  { rewrite H1. split.
    - intros (k & e & Hin & Hv). exists k, e. rewrite getWorldEntity_validAt.
      unfold validAt. rewrite Hty. simpl.
      apply pairs_elem_of in Hin. by rewrite Hin, Hv.
    - intros (k & e & H). rewrite getWorldEntity_validAt in H. unfold validAt in H.
      rewrite Hty in H. simpl in H. destruct (byType !! k) as [e'|] eqn:Hk; [|done].
      destruct (Factorio.valid e') eqn:Hv; [|done]. exists k, e'.
      split; [by apply pairs_elem_of|done]. }
  assert (Hsame : ∀ (that : AssemblyEntityImpl) l ty,
            (∀ ty', ty' ≠ type → worldEntities that !! ty' = worldEntities this !! ty') →
            (worldEntities that !! type = Some byType'
             ∨ (worldEntities that !! type = None ∧ byType' = ∅)) →
            (getWorldEntity that l ty).1 = (getWorldEntity this l ty).1).
  { intros that l ty Hother Hthis. rewrite !getWorldEntity_validAt. unfold validAt.
    destruct (decide (ty = type)) as [->|Hne]; [|by rewrite Hother].
    rewrite Hty. simpl. specialize (H2 l).
    destruct Hthis as [->|[-> ->]]; simpl; [done|].
    by rewrite lookup_empty in H2. }
  destruct found; simpl.
  - split; [done|]. split; [|done]. intros l ty. apply Hsame; simpl.
    + intros ty' Hne. by rewrite lookup_insert_ne.
    + left. apply lookup_insert_eq.
  - assert (byType' = ∅) as ->.
    { apply map_empty. intros k. destruct (byType !! k) as [e|] eqn:Hk.
      - apply (H3 eq_refl k e). by apply pairs_elem_of.
      - specialize (H2 k). rewrite Hk in H2.
        destruct (byType' !! k) as [e'|] eqn:Hk'; [|done]. exfalso.
        pose proof (pruneUntilValid_None (StageTable.pairs byType) byType k Hk) as Hsub.
        rewrite Hp in Hsub. simpl in Hsub. congruence. }
    split; [done|]. split.
    + intros l ty. apply Hsame.
      * intros ty' Hne. unfold storeByType. simpl.
        rewrite (proj2 (isEmpty_true (∅ : gmap Z AnyWorldEntity))) by done.
        by rewrite lookup_delete_ne.
      * right. split; [|done]. unfold storeByType. simpl.
        rewrite (proj2 (isEmpty_true (∅ : gmap Z AnyWorldEntity))) by done.
        apply lookup_delete_eq.
    + intros _. unfold storeByType. simpl.
      rewrite (proj2 (isEmpty_true (∅ : gmap Z AnyWorldEntity))) by done.
      apply lookup_delete_eq.
Qed.


End WorldEntityFacts.

(* ===================================================================== *)
(** ** The circuit index under its operations *)
(* ===================================================================== *)

Module CircuitIndexFacts.
Import Util ProjectEntity Connections AssemblyContent CircuitFacts CircuitInvariantFacts.

(** What [_assertCorrect] asserts of the circuit index: every key, and every
    key of every entry, is an entity of the store, and a connection held
    from [a] to [b] is held from [b] to [a]; and that no emptied map or set
    is kept. *)
Definition circuitsCorrect (this : AssemblyContentImpl) : Prop :=
  (∀ a connections,
      circuitConnections this !! a = Some connections →
      a ∈ entities this ∧ ∀ b, is_Some (connections !! b) → b ∈ entities this)
  ∧ trimmed (circuitConnections this)
  ∧ symmetricIndex (circuitConnections this).

Lemma lookup_removeIn_Some map a b c a' connections :
  removeIn a b c map !! a' = Some connections →
  ∃ before, map !! a' = Some before ∧ ∀ x, is_Some (connections !! x) → is_Some (before !! x).
Proof.
  unfold removeIn. destruct (map !! a) as [cs|] eqn:Ha; [|by eauto].
  destruct (cs !! b) as [set|] eqn:Hb; [|by eauto].
  destruct (decide (a' = a)) as [->|Hne].
  - repeat case_match; rewrite ?lookup_delete_eq, ?lookup_insert_eq; try done;
      intros [= <-]; exists cs; (split; [done|]); intros x [s Hs].
    + apply lookup_delete_Some in Hs as [_ Hs]. eauto.
    + destruct (decide (x = b)) as [->|?]; [eauto|].
      rewrite lookup_insert_ne in Hs by done. eauto.
  - repeat case_match; rewrite ?lookup_delete_ne, ?lookup_insert_ne by done; eauto.
Qed.

(** X11.  The new store has a correct circuit index, and
    [addCircuitConnection] and [removeCircuitConnection] keep it correct,
    whatever they are given and whatever they answer: the ends of every
    connection are entities of the store, every connection is held in both
    directions, and no emptied map or set is left behind. *)
Theorem circuit_operations_keep_index_correct :
  circuitsCorrect newAssemblyContent
  ∧ ∀ (this : AssemblyContentImpl) (c : AsmCircuitConnection),
      circuitsCorrect this →
      circuitsCorrect (addCircuitConnection this c).2
      ∧ circuitsCorrect (removeCircuitConnection this c).
Proof.
  split.
  { split; [|apply newAssemblyContent_index].
    intros a connections Ha. simpl in Ha. by rewrite lookup_empty in Ha. }
  intros this c (Hends & Htrim & Hsym). split.
  - split; [|by apply addCircuitConnection_keeps_index].
    destruct (addCircuitConnection this c) as [[] this'] eqn:Hadd.
    + apply addCircuitConnection_true in Hadd as (Hf & Ht & _ & ->). simpl.
      intros a connections Ha.
      assert (Hkey : ∀ x, is_Some (connections !! x) →
                (a = fromEntity c ∧ x = toEntity c) ∨ (a = toEntity c ∧ x = fromEntity c)
                ∨ is_Some (getIn a x (circuitConnections this))).
      { intros x [s Hs].
        assert (getIn a x (indexAfterAdd c (circuitConnections this)) = Some s) as Hget
          by (apply getIn_Some; eauto).
        rewrite getIn_indexAfterAdd in Hget. case_decide as Hd; [naive_solver|eauto]. }
      split.
      * destruct (decide (a = fromEntity c)) as [->|Hne1]; [done|].
        destruct (decide (a = toEntity c)) as [->|Hne2]; [done|].
        rewrite lookup_indexAfterAdd_ne in Ha by done. by destruct (Hends _ _ Ha).
      * intros x Hx. destruct (Hkey x Hx) as [[_ ->]|[[_ ->]|[s Hs]]]; [done..|].
        apply getIn_Some in Hs as (before & Hb & Hx').
        destruct (Hends _ _ Hb) as [_ Hall]. apply Hall. eauto.
    + pose proof (addCircuitConnection_false this c) as Hsame.
      rewrite Hadd in Hsame. simpl in *. by rewrite Hsame.
  - split; [|by apply removeCircuitConnection_keeps_index].
    unfold removeCircuitConnection.
    destruct (circuitConnections this !! fromEntity c); [|done].
    destruct (circuitConnections this !! toEntity c); [|done]. simpl.
    intros a connections Ha.
    apply lookup_removeIn_Some in Ha as (mid & Ha & Hmid).
    apply lookup_removeIn_Some in Ha as (before & Ha & Hbefore).
    destruct (Hends _ _ Ha) as [Hin Hall]. split; [done|]. auto.
Qed.

(** X12.  On a correct index, [addCircuitConnection(c)] answers true exactly
    when both ends are entities of the store and no connection equal to [c]
    is held between them; it then adds [c], and nothing else, in both
    directions.  [removeCircuitConnection(c)] takes out nothing but [c]:
    every other connection stays where it was, in both directions, and
    none is added.  (The code's set looks [c] up as the table it is; what
    is said of the removal holds whether or not the table given is the one
    stored.) *)
Theorem circuit_operations_change_one_connection
    (this : AssemblyContentImpl) (c : AsmCircuitConnection) :
  circuitsCorrect this →
  let between a b :=
    (a = fromEntity c ∧ b = toEntity c) ∨ (a = toEntity c ∧ b = fromEntity c) in
  ((addCircuitConnection this c).1 = true
   ↔ fromEntity c ∈ entities this ∧ toEntity c ∈ entities this
     ∧ ∀ other, other ∈ connectionsAt (circuitConnections this) (fromEntity c) (toEntity c) →
                circuitConnectionEquals c other = false)
  ∧ ((addCircuitConnection this c).1 = true →
     ∀ a b, connectionsAt (circuitConnections (addCircuitConnection this c).2) a b
            = if decide (between a b)
              then connectionsAt (circuitConnections this) a b ∪ {[ c ]}
              else connectionsAt (circuitConnections this) a b)
  ∧ (∀ a b,
       connectionsAt (circuitConnections this) a b ∖ {[ c ]}
       ⊆ connectionsAt (circuitConnections (removeCircuitConnection this c)) a b
       ∧ connectionsAt (circuitConnections (removeCircuitConnection this c)) a b
         ⊆ connectionsAt (circuitConnections this) a b
       ∧ (¬ between a b →
          connectionsAt (circuitConnections (removeCircuitConnection this c)) a b
          = connectionsAt (circuitConnections this) a b)).
Proof.
  intros (Hends & Htrim & Hsym). simpl. split; [|split].
  - split.
    + destruct (addCircuitConnection this c) as [r this'] eqn:Hadd. simpl. intros ->.
      apply addCircuitConnection_true in Hadd as (Hf & Ht & Hfresh & _). done.
    + intros (Hf & Ht & Hfresh). unfold addCircuitConnection, has.
      rewrite !bool_decide_eq_true_2 by done. simpl.
      destruct (circuitConnections this !! fromEntity c ≫= (.!! toEntity c))
        as [fromSet|] eqn:Hset; [|done].
      assert (existsb (circuitConnectionEquals c) (elements fromSet) = false) as ->; [|done].
      apply not_true_is_false. intros (other & Hin & Heq)%existsb_exists.
      apply list_elem_of_In, elem_of_elements in Hin.
      rewrite Hfresh in Heq; [done|]. unfold connectionsAt, getIn. by rewrite Hset.
  - destruct (addCircuitConnection this c) as [r this'] eqn:Hadd. simpl. intros ->.
    apply addCircuitConnection_true in Hadd as (_ & _ & _ & ->). simpl.
    intros a b. apply connectionsAt_indexAfterAdd.
  - intros a b. unfold removeCircuitConnection.
    destruct (circuitConnections this !! fromEntity c) as [cf|] eqn:Hcf; [|set_solver].
    destruct (circuitConnections this !! toEntity c) as [ct|] eqn:Hct; [|set_solver].
    simpl. rewrite !connectionsAt_removeIn.
    repeat (case_decide; simplify_eq); (split; [|split]); try naive_solver; set_solver.
Qed.

(** On the store with entities 1 and 2: a wire between them is added to
    the store that has none, and taking it out of the store that holds it
    leaves none. *)
Lemma circuit_operations_change_one_connection_witness :
  (addCircuitConnection unwiredStore wire12).1 = true
  ∧ connectionsAt (circuitConnections (addCircuitConnection unwiredStore wire12).2)
      2%positive 1%positive = {[ wire12 ]}
  ∧ connectionsAt (circuitConnections wiredStore) 1%positive 2%positive = {[ wire12 ]}
  ∧ connectionsAt (circuitConnections (removeCircuitConnection wiredStore wire12))
      1%positive 2%positive
    ⊆ connectionsAt (circuitConnections wiredStore) 1%positive 2%positive
  ∧ connectionsAt (circuitConnections (removeCircuitConnection wiredStore wire12))
      1%positive 2%positive = ∅.
Proof.
  assert (circuitsCorrect unwiredStore) as Hunwired.
  { split; [|split; [apply trimmed_empty|apply symmetricIndex_empty]].
    intros a connections Ha. simpl in Ha. by rewrite lookup_empty in Ha. }
  assert (circuitsCorrect wiredStore) as Hwired.
  { split.
    - intros a connections Ha. cbn in Ha.
      apply lookup_insert_Some in Ha as [[<- <-]|[_ Ha]];
        [|apply lookup_singleton_Some in Ha as [<- <-]];
        (split; [set_solver|]); intros b [s Hs];
        apply lookup_singleton_Some in Hs as [<- _]; set_solver.
    - assert (wiredStore = (addCircuitConnection unwiredStore wire12).2) as ->
        by (vm_compute; reflexivity).
      apply addCircuitConnection_keeps_index;
        [apply trimmed_empty|apply symmetricIndex_empty]. }
  destruct (circuit_operations_change_one_connection unwiredStore wire12 Hunwired)
    as (Hanswer & Hadded & _).
  assert ((addCircuitConnection unwiredStore wire12).1 = true) as Htrue.
  { apply Hanswer. split; [set_solver|]. split; [set_solver|].
    intros other Hother. by vm_compute in Hother. }
  split; [exact Htrue|]. split.
  { rewrite (Hadded Htrue), decide_True by (by right). by vm_compute. }
  split; [by vm_compute|].
  destruct (circuit_operations_change_one_connection wiredStore wire12 Hwired)
    as (_ & _ & Hremoved).
  destruct (Hremoved 1%positive 2%positive) as (_ & Hsub & _).
  split; [exact Hsub|by vm_compute].
Defined.

End CircuitIndexFacts.

(* ===================================================================== *)
(** ** The cable graph under its operations *)
(* ===================================================================== *)

Module CableGraphFacts.
Import Util ProjectEntity Connections AssemblyContent CableFacts DeleteFacts.

(** The points cabled to [p], none when the graph has no entry. *)
Definition cablesAt (map : Cables) (p : CableConnectionPoint) : gset CableConnectionPoint :=
  default ∅ (map !! p).

(** The graph keeps no emptied set. *)
Definition noEmptyCable (map : Cables) : Prop :=
  ∀ p d, map !! p = Some d → d ≠ ∅.

(** The point has a key: a plain entity point is its own key, a power
    switch point has one once it is in the registry. *)
Definition registered (this : AssemblyContentImpl) (q : CableConnectionPoint) : Prop :=
  match q with
  | EntityPoint _ => True
  | PowerSwitchPoint entity connectionId =>
      ∃ registry ids,
        extraCableConnectionPoints this = Some registry
        ∧ registry !! entity = Some ids ∧ connectionId ∈ ids
  end.

(** What [_assertCorrect] asserts of the cable graph (a cable is held at both
    ends, each end is a point of an entity of the store and has a key), and
    what [addCableConnection] guards besides: no emptied set is kept, no
    point has more than [MaxCableConnections] cables, no cable joins two
    points of one entity. *)
Definition cablesCorrect (this : AssemblyContentImpl) : Prop :=
  noEmptyCable (cableConnections this)
  ∧ (∀ p q, q ∈ cablesAt (cableConnections this) p →
            p ∈ cablesAt (cableConnections this) q
            ∧ getEntityOfConnectionPoint p ∈ entities this
            ∧ registered this p
            ∧ getEntityOfConnectionPoint p ≠ getEntityOfConnectionPoint q)
  ∧ (∀ p, (size (cablesAt (cableConnections this) p) ≤ MaxCableConnections)%nat).

Lemma cablesAt_Some (map : Cables) p d : map !! p = Some d → cablesAt map p = d.
Proof. unfold cablesAt. by intros ->. Qed.

Lemma cablesAt_elem_of (map : Cables) p q :
  q ∈ cablesAt map p ↔ ∃ d, map !! p = Some d ∧ q ∈ d.
Proof.
  unfold cablesAt. destruct (map !! p) as [d|]; simpl; [naive_solver|].
  split; [set_solver|]. by intros (? & ? & _).
Qed.

(** Two graphs without emptied sets that cable the same points are the
    same. *)
Lemma noEmptyCable_ext (m1 m2 : Cables) :
  noEmptyCable m1 → noEmptyCable m2 → (∀ p, cablesAt m1 p = cablesAt m2 p) → m1 = m2.
Proof.
  intros H1 H2 Heq. apply map_eq. intros p. specialize (Heq p). unfold cablesAt in Heq.
  destruct (m1 !! p) as [d1|] eqn:E1, (m2 !! p) as [d2|] eqn:E2; simpl in Heq;
    subst; try done.
  - by destruct (H1 p ∅).
  - by destruct (H2 p ∅).
Qed.

Lemma cablesAt_removeCableIn key other (map : Cables) p :
  cablesAt (removeCableIn key other map) p
  = if decide (p = key) then cablesAt map p ∖ {[ other ]} else cablesAt map p.
Proof.
  unfold cablesAt, removeCableIn. destruct (decide (p = key)) as [->|Hne].
  - destruct (map !! key) as [d|] eqn:E; simpl; [|rewrite E; set_solver].
    case_bool_decide as He; [rewrite lookup_delete_eq|rewrite lookup_insert_eq]; simpl;
      [by rewrite He|done].
  - destruct (map !! key) as [d|]; [|done].
    case_bool_decide; by rewrite ?lookup_delete_ne, ?lookup_insert_ne.
Qed.

Lemma noEmptyCable_removeCableIn key other (map : Cables) :
  noEmptyCable map → noEmptyCable (removeCableIn key other map).
Proof.
  intros Hne p d. unfold removeCableIn. destruct (map !! key) as [d0|] eqn:E; [|apply Hne].
  case_bool_decide as He.
  - intros [_ ?]%lookup_delete_Some. eauto.
  - destruct (decide (p = key)) as [->|?].
    + rewrite lookup_insert_eq. by intros [= <-].
    + rewrite lookup_insert_ne by done. apply Hne.
Qed.

Lemma cablesAt_addCableIn key other (map : Cables) p :
  cablesAt (addCableIn key other map) p
  = if decide (p = key) then cablesAt map p ∪ {[ other ]} else cablesAt map p.
Proof.
  unfold cablesAt, addCableIn. destruct (decide (p = key)) as [->|Hne].
  - destruct (map !! key) as [d|] eqn:E; rewrite lookup_insert_eq; simpl; set_solver.
  - destruct (map !! key); by rewrite lookup_insert_ne.
Qed.

Lemma noEmptyCable_addCableIn key other (map : Cables) :
  noEmptyCable map → noEmptyCable (addCableIn key other map).
Proof.
  intros Hne p d. unfold addCableIn.
  destruct (map !! key) as [d0|] eqn:E; (destruct (decide (p = key)) as [->|?];
    [rewrite lookup_insert_eq; intros [= <-]; set_solver
    |rewrite lookup_insert_ne by done; apply Hne]).
Qed.

(** Looking a key up, or making one, keeps the keys there are. *)
Lemma getConnectionPointKey_registered this point createIfAbsent q :
  registered this q → registered (getConnectionPointKey this point createIfAbsent).2 q.
Proof.
  destruct q as [e'|e' cid']; [done|]. intros (registry & ids & Hreg & He & Hcid).
  destruct point as [e|e cid]; simpl; [by exists registry, ids|].
  rewrite Hreg. simpl.
  destruct (decide (e = e')) as [->|Hne].
  - rewrite He. case_bool_decide.
    + simpl. by exists registry, ids.
    + destruct createIfAbsent; simpl; [|by exists registry, ids].
      eexists _, _. split; [done|]. rewrite lookup_insert_eq. split; [done|set_solver].
  - destruct (registry !! e) as [ids0|] eqn:He0; repeat case_match; simpl;
      eexists _, ids; (split; [done|]); by rewrite ?lookup_insert_ne.
Qed.

Lemma getConnectionPointKey_registers this point :
  registered (getConnectionPointKey this point true).2 point.
Proof.
  destruct point as [e|e cid]; simpl; [done|].
  destruct (default ∅ (extraCableConnectionPoints this) !! e) as [ids|] eqn:He.
  - case_bool_decide as Hcid; simpl.
    + by eexists _, ids.
    + eexists _, _. split; [done|]. rewrite lookup_insert_eq. split; [done|set_solver].
  - simpl. eexists _, _. split; [done|]. rewrite lookup_insert_eq.
    split; [done|set_solver].
Qed.

(** Without [createIfAbsent] the answer is the key, if there is one, and
    no key is made. *)
Lemma getConnectionPointKey_lookup this point :
  ((getConnectionPointKey this point false).1 = Some point ∧ registered this point
   ∨ (getConnectionPointKey this point false).1 = None ∧ ¬ registered this point)
  ∧ ∀ q, registered (getConnectionPointKey this point false).2 q ↔ registered this q.
Proof.
  destruct point as [e|e cid]; simpl; [by split; [left|]|].
  assert (Hq : ∀ q, registered
                 (setExtraCableConnectionPoints
                    (Some (default ∅ (extraCableConnectionPoints this))) this) q
               ↔ registered this q).
  { intros [e'|e' cid']; [done|]. simpl.
    destruct (extraCableConnectionPoints this) as [registry|]; simpl; [done|].
    split; intros (r & ids & [= <-] & Hr & _). by rewrite lookup_empty in Hr. }
  destruct (extraCableConnectionPoints this) as [registry|] eqn:Hreg; simpl.
  - destruct (registry !! e) as [ids|] eqn:He.
    + case_bool_decide as Hcid; simpl; (split; [|done]).
      * left. split; [done|]. by exists registry, ids.
      * right. split; [done|]. intros (r & i & [= <-] & Hi & ?). congruence.
    + simpl. split; [|done]. right. split; [done|].
      intros (r & i & [= <-] & Hi & ?). congruence.
  - rewrite lookup_empty. simpl. split; [|done]. right. split; [done|].
    by intros (r & i & ? & _).
Qed.

(** What [removeCableConnection] does to the store: nothing to the graph, or
    the removal of each point from the other's set; it makes no key and
    drops none. *)
Lemma removeCableConnection_spec this point1 point2 :
  let this' := removeCableConnection this point1 point2 in
  entities this' = entities this
  ∧ circuitConnections this' = circuitConnections this
  ∧ byPosition this' = byPosition this
  ∧ (∀ q, registered this' q ↔ registered this q)
  ∧ (cableConnections this'
     = removeCableIn point2 point1 (removeCableIn point1 point2 (cableConnections this))
     ∧ getEntityOfConnectionPoint point1 ≠ getEntityOfConnectionPoint point2
     ∧ getEntityOfConnectionPoint point1 ∈ entities this
     ∧ getEntityOfConnectionPoint point2 ∈ entities this
     ∧ registered this point1 ∧ registered this point2
     ∨ cableConnections this' = cableConnections this
       ∧ ¬ (getEntityOfConnectionPoint point1 ≠ getEntityOfConnectionPoint point2
            ∧ getEntityOfConnectionPoint point1 ∈ entities this
            ∧ getEntityOfConnectionPoint point2 ∈ entities this
            ∧ registered this point1 ∧ registered this point2)).
Proof.
  simpl. unfold removeCableConnection, has.
  destruct (decide (getEntityOfConnectionPoint point1 = getEntityOfConnectionPoint point2))
    as [Heq|Hne].
  { rewrite bool_decide_eq_true_2 by done. simpl. repeat split; try done. right. tauto. }
  rewrite (bool_decide_eq_false_2 _ Hne). simpl.
  destruct (decide (getEntityOfConnectionPoint point1 ∈ entities this)) as [H1|H1];
    [rewrite (bool_decide_eq_true_2 _ H1)
    |rewrite (bool_decide_eq_false_2 _ H1); simpl; repeat split; try done; right; tauto].
  destruct (decide (getEntityOfConnectionPoint point2 ∈ entities this)) as [H2|H2];
    [rewrite (bool_decide_eq_true_2 _ H2)
    |rewrite (bool_decide_eq_false_2 _ H2); simpl; repeat split; try done; right; tauto].
  simpl.
  pose proof (getConnectionPointKey_frame this point1 false) as Hf1.
  pose proof (getConnectionPointKey_lookup this point1) as [Hk1 Hr1].
  destruct (getConnectionPointKey this point1 false) as [key1 this1]. simpl in *.
  pose proof (getConnectionPointKey_frame this1 point2 false) as Hf2.
  pose proof (getConnectionPointKey_lookup this1 point2) as [Hk2 Hr2].
  destruct (getConnectionPointKey this1 point2 false) as [key2 this2]. simpl in *.
  destruct Hf1 as (Hb1 & He1 & Hc1 & Hcab1 & _).
  destruct Hf2 as (Hb2 & He2 & Hc2 & Hcab2 & _).
  assert (Hreg : ∀ q, registered this2 q ↔ registered this q)
    by (intros q; by rewrite Hr2, Hr1).
  destruct Hk1 as [[-> Hreg1]|[-> Hreg1]], Hk2 as [[-> Hreg2]|[-> Hreg2]]; simpl;
    repeat split; try congruence; try apply Hreg.
  - left. rewrite Hcab2, Hcab1. repeat split; try done. by apply Hr1.
  - right. split; [congruence|]. rewrite Hr1 in Hreg2. tauto.
  - right. split; [congruence|]. tauto.
  - right. split; [congruence|]. tauto.
Qed.

(** Correctness of the graph does not depend on what else the store holds,
    as long as no key is dropped. *)
Lemma cablesCorrect_frame this this' :
  cableConnections this' = cableConnections this →
  entities this' = entities this →
  (∀ q, registered this q → registered this' q) →
  cablesCorrect this → cablesCorrect this'.
Proof.
  intros Hc He Hr (Hne & Hsym & Hdeg). unfold cablesCorrect. rewrite Hc, He.
  split; [done|]. split; [|done]. intros p q Hq.
  destruct (Hsym p q Hq) as (H1 & H2 & H3 & H4). auto.
Qed.

Lemma removeCableConnection_keeps this point1 point2 :
  cablesCorrect this →
  cablesCorrect (removeCableConnection this point1 point2)
  ∧ ∀ p, cablesAt (cableConnections (removeCableConnection this point1 point2)) p
         ⊆ cablesAt (cableConnections this) p.
Proof.
  intros Hok.
  destruct (removeCableConnection_spec this point1 point2)
    as (He & _ & _ & Hr & [(Hc & Hne & _)|[Hc _]]).
  2: { split; [|by rewrite Hc]. apply (cablesCorrect_frame this); [done..| |done].
       intros q. apply Hr. }
  destruct Hok as (Hnoempty & Hsym & Hdeg).
  assert (Hat : ∀ p, cablesAt (cableConnections (removeCableConnection this point1 point2)) p
            = if decide (p = point2) then cablesAt (cableConnections this) p ∖ {[ point1 ]}
              else if decide (p = point1) then cablesAt (cableConnections this) p ∖ {[ point2 ]}
              else cablesAt (cableConnections this) p).
  { intros p. rewrite Hc, !cablesAt_removeCableIn.
    repeat case_decide; simplify_eq; try done. }
  assert (Hsub : ∀ p, cablesAt (cableConnections (removeCableConnection this point1 point2)) p
            ⊆ cablesAt (cableConnections this) p).
  { intros p. rewrite Hat. repeat case_decide; set_solver. }
  split; [|done]. split; [|split].
  - rewrite Hc. by do 2 apply noEmptyCable_removeCableIn.
  - intros p q Hq. destruct (Hsym p q (Hsub _ _ Hq)) as (H1 & H2 & H3 & H4).
    rewrite He. repeat split; [|done|by apply Hr|done].
    rewrite Hat in Hq |- *. repeat case_decide; simplify_eq; set_solver.
  - intros p. etrans; [|apply (Hdeg p)]. apply subseteq_size, Hsub.
Qed.

(** A power switch side that holds a cable drops it for the new one. *)
Lemma replacePowerSwitchCable_keeps this point key :
  cablesCorrect this →
  ∃ this',
    replacePowerSwitchCable this point key = Returned this'
    ∧ cablesCorrect this'
    ∧ entities this' = entities this
    ∧ circuitConnections this' = circuitConnections this
    ∧ byPosition this' = byPosition this
    ∧ (∀ q, registered this' q ↔ registered this q)
    ∧ ∀ p, cablesAt (cableConnections this') p ⊆ cablesAt (cableConnections this) p.
Proof.
  intros Hok. unfold replacePowerSwitchCable.
  destruct (cableConnections this !! key) as [data|] eqn:Hdata;
    [|by exists this].
  destruct (isPowerSwitchConnectionPoint point); [|by exists this].
  destruct (elements data) as [|first rest] eqn:Hel.
  { apply elements_empty_inv, leibniz_equiv in Hel. destruct Hok as (Hne & _).
    by destruct (Hne key data). }
  eexists. split; [reflexivity|].
  destruct (removeCableConnection_keeps this first key Hok) as [Hkeep Hsub].
  destruct (removeCableConnection_spec this first key) as (He & Hc & Hb & Hr & _).
  done.
Qed.

Lemma size_union_singleton_le (X : gset CableConnectionPoint) y :
  (size (X ∪ {[ y ]}) ≤ S (size X))%nat.
Proof.
  rewrite size_union_alt.
  pose proof (subseteq_size ({[ y ]} ∖ X) {[ y ]} ltac:(set_solver)) as H.
  rewrite size_singleton in H. lia.
Qed.

Lemma cablesCorrect_add this point1 point2 :
  cablesCorrect this →
  getEntityOfConnectionPoint point1 ≠ getEntityOfConnectionPoint point2 →
  getEntityOfConnectionPoint point1 ∈ entities this →
  getEntityOfConnectionPoint point2 ∈ entities this →
  registered this point1 → registered this point2 →
  (size (cablesAt (cableConnections this) point1) < MaxCableConnections)%nat →
  (size (cablesAt (cableConnections this) point2) < MaxCableConnections)%nat →
  cablesCorrect
    (setCableConnections
       (addCableIn point2 point1 (addCableIn point1 point2 (cableConnections this))) this).
Proof.
  intros (Hnoempty & Hsym & Hdeg) Hne H1 H2 Hr1 Hr2 Hs1 Hs2.
  assert (point1 ≠ point2) as Hp by (intros ->; done).
  assert (Hat : ∀ p,
    cablesAt (addCableIn point2 point1 (addCableIn point1 point2 (cableConnections this))) p
    = if decide (p = point1) then cablesAt (cableConnections this) p ∪ {[ point2 ]}
      else if decide (p = point2) then cablesAt (cableConnections this) p ∪ {[ point1 ]}
      else cablesAt (cableConnections this) p).
  { intros p. rewrite !cablesAt_addCableIn. repeat case_decide; simplify_eq; done. }
  split; [|split]; simpl.
  - by do 2 apply noEmptyCable_addCableIn.
  - intros p q. rewrite !Hat. intros Hq.
    assert (q ∈ cablesAt (cableConnections this) p
            ∨ (p = point1 ∧ q = point2) ∨ (p = point2 ∧ q = point1)) as [Hold|Hnew]
      by (repeat case_decide; set_solver).
    + destruct (Hsym p q Hold) as (Ha & Hb & Hc & Hd).
      repeat split; try done. repeat case_decide; set_solver.
    + destruct Hnew as [[-> ->]|[-> ->]]; repeat split; try done;
        repeat case_decide; set_solver.
  - intros p. rewrite Hat. unfold MaxCableConnections in *.
    repeat case_decide; subst; [| |apply Hdeg];
      (etrans; [apply size_union_singleton_le|]); lia.
Qed.

Lemma replacePowerSwitchCable_free this point key :
  (isPowerSwitchConnectionPoint point = true → cableConnections this !! key = None) →
  replacePowerSwitchCable this point key = Returned this.
Proof.
  intros Hfree. unfold replacePowerSwitchCable.
  destruct (cableConnections this !! key) as [data|]; [|done].
  destruct (isPowerSwitchConnectionPoint point); [|done]. by specialize (Hfree eq_refl).
Qed.

(** A power switch side with one cable is left with none. *)
Lemma replacePowerSwitchCable_switch this point key :
  cablesCorrect this →
  isPowerSwitchConnectionPoint point = true →
  (size (cablesAt (cableConnections this) key) ≤ 1)%nat →
  ∀ this', replacePowerSwitchCable this point key = Returned this' →
           cablesAt (cableConnections this') key = ∅.
Proof.
  intros Hok Hswitch Hsize this'. unfold replacePowerSwitchCable, cablesAt in *.
  destruct (cableConnections this !! key) as [data|] eqn:Hdata.
  2: { intros [= <-]. by rewrite Hdata. }
  rewrite Hswitch. cbn [default from_option id] in Hsize.
  destruct (elements data) as [|first rest] eqn:Hel; [done|]. intros [= <-].
  assert (first ∈ data) as Hfirst by (apply elem_of_elements; rewrite Hel; left).
  assert (data = {[ first ]}) as ->.
  { apply set_eq. intros x. split; [|set_solver]. intros Hx.
    destruct (decide (x = first)) as [->|Hne]; [set_solver|]. exfalso.
    assert (({[ x; first ]} : gset CableConnectionPoint) ⊆ data) as Hsub by set_solver.
    apply subseteq_size in Hsub. rewrite size_union, !size_singleton in Hsub by set_solver.
    lia. }
  destruct Hok as (Hnoempty & Hsym & Hdeg).
  assert (first ∈ cablesAt (cableConnections this) key) as Hin
    by (unfold cablesAt; rewrite Hdata; set_solver).
  destruct (Hsym key first Hin) as (Hback & Hkey & Hregkey & Hne).
  destruct (Hsym first key Hback) as (_ & Hf & Hregf & _).
  destruct (removeCableConnection_spec this first key)
    as (_ & _ & _ & _ & [(Hc & _)|[_ Hno]]); [|destruct Hno; by auto].
  fold (cablesAt (cableConnections (removeCableConnection this first key)) key).
  rewrite Hc, !cablesAt_removeCableIn, decide_True by done.
  unfold cablesAt. rewrite Hdata. case_decide; set_solver.
Qed.

(** A run of [addCableConnection] on a correct graph. *)
Lemma addCableConnection_run this point1 point2 :
  cablesCorrect this →
  ∃ result this',
    addCableConnection this point1 point2 = Returned (result, this')
    ∧ cablesCorrect this'
    ∧ entities this' = entities this
    ∧ circuitConnections this' = circuitConnections this
    ∧ byPosition this' = byPosition this
    ∧ (∀ q, registered this q → registered this' q)
    ∧ (result ≠ Added → cableConnections this' = cableConnections this)
    ∧ (result = Added →
       registered this' point1 ∧ registered this' point2
       ∧ getEntityOfConnectionPoint point1 ≠ getEntityOfConnectionPoint point2
       ∧ getEntityOfConnectionPoint point1 ∈ entities this
       ∧ getEntityOfConnectionPoint point2 ∈ entities this
       ∧ (point2 ∉ cablesAt (cableConnections this) point1)
       ∧ (point1 ∉ cablesAt (cableConnections this) point2)
       ∧ ∃ mid,
           (∀ p, cablesAt mid p ⊆ cablesAt (cableConnections this) p)
           ∧ noEmptyCable mid
           ∧ ((isPowerSwitchConnectionPoint point1 = true →
               cableConnections this !! point1 = None) →
              (isPowerSwitchConnectionPoint point2 = true →
               cableConnections this !! point2 = None) →
              mid = cableConnections this)
           ∧ (∀ point, point = point1 ∨ point = point2 →
                isPowerSwitchConnectionPoint point = true →
                (size (cablesAt (cableConnections this) point) ≤ 1)%nat →
                cablesAt mid point = ∅)
           ∧ cableConnections this'
             = addCableIn point2 point1 (addCableIn point1 point2 mid)).
Proof.
  intros Hok. unfold addCableConnection, has.
  destruct (decide (getEntityOfConnectionPoint point1 = getEntityOfConnectionPoint point2))
    as [Heq|Hne].
  { rewrite bool_decide_eq_true_2 by done. by exists Error, this. }
  rewrite (bool_decide_eq_false_2 _ Hne).
  destruct (decide (getEntityOfConnectionPoint point1 ∈ entities this)) as [H1|H1];
    [rewrite (bool_decide_eq_true_2 _ H1)
    |rewrite (bool_decide_eq_false_2 _ H1); by exists Error, this].
  destruct (decide (getEntityOfConnectionPoint point2 ∈ entities this)) as [H2|H2];
    [rewrite (bool_decide_eq_true_2 _ H2)
    |rewrite (bool_decide_eq_false_2 _ H2); by exists Error, this].
  simpl.
  pose proof (getConnectionPointKey_frame this point1 true) as Hf1.
  pose proof (getConnectionPointKey_create this point1) as Hk1.
  pose proof (getConnectionPointKey_registers this point1) as Hn1.
  pose proof (getConnectionPointKey_registered this point1 true) as Hm1.
  destruct (getConnectionPointKey this point1 true) as [key1 this1]. simpl in *.
  pose proof (getConnectionPointKey_frame this1 point2 true) as Hf2.
  pose proof (getConnectionPointKey_create this1 point2) as Hk2.
  pose proof (getConnectionPointKey_registers this1 point2) as Hn2.
  pose proof (getConnectionPointKey_registered this1 point2 true) as Hm2.
  destruct (getConnectionPointKey this1 point2 true) as [key2 this2]. simpl in *.
  subst key1 key2.
  destruct Hf1 as (Hb1 & He1 & Hc1 & Hcab1 & _).
  destruct Hf2 as (Hb2 & He2 & Hc2 & Hcab2 & _).
  assert (Hcab : cableConnections this2 = cableConnections this) by congruence.
  assert (Hent : entities this2 = entities this) by congruence.
  assert (Hmono : ∀ q, registered this q → registered this2 q) by auto.
  assert (Hok2 : cablesCorrect this2) by by apply (cablesCorrect_frame this).
  rewrite Hcab.
  assert (Hcheck : ∀ p q,
    checkCableData (cableConnections this !! p) q = None →
    (q ∉ cablesAt (cableConnections this) p)
    ∧ (size (cablesAt (cableConnections this) p) < MaxCableConnections)%nat).
  { intros p q. unfold checkCableData, cablesAt.
    destruct (cableConnections this !! p) as [d|]; cbn [default from_option id].
    - repeat case_bool_decide; try done. intros _. split; [done|].
      unfold MaxCableConnections in *. lia.
    - intros _. split; [set_solver|]. rewrite size_empty. unfold MaxCableConnections. lia. }
  destruct (checkCableData (cableConnections this !! point1) point2) as [r1|] eqn:Hch1.
  { exists r1, this2. split; [done|]. split; [done|]. split; [done|].
    split; [congruence|]. split; [congruence|]. split; [done|]. split; [done|].
    intros ->. exfalso. unfold checkCableData in Hch1. repeat case_match; simplify_eq. }
  destruct (checkCableData (cableConnections this !! point2) point1) as [r2|] eqn:Hch2.
  { exists r2, this2. split; [done|]. split; [done|]. split; [done|].
    split; [congruence|]. split; [congruence|]. split; [done|]. split; [done|].
    intros ->. exfalso. unfold checkCableData in Hch2. repeat case_match; simplify_eq. }
  apply Hcheck in Hch1 as [Hnot1 Hsz1]. apply Hcheck in Hch2 as [Hnot2 Hsz2].
  destruct (replacePowerSwitchCable_keeps this2 point1 point1 Hok2)
    as (this3 & Hrun3 & Hok3 & He3 & Hc3 & Hb3 & Hr3 & Hsub3).
  rewrite Hrun3. simpl.
  destruct (replacePowerSwitchCable_keeps this3 point2 point2 Hok3)
    as (this4 & Hrun4 & Hok4 & He4 & Hc4 & Hb4 & Hr4 & Hsub4).
  rewrite Hrun4. simpl.
  assert (Hsub : ∀ p, cablesAt (cableConnections this4) p
                      ⊆ cablesAt (cableConnections this) p).
  { intros p. etrans; [apply Hsub4|]. etrans; [apply Hsub3|]. by rewrite Hcab. }
  eexists Added, _. split; [reflexivity|]. split.
  { apply cablesCorrect_add; try done.
    - congruence.
    - congruence.
    - by apply Hr4, Hr3, Hm2.
    - by apply Hr4, Hr3.
    - eapply Nat.le_lt_trans; [apply subseteq_size, Hsub|done].
    - eapply Nat.le_lt_trans; [apply subseteq_size, Hsub|done]. }
  simpl. split; [congruence|]. split; [congruence|]. split; [congruence|].
  split; [intros q Hq; by apply Hr4, Hr3, Hmono|]. split; [done|]. intros _.
  split; [by apply Hr4, Hr3, Hm2|]. split; [by apply Hr4, Hr3|].
  repeat split; try done.
  exists (cableConnections this4). split; [done|]. split; [apply Hok4|].
  split; [|split; [|done]].
  - intros Hfree1 Hfree2.
    rewrite replacePowerSwitchCable_free in Hrun3 by (by rewrite Hcab).
    injection Hrun3 as <-.
    rewrite replacePowerSwitchCable_free in Hrun4 by (by rewrite Hcab).
    by injection Hrun4 as <-.
  - intros point [->| ->] Hswitch Hsize.
    + apply (replacePowerSwitchCable_switch this2 point1 point1 Hok2 Hswitch) in Hrun3;
        [|by rewrite Hcab].
      specialize (Hsub4 point1). rewrite Hrun3 in Hsub4. set_solver.
    + apply (replacePowerSwitchCable_switch this3 point2 point2 Hok3 Hswitch) in Hrun4;
        [done|].
      etrans; [apply subseteq_size, Hsub3|]. by rewrite Hcab.
Qed.

(** X13.  The new store has a correct cable graph, and [addCableConnection]
    and [removeCableConnection] keep it correct, whatever they are given:
    every cable is held at both ends, between points of two different
    entities of the store, each with a key; no point has more than 5
    cables; no emptied set is left behind.  On a correct graph
    [addCableConnection] returns and does not raise. *)
Theorem cable_operations_keep_graph_correct :
  cablesCorrect newAssemblyContent
  ∧ ∀ (this : AssemblyContentImpl) (point1 point2 : CableConnectionPoint),
      cablesCorrect this →
      (∃ result this',
          addCableConnection this point1 point2 = Returned (result, this')
          ∧ cablesCorrect this')
      ∧ cablesCorrect (removeCableConnection this point1 point2).
Proof.
  split.
  { split; [|split].
    - intros p d Hp. simpl in Hp. by rewrite lookup_empty in Hp.
    - intros p q Hq. unfold cablesAt in Hq. simpl in Hq. rewrite lookup_empty in Hq.
      set_solver.
    - intros p. unfold cablesAt. cbn [cableConnections newAssemblyContent].
      rewrite lookup_empty. cbn [default from_option id]. rewrite size_empty.
      unfold MaxCableConnections. lia. }
  intros this point1 point2 Hok. split.
  - destruct (addCableConnection_run this point1 point2 Hok)
      as (result & this' & Hrun & Hok' & _). eauto.
  - by apply removeCableConnection_keeps.
Qed.

Lemma removeCableConnection_entity_points this a b :
  removeCableConnection this (EntityPoint a) (EntityPoint b)
  = setCableConnections
      (cableConnections (removeCableConnection this (EntityPoint a) (EntityPoint b))) this.
Proof.
  unfold removeCableConnection. simpl. repeat case_match; simpl; by destruct this.
Qed.

Lemma addCableConnection_entity_points this a b result this' :
  addCableConnection this (EntityPoint a) (EntityPoint b) = Returned (result, this') →
  this' = setCableConnections (cableConnections this') this.
Proof.
  unfold addCableConnection. cbn [getEntityOfConnectionPoint getConnectionPointKey].
  intros Hrun.
  repeat case_match; cbv [mret outcome_ret] in Hrun; simplify_eq;
    try (first [by destruct this|by destruct this']).
  rewrite replacePowerSwitchCable_free in Hrun by done. cbn [mbind outcome_bind] in Hrun.
  rewrite replacePowerSwitchCable_free in Hrun by done. cbn [mbind outcome_bind] in Hrun.
  simplify_eq. by destruct this.
Qed.

(** X14.  On a correct graph, when [addCableConnection(point1, point2)]
    answers [Added] and took no cable off a power switch side to make room
    (a power switch point given to it had no cable), then
    [removeCableConnection(point1, point2)] gives back the cable graph as it
    was, and the whole store when both are plain entity points.  The two
    points are then cabled to each other, and nothing else has changed in
    the graph. *)
Theorem addCableConnection_removeCableConnection
    (this this' : AssemblyContentImpl) (point1 point2 : CableConnectionPoint) :
  cablesCorrect this →
  (isPowerSwitchConnectionPoint point1 = true → cableConnections this !! point1 = None) →
  (isPowerSwitchConnectionPoint point2 = true → cableConnections this !! point2 = None) →
  addCableConnection this point1 point2 = Returned (Added, this') →
  (∀ p, cablesAt (cableConnections this') p
        = if decide (p = point1) then cablesAt (cableConnections this) p ∪ {[ point2 ]}
          else if decide (p = point2) then cablesAt (cableConnections this) p ∪ {[ point1 ]}
          else cablesAt (cableConnections this) p)
  ∧ cableConnections (removeCableConnection this' point1 point2) = cableConnections this
  ∧ (isPowerSwitchConnectionPoint point1 = false →
     isPowerSwitchConnectionPoint point2 = false →
     removeCableConnection this' point1 point2 = this).
Proof.
  intros Hok Hfree1 Hfree2 Hadd.
  destruct (addCableConnection_run this point1 point2 Hok)
    as (result & that & Hrun & Hok' & Hent & _ & _ & _ & _ & Hadded).
  rewrite Hadd in Hrun. injection Hrun as <- <-.
  destruct (Hadded eq_refl)
    as (Hr1 & Hr2 & Hne & H1 & H2 & Hnot1 & Hnot2 & mid & _ & _ & Hmid & _ & Hcab).
  rewrite (Hmid Hfree1 Hfree2) in Hcab. clear Hmid mid.
  assert (point1 ≠ point2) as Hp by (intros ->; done).
  assert (Hat : ∀ p, cablesAt (cableConnections this') p
        = if decide (p = point1) then cablesAt (cableConnections this) p ∪ {[ point2 ]}
          else if decide (p = point2) then cablesAt (cableConnections this) p ∪ {[ point1 ]}
          else cablesAt (cableConnections this) p).
  { intros p. rewrite Hcab, !cablesAt_addCableIn. repeat case_decide; simplify_eq; done. }
  assert (Hback : cableConnections (removeCableConnection this' point1 point2)
                  = cableConnections this).
  { destruct (removeCableConnection_spec this' point1 point2)
      as (_ & _ & _ & _ & [(Hc & _)|[_ Hno]]).
    2: { destruct Hno. rewrite Hent. done. }
    rewrite Hc. apply noEmptyCable_ext.
    - do 2 apply noEmptyCable_removeCableIn. apply Hok'.
    - apply Hok.
    - intros p. rewrite !cablesAt_removeCableIn, !Hat.
      repeat case_decide; simplify_eq; set_solver. }
  split; [done|]. split; [done|]. intros Hp1 Hp2.
  destruct point1 as [a|]; [|done]. destruct point2 as [b|]; [|done].
  rewrite removeCableConnection_entity_points, Hback.
  rewrite (addCableConnection_entity_points _ _ _ _ _ Hadd). by destruct this.
Qed.

(** Every power switch point holds one cable at most. *)
Definition switchSidesSingle (this : AssemblyContentImpl) : Prop :=
  ∀ p, isPowerSwitchConnectionPoint p = true →
       (size (cablesAt (cableConnections this) p) ≤ 1)%nat.

(** X15.  A power switch side holds one cable: on a correct graph where
    every power switch point has one cable at most, when
    [addCableConnection(point1, point2)] answers [Added] a power switch
    point among the two is cabled to the other point only (the cable it
    had is gone from both its ends), and every power switch point still
    has one cable at most. *)
Theorem addCableConnection_power_switch_side
    (this this' : AssemblyContentImpl) (point1 point2 : CableConnectionPoint) :
  cablesCorrect this → switchSidesSingle this →
  addCableConnection this point1 point2 = Returned (Added, this') →
  (isPowerSwitchConnectionPoint point1 = true →
   cablesAt (cableConnections this') point1 = {[ point2 ]}
   ∧ ∀ q, q ∈ cablesAt (cableConnections this) point1 →
          point1 ∉ cablesAt (cableConnections this') q)
  ∧ (isPowerSwitchConnectionPoint point2 = true →
     cablesAt (cableConnections this') point2 = {[ point1 ]}
     ∧ ∀ q, q ∈ cablesAt (cableConnections this) point2 →
            point2 ∉ cablesAt (cableConnections this') q)
  ∧ switchSidesSingle this'.
Proof.
  intros Hok Hsingle Hadd.
  destruct (addCableConnection_run this point1 point2 Hok)
    as (result & that & Hrun & Hok' & Hent & _ & _ & _ & _ & Hadded).
  rewrite Hadd in Hrun. injection Hrun as <- <-.
  destruct (Hadded eq_refl)
    as (Hr1 & Hr2 & Hne & H1 & H2 & Hnot1 & Hnot2 & mid & Hsub & _ & _ & Hgone & Hcab).
  assert (point1 ≠ point2) as Hp by (intros ->; done).
  assert (Hat : ∀ p, cablesAt (cableConnections this') p
        = if decide (p = point1) then cablesAt mid p ∪ {[ point2 ]}
          else if decide (p = point2) then cablesAt mid p ∪ {[ point1 ]}
          else cablesAt mid p).
  { intros p. rewrite Hcab, !cablesAt_addCableIn. repeat case_decide; simplify_eq; done. }
  destruct Hok' as (_ & Hsym' & _).
  assert (Hside : ∀ point other,
    (point = point1 ∧ other = point2) ∨ (point = point2 ∧ other = point1) →
    isPowerSwitchConnectionPoint point = true →
    cablesAt (cableConnections this') point = {[ other ]}
    ∧ ∀ q, q ∈ cablesAt (cableConnections this) point →
           point ∉ cablesAt (cableConnections this') q).
  { intros point other Hwhich Hswitch.
    assert (cablesAt mid point = ∅) as Hempty
      by (apply Hgone; [naive_solver|done|by apply Hsingle]).
    assert (cablesAt (cableConnections this') point = {[ other ]}) as Hnew.
    { rewrite Hat. destruct Hwhich as [[-> ->]|[-> ->]];
        repeat case_decide; simplify_eq; set_solver. }
    split; [done|]. intros q Hq Hin.
    destruct (Hsym' q point Hin) as (Hback & _). rewrite Hnew in Hback.
    apply elem_of_singleton in Hback. subst q.
    destruct Hwhich as [[-> ->]|[-> ->]]; done. }
  split; [|split].
  - intros Hswitch. apply Hside; [by left|done].
  - intros Hswitch. apply Hside; [by right|done].
  - intros p Hswitch. destruct (decide (p = point1)) as [->|Hn1].
    { destruct (Hside point1 point2) as [-> _]; [by left|done|].
      by rewrite size_singleton. }
    destruct (decide (p = point2)) as [->|Hn2].
    { destruct (Hside point2 point1) as [-> _]; [by right|done|].
      by rewrite size_singleton. }
    rewrite Hat, !decide_False by done.
    etrans; [apply subseteq_size, Hsub|]. by apply Hsingle.
Qed.

(** A store with three entities and one cable between two of them. *)
Definition cabledStore : AssemblyContentImpl :=
  {| byPosition := ∅;
     entities := {[ 1%positive; 2%positive; 3%positive ]};
     circuitConnections := ∅;
     cableConnections :=
       {[ EntityPoint 1 := {[ EntityPoint 2 ]}; EntityPoint 2 := {[ EntityPoint 1 ]} ]};
     extraCableConnectionPoints := None |}.

(** The checks of [cablesCorrect], run over the entries of a store. *)
Definition checkCables (this : AssemblyContentImpl) : bool :=
  forallb (fun entry : CableConnectionPoint * AsmEntityCableConnections =>
             negb (bool_decide (entry.2 = ∅))
             && bool_decide (size entry.2 ≤ MaxCableConnections)%nat
             && bool_decide (getEntityOfConnectionPoint entry.1 ∈ entities this)
             && match entry.1 with
                | EntityPoint _ => true
                | PowerSwitchPoint entity connectionId =>
                    bool_decide
                      (connectionId
                         ∈ default ∅ (extraCableConnectionPoints this ≫= (.!! entity)))
                end
             && forallb (fun other =>
                           bool_decide
                             (entry.1 ∈ default ∅ (cableConnections this !! other))
                           && negb (bool_decide (getEntityOfConnectionPoint entry.1
                                                 = getEntityOfConnectionPoint other)))
                        (elements entry.2))
          (map_to_list (cableConnections this)).

Lemma checkCables_sound this : checkCables this = true → cablesCorrect this.
Proof.
  unfold checkCables. intros Hall.
  assert (Hentry : ∀ p d, cableConnections this !! p = Some d →
    d ≠ ∅ ∧ (size d ≤ MaxCableConnections)%nat
    ∧ getEntityOfConnectionPoint p ∈ entities this
    ∧ registered this p
    ∧ ∀ q, q ∈ d → p ∈ cablesAt (cableConnections this) q
                   ∧ getEntityOfConnectionPoint p ≠ getEntityOfConnectionPoint q).
  { intros p d Hp.
    apply (forallb_elem_of _ _ (p, d)) in Hall; [|by apply elem_of_map_to_list].
    rewrite !andb_true_iff in Hall. destruct Hall as [[[[He Hs] Hin] Hreg] Hq].
    apply negb_true_iff, bool_decide_eq_false in He.
    apply bool_decide_eq_true in Hs, Hin. simpl in *.
    repeat split; try done.
    - destruct p as [e|e cid]; [done|]. apply bool_decide_eq_true in Hreg. simpl.
      destruct (extraCableConnectionPoints this) as [registry|]; simpl in Hreg;
        [|set_solver].
      destruct (registry !! e) as [ids|] eqn:Hids; simpl in Hreg; [eauto|set_solver].
    - apply (forallb_elem_of _ _ q) in Hq; [|by apply elem_of_elements].
      apply andb_true_iff in Hq as [Hq _]. by apply bool_decide_eq_true in Hq.
    - apply (forallb_elem_of _ _ q) in Hq; [|by apply elem_of_elements].
      apply andb_true_iff in Hq as [_ Hq].
      by apply negb_true_iff, bool_decide_eq_false in Hq. }
  split; [|split].
  - intros p d Hp. by destruct (Hentry p d Hp).
  - intros p q (d & Hp & Hq)%cablesAt_elem_of.
    destruct (Hentry p d Hp) as (_ & _ & Hin & Hreg & Hother).
    destruct (Hother q Hq). done.
  - intros p. unfold cablesAt. destruct (cableConnections this !! p) as [d|] eqn:Hp.
    + by destruct (Hentry p d Hp) as (_ & Hs & _).
    + cbn [default from_option id]. rewrite size_empty. unfold MaxCableConnections. lia.
Qed.

Lemma addCableConnection_removeCableConnection_witness :
  cablesCorrect cabledStore
  ∧ ∃ this',
      addCableConnection cabledStore (EntityPoint 1) (EntityPoint 3) = Returned (Added, this')
      ∧ removeCableConnection this' (EntityPoint 1) (EntityPoint 3) = cabledStore.
Proof.
  assert (cablesCorrect cabledStore) as H
    by (apply checkCables_sound; vm_compute; reflexivity).
  split; [exact H|].
  destruct (addCableConnection cabledStore (EntityPoint 1) (EntityPoint 3))
    as [[[] this']|] eqn:Hadd; try (vm_compute in Hadd; discriminate Hadd).
  exists this'. split; [reflexivity|].
  apply (addCableConnection_removeCableConnection cabledStore this'
           (EntityPoint 1) (EntityPoint 3) H); try done.
Defined.

(** A store where side 0 of the power switch 1 is cabled to the pole 3. *)
Definition switchStore : AssemblyContentImpl :=
  {| byPosition := ∅;
     entities := {[ 1%positive; 2%positive; 3%positive ]};
     circuitConnections := ∅;
     cableConnections :=
       {[ PowerSwitchPoint 1 0 := {[ EntityPoint 3 ]};
          EntityPoint 3 := {[ PowerSwitchPoint 1 0 ]} ]};
     extraCableConnectionPoints := Some {[ 1%positive := {[ 0 ]} ]} |}.

Definition checkSwitchSides (this : AssemblyContentImpl) : bool :=
  forallb (fun entry : CableConnectionPoint * AsmEntityCableConnections =>
             negb (isPowerSwitchConnectionPoint entry.1)
             || bool_decide (size entry.2 ≤ 1)%nat)
          (map_to_list (cableConnections this)).

Lemma checkSwitchSides_sound this : checkSwitchSides this = true → switchSidesSingle this.
Proof.
  intros Hall p Hswitch. unfold cablesAt.
  destruct (cableConnections this !! p) as [d|] eqn:Hp.
  - apply (forallb_elem_of _ _ (p, d)) in Hall; [|by apply elem_of_map_to_list].
    simpl in Hall. rewrite Hswitch in Hall. simpl in Hall.
    by apply bool_decide_eq_true in Hall.
  - cbn [default from_option id]. rewrite size_empty. lia.
Qed.

(** Cabling side 0 of the switch to the pole 2 takes it off the pole 3. *)
Lemma addCableConnection_power_switch_side_witness :
  cablesCorrect switchStore ∧ switchSidesSingle switchStore
  ∧ ∃ this',
      addCableConnection switchStore (PowerSwitchPoint 1 0) (EntityPoint 2)
      = Returned (Added, this')
      ∧ cablesAt (cableConnections this') (PowerSwitchPoint 1 0) = {[ EntityPoint 2 ]}.
Proof.
  assert (cablesCorrect switchStore) as H1
    by (apply checkCables_sound; vm_compute; reflexivity).
  assert (switchSidesSingle switchStore) as H2
    by (apply checkSwitchSides_sound; vm_compute; reflexivity).
  split; [exact H1|]. split; [exact H2|].
  destruct (addCableConnection switchStore (PowerSwitchPoint 1 0) (EntityPoint 2))
    as [[[] this']|] eqn:Hadd; try (vm_compute in Hadd; discriminate Hadd).
  exists this'. split; [reflexivity|].
  apply (addCableConnection_power_switch_side switchStore this'
           (PowerSwitchPoint 1 0) (EntityPoint 2) H1 H2 Hadd). reflexivity.
Defined.

End CableGraphFacts.

(* ===================================================================== *)
(** ** What [delete] keeps of the two graphs *)
(* ===================================================================== *)

Module DeleteGraphFacts.
Import Util ProjectEntity Connections AssemblyContent CircuitFacts DeleteFacts.
Import DiffFacts CircuitIndexFacts CableGraphFacts.

(** [removeAllConnections(entity, circuitConnections)] on a symmetric index
    takes out the connections that have the entity at either end. *)
Lemma getIn_removeAllCircuitConnections key (map : Index) a b :
  trimmed map → symmetricIndex map →
  getIn a b (removeAllCircuitConnections key map)
  = if decide (a = key ∨ b = key) then None else getIn a b map.
Proof.
  intros [Hset Hmap] Hsym.
  assert (Hkeys : ∀ x y, is_Some (getIn x y map) → is_Some (getIn y x map)).
  { intros x y [s Hs]. pose proof Hs as Hs'.
    apply getIn_Some in Hs' as (cs & Hx & Hy).
    assert (s ≠ ∅) as Hne by eauto. apply set_choose_L in Hne as [c Hc].
    assert (c ∈ connectionsAt map y x) as Hc'
      by (apply Hsym; unfold connectionsAt; by rewrite Hs).
    unfold connectionsAt in Hc'. destruct (getIn y x map); [done|set_solver]. }
  unfold removeAllCircuitConnections.
  destruct (map !! key) as [entityData|] eqn:Hkey.
  - unfold getIn at 1. rewrite lookup_dropCircuitKeys.
    destruct (decide (a = key)) as [->|Ha].
    { rewrite lookup_delete_eq, (decide_True (P := key = key ∨ b = key)) by auto.
      by case_decide. }
    rewrite lookup_delete_ne by done.
    assert (Hin : a ∈ (map_to_list entityData).*1 ↔ is_Some (entityData !! a)).
    { split.
      - intros ([x s] & -> & Hx%elem_of_map_to_list)%list_elem_of_fmap. eauto.
      - intros [s Hs]. apply list_elem_of_fmap. exists (a, s).
        split; [done|]. by apply elem_of_map_to_list. }
    case_decide as Hmem.
    + unfold withoutCircuitKey. destruct (map !! a) as [d|] eqn:Hd.
      2: { simpl. case_decide; [done|]. unfold getIn. by rewrite Hd. }
      destruct (decide (b = key)) as [->|Hb].
      * rewrite (decide_True (P := a = key ∨ key = key)) by auto.
        destruct (isEmpty (base.delete key d)); simpl; [done|apply lookup_delete_eq].
      * rewrite decide_False by naive_solver. unfold getIn. rewrite Hd. simpl.
        destruct (isEmpty (base.delete key d)) eqn:He; simpl.
        -- apply isEmpty_true in He.
           assert (base.delete key d !! b = None) as Hn by by rewrite He.
           by rewrite lookup_delete_ne in Hn.
        -- by rewrite lookup_delete_ne.
    + destruct (decide (b = key)) as [->|Hb].
      * rewrite (decide_True (P := a = key ∨ key = key)) by auto.
        destruct (map !! a ≫= (.!! key)) as [s|] eqn:Hs; [|done]. destruct Hmem.
        apply Hin. destruct (Hkeys a key) as [s' Hs']; [by eexists|].
        apply getIn_Some in Hs' as (cs & Hcs & Hk). rewrite Hkey in Hcs.
        injection Hcs as <-. eauto.
      * by rewrite decide_False by naive_solver.
  - destruct (decide (a = key)) as [->|Ha].
    { rewrite decide_True by auto. unfold getIn. by rewrite Hkey. }
    destruct (decide (b = key)) as [->|Hb]; [|by rewrite decide_False by naive_solver].
    rewrite decide_True by auto.
    destruct (getIn a key map) as [s|] eqn:Hs; [|done].
    destruct (Hkeys a key) as [s' Hs']; [by eexists|].
    apply getIn_Some in Hs' as (cs & Hcs & _). congruence.
Qed.

Lemma lookup_removeAllCircuitConnections_Some key (map : Index) a connections :
  removeAllCircuitConnections key map !! a = Some connections →
  connections ≠ ∅ ∨ map !! a = Some connections.
Proof.
  unfold removeAllCircuitConnections.
  destruct (map !! key) as [entityData|] eqn:Hkey; simpl; [|auto].
  rewrite lookup_dropCircuitKeys. case_decide as Hin.
  - unfold withoutCircuitKey.
    destruct (base.delete key map !! a) as [d|]; [|done].
    destruct (isEmpty (base.delete key d)) eqn:He; [done|]. intros [= <-]. left.
    intros Hempty. by rewrite (proj2 (isEmpty_true _) Hempty) in He.
  - intros [_ Ha]%lookup_delete_Some. by right.
Qed.

Lemma trimmed_removeAllCircuitConnections key (map : Index) :
  trimmed map → symmetricIndex map → trimmed (removeAllCircuitConnections key map).
Proof.
  intros Htrim Hsym. split.
  - intros a connections b set Ha Hb.
    assert (getIn a b (removeAllCircuitConnections key map) = Some set) as Hget
      by (apply getIn_Some; eauto).
    rewrite getIn_removeAllCircuitConnections in Hget by done.
    case_decide; [done|]. apply getIn_Some in Hget as (cs & H1 & H2).
    destruct Htrim as [Hset _]. eauto.
  - intros a connections Ha.
    apply lookup_removeAllCircuitConnections_Some in Ha as [?|Ha]; [done|].
    destruct Htrim as [_ Hmap]. eauto.
Qed.

(** [removeAllConnections(point, cableConnections)] on a symmetric graph
    takes out the cables that have the point at either end. *)
Lemma cablesAt_removeAllCableConnections key (map : Cables) p :
  (∀ p q, q ∈ cablesAt map p → p ∈ cablesAt map q) →
  cablesAt (removeAllCableConnections key map) p
  = if decide (p = key) then ∅ else cablesAt map p ∖ {[ key ]}.
Proof.
  intros Hsym. unfold cablesAt at 1. rewrite lookup_removeAllCableConnections.
  assert (Hwithout : default ∅ (withoutCablePoint key (map !! p))
                     = cablesAt map p ∖ {[ key ]}).
  { unfold withoutCablePoint, cablesAt. destruct (map !! p) as [d|]; simpl; [|set_solver].
    case_bool_decide as He; simpl; [by rewrite He|done]. }
  destruct (map !! key) as [entityData|] eqn:Hkey.
  - case_decide as Hp; [done|]. case_decide as Hin; [done|].
    assert (key ∉ cablesAt map p); [|set_solver].
    intros Hk. apply Hsym in Hk. unfold cablesAt in Hk. by rewrite Hkey in Hk.
  - case_decide as Hp.
    + subst p. by rewrite Hkey.
    + assert (key ∉ cablesAt map p); [|unfold cablesAt in *; set_solver].
      intros Hk. apply Hsym in Hk. unfold cablesAt in Hk. rewrite Hkey in Hk. set_solver.
Qed.

Lemma noEmptyCable_removeAllCableConnections key (map : Cables) :
  noEmptyCable map → noEmptyCable (removeAllCableConnections key map).
Proof.
  intros Hne p d. rewrite lookup_removeAllCableConnections.
  destruct (map !! key) as [entityData|]; [|apply Hne].
  repeat case_decide; [done| |apply Hne].
  unfold withoutCablePoint. destruct (map !! p) as [d0|]; [|done].
  case_bool_decide; [done|]. by intros [= <-].
Qed.

(** The loop of [delete] over the points of the entity. *)
Lemma cablesAt_removeAll_points (l : list CableConnectionPoint) (map : Cables) :
  noEmptyCable map → (∀ p q, q ∈ cablesAt map p → p ∈ cablesAt map q) →
  let map' := foldl (fun map point => removeAllCableConnections point map) map l in
  noEmptyCable map'
  ∧ ∀ p q, q ∈ cablesAt map' p ↔ q ∈ cablesAt map p ∧ (p ∉ l) ∧ (q ∉ l).
Proof.
  revert map. induction l as [|x l IH]; intros map Hne Hsym; simpl.
  { split; [done|]. intros p q. set_solver. }
  assert (Hat : ∀ p q, q ∈ cablesAt (removeAllCableConnections x map) p
                       ↔ q ∈ cablesAt map p ∧ p ≠ x ∧ q ≠ x).
  { intros p q. rewrite cablesAt_removeAllCableConnections by done.
    case_decide; set_solver. }
  destruct (IH (removeAllCableConnections x map)) as [Hne' Hat'].
  { by apply noEmptyCable_removeAllCableConnections. }
  { intros p q. rewrite !Hat. naive_solver. }
  split; [done|]. intros p q. rewrite Hat', Hat. set_solver.
Qed.

(** The points of [entity] that [delete] clears: the entity itself and its
    registered power switch points. *)
Definition pointsOf (this : AssemblyContentImpl) (entity : EntityRef)
    : list CableConnectionPoint :=
  EntityPoint entity
  :: match extraCableConnectionPoints this ≫= (.!! entity) with
     | Some extraPoints => PowerSwitchPoint entity <$> elements extraPoints
     | None => []
     end.

Lemma delete_store heap this entity :
  entity ∈ entities this →
  cableConnections (AssemblyContent.delete heap this entity)
  = foldl (fun map point => removeAllCableConnections point map)
          (cableConnections this) (pointsOf this entity)
  ∧ extraCableConnectionPoints (AssemblyContent.delete heap this entity)
    = match extraCableConnectionPoints this ≫= (.!! entity) with
      | Some _ => base.delete entity <$> extraCableConnectionPoints this
      | None => extraCableConnectionPoints this
      end.
Proof.
  intros Hin. unfold AssemblyContent.delete, has, pointsOf.
  rewrite bool_decide_eq_true_2 by done. simpl.
  by destruct (extraCableConnectionPoints this ≫= (.!! entity)).
Qed.

Lemma elem_of_pointsOf this entity q :
  q ∈ pointsOf this entity
  ↔ getEntityOfConnectionPoint q = entity ∧ registered this q.
Proof.
  unfold pointsOf. rewrite elem_of_cons. split.
  - intros [->|Hq]; [done|].
    destruct (extraCableConnectionPoints this) as [registry|] eqn:Hreg; simpl in Hq;
      [|by apply elem_of_nil in Hq].
    destruct (registry !! entity) as [ids|] eqn:Hids; [|by apply elem_of_nil in Hq].
    apply list_elem_of_fmap in Hq as (cid & -> & Hcid%elem_of_elements).
    split; [done|]. simpl. eauto.
  - intros [Heq Hreg]. destruct q as [e|e cid]; simpl in *; subst; [by left|].
    right. destruct Hreg as (registry & ids & -> & Hids & Hcid). simpl. rewrite Hids.
    apply list_elem_of_fmap. exists cid. split; [done|]. by apply elem_of_elements.
Qed.

(** X16.  On a store whose two graphs are correct, [delete(entity)] takes
    the entity out of the store and takes out exactly the circuit
    connections and the cables that have the entity, or one of its
    connection points, at an end: every other connection stays as it was,
    in both directions.  The two graphs are correct afterwards. *)
Theorem delete_takes_out_connections_of_entity
    (heap : Heap) (this : AssemblyContentImpl) (entity : EntityRef) :
  circuitsCorrect this → cablesCorrect this →
  let this' := AssemblyContent.delete heap this entity in
  entities this' = entities this ∖ {[ entity ]}
  ∧ (∀ a b c, c ∈ connectionsAt (circuitConnections this') a b
              ↔ c ∈ connectionsAt (circuitConnections this) a b
                ∧ a ≠ entity ∧ b ≠ entity)
  ∧ (∀ p q, q ∈ cablesAt (cableConnections this') p
            ↔ q ∈ cablesAt (cableConnections this) p
              ∧ getEntityOfConnectionPoint p ≠ entity
              ∧ getEntityOfConnectionPoint q ≠ entity)
  ∧ circuitsCorrect this'
  ∧ cablesCorrect this'.
Proof.
  intros (Hends & Htrim & Hsym) (Hnoempty & Hcab & Hdeg). simpl.
  pose proof (delete_entities heap this entity) as Hents.
  destruct (decide (entity ∈ entities this)) as [Hin|Hout].
  2: { assert (AssemblyContent.delete heap this entity = this) as ->.
       { unfold AssemblyContent.delete, has. by rewrite bool_decide_eq_false_2. }
       split; [set_solver|]. split; [|split; [|done]].
       - intros a b c. split; [|tauto]. intros Hc. split; [done|].
         unfold connectionsAt in Hc.
         destruct (getIn a b (circuitConnections this)) as [s|] eqn:Hs; [|set_solver].
         apply getIn_Some in Hs as (cs & Ha & Hb).
         destruct (Hends a cs Ha) as [Ha' Hb']. specialize (Hb' b ltac:(eauto)).
         split; intros ->; done.
       - intros p q. split; [|tauto]. intros Hq. split; [done|].
         destruct (Hcab p q Hq) as (Hback & Hp & _).
         destruct (Hcab q p Hback) as (_ & Hq' & _). split; intros Heq; congruence. }
  pose proof (delete_circuits heap this entity Hin) as Hcircuits.
  destruct (delete_store heap this entity Hin) as [Hcables Hregistry].
  set (this' := AssemblyContent.delete heap this entity) in *.
  (* the circuit index *)
  assert (Hgetin : ∀ a b, getIn a b (circuitConnections this')
            = if decide (a = entity ∨ b = entity) then None
              else getIn a b (circuitConnections this)).
  { intros a b. rewrite Hcircuits. by apply getIn_removeAllCircuitConnections. }
  assert (Hcirc : ∀ a b c, c ∈ connectionsAt (circuitConnections this') a b
              ↔ c ∈ connectionsAt (circuitConnections this) a b ∧ a ≠ entity ∧ b ≠ entity).
  { intros a b c. unfold connectionsAt. rewrite Hgetin.
    case_decide as Hd; simpl; [set_solver|]. naive_solver. }
  (* the cable graph *)
  destruct (cablesAt_removeAll_points (pointsOf this entity) (cableConnections this))
    as [Hnoempty' Hat]; [done|by intros p q [? _]%Hcab|].
  rewrite <- Hcables in Hnoempty', Hat.
  assert (Hcables' : ∀ p q, q ∈ cablesAt (cableConnections this') p
            ↔ q ∈ cablesAt (cableConnections this) p
              ∧ getEntityOfConnectionPoint p ≠ entity
              ∧ getEntityOfConnectionPoint q ≠ entity).
  { intros p q. rewrite Hat, !elem_of_pointsOf. split.
    - intros (Hq & Hp' & Hq'). destruct (Hcab p q Hq) as (Hback & _ & Hregp & _).
      destruct (Hcab q p Hback) as (_ & _ & Hregq & _). naive_solver.
    - naive_solver. }
  assert (Hreg' : ∀ q, getEntityOfConnectionPoint q ≠ entity →
                       registered this q → registered this' q).
  { intros [e|e cid] Hne; [done|]. simpl in *.
    intros (registry & ids & Hr & Hids & Hcid). rewrite Hregistry, Hr. simpl.
    destruct (registry !! entity); simpl; eexists _, ids;
      (split; [done|]); by rewrite ?lookup_delete_ne. }
  split; [done|]. split; [done|]. split; [done|]. split; [|split; [|split]].
  - split; [|split].
    + intros a connections Ha.
      assert (connections ≠ ∅) as Hne.
      { rewrite Hcircuits in Ha.
        apply (proj2 (trimmed_removeAllCircuitConnections entity _ Htrim Hsym)) in Ha.
        done. }
      assert (Hkey : ∀ b, is_Some (connections !! b) →
                a ≠ entity ∧ b ≠ entity ∧ a ∈ entities this ∧ b ∈ entities this).
      { intros b [s Hs].
        assert (getIn a b (circuitConnections this') = Some s) as Hget
          by (apply getIn_Some; eauto).
        rewrite Hgetin in Hget. case_decide as Hd; [done|].
        apply getIn_Some in Hget as (cs & Hcs & Hb).
        destruct (Hends a cs Hcs) as [Ha' Hb']. specialize (Hb' b ltac:(eauto)).
        naive_solver. }
      apply map_choose in Hne as (b & s & Hb).
      destruct (Hkey b ltac:(eauto)) as (Ha1 & _ & Ha2 & _).
      rewrite Hents. split; [set_solver|]. intros x Hx.
      destruct (Hkey x Hx) as (_ & Hx1 & _ & Hx2). set_solver.
    + rewrite Hcircuits. by apply trimmed_removeAllCircuitConnections.
    + intros a b c. rewrite !Hcirc. intros (Hc & Ha & Hb). auto.
  - done.
  - intros p q. rewrite !Hcables'. intros (Hq & Hp1 & Hq1).
    destruct (Hcab p q Hq) as (Hback & Hp & Hregp & Hne).
    rewrite Hents. repeat split; try done; [set_solver|by apply Hreg'].
  - intros p. etrans; [|apply (Hdeg p)]. apply subseteq_size.
    intros q Hq. by apply Hcables' in Hq as [Hq _].
Qed.

(** Deleting entity 1 from the store with a cable between entities 1 and 2
    leaves no cable. *)
Lemma delete_takes_out_connections_of_entity_witness :
  circuitsCorrect cabledStore ∧ cablesCorrect cabledStore
  ∧ ∀ p q, q ∈ cablesAt
                 (cableConnections
                    (AssemblyContent.delete
                       (fun _ => createProjectEntityNoCopy ∅ (Pos.Pos 0 0) None 1)
                       cabledStore 1%positive)) p
           ↔ q ∈ cablesAt (cableConnections cabledStore) p
             ∧ getEntityOfConnectionPoint p ≠ 1%positive
             ∧ getEntityOfConnectionPoint q ≠ 1%positive.
Proof.
  assert (circuitsCorrect cabledStore) as H1.
  { split; [|split; [apply trimmed_empty|apply symmetricIndex_empty]].
    intros a connections Ha. cbn [circuitConnections cabledStore] in Ha.
    by rewrite lookup_empty in Ha. }
  assert (cablesCorrect cabledStore) as H2
    by (apply checkCables_sound; vm_compute; reflexivity).
  split; [exact H1|]. split; [exact H2|].
  exact (proj1 (proj2 (proj2 (delete_takes_out_connections_of_entity
                                (fun _ => createProjectEntityNoCopy ∅ (Pos.Pos 0 0) None 1)
                                cabledStore 1%positive H1 H2)))).
Defined.

End DeleteGraphFacts.

(* ===================================================================== *)
(** ** Moving the last stage, reviving a settings remnant *)
(* ===================================================================== *)

Module LastStageFacts.
Import Util Diff ProjectEntity Connections AssemblyContent ProjectUpdates UpdateFacts.
Import StageMoveFacts.

Section LastStage.
Variable imports : Imports.

(** What [checkSetLastStage] answers; it reads the project and leaves it as
    it is. *)
Definition lastStageVerdict (project : Project) (entity : EntityRef)
    (stage : option StageNumber) : StageMoveResult.t :=
  let this := heap project entity in
  if isSettingsRemnant this then StageMoveResult.NoChange
  else if bool_decide (lastStage this = stage) then StageMoveResult.NoChange
  else if match stage with Some s => bool_decide (s < firstStage this) | None => false end
  then StageMoveResult.CannotMoveBeforeFirstStage
  else
    match lastStage this with
    | None => StageMoveResult.Updated
    | Some last =>
        if match stage with Some s => bool_decide (s < last) | None => false end
        then StageMoveResult.Updated
        else
          match findCompatibleWithExistingEntity (info imports) (heap project)
                  (content project) entity (last + 1) with
          | None => StageMoveResult.Updated
          | Some foundAbove =>
              if match stage with
                 | Some s => bool_decide (firstStage (heap project foundAbove) > s)
                 | None => false
                 end
              then StageMoveResult.Updated
              else StageMoveResult.IntersectsAnotherEntity
          end
    end.

Lemma read_run (project : Project) (entity : EntityRef) :
  read entity project = Returned (heap project entity, project).
Proof. reflexivity. Qed.

Lemma checkSetLastStage_run project entity stage :
  checkSetLastStage imports entity stage project
  = Returned (lastStageVerdict project entity stage, project).
Proof.
  unfold checkSetLastStage, lastStageVerdict, lastStageChangeWillIntersect.
  unfold read, getHeap, getContent, mbind, Update_bind, mret, Update_ret. simpl.
  destruct (isSettingsRemnant (heap project entity)); [done|].
  case_bool_decide; [done|].
  destruct (match stage with Some _ => _ | None => _ end); [done|].
  destruct (lastStage (heap project entity)) as [last|]; [|done].
  destruct (match stage with Some _ => _ | None => _ end); [done|].
  destruct (findCompatibleWithExistingEntity _ _ _ _ _) as [found|]; simpl; [|done].
  by destruct (match stage with Some _ => _ | None => _ end).
Qed.

Lemma trySetLastStage_run project entity stage :
  trySetLastStage imports entity stage project
  = match lastStageVerdict project entity stage with
    | StageMoveResult.Updated =>
        Returned (StageMoveResult.Updated,
                  {| heap := <[entity := setLastStageUnchecked stage (heap project entity)]>
                               (heap project);
                     content := content project;
                     calls := calls project
                              ++ [updateWorldEntitiesOnLastStageChanged entity
                                    (lastStage (heap project entity))] |})
    | verdict => Returned (verdict, project)
    end.
Proof.
  unfold trySetLastStage. rewrite (bind_run _ _ _ _ _ (read_run _ _)).
  destruct (isSettingsRemnant (heap project entity)) eqn:Hremnant.
  { unfold lastStageVerdict. by rewrite Hremnant. }
  rewrite (bind_run _ _ _ _ _ (checkSetLastStage_run _ _ _)).
  by destruct (lastStageVerdict project entity stage).
Qed.

(** X17.  [trySetLastStage] always returns.  It answers [NoChange] for a
    settings remnant and for the last stage the entity has already, and
    [CannotMoveBeforeFirstStage] for a stage below the first stage.  It
    answers [IntersectsAnotherEntity] when the last stage would move up, or
    be lifted, over the first stage of the entity that the resolver finds
    just above the old last stage.  Whenever the answer is not [Updated]
    the project is as before and no call is made; an answer of [Updated]
    comes with the last stage set and one call to
    [updateWorldEntitiesOnLastStageChanged] with the old last stage.
    Moving the last stage down to a stage that is not below the first
    stage is always answered [Updated]. *)
Theorem trySetLastStage_cases (project : Project) (entity : EntityRef)
    (stage : option StageNumber) :
  let this := heap project entity in
  (isSettingsRemnant this = true ∨ lastStage this = stage →
   trySetLastStage imports entity stage project
   = Returned (StageMoveResult.NoChange, project))
  ∧ (isSettingsRemnant this = false → lastStage this ≠ stage →
     (∃ s, stage = Some s ∧ s < firstStage this) →
     trySetLastStage imports entity stage project
     = Returned (StageMoveResult.CannotMoveBeforeFirstStage, project))
  ∧ (isSettingsRemnant this = false →
     ∀ last s, lastStage this = Some last → stage = Some s →
               firstStage this ≤ s < last →
     ∃ project',
       trySetLastStage imports entity stage project
       = Returned (StageMoveResult.Updated, project'))
  ∧ (isSettingsRemnant this = false →
     ∀ last foundAbove,
       lastStage this = Some last →
       (stage = None ∨ ∃ s, stage = Some s ∧ last < s
                            ∧ firstStage (heap project foundAbove) ≤ s) →
       findCompatibleWithExistingEntity (info imports) (heap project) (content project)
         entity (last + 1) = Some foundAbove →
       firstStage this ≤ last →
       trySetLastStage imports entity stage project
       = Returned (StageMoveResult.IntersectsAnotherEntity, project))
  ∧ (∃ verdict project',
       trySetLastStage imports entity stage project = Returned (verdict, project')
       ∧ (verdict ≠ StageMoveResult.Updated → project' = project)
       ∧ (verdict = StageMoveResult.Updated →
          lastStage (heap project' entity) = stage
          ∧ firstStage (heap project' entity) = firstStage this
          ∧ (∀ other, other ≠ entity → heap project' other = heap project other)
          ∧ content project' = content project
          ∧ calls project'
            = calls project
              ++ [updateWorldEntitiesOnLastStageChanged entity (lastStage this)])).
Proof.
  simpl. rewrite trySetLastStage_run. unfold lastStageVerdict.
  split; [|split; [|split; [|split]]].
  - intros [Hremnant|Hsame].
    + by rewrite Hremnant.
    + destruct (isSettingsRemnant (heap project entity)); [done|].
      by rewrite bool_decide_eq_true_2.
  - intros Hremnant Hne (s & -> & Hlt). rewrite Hremnant.
    rewrite (bool_decide_eq_false_2 _ Hne). by rewrite bool_decide_eq_true_2.
  - intros Hremnant last s Hlast -> [Hge Hlt]. rewrite Hremnant, Hlast.
    rewrite (bool_decide_eq_false_2 (Some last = Some s)) by (intros [= ->]; lia).
    rewrite (bool_decide_eq_false_2 (s < _)) by lia.
    rewrite (bool_decide_eq_true_2 (s < last)) by done. eauto.
  - intros Hremnant last foundAbove Hlast Hstage Hfound Hfirst.
    rewrite Hremnant, Hlast, Hfound.
    destruct Hstage as [->|(s & -> & Hs & Hf)].
    + by rewrite bool_decide_eq_false_2.
    + rewrite (bool_decide_eq_false_2 (Some last = Some s)) by (intros [= ->]; lia).
      rewrite (bool_decide_eq_false_2 (s < _)) by lia.
      rewrite (bool_decide_eq_false_2 (s < last)) by lia.
      by rewrite bool_decide_eq_false_2 by lia.
  - assert (Hrejected : ∀ verdict : StageMoveResult.t,
              verdict ≠ StageMoveResult.Updated →
              ∃ v p', Returned (verdict, project) = Returned (v, p')
                ∧ (v ≠ StageMoveResult.Updated → p' = project)
                ∧ (v = StageMoveResult.Updated →
                   lastStage (heap p' entity) = stage
                   ∧ firstStage (heap p' entity) = firstStage (heap project entity)
                   ∧ (∀ other, other ≠ entity → heap p' other = heap project other)
                   ∧ content p' = content project
                   ∧ calls p'
                     = calls project
                       ++ [updateWorldEntitiesOnLastStageChanged entity
                             (lastStage (heap project entity))])).
    { intros verdict Hv. by exists verdict, project. }
    assert (Haccepted :
              ∃ v p',
                Returned (StageMoveResult.Updated,
                  {| heap := <[entity := setLastStageUnchecked stage (heap project entity)]>
                               (heap project);
                     content := content project;
                     calls := calls project
                              ++ [updateWorldEntitiesOnLastStageChanged entity
                                    (lastStage (heap project entity))] |})
                = Returned (v, p')
                ∧ (v ≠ StageMoveResult.Updated → p' = project)
                ∧ (v = StageMoveResult.Updated →
                   lastStage (heap p' entity) = stage
                   ∧ firstStage (heap p' entity) = firstStage (heap project entity)
                   ∧ (∀ other, other ≠ entity → heap p' other = heap project other)
                   ∧ content p' = content project
                   ∧ calls p'
                     = calls project
                       ++ [updateWorldEntitiesOnLastStageChanged entity
                             (lastStage (heap project entity))])).
    { eexists _, _. split; [reflexivity|]. split; [done|]. intros _. simpl.
      rewrite fn_lookup_insert. split; [done|]. split; [done|]. split; [|done].
      intros other Hother. by rewrite fn_lookup_insert_ne. }
    repeat case_match; solve [exact Haccepted | by apply Hrejected].
Qed.

(** X18.  [tryReviveSettingsRemnant] always answers [NoChange].  For an
    entity that is not a settings remnant it does nothing.  For a settings
    remnant the check it runs answers [NoChange] at once, so it revives
    the entity whatever the stage: it moves the first stage to the stage
    given, clears the flag and calls [reviveSettingsRemnant], leaving the
    last stage, the other entities and the store as they are. *)
Theorem tryReviveSettingsRemnant_always_revives (project : Project)
    (entity : EntityRef) (stage : StageNumber) :
  ∃ project',
    tryReviveSettingsRemnant imports entity stage project
    = Returned (StageMoveResult.NoChange, project')
    ∧ (isSettingsRemnant (heap project entity) = false → project' = project)
    ∧ (isSettingsRemnant (heap project entity) = true →
       firstStage (heap project' entity) = stage
       ∧ isSettingsRemnant (heap project' entity) = false
       ∧ lastStage (heap project' entity) = lastStage (heap project entity)
       ∧ (∀ other, other ≠ entity → heap project' other = heap project other)
       ∧ content project' = content project
       ∧ calls project' = calls project ++ [reviveSettingsRemnant entity]).
Proof.
  unfold tryReviveSettingsRemnant. rewrite (bind_run _ _ _ _ _ (read_run _ _)).
  destruct (isSettingsRemnant (heap project entity)) eqn:Hremnant; simpl.
  2: { exists project. by split. }
  rewrite (bind_run _ _ _ _ _ (checkCanSetFirstStage_run imports _ _ _)).
  unfold firstStageVerdict. rewrite Hremnant. simpl.
  destruct (setFirstStageUnchecked_firstStage (heap project entity) stage)
    as (this' & Hset & Hfirst & Hlast & _).
  unfold invoke, write, world, mbind, Update_bind, mret, Update_ret. simpl.
  rewrite Hset. simpl.
  eexists. split; [reflexivity|]. split; [done|]. intros _. simpl.
  rewrite !fn_lookup_insert. simpl. repeat split; try done.
  intros other Hother. by rewrite !fn_lookup_insert_ne.
Qed.

End LastStage.

(** The first of two stacked inserters cannot take over stage 3, where the
    second one starts. *)
Lemma trySetLastStage_cases_witness :
  trySetLastStage plainImports 1%positive (Some 3) (stackedProject false)
  = Returned (StageMoveResult.IntersectsAnotherEntity, stackedProject false).
Proof.
  apply (proj1 (proj2 (proj2 (proj2
           (trySetLastStage_cases plainImports (stackedProject false) 1%positive (Some 3)))))
           eq_refl 2 2%positive eq_refl).
  - right. exists 3. repeat split; vm_compute; congruence.
  - vm_compute. reflexivity.
  - vm_compute. congruence.
Defined.

End LastStageFacts.

(* ===================================================================== *)
(** ** A rendered instance is deleted by the player *)
(* ===================================================================== *)

Module ActionFacts.
Import Util Diff ProjectEntity Connections AssemblyContent ProjectUpdates UpdateFacts.
Import RemnantFacts ProjectActions.

Section Actions.
Variable imports : Imports.

(** X19.  [onEntityDeleted] always returns.  When the resolver finds no
    entity for the deleted instance nothing happens.  When the instance
    was deleted at a stage after the entity's first stage, the project is
    as before and the instance is rebuilt at that stage; before the first
    stage nothing happens at all.  Only at its first stage is the entity
    deleted: it is marked as a settings remnant when deletion would lose
    settings, and leaves the store otherwise. *)
Theorem onEntityDeleted_cases (project : Project)
    (entity : Factorio.EntityIdentification) (stage : StageNumber) :
  ∃ project',
    onEntityDeleted imports entity stage project = Returned (tt, project')
    ∧ match findCompatibleWithLuaEntity (info imports) (heap project) (content project)
              entity None stage with
      | None => project' = project
      | Some found =>
          let first := firstStage (heap project found) in
          (first < stage →
           project' = {| heap := heap project; content := content project;
                         calls := calls project
                                  ++ [rebuildWorldEntityAtStage found stage] |})
          ∧ (stage < first → project' = project)
          ∧ (first = stage → wouldLoseSettings project found →
             content project' = content project
             ∧ isSettingsRemnant (heap project' found) = true
             ∧ calls project' = calls project ++ [makeSettingsRemnant found])
          ∧ (first = stage → ¬ wouldLoseSettings project found →
             (found ∉ entities (content project'))
             ∧ content project' = AssemblyContent.delete (heap project) (content project) found
             ∧ calls project' = calls project ++ [deleteWorldEntities found])
      end.
Proof.
  unfold onEntityDeleted, getHeap, getContent.
  unfold mbind at 1 2. unfold Update_bind at 1 2.
  destruct (findCompatibleWithLuaEntity _ _ _ _ _ _) as [found|]; [|by eexists].
  unfold read. unfold mbind at 1. unfold Update_bind at 1.
  case_bool_decide as Hfirst; cbn [negb].
  - destruct (shouldMakeSettingsRemnant_spec project found)
      as (should & Hrun & Hiff).
    unfold deleteEntityOrCreateSettingsRemnant. rewrite (bind_run _ _ _ _ _ Hrun).
    destruct should.
    + eexists. split; [reflexivity|]. cbn zeta.
      split; [lia|]. split; [lia|]. split.
      * intros _ _. cbn. by rewrite fn_lookup_insert.
      * intros _ Hkeep. destruct Hkeep. by apply Hiff.
    + eexists. split; [reflexivity|]. cbn zeta.
      split; [lia|]. split; [lia|]. split.
      * intros _ Hlose. by apply Hiff in Hlose.
      * intros _ _. cbn. split; [|done].
        rewrite DeleteFacts.delete_entities. set_solver.
  - unfold when. case_bool_decide as Hlt.
    + eexists. split; [reflexivity|]. cbn zeta.
      split; [done|]. split; [lia|]. split; intros; done.
    + exists project. split; [reflexivity|]. cbn zeta.
      split; [lia|]. split; [done|]. split; intros; done.
Qed.

End Actions.
End ActionFacts.

(* ===================================================================== *)
(** ** Finding the entity of a rendered instance *)
(* ===================================================================== *)

Module LuaEntityResolverFacts.
Import Util Diff ProjectEntity Connections AssemblyContent ResolverFacts.

Section Resolver.
Variable info : EntityPrototypeInfo.
Variable heap : Heap.

(** The entities linked at a position. *)
Definition bucket (this : AssemblyContentImpl) (position : Pos.Position) : list EntityRef :=
  Map2D_get (byPosition this) (Pos.x position) (Pos.y position).

Lemma findCompatibleByProps_bestOf this entityName position direction stage :
  bestOf info heap entityName direction stage (bucket this position)
    (findCompatibleByProps info heap this entityName position direction stage).
Proof.
  unfold findCompatibleByProps, bucket.
  destruct (Map2D_get (byPosition this) (Pos.x position) (Pos.y position))
    as [|cur rest] eqn:Hbucket.
  - intros other Hin. by apply elem_of_nil in Hin.
  - apply (findCompatibleLoop_bestOf info heap entityName direction stage (cur :: rest) [] None).
    intros c' Hin. by apply elem_of_nil in Hin.
Qed.

Lemma findCompatibleByProps_Some this entityName position direction stage found :
  findCompatibleByProps info heap this entityName position direction stage = Some found →
  found ∈ bucket this position ∧ isCandidate info heap entityName direction stage found.
Proof.
  intros Hfound.
  pose proof (findCompatibleByProps_bestOf this entityName position direction stage) as Hbest.
  rewrite Hfound in Hbest. destruct Hbest as (? & ? & _). done.
Qed.

Lemma findCompatibleByProps_None this entityName position direction stage :
  findCompatibleByProps info heap this entityName position direction stage = None →
  ∀ other, other ∈ bucket this position →
           ¬ isCandidate info heap entityName direction stage other.
Proof.
  intros Hfound.
  pose proof (findCompatibleByProps_bestOf this entityName position direction stage) as Hbest.
  by rewrite Hfound in Hbest.
Qed.

Lemma isCandidate_any_direction entityName direction stage cur :
  isCandidate info heap entityName direction stage cur →
  isCandidate info heap entityName None stage cur.
Proof. intros (_ & ? & ?). split; [by left|done]. Qed.

(** X20.  What [findCompatibleWithLuaEntity] finds.  For rolling stock it
    is the entity registered under the instance's unit number, when the
    store holds it; neither the position nor the stage is looked at.  For
    every other instance the entity found is linked at the instance's
    exact position, reaches the stage, and matches by name or category
    (an underground belt is looked up under its type, and its underground
    direction must agree); its direction is the instance's, or the
    previous direction when one is given, except that any direction is
    accepted for an underground belt and for a type that can be pasted in
    any direction, and the opposite direction too for a flippable type
    lying straight.  For an instance that is neither an underground belt
    nor rolling stock, nil is returned only if no entity at the position
    is a candidate with the direction. *)
Theorem findCompatibleWithLuaEntity_found (this : AssemblyContentImpl)
    (entity : Factorio.EntityIdentification) (previousDirection : option Z)
    (stage : StageNumber) :
  let type := Factorio.id_type entity in
  let name := Factorio.id_name entity in
  let position := Factorio.id_position entity in
  let direction := default (Factorio.id_direction entity) previousDirection in
  match findCompatibleWithLuaEntity info heap this entity previousDirection stage with
  | Some found =>
      if bool_decide (type = "underground-belt") then
        found ∈ bucket this position
        ∧ isCandidate info heap type None stage found
        ∧ getUndergroundDirection info (getDirection (heap found))
            (match firstValue (heap found) !! "type" with
             | Some (VStr t) => Some t
             | _ => None
             end)
          = getUndergroundDirection info (Factorio.id_direction entity)
              (Factorio.id_belt_to_ground_type entity)
      else if bool_decide (type ∈ rollingStockTypes info) then
        found ∈ entities this
        ∧ Factorio.id_object_name entity = Some "LuaEntity"
        ∧ ∃ unit_number,
            Factorio.id_unit_number entity = Some unit_number
            ∧ getRegisteredAssemblyEntity info unit_number = Some found
      else
        found ∈ bucket this position
        ∧ match getPasteRotatableType info name with
          | None => isCandidate info heap name (Some direction) stage found
          | Some AnyDirection => isCandidate info heap name None stage found
          | Some Flippable =>
              isCandidate info heap name (Some direction) stage found
              ∨ (direction `mod` 2 ≠ 1
                 ∧ isCandidate info heap name
                     (Some (Factorio.oppositedirection direction)) stage found)
          end
  | None =>
      type ≠ "underground-belt" → type ∉ rollingStockTypes info →
      ∀ other, other ∈ bucket this position →
               ¬ isCandidate info heap name (Some direction) stage other
  end.
Proof.
  cbn zeta. unfold findCompatibleWithLuaEntity.
  case_bool_decide as Hunder.
  { destruct (findCompatibleByProps _ _ _ _ _ None _) as [found|] eqn:Hfound; [|done].
    case_bool_decide as Hdir; [|done].
    apply findCompatibleByProps_Some in Hfound as [? ?]. done. }
  case_bool_decide as Hrolling.
  { assert (Hnone : Factorio.id_type entity ≠ "underground-belt" →
                    Factorio.id_type entity ∉ rollingStockTypes info →
                    ∀ other, other ∈ bucket this (Factorio.id_position entity) →
                      ¬ isCandidate info heap (Factorio.id_name entity)
                          (Some (default (Factorio.id_direction entity) previousDirection))
                          stage other) by (by intros _ Hnot).
    case_bool_decide as Hobject; [|exact Hnone].
    destruct (Factorio.id_unit_number entity) as [unit_number|] eqn:Hunit; [|exact Hnone].
    simpl. destruct (getRegisteredAssemblyEntity info unit_number) as [registered|] eqn:Hreg;
      [|exact Hnone].
    unfold has. case_bool_decide as Hhas; [|exact Hnone].
    split; [done|]. split; [done|]. by exists unit_number. }
  destruct (getPasteRotatableType info (Factorio.id_name entity)) as [[]|].
  - destruct (findCompatibleByProps _ _ _ _ _ None _) as [found|] eqn:Hfound.
    + by apply findCompatibleByProps_Some in Hfound.
    + intros _ _ other Hin Hcand.
      by eapply findCompatibleByProps_None, isCandidate_any_direction.
  - case_bool_decide as Hdiagonal.
    + destruct (findCompatibleByProps _ _ _ _ _ (Some _) _) as [found|] eqn:Hfound.
      * apply findCompatibleByProps_Some in Hfound as [? ?]. split; [done|]. by left.
      * intros _ _. by apply findCompatibleByProps_None.
    + destruct (findCompatibleByProps _ _ _ _ _ (Some (default _ _)) _)
        as [found|] eqn:Hfound.
      * apply findCompatibleByProps_Some in Hfound as [? ?]. split; [done|]. by left.
      * destruct (findCompatibleByProps _ _ _ _ _ (Some (Factorio.oppositedirection _)) _)
          as [found|] eqn:Hopposite.
        -- apply findCompatibleByProps_Some in Hopposite as [? ?]. split; [done|].
           by right.
        -- intros _ _. by apply findCompatibleByProps_None.
  - destruct (findCompatibleByProps _ _ _ _ _ (Some _) _) as [found|] eqn:Hfound.
    + by apply findCompatibleByProps_Some in Hfound.
    + intros _ _. by apply findCompatibleByProps_None.
Qed.

End Resolver.
End LuaEntityResolverFacts.

(* ===================================================================== *)
(** ** Rotating a position *)
(* ===================================================================== *)

Module PosRotationFacts.
Import Pos PosRotation.

(** A direction along an axis. *)
Definition cardinal (d : Z) : Prop := d = north ∨ d = east ∨ d = south ∨ d = west.

Lemma Position_eq (p q : Position) : x p = x q → y p = y q → p = q.
Proof. destruct p, q. simpl. by intros -> ->. Qed.

Lemma rotateAboutOrigin_north pos1 :
  rotateAboutOrigin pos1 (Some 0) = Returned (from pos1).
Proof. reflexivity. Qed.
Lemma rotateAboutOrigin_east pos1 :
  rotateAboutOrigin pos1 (Some 2) = Returned (Pos (- y pos1) (x pos1)).
Proof. reflexivity. Qed.
Lemma rotateAboutOrigin_south pos1 :
  rotateAboutOrigin pos1 (Some 4) = Returned (Pos (- x pos1) (- y pos1)).
Proof. reflexivity. Qed.
Lemma rotateAboutOrigin_west pos1 :
  rotateAboutOrigin pos1 (Some 6) = Returned (Pos (y pos1) (- x pos1)).
Proof. reflexivity. Qed.

Ltac rotate :=
  unfold north, east, south, west;
  repeat match goal with
         | |- context [(?a + ?b) `mod` 8] =>
             let d := eval vm_compute in ((a + b) `mod` 8) in
             change ((a + b) `mod` 8) with d
         end;
  rewrite ?rotateAboutOrigin_north, ?rotateAboutOrigin_east, ?rotateAboutOrigin_south,
    ?rotateAboutOrigin_west;
  cbn [mbind outcome_bind];
  rewrite ?rotateAboutOrigin_north, ?rotateAboutOrigin_east, ?rotateAboutOrigin_south,
    ?rotateAboutOrigin_west.

(** X21.  Rotating a position by one direction along an axis and then by
    another is rotating it by their sum, taken modulo the eight
    directions; so rotating by east and then by west, or twice by south,
    gives the position back.  No direction and north leave the position
    as it is, a rotation keeps sums of positions, and a direction that is
    not along an axis raises an error. *)
Theorem rotateAboutOrigin_compose (pos1 pos2 : Position) (d1 d2 : Z) :
  (cardinal d1 → cardinal d2 →
   rotateAboutOrigin pos1 (Some d1) ≫= (fun rotated => rotateAboutOrigin rotated (Some d2))
   = rotateAboutOrigin pos1 (Some ((d1 + d2) `mod` 8)))
  ∧ rotateAboutOrigin pos1 None = Returned pos1
  ∧ rotateAboutOrigin pos1 (Some north) = Returned pos1
  ∧ (cardinal d1 →
     ∃ r1 r2, rotateAboutOrigin pos1 (Some d1) = Returned r1
              ∧ rotateAboutOrigin pos2 (Some d1) = Returned r2
              ∧ rotateAboutOrigin (plus pos1 pos2) (Some d1) = Returned (plus r1 r2))
  ∧ (¬ cardinal d1 → rotateAboutOrigin pos1 (Some d1) = Raised "invalid direction").
Proof.
  split; [|split; [|split; [|split]]].
  - intros [-> | [-> | [-> | ->]]] [-> | [-> | [-> | ->]]]; rotate;
      f_equal; apply Position_eq; cbn; lia.
  - change (rotateAboutOrigin pos1 None) with (Returned (from pos1)).
    f_equal. by destruct pos1.
  - rotate. f_equal. by destruct pos1.
  - intros [-> | [-> | [-> | ->]]]; rotate;
      eexists _, _; (split; [reflexivity|]); (split; [reflexivity|]);
      f_equal; apply Position_eq; cbn; lia.
  - intros Hd. unfold rotateAboutOrigin, cardinal, north, east, south, west in *.
    repeat case_bool_decide; simplify_eq/=; try done; exfalso; apply Hd; auto.
Qed.

(** Rotating by east and then by west gives the position back. *)
Lemma rotateAboutOrigin_compose_witness :
  rotateAboutOrigin (Pos 3 (-1)) (Some east)
    ≫= (fun rotated => rotateAboutOrigin rotated (Some west))
  = Returned (Pos 3 (-1)).
Proof.
  rewrite (proj1 (rotateAboutOrigin_compose (Pos 3 (-1)) (Pos 0 0) east west)).
  - reflexivity.
  - right. by left.
  - right. right. by right.
Defined.

End PosRotationFacts.

(* ===================================================================== *)
(** ** The layers registered in the world, by chunk *)
(* ===================================================================== *)

Module WorldRegisterFacts.
Import Util WorldRegister DiffFacts.

(** The chunk of a position, and the layer recorded for a chunk. *)
Definition chunkColumn (position : MapPosition) : Z := Qfloor (x position / 32)%Q.
Definition chunkRow (position : MapPosition) : Z := Qfloor (y position / 32)%Q.

Definition atChunk (layersByChunk : LayersByChunk) (cx cy : Z) : option LayerPosition :=
  layersByChunk !! cx ≫= (.!! cy).

(** The position lies on a chunk of the layer. *)
Definition covers (layer : LayerPosition) (position : MapPosition) : Prop :=
  chunkColumn position ∈ chunkColumns layer ∧ chunkRow position ∈ chunkRows layer.

(** The position lies in the layer: at or after its left top corner, before
    its right bottom corner. *)
Definition inside (layer : LayerPosition) (position : MapPosition) : Prop :=
  (x (left_top layer) <= x position)%Q ∧ (x position < x (right_bottom layer))%Q
  ∧ (y (left_top layer) <= y position)%Q ∧ (y position < y (right_bottom layer))%Q.

(** No column of the table is an empty table. *)
Definition noEmptyColumn (layersByChunk : LayersByChunk) : Prop :=
  ∀ cx byX, layersByChunk !! cx = Some byX → byX ≠ ∅.
Definition noEmptyColumns (inWorldLayers : InWorldLayers) : Prop :=
  ∀ surface_index layersByChunk,
    inWorldLayers !! surface_index = Some layersByChunk → noEmptyColumn layersByChunk.

Lemma getLayerAtPosition_atChunk inWorldLayers surface position :
  getLayerAtPosition inWorldLayers surface position
  = inWorldLayers !! index surface
    ≫= (fun bySurface => atChunk bySurface (chunkColumn position) (chunkRow position)).
Proof.
  unfold getLayerAtPosition, atChunk, chunkColumn, chunkRow.
  destruct (inWorldLayers !! index surface) as [bySurface|]; [|done]. simpl.
  by destruct (bySurface !! _).
Qed.

(** The chunks between two corners. *)
Lemma chunk_between (lo hi p : Q) :
  (lo <= p)%Q → (p < hi)%Q →
  Qfloor (p / 32)%Q ∈ range (Qfloor (lo / 32)%Q) (Qceiling (hi / 32)%Q - 1).
Proof.
  intros Hlo Hhi. unfold range. apply elem_of_seqZ.
  assert (Hinv : (0 < / 32)%Q) by reflexivity.
  split.
  - apply Qfloor_resp_le. unfold Qdiv. apply Qmult_le_compat_r; [done|].
    by apply Qlt_le_weak.
  - assert (Hlt : (inject_Z (Qfloor (p / 32)%Q) < inject_Z (Qceiling (hi / 32)%Q))%Q).
    { eapply Qle_lt_trans; [apply Qfloor_le|].
      eapply Qlt_le_trans; [|apply Qle_ceiling].
      unfold Qdiv. by apply Qmult_lt_compat_r. }
    rewrite <- Zlt_Qlt in Hlt. lia.
Qed.

Lemma inside_covers layer position : inside layer position → covers layer position.
Proof.
  intros (Hx1 & Hx2 & Hy1 & Hy2).
  split; unfold chunkColumns, chunkRows, chunkColumn, chunkRow; cbn;
    by apply chunk_between.
Qed.

(** *** The loop of [addLayer] *)

Definition addColumn (layer : LayerPosition) (rows : list Z)
    (layersByChunk : LayersByChunk) (cx : Z) : LayersByChunk :=
  <[cx := foldl (fun byX cy => <[cy := layer]> byX) (default ∅ (layersByChunk !! cx)) rows]>
    layersByChunk.

Lemma lookup_addRows (layer : LayerPosition) (rows : list Z) (byX : gmap Z LayerPosition)
    (cy : Z) :
  foldl (fun byX cy => <[cy := layer]> byX) byX rows !! cy
  = if decide (cy ∈ rows) then Some layer else byX !! cy.
Proof.
  revert byX. induction rows as [|row rows IH]; intros byX; cbn [foldl].
  - by rewrite decide_False by set_solver.
  - rewrite IH. destruct (decide (cy ∈ rows)) as [Hin|Hin].
    + by rewrite decide_True by set_solver.
    + destruct (decide (cy = row)) as [->|Hne].
      * rewrite lookup_insert_eq. by rewrite decide_True by set_solver.
      * rewrite lookup_insert_ne by done. by rewrite decide_False by set_solver.
Qed.

Lemma atChunk_addColumn layer rows layersByChunk column cx cy :
  atChunk (addColumn layer rows layersByChunk column) cx cy
  = if decide (cx = column ∧ cy ∈ rows) then Some layer else atChunk layersByChunk cx cy.
Proof.
  unfold atChunk, addColumn. destruct (decide (cx = column)) as [->|Hne].
  - rewrite lookup_insert_eq. simpl. rewrite lookup_addRows.
    destruct (decide (cy ∈ rows)).
    + by rewrite decide_True.
    + rewrite decide_False by tauto. by destruct (layersByChunk !! column).
  - rewrite lookup_insert_ne by done. by rewrite decide_False by tauto.
Qed.

Lemma atChunk_addColumns layer rows columns layersByChunk cx cy :
  atChunk (foldl (addColumn layer rows) layersByChunk columns) cx cy
  = if decide (cx ∈ columns ∧ cy ∈ rows) then Some layer else atChunk layersByChunk cx cy.
Proof.
  revert layersByChunk. induction columns as [|column columns IH]; intros layersByChunk; cbn [foldl].
  - by rewrite decide_False by set_solver.
  - rewrite IH, atChunk_addColumn.
    destruct (decide (cx ∈ columns ∧ cy ∈ rows)) as [Hin|Hin].
    + by rewrite decide_True by set_solver.
    + destruct (decide (cx = column ∧ cy ∈ rows)) as [Hhere|Hhere].
      * by rewrite decide_True by set_solver.
      * rewrite decide_False; [done|]. set_solver.
Qed.

(** *** The loop of [removeLayer] *)

Definition removeColumn (rows : list Z) (layersByChunk : LayersByChunk) (cx : Z)
    : LayersByChunk :=
  match layersByChunk !! cx with
  | None => layersByChunk
  | Some byX =>
      let byX := foldl (fun byX cy => delete cy byX) byX rows in
      if isEmpty byX then delete cx layersByChunk else <[cx := byX]> layersByChunk
  end.

Lemma lookup_removeRows (rows : list Z) (byX : gmap Z LayerPosition) (cy : Z) :
  foldl (fun byX cy => delete cy byX) byX rows !! cy
  = if decide (cy ∈ rows) then None else byX !! cy.
Proof.
  revert byX. induction rows as [|row rows IH]; intros byX; cbn [foldl].
  - by rewrite decide_False by set_solver.
  - rewrite IH. destruct (decide (cy ∈ rows)) as [Hin|Hin].
    + by rewrite decide_True by set_solver.
    + destruct (decide (cy = row)) as [->|Hne].
      * rewrite lookup_delete_eq. by rewrite decide_True by set_solver.
      * rewrite lookup_delete_ne by done. by rewrite decide_False by set_solver.
Qed.

Lemma isEmpty_empty_iff (byX : gmap Z LayerPosition) : isEmpty byX = true ↔ byX = ∅.
Proof.
  unfold isEmpty. rewrite bool_decide_eq_true. apply map_to_list_empty_iff.
Qed.

Lemma atChunk_removeColumn rows layersByChunk column cx cy :
  atChunk (removeColumn rows layersByChunk column) cx cy
  = if decide (cx = column ∧ cy ∈ rows) then None else atChunk layersByChunk cx cy.
Proof.
  unfold atChunk, removeColumn.
  destruct (layersByChunk !! column) as [byX|] eqn:Hcolumn.
  2: { destruct (decide (cx = column ∧ cy ∈ rows)) as [[-> _]|]; [|done].
       by rewrite Hcolumn. }
  pose proof (lookup_removeRows rows byX cy) as Hrows. cbn zeta.
  destruct (isEmpty _) eqn:Hempty.
  - apply isEmpty_empty_iff in Hempty. rewrite Hempty, lookup_empty in Hrows.
    destruct (decide (cx = column)) as [->|Hne].
    + rewrite lookup_delete_eq, Hcolumn. simpl.
      destruct (decide (cy ∈ rows)); [by rewrite decide_True|by rewrite decide_False by tauto].
    + rewrite lookup_delete_ne by done. by rewrite decide_False by tauto.
  - destruct (decide (cx = column)) as [->|Hne].
    + rewrite lookup_insert_eq, Hcolumn. simpl. rewrite Hrows.
      destruct (decide (cy ∈ rows)); [by rewrite decide_True|by rewrite decide_False by tauto].
    + rewrite lookup_insert_ne by done. by rewrite decide_False by tauto.
Qed.

Lemma atChunk_removeColumns rows columns layersByChunk cx cy :
  atChunk (foldl (removeColumn rows) layersByChunk columns) cx cy
  = if decide (cx ∈ columns ∧ cy ∈ rows) then None else atChunk layersByChunk cx cy.
Proof.
  revert layersByChunk. induction columns as [|column columns IH]; intros layersByChunk; cbn [foldl].
  - by rewrite decide_False by set_solver.
  - rewrite IH, atChunk_removeColumn.
    destruct (decide (cx ∈ columns ∧ cy ∈ rows)) as [Hin|Hin].
    + by rewrite decide_True by set_solver.
    + destruct (decide (cx = column ∧ cy ∈ rows)) as [Hhere|Hhere].
      * by rewrite decide_True by set_solver.
      * rewrite decide_False; [done|]. set_solver.
Qed.

(** A column is in order when it is absent or holds something. *)
Definition columnInOrder (layersByChunk : LayersByChunk) (cx : Z) : Prop :=
  ∀ byX, layersByChunk !! cx = Some byX → byX ≠ ∅.

Lemma removeColumn_inOrder rows layersByChunk column cx :
  cx = column ∨ columnInOrder layersByChunk cx →
  columnInOrder (removeColumn rows layersByChunk column) cx.
Proof.
  intros Hcx byX. unfold removeColumn.
  destruct (layersByChunk !! column) as [byX0|] eqn:Hcolumn.
  2: { destruct Hcx as [->|Hcx]; [by rewrite Hcolumn|by apply Hcx]. }
  cbn zeta. destruct (isEmpty _) eqn:Hempty.
  - destruct (decide (cx = column)) as [->|Hne]; [by rewrite lookup_delete_eq|].
    rewrite lookup_delete_ne by done. destruct Hcx as [?|Hcx]; [done|by apply Hcx].
  - destruct (decide (cx = column)) as [->|Hne].
    + rewrite lookup_insert_eq. intros [= <-] Hnil.
      apply isEmpty_empty_iff in Hnil. congruence.
    + rewrite lookup_insert_ne by done. destruct Hcx as [?|Hcx]; [done|by apply Hcx].
Qed.

Lemma removeColumns_inOrder rows columns layersByChunk cx :
  cx ∈ columns ∨ columnInOrder layersByChunk cx →
  columnInOrder (foldl (removeColumn rows) layersByChunk columns) cx.
Proof.
  revert layersByChunk. induction columns as [|column columns IH]; intros layersByChunk Hcx.
  - simpl. destruct Hcx as [Hin|?]; [by apply elem_of_nil in Hin|done].
  - simpl. destruct (decide (cx ∈ columns)) as [Hin|Hin]; [by apply IH; left|].
    apply IH. right. apply removeColumn_inOrder. set_solver.
Qed.

Lemma lookup_addColumns_ne layer rows columns layersByChunk cx :
  cx ∉ columns → foldl (addColumn layer rows) layersByChunk columns !! cx = layersByChunk !! cx.
Proof.
  revert layersByChunk. induction columns as [|column columns IH]; intros layersByChunk Hcx;
    [done|].
  simpl. rewrite IH by set_solver. unfold addColumn. rewrite lookup_insert_ne; set_solver.
Qed.

(** Two tables in order with the same layer at every chunk are the same
    table. *)
Lemma layersByChunk_ext (m1 m2 : LayersByChunk) :
  noEmptyColumn m1 → noEmptyColumn m2 →
  (∀ cx cy, atChunk m1 cx cy = atChunk m2 cx cy) → m1 = m2.
Proof.
  intros H1 H2 Hsame. apply map_eq. intros cx.
  assert (Hone : ∀ (m m' : LayersByChunk) byX,
            noEmptyColumn m → (∀ cy, atChunk m cx cy = atChunk m' cx cy) →
            m !! cx = Some byX → ∃ byX', m' !! cx = Some byX').
  { intros m m' byX Hm Hat Hcx.
    destruct (map_choose byX) as (cy & layer & Hcy); [by eapply Hm|].
    specialize (Hat cy). unfold atChunk in Hat. rewrite Hcx in Hat. simpl in Hat.
    rewrite Hcy in Hat. destruct (m' !! cx) as [byX'|]; [by eexists|done]. }
  destruct (m1 !! cx) as [byX1|] eqn:Hcx1.
  - destruct (Hone m1 m2 byX1 H1 (fun cy => Hsame cx cy) Hcx1) as [byX2 Hcx2].
    rewrite Hcx2. f_equal. apply map_eq. intros cy.
    specialize (Hsame cx cy). unfold atChunk in Hsame.
    by rewrite Hcx1, Hcx2 in Hsame.
  - destruct (m2 !! cx) as [byX2|] eqn:Hcx2; [|done].
    destruct (Hone m2 m1 byX2 H2 (fun cy => eq_sym (Hsame cx cy)) Hcx2) as [byX1 Hcx1'].
    congruence.
Qed.

(** *** Running the two functions *)

Lemma addLayer_run layer inWorldLayers layersByChunk :
  valid (surface layer) = true →
  inWorldLayers !! index (surface layer) = Some layersByChunk →
  addLayer layer inWorldLayers
  = Returned (<[index (surface layer) :=
                  foldl (addColumn layer (chunkRows layer)) layersByChunk
                    (chunkColumns layer)]> inWorldLayers).
Proof. intros Hvalid Hreg. unfold addLayer, onLayersByChunk. by rewrite Hvalid, Hreg. Qed.

Lemma removeLayer_run layer inWorldLayers layersByChunk :
  valid (surface layer) = true →
  inWorldLayers !! index (surface layer) = Some layersByChunk →
  removeLayer layer inWorldLayers
  = Returned (<[index (surface layer) :=
                  foldl (removeColumn (chunkRows layer)) layersByChunk
                    (chunkColumns layer)]> inWorldLayers).
Proof. intros Hvalid Hreg. unfold removeLayer, onLayersByChunk. by rewrite Hvalid, Hreg. Qed.

#[local] Instance covers_dec layer position : Decision (covers layer position).
Proof. unfold covers. apply _. Defined.

Lemma getLayerAtPosition_addLayer layer inWorldLayers layersByChunk surface' position :
  inWorldLayers !! index (surface layer) = Some layersByChunk →
  getLayerAtPosition
    (<[index (surface layer) :=
         foldl (addColumn layer (chunkRows layer)) layersByChunk (chunkColumns layer)]>
       inWorldLayers) surface' position
  = if decide (index surface' = index (surface layer) ∧ covers layer position)
    then Some layer
    else getLayerAtPosition inWorldLayers surface' position.
Proof.
  intros Hreg. rewrite !getLayerAtPosition_atChunk.
  destruct (decide (index surface' = index (surface layer))) as [->|Hne].
  - rewrite lookup_insert_eq, Hreg. simpl. rewrite atChunk_addColumns.
    unfold covers. repeat case_decide; tauto.
  - rewrite lookup_insert_ne by done. by rewrite decide_False by tauto.
Qed.

Lemma getLayerAtPosition_removeLayer layer inWorldLayers layersByChunk surface' position :
  inWorldLayers !! index (surface layer) = Some layersByChunk →
  getLayerAtPosition
    (<[index (surface layer) :=
         foldl (removeColumn (chunkRows layer)) layersByChunk (chunkColumns layer)]>
       inWorldLayers) surface' position
  = if decide (index surface' = index (surface layer) ∧ covers layer position)
    then None
    else getLayerAtPosition inWorldLayers surface' position.
Proof.
  intros Hreg. rewrite !getLayerAtPosition_atChunk.
  destruct (decide (index surface' = index (surface layer))) as [->|Hne].
  - rewrite lookup_insert_eq, Hreg. simpl. rewrite atChunk_removeColumns.
    unfold covers. repeat case_decide; tauto.
  - rewrite lookup_insert_ne by done. by rewrite decide_False by tauto.
Qed.

(** A layer on the first surface, two chunks wide and one chunk high,
    and the table once the surface is created. *)
Definition firstSurface : LuaSurface := {| valid := true; index := 1 |}.
Definition wideLayer : LayerPosition :=
  {| surface := firstSurface;
     left_top := mkMapPosition 0 0;
     right_bottom := mkMapPosition 64 32 |}.
Definition oneSurface : InWorldLayers := on_surface_created 1 ∅.

(** A small layer on the second chunk of the wide one. *)
Definition smallLayer : LayerPosition :=
  {| surface := firstSurface;
     left_top := mkMapPosition 32 0;
     right_bottom := mkMapPosition 40 8 |}.

(** The table once the wide layer is added: it is recorded at both of its
    chunks. *)
Definition wideRecorded : LayersByChunk :=
  {[ 0 := {[ 0 := wideLayer ]}; 1 := {[ 0 := wideLayer ]} ]}.
Definition wideSurface : InWorldLayers := {[ 1 := wideRecorded ]}.

Lemma oneSurface_registered : oneSurface !! index (surface wideLayer) = Some ∅.
Proof. reflexivity. Qed.

Lemma wideSurface_added : addLayer wideLayer oneSurface = Returned wideSurface.
Proof. vm_compute. reflexivity. Qed.

(** X22.  After [addLayer] of a layer on a valid surface that is
    registered, [getLayerAtPosition] gives this layer at every position of
    a chunk the layer lies on, and so at every position inside the layer,
    and gives what it gave before at every other position and on every
    other surface.  On a surface that is not valid nothing is done; on a
    valid surface that is not registered the call raises, unless the layer
    lies on no chunk column. *)
Theorem addLayer_getLayerAtPosition (layer : LayerPosition) (inWorldLayers : InWorldLayers) :
  (valid (surface layer) = true →
   is_Some (inWorldLayers !! index (surface layer)) →
   ∃ inWorldLayers',
     addLayer layer inWorldLayers = Returned inWorldLayers'
     ∧ (∀ surface' position,
          getLayerAtPosition inWorldLayers' surface' position
          = if decide (index surface' = index (surface layer) ∧ covers layer position)
            then Some layer
            else getLayerAtPosition inWorldLayers surface' position)
     ∧ (∀ position, inside layer position →
          getLayerAtPosition inWorldLayers' (surface layer) position = Some layer))
  ∧ (valid (surface layer) = false → addLayer layer inWorldLayers = Returned inWorldLayers)
  ∧ (valid (surface layer) = true →
     inWorldLayers !! index (surface layer) = None →
     chunkColumns layer ≠ [] →
     addLayer layer inWorldLayers = Raised "attempt to index a nil value").
Proof.
  split; [|split].
  - intros Hvalid [layersByChunk Hreg].
    rewrite (addLayer_run _ _ _ Hvalid Hreg). eexists. split; [reflexivity|].
    pose proof (fun surface' position =>
                  getLayerAtPosition_addLayer layer inWorldLayers layersByChunk
                    surface' position Hreg) as Hget.
    split; [exact Hget|].
    intros position Hinside. rewrite Hget, decide_True; [done|].
    split; [done|by apply inside_covers].
  - intros Hvalid. unfold addLayer. by rewrite Hvalid.
  - intros Hvalid Hreg Hcolumns. unfold addLayer, onLayersByChunk.
    rewrite Hvalid, Hreg. simpl. by destruct (chunkColumns layer).
Qed.

(** A position in the second chunk of the layer. *)
Lemma addLayer_getLayerAtPosition_witness :
  ∃ inWorldLayers',
    addLayer wideLayer oneSurface = Returned inWorldLayers'
    ∧ getLayerAtPosition inWorldLayers' firstSurface (mkMapPosition (67 # 2) 10)
      = Some wideLayer.
Proof.
  destruct (proj1 (addLayer_getLayerAtPosition wideLayer oneSurface) eq_refl
              (ex_intro _ ∅ oneSurface_registered))
    as (inWorldLayers' & Hrun & _ & Hinside).
  exists inWorldLayers'. split; [exact Hrun|]. apply Hinside.
  unfold inside. cbn. repeat split; reflexivity || (intros H; discriminate H).
Defined.

(** X23.  After [removeLayer] of a layer on a valid surface that is
    registered, [getLayerAtPosition] gives nil at every position of a
    chunk the layer lies on, whichever layer was recorded there, and gives
    what it gave before everywhere else.  The call leaves no empty column
    behind on the surface if there was none on it that the layer does not
    lie on. *)
Theorem removeLayer_getLayerAtPosition (layer : LayerPosition)
    (inWorldLayers : InWorldLayers) (layersByChunk : LayersByChunk) :
  valid (surface layer) = true →
  inWorldLayers !! index (surface layer) = Some layersByChunk →
  ∃ inWorldLayers' layersByChunk',
    removeLayer layer inWorldLayers = Returned inWorldLayers'
    ∧ inWorldLayers' !! index (surface layer) = Some layersByChunk'
    ∧ (∀ surface' position,
         getLayerAtPosition inWorldLayers' surface' position
         = if decide (index surface' = index (surface layer) ∧ covers layer position)
           then None
           else getLayerAtPosition inWorldLayers surface' position)
    ∧ ((∀ cx, cx ∉ chunkColumns layer → columnInOrder layersByChunk cx) →
       noEmptyColumn layersByChunk').
Proof.
  intros Hvalid Hreg. rewrite (removeLayer_run _ _ _ Hvalid Hreg).
  eexists _, _. split; [reflexivity|]. split; [by rewrite lookup_insert_eq|]. split.
  - intros surface' position. by apply getLayerAtPosition_removeLayer.
  - intros Hrest cx. apply removeColumns_inOrder.
    destruct (decide (cx ∈ chunkColumns layer)); [by left|right; by apply Hrest].
Qed.

(** On the surface where the wide layer is recorded at its two chunks:
    removing the wide layer leaves nothing at either chunk; removing the
    small layer, which lies on the second chunk, takes the wide layer off
    that chunk and leaves it on the first. *)
Lemma removeLayer_getLayerAtPosition_witness :
  getLayerAtPosition wideSurface firstSurface (mkMapPosition 10 10) = Some wideLayer
  ∧ getLayerAtPosition wideSurface firstSurface (mkMapPosition 60 30) = Some wideLayer
  ∧ (∃ inWorldLayers',
       removeLayer wideLayer wideSurface = Returned inWorldLayers'
       ∧ getLayerAtPosition inWorldLayers' firstSurface (mkMapPosition 10 10) = None
       ∧ getLayerAtPosition inWorldLayers' firstSurface (mkMapPosition 60 30) = None)
  ∧ (∃ inWorldLayers',
       removeLayer smallLayer wideSurface = Returned inWorldLayers'
       ∧ getLayerAtPosition inWorldLayers' firstSurface (mkMapPosition 10 10) = Some wideLayer
       ∧ getLayerAtPosition inWorldLayers' firstSurface (mkMapPosition 60 30) = None).
Proof.
  split; [reflexivity|]. split; [reflexivity|]. split.
  - destruct (removeLayer_getLayerAtPosition wideLayer wideSurface wideRecorded eq_refl
                eq_refl)
      as (inWorldLayers' & layersByChunk' & Hrun & _ & Hget & _).
    exists inWorldLayers'. split; [exact Hrun|]. rewrite !Hget.
    split; reflexivity.
  - destruct (removeLayer_getLayerAtPosition smallLayer wideSurface wideRecorded eq_refl
                eq_refl)
      as (inWorldLayers' & layersByChunk' & Hrun & _ & Hget & _).
    exists inWorldLayers'. split; [exact Hrun|]. rewrite !Hget.
    split; reflexivity.
Defined.

(** X24.  Removing a layer just added gives the table back, when the
    surface is valid and registered, has no empty column, and had nothing
    recorded at the chunks the layer lies on. *)
Theorem addLayer_removeLayer (layer : LayerPosition) (inWorldLayers : InWorldLayers)
    (layersByChunk : LayersByChunk) :
  valid (surface layer) = true →
  inWorldLayers !! index (surface layer) = Some layersByChunk →
  noEmptyColumn layersByChunk →
  (∀ cx cy, cx ∈ chunkColumns layer → cy ∈ chunkRows layer →
            atChunk layersByChunk cx cy = None) →
  addLayer layer inWorldLayers ≫= removeLayer layer = Returned inWorldLayers.
Proof.
  intros Hvalid Hreg Horder Hfree.
  rewrite (addLayer_run _ _ _ Hvalid Hreg). cbn [mbind outcome_bind].
  erewrite removeLayer_run; [|done|by rewrite lookup_insert_eq].
  f_equal. rewrite insert_insert_eq. apply map_eq. intros surface_index.
  destruct (decide (surface_index = index (surface layer))) as [->|Hne];
    [|by rewrite lookup_insert_ne].
  rewrite lookup_insert_eq, Hreg. f_equal.
  apply layersByChunk_ext; [|done|].
  - intros cx. apply removeColumns_inOrder.
    destruct (decide (cx ∈ chunkColumns layer)) as [Hin|Hin]; [by left|right].
    intros byX. rewrite lookup_addColumns_ne by done. apply Horder.
  - intros cx cy. rewrite atChunk_removeColumns, atChunk_addColumns.
    destruct (decide (cx ∈ chunkColumns layer ∧ cy ∈ chunkRows layer)) as [[Hx Hy]|];
      [|done].
    symmetry. by apply Hfree.
Qed.

Lemma addLayer_removeLayer_witness :
  addLayer wideLayer oneSurface ≫= removeLayer wideLayer = Returned oneSurface.
Proof.
  apply (addLayer_removeLayer wideLayer oneSurface ∅ eq_refl oneSurface_registered).
  - intros cx byX Hcx. by rewrite lookup_empty in Hcx.
  - intros cx cy _ _. reflexivity.
Defined.

(** *** Registering and deleting an assembly *)

(** The layers of the list that are on a valid surface with this index
    and lie on the chunk of the position. *)
Definition layersAt (layers : list LayerPosition) (surface' : LuaSurface)
    (position : MapPosition) : list LayerPosition :=
  filter (fun layer => valid (surface layer) = true
                       ∧ index surface' = index (surface layer)
                       ∧ covers layer position) layers.

(** X25.  [registerAssembly] on layers whose valid surfaces are all
    registered returns, and afterwards [getLayerAtPosition] gives, of the
    layers on the surface that lie on the chunk of the position, the one
    that comes last in the list; where there is none it gives what it
    gave before.  Layers on a surface that is not valid are skipped. *)
Theorem registerAssembly_last_layer_wins (layers : list LayerPosition)
    (inWorldLayers : InWorldLayers) :
  (∀ layer, layer ∈ layers → valid (surface layer) = true →
            is_Some (inWorldLayers !! index (surface layer))) →
  ∃ inWorldLayers',
    registerAssembly layers inWorldLayers = Returned inWorldLayers'
    ∧ ∀ surface' position,
        getLayerAtPosition inWorldLayers' surface' position
        = match last (layersAt layers surface' position) with
          | Some layer => Some layer
          | None => getLayerAtPosition inWorldLayers surface' position
          end.
Proof.
  unfold registerAssembly. revert inWorldLayers.
  induction layers as [|layer layers IH]; intros inWorldLayers Hreg.
  { by exists inWorldLayers. }
  cbn [forEachLayer]. destruct (valid (surface layer)) eqn:Hvalid.
  - destruct (Hreg layer) as [m Hm]; [set_solver|done|].
    rewrite (addLayer_run _ _ _ Hvalid Hm). cbn [mbind outcome_bind].
    destruct (IH (<[index (surface layer) :=
                      foldl (addColumn layer (chunkRows layer)) m (chunkColumns layer)]>
                    inWorldLayers)) as (inWorldLayers' & Hrun & Hget).
    { intros layer' Hin Hvalid'. rewrite lookup_insert_is_Some.
      destruct (decide (index (surface layer) = index (surface layer'))); [by left|].
      right. split; [done|]. apply Hreg; [set_solver|done]. }
    exists inWorldLayers'. split; [exact Hrun|].
    intros surface' position. rewrite Hget, getLayerAtPosition_addLayer by done.
    unfold layersAt. rewrite filter_cons.
    destruct (last (filter _ layers)) as [top|] eqn:Htop.
    + case_decide; [rewrite last_cons|]; by rewrite Htop.
    + apply last_None in Htop. rewrite Htop.
      repeat case_decide; try done; tauto.
  - assert (addLayer layer inWorldLayers = Returned inWorldLayers) as ->
      by (unfold addLayer; by rewrite Hvalid).
    cbn [mbind outcome_bind].
    destruct (IH inWorldLayers) as (inWorldLayers' & Hrun & Hget).
    { intros layer' Hin. apply Hreg. set_solver. }
    exists inWorldLayers'. split; [exact Hrun|].
    intros surface' position. rewrite Hget. unfold layersAt.
    rewrite filter_cons, decide_False; [done|]. intros [? _]. congruence.
Qed.

(** The small layer registered after the wide one hides it on its chunk. *)
Lemma registerAssembly_last_layer_wins_witness :
  ∃ inWorldLayers',
    registerAssembly [wideLayer; smallLayer] oneSurface = Returned inWorldLayers'
    ∧ getLayerAtPosition inWorldLayers' firstSurface (mkMapPosition 60 30) = Some smallLayer
    ∧ getLayerAtPosition inWorldLayers' firstSurface (mkMapPosition 10 10) = Some wideLayer.
Proof.
  destruct (registerAssembly_last_layer_wins [wideLayer; smallLayer] oneSurface)
    as (inWorldLayers' & Hrun & Hget).
  { intros layer Hin _. exists ∅.
    apply list_elem_of_In in Hin. destruct Hin as [<-|[<-|[]]]; reflexivity. }
  exists inWorldLayers'. split; [exact Hrun|]. rewrite !Hget. split; reflexivity.
Defined.

End WorldRegisterFacts.

(* ===================================================================== *)
(** ** The stages of an assembly *)
(* ===================================================================== *)

Module UserAssemblyFacts.
Import UserAssembly.

(** *** Strings *)

Lemma list_ascii_of_string_app (s t : string) :
  String.list_ascii_of_string (s +:+ t)
  = String.list_ascii_of_string s ++ String.list_ascii_of_string t.
Proof. induction s as [|c s IH]; [done|]. simpl. by rewrite IH. Qed.

Lemma string_app_inv_tail (s1 s2 t : string) : s1 +:+ t = s2 +:+ t → s1 = s2.
Proof.
  intros Heq. apply (f_equal String.list_ascii_of_string) in Heq.
  rewrite !list_ascii_of_string_app in Heq. apply app_inv_tail in Heq.
  rewrite <- (String.string_of_list_ascii_of_string s1).
  rewrite <- (String.string_of_list_ascii_of_string s2). by rewrite Heq.
Qed.

(** *** Names *)

Section Names.
(** How the runtime writes a number in a string. *)
Variable tostring : Z → string.

(** The names of the stages, in order. *)
Definition names (st : State) : list string :=
  (fun stage => Stage.name (objects st !!! stage)) <$> stages st.

(** The names [getNewStageName] tries, in order. *)
Definition subName (k : nat) : string :=
  match k with
  | O => ""
  | S _ => " (" +:+ tostring (Z.of_nat k) +:+ ")"
  end.
Definition candidate (k : nat) : string := "<New stage>" +:+ subName k.

(** The runtime writes the numbers from 1 to [n] in different ways. *)
Definition writesApart (n : nat) : Prop :=
  ∀ a b : Z, 1 ≤ a ≤ Z.of_nat n → 1 ≤ b ≤ Z.of_nat n → tostring a = tostring b → a = b.

Lemma existsb_names st name :
  existsb (fun stage => bool_decide (Stage.name (objects st !!! stage) = name)) (stages st)
  = bool_decide (name ∈ names st).
Proof.
  unfold names. induction (stages st) as [|stage l IH]; [done|].
  cbn [existsb fmap list_fmap]. rewrite IH.
  repeat case_bool_decide; set_solver.
Qed.

Lemma getNewStageName_loop_first rounds st (k j : nat) :
  (k ≤ j < k + rounds)%nat →
  (∀ m, (k ≤ m < j)%nat → candidate m ∈ names st) →
  candidate j ∉ names st →
  getNewStageName_loop tostring rounds st (Z.of_nat k + 1) (subName k) = Some (candidate j).
Proof.
  revert k. induction rounds as [|rounds IH]; intros k Hj Htaken Hfree; [lia|].
  cbn [getNewStageName_loop]. rewrite existsb_names.
  fold (candidate k). case_bool_decide as Hk.
  - destruct (decide (k = j)) as [->|Hne]; [done|].
    replace (" (" +:+ tostring (Z.of_nat k + 1) +:+ ")") with (subName (S k))
      by (unfold subName; do 3 f_equal; lia).
    replace (Z.of_nat k + 1 + 1) with (Z.of_nat (S k) + 1) by lia.
    apply IH; [lia| |done]. intros m Hm. apply Htaken. lia.
  - destruct (decide (k = j)) as [->|Hne]; [done|].
    destruct Hk. apply Htaken. lia.
Qed.

Lemma candidate_inj (n a b : nat) :
  writesApart n → (a ≤ n)%nat → (b ≤ n)%nat → candidate a = candidate b → a = b.
Proof.
  intros Hwrite Ha Hb Heq. apply (inj (String.append "<New stage>")) in Heq.
  destruct a as [|a], b as [|b]; [done|done|done|].
  unfold subName in Heq. apply (inj (String.append " (")) in Heq.
  apply string_app_inv_tail in Heq. apply Hwrite in Heq; lia.
Qed.

(** One of the first [n + 1] candidates is free when there are [n]
    names. *)
Lemma free_candidate st :
  writesApart (length (stages st)) →
  ∃ j, (j ≤ length (stages st))%nat ∧ candidate j ∉ names st.
Proof.
  intros Hwrite. set (n := length (stages st)) in *.
  destruct (decide (Forall (fun k => candidate k ∈ names st) (seq 0 (S n)))) as [Hall|Hsome].
  - exfalso.
    assert (Hnodup : NoDup (candidate <$> seq 0 (S n))).
    { apply NoDup_fmap_2_strong; [|apply NoDup_seq].
      intros a b Ha%elem_of_seq Hb%elem_of_seq Heq.
      apply (candidate_inj n); [done|lia|lia|done]. }
    assert (Hsub : candidate <$> seq 0 (S n) ⊆+ names st).
    { apply NoDup_submseteq; [done|].
      intros name (k & -> & Hk)%list_elem_of_fmap.
      by eapply Forall_forall in Hall. }
    apply submseteq_length in Hsub.
    rewrite length_fmap, length_seq in Hsub. unfold names in Hsub.
    rewrite length_fmap in Hsub. lia.
  - apply not_Forall_Exists, Exists_exists in Hsome as (j & Hj%elem_of_seq & Hfree);
      [|apply _].
    exists j. split; [lia|done].
Qed.

Lemma first_free_candidate st (j : nat) :
  candidate j ∉ names st →
  ∃ j', (j' ≤ j)%nat ∧ (candidate j' ∉ names st)
        ∧ ∀ m, (m < j')%nat → candidate m ∈ names st.
Proof.
  induction (lt_wf j) as [j _ IH]. intros Hfree.
  destruct (decide (Forall (fun m => candidate m ∈ names st) (seq 0 j))) as [Hall|Hsome].
  - exists j. split; [done|]. split; [done|].
    intros m Hm. eapply Forall_forall in Hall; [done|]. apply elem_of_seq. lia.
  - apply not_Forall_Exists, Exists_exists in Hsome as (m & Hm%elem_of_seq & Hfree');
      [|apply _].
    destruct (IH m) as (j' & ? & ? & ?); [lia|done|].
    exists j'. split; [lia|done].
Qed.

(** X26.  [getNewStageName] ends within as many rounds as there are
    stages, and one more, provided the runtime writes the numbers up to
    the number of stages in different ways.  The name it returns is the
    first of ["<New stage>"], ["<New stage> (1)"], ["<New stage> (2)"],
    and so on, that no stage of the assembly carries. *)
Theorem getNewStageName_first_free (rounds : nat) (st : State) :
  writesApart (length (stages st)) →
  (length (stages st) < rounds)%nat →
  ∃ j, (j ≤ length (stages st))%nat
       ∧ getNewStageName tostring rounds st = Some (candidate j)
       ∧ (candidate j ∉ names st)
       ∧ ∀ m, (m < j)%nat → candidate m ∈ names st.
Proof.
  intros Hwrite Hrounds.
  destruct (free_candidate st Hwrite) as (j0 & Hj0 & Hfree0).
  destruct (first_free_candidate st j0 Hfree0) as (j & Hj & Hfree & Hmin).
  exists j. split; [lia|]. split; [|done].
  apply (getNewStageName_loop_first rounds st 0 j); [lia| |done].
  intros m Hm. apply Hmin. lia.
Qed.

End Names.

(** *** Numbering *)

(** The stages are different objects, and the stage at place [i] of the
    table, counted from 1, carries the number [i]. *)
Definition wellNumbered (st : State) : Prop :=
  NoDup (stages st)
  ∧ ∀ (p : nat) stage,
      stages st !! p = Some stage →
      stage ∈ dom (objects st)
      ∧ Stage.stageNumber (objects st !!! stage) = Z.of_nat p + 1.

(** Two stage objects that differ at most in their stage number. *)
Definition sameButNumber (a b : Stage.t) : Prop :=
  Stage.name a = Stage.name b ∧ Stage.valid a = Stage.valid b
  ∧ Stage.surfaceIndex a = Stage.surfaceIndex b.

Definition renumberOver (numbers : list Z) (st : State) : outcome State :=
  foldl (fun run i =>
           st ← run;
           match getStage st i with
           | Some stage =>
               Returned (setObjects (<[stage := Stage.withStageNumber i (objects st !!! stage)]>
                                       (objects st)) st)
           | None => Raised "attempt to index a nil value"
           end)
        (Returned st) numbers.

Lemma getStage_lookup st (p : nat) : getStage st (Z.of_nat p + 1) = stages st !! p.
Proof.
  unfold getStage. rewrite bool_decide_eq_true_2 by lia. f_equal. lia.
Qed.

Lemma getStage_Some st index stage :
  getStage st index = Some stage →
  1 ≤ index ≤ maxStage st ∧ stages st !! Z.to_nat (index - 1) = Some stage.
Proof.
  unfold getStage, maxStage. case_bool_decide as Hindex; [|done]. intros Hstage.
  split; [|done]. apply lookup_lt_Some in Hstage. lia.
Qed.

Lemma renumberOver_spec (numbers : list Z) (st : State) :
  NoDup (stages st) →
  (∀ i, i ∈ numbers → 1 ≤ i ≤ maxStage st) →
  ∃ objects',
    renumberOver numbers st = Returned (setObjects objects' st)
    ∧ dom (objects st) ⊆ dom objects'
    ∧ (∀ (p : nat) stage,
         stages st !! p = Some stage →
         objects' !!! stage
         = if decide (Z.of_nat p + 1 ∈ numbers)
           then Stage.withStageNumber (Z.of_nat p + 1) (objects st !!! stage)
           else objects st !!! stage)
    ∧ (∀ stage, stage ∉ stages st → objects' !! stage = objects st !! stage).
Proof.
  intros Hnodup. induction numbers as [|i numbers IH] using rev_ind; intros Hrange.
  { exists (objects st). split; [by destruct st|]. split; [done|]. split; [|done].
    intros p stage _. by rewrite decide_False by set_solver. }
  destruct IH as (objects1 & Hrun & Hdom & Hat & Hout); [intros; apply Hrange; set_solver|].
  unfold renumberOver in *. rewrite foldl_snoc, Hrun. cbn [mbind outcome_bind].
  assert (Hi : 1 ≤ i ≤ maxStage st) by (apply Hrange; set_solver).
  destruct (lookup_lt_is_Some_2 (stages st) (Z.to_nat (i - 1))) as [stage Hstage];
    [unfold maxStage in Hi; lia|].
  assert (Hget : getStage (setObjects objects1 st) i = Some stage).
  { unfold getStage. by rewrite bool_decide_eq_true_2 by lia. }
  rewrite Hget. eexists. split; [reflexivity|]. cbn [objects setObjects].
  split; [set_solver|]. split.
  - intros p stage' Hp. destruct (decide (stage' = stage)) as [->|Hne].
    + assert (p = Z.to_nat (i - 1)) as -> by (by eapply NoDup_lookup).
      rewrite lookup_total_insert_eq. rewrite (Hat _ _ Hp).
      replace (Z.of_nat (Z.to_nat (i - 1)) + 1) with i by lia.
      rewrite (decide_True (P := i ∈ numbers ++ [i])) by (apply elem_of_app; right; set_solver).
      by case_decide.
    + rewrite lookup_total_insert_ne by done. rewrite (Hat _ _ Hp).
      assert (Z.of_nat p + 1 ≠ i).
      { intros <-. apply Hne. replace (Z.to_nat (Z.of_nat p + 1 - 1)) with p in Hstage by lia.
        congruence. }
      repeat case_decide; try done; exfalso; set_solver.
  - intros stage' Hout'. rewrite lookup_insert_ne; [by apply Hout|].
    intros <-. apply Hout'. by eapply list_elem_of_lookup_2.
Qed.

Lemma renumber_spec (from to : Z) (st : State) :
  NoDup (stages st) → 1 ≤ from → to ≤ maxStage st →
  ∃ objects',
    renumber from to st = Returned (setObjects objects' st)
    ∧ dom (objects st) ⊆ dom objects'
    ∧ (∀ (p : nat) stage,
         stages st !! p = Some stage →
         objects' !!! stage
         = if decide (from ≤ Z.of_nat p + 1 ≤ to)
           then Stage.withStageNumber (Z.of_nat p + 1) (objects st !!! stage)
           else objects st !!! stage)
    ∧ (∀ stage, stage ∉ stages st → objects' !! stage = objects st !! stage).
Proof.
  intros Hnodup Hfrom Hto.
  destruct (renumberOver_spec (seqZ from (to - from + 1)) st Hnodup)
    as (objects' & Hrun & Hdom & Hat & Hout).
  { intros i Hi%elem_of_seqZ. lia. }
  exists objects'. split; [exact Hrun|]. split; [done|]. split; [|done].
  intros p stage Hp. rewrite (Hat _ _ Hp).
  repeat case_decide; try done; exfalso; rewrite elem_of_seqZ in *; lia.
Qed.

(** *** Inserting a stage *)

Lemma StageImpl_create_spec surface stageNumber name st newStage st' :
  StageImpl_create surface stageNumber name st = (newStage, st') →
  (newStage ∉ dom (objects st))
  ∧ objects st' = <[newStage := Stage.mkStage name true surface stageNumber]> (objects st)
  ∧ stages st' = stages st ∧ valid st' = valid st ∧ id st' = id st
  ∧ assemblies st' = assemblies st
  ∧ calls st' = calls st ++ [prepareArea surface]
  ∧ surfaceIndexToStage st'
    = if bool_decide (id st ≠ 0) then <[surface := newStage]> (surfaceIndexToStage st)
      else surfaceIndexToStage st.
Proof.
  unfold StageImpl_create. cbn [objects call setObjects id]. intros [= <- <-].
  split; [apply is_fresh|]. by case_bool_decide.
Qed.

Lemma insert_lookup_lt (l : list StageRef) (k p : nat) (new : StageRef) :
  (p < k)%nat → (k ≤ length l)%nat → (take k l ++ new :: drop k l) !! p = l !! p.
Proof.
  intros Hp Hk. rewrite lookup_app_l by (rewrite length_take; lia).
  by rewrite lookup_take_lt.
Qed.

Lemma insert_lookup_eq (l : list StageRef) (k : nat) (new : StageRef) :
  (k ≤ length l)%nat → (take k l ++ new :: drop k l) !! k = Some new.
Proof.
  intros Hk. rewrite lookup_app_r by (rewrite length_take; lia).
  rewrite length_take. by replace (k - k `min` length l)%nat with 0%nat by lia.
Qed.

Lemma insert_lookup_gt (l : list StageRef) (k p : nat) (new : StageRef) :
  (k ≤ p)%nat → (k ≤ length l)%nat → (take k l ++ new :: drop k l) !! S p = l !! p.
Proof.
  intros Hp Hk. rewrite lookup_app_r by (rewrite length_take; lia).
  rewrite length_take. replace (S p - k `min` length l)%nat with (S (p - k)) by lia.
  change ((new :: drop k l) !! S (p - k)%nat) with (drop k l !! (p - k)%nat).
  rewrite lookup_drop. f_equal. lia.
Qed.

(** Where a stage of the table is after one is put in at place [k]. *)
Lemma insert_lookup_cases (l : list StageRef) (k p : nat) (new stage : StageRef) :
  (k ≤ length l)%nat →
  (take k l ++ new :: drop k l) !! p = Some stage →
  (p = k ∧ stage = new)
  ∨ ((p < k)%nat ∧ l !! p = Some stage)
  ∨ (∃ q, p = S q ∧ (k ≤ q)%nat ∧ l !! q = Some stage).
Proof.
  intros Hk Hp. destruct (decide (p < k)%nat) as [Hlt|Hge].
  - right. left. by rewrite insert_lookup_lt in Hp.
  - destruct (decide (p = k)) as [->|Hne].
    + left. rewrite insert_lookup_eq in Hp by done. by injection Hp.
    + right. right. destruct p as [|q]; [lia|]. exists q.
      rewrite insert_lookup_gt in Hp by lia. split; [done|]. split; [lia|done].
Qed.

Section Insert.
Variable tostring : Z → string.

Lemma insertStage_run (rounds : nat) (surface : SurfaceIndex) (index : StageNumber)
    (st : State) :
  wellNumbered st →
  valid st = true →
  1 ≤ index ≤ maxStage st + 1 →
  writesApart tostring (length (stages st)) →
  (length (stages st) < rounds)%nat →
  ∃ j objects',
    let newStage := fresh (dom (objects st)) in
    let stages' := take (Z.to_nat (index - 1)) (stages st)
                   ++ newStage :: drop (Z.to_nat (index - 1)) (stages st) in
    insertStage tostring rounds surface index st
    = Some (Returned
              (newStage,
               {| id := id st; valid := true; stages := stages'; objects := objects';
                  surfaceIndexToStage :=
                    if bool_decide (id st ≠ 0)
                    then <[surface := newStage]> (surfaceIndexToStage st)
                    else surfaceIndexToStage st;
                  assemblies := assemblies st;
                  calls := calls st ++ [prepareArea surface; content_insertStage index;
                                        raiseEvent "stage-added" (Some newStage)] |}))
    ∧ (candidate tostring j ∉ names st)
    ∧ (∀ m, (m < j)%nat → candidate tostring m ∈ names st)
    ∧ (newStage ∉ stages st)
    ∧ NoDup stages'
    ∧ dom (objects st) ⊆ dom objects'
    ∧ newStage ∈ dom objects'
    ∧ (∀ (p : nat) stage,
         stages' !! p = Some stage →
         objects' !!! stage
         = if decide (index ≤ Z.of_nat p + 1)
           then Stage.withStageNumber (Z.of_nat p + 1)
                  (<[newStage := Stage.mkStage (candidate tostring j) true surface index]>
                     (objects st) !!! stage)
           else objects st !!! stage).
Proof.
  intros [Hnodup Hnum] Hvalid Hindex Hwrite Hrounds.
  destruct (free_candidate tostring st Hwrite) as (j0 & Hj0 & Hfree0).
  destruct (first_free_candidate tostring st j0 Hfree0) as (j & Hj & Hfree & Hmin).
  assert (Hname : getNewStageName tostring rounds st = Some (candidate tostring j)).
  { apply (getNewStageName_loop_first tostring rounds st 0 j); [lia| |done].
    intros m Hm. apply Hmin. lia. }
  unfold insertStage. rewrite Hvalid. cbn [negb].
  rewrite !bool_decide_eq_true_2 by lia. cbn [andb negb]. rewrite Hname.
  destruct (StageImpl_create surface index (candidate tostring j) st) as [newStage st2] eqn:Hcreate.
  pose proof Hcreate as Hfresh. unfold StageImpl_create in Hfresh.
  cbn [objects call setObjects] in Hfresh. apply (f_equal fst) in Hfresh.
  cbn [fst] in Hfresh. subst newStage.
  set (newStage := fresh (dom (objects st))) in *.
  apply StageImpl_create_spec in Hcreate
    as (Hnew & Hobjects & Hstages & Hvalid2 & Hid & Hassemblies & Hcalls & Hsurfaces).
  assert (Hout : newStage ∉ stages st).
  { intros (p & Hp)%list_elem_of_lookup. by destruct (Hnum p newStage Hp). }
  rewrite Hstages. set (k := Z.to_nat (index - 1)).
  assert (Hk : (k ≤ length (stages st))%nat) by (unfold maxStage in Hindex; lia).
  set (stages' := take k (stages st) ++ newStage :: drop k (stages st)).
  assert (Hnodup' : NoDup stages').
  { eapply (NoDup_Permutation_proper _ (newStage :: stages st)); [|by constructor].
    unfold stages'. rewrite <- Permutation_middle. by rewrite take_drop. }
  assert (Hlen : maxStage (setStages stages' st2) = Z.of_nat (length (stages st)) + 1).
  { unfold maxStage, stages'. cbn [stages setStages].
    rewrite length_app, length_take, length_cons, length_drop. lia. }
  destruct (renumber_spec index (maxStage (setStages stages' st2)) (setStages stages' st2))
    as (objects' & Hrun & Hdom & Hat & _); [done|lia|lia|].
  rewrite Hrun. cbn [mbind outcome_bind].
  exists j, objects'. cbn zeta. fold k. fold stages'.
  split.
  { do 3 f_equal. unfold call, setObjects, setStages.
    cbn [id valid stages objects surfaceIndexToStage assemblies calls].
    rewrite Hvalid2, Hid, Hassemblies, Hcalls, Hsurfaces, Hvalid, <- !app_assoc.
    reflexivity. }
  split; [done|]. split; [done|]. split; [done|]. split; [done|].
  cbn [objects setStages] in Hdom, Hat. rewrite Hobjects in Hdom, Hat.
  split; [set_solver|]. split; [set_solver|].
  intros p stage Hp. cbn [stages setStages] in Hat. rewrite (Hat _ _ Hp).
  rewrite Hlen. pose proof (lookup_lt_Some _ _ _ Hp) as Hlt.
  unfold stages' in Hlt. rewrite length_app, length_take, length_cons, length_drop in Hlt.
  apply insert_lookup_cases in Hp as [[-> ->]|[[Hp Hold]|(q & -> & Hq & Hold)]]; [| | |done].
  - rewrite decide_True by lia. by rewrite decide_True by lia.
  - rewrite decide_False by lia. rewrite decide_False by lia.
    rewrite lookup_total_insert_ne; [done|]. intros <-. apply Hout.
    by eapply list_elem_of_lookup_2.
  - rewrite decide_True by lia. by rewrite decide_True by lia.
Qed.

(** X27.  [insertStage] raises on an assembly that is not valid, and on
    a place that is not from 1 to one past the last stage.  Otherwise, on
    an assembly whose stages are numbered by their place, it returns a new
    stage object that stands at the place asked for; the stages before it
    stay, the stages from there on move up by one, and every stage again
    carries the number of its place.  The new stage is valid and its name
    is one that no stage carried; the other stages keep their name,
    validity and surface.  The stage is registered under its surface
    unless the assembly's id is 0, and the calls made are [prepareArea],
    [content.insertStage] and the event ["stage-added"], in this order. *)
Theorem insertStage_keeps_numbering (rounds : nat) (surface : SurfaceIndex)
    (index : StageNumber) (st : State) :
  (valid st = false →
   insertStage tostring rounds surface index st = Some (Raised "Assembly is invalid"))
  ∧ (valid st = true → ¬ 1 ≤ index ≤ maxStage st + 1 →
     insertStage tostring rounds surface index st = Some (Raised "Invalid new stage number"))
  ∧ (wellNumbered st →
     valid st = true →
     1 ≤ index ≤ maxStage st + 1 →
     writesApart tostring (length (stages st)) →
     (length (stages st) < rounds)%nat →
     ∃ newStage st',
       insertStage tostring rounds surface index st = Some (Returned (newStage, st'))
       ∧ (newStage ∉ stages st)
       ∧ stages st' = take (Z.to_nat (index - 1)) (stages st)
                      ++ newStage :: drop (Z.to_nat (index - 1)) (stages st)
       ∧ getStage st' index = Some newStage
       ∧ maxStage st' = maxStage st + 1
       ∧ wellNumbered st'
       ∧ valid st' = true
       ∧ (Stage.name (objects st' !!! newStage) ∉ names st)
       ∧ Stage.valid (objects st' !!! newStage) = true
       ∧ Stage.surfaceIndex (objects st' !!! newStage) = surface
       ∧ (∀ stage, stage ∈ stages st →
            sameButNumber (objects st' !!! stage) (objects st !!! stage))
       ∧ (id st ≠ 0 → getStageAtSurface st' surface = Some newStage)
       ∧ calls st' = calls st ++ [prepareArea surface; content_insertStage index;
                                  raiseEvent "stage-added" (Some newStage)]).
Proof.
  split; [|split].
  { intros Hvalid. unfold insertStage. by rewrite Hvalid. }
  { intros Hvalid Hindex. unfold insertStage. rewrite Hvalid. cbn [negb].
    repeat case_bool_decide; try done; lia. }
  intros Hwell Hvalid Hindex Hwrite Hrounds.
  destruct (insertStage_run rounds surface index st Hwell Hvalid Hindex Hwrite Hrounds)
    as (j & objects' & Hrun & Hfree & _ & Hout & Hnodup & Hdom & Hnew & Hat).
  destruct Hwell as [_ Hnum].
  set (newStage := fresh (dom (objects st))) in *.
  set (k := Z.to_nat (index - 1)) in *.
  assert (Hk : (k ≤ length (stages st))%nat) by (unfold maxStage in Hindex; lia).
  eexists newStage, _. split; [exact Hrun|].
  unfold wellNumbered, getStage, maxStage, getStageAtSurface.
  cbn [stages objects valid calls surfaceIndexToStage].
  pose proof (Hat k newStage (insert_lookup_eq _ _ _ Hk)) as Hnew'.
  rewrite decide_True, lookup_total_insert_eq in Hnew' by lia.
  split; [done|]. split; [done|].
  split. { rewrite bool_decide_eq_true_2 by lia. by apply insert_lookup_eq. }
  split. { rewrite length_app, length_take, length_cons, length_drop. lia. }
  split.
  { split; [done|]. intros p stage Hp. rewrite (Hat _ _ Hp).
    apply insert_lookup_cases in Hp as [[-> ->]|[[Hp Hold]|(q & -> & Hq & Hold)]];
      [| | |done].
    - split; [done|]. by rewrite decide_True by lia.
    - destruct (Hnum _ _ Hold) as [Hin Hnumber]. split; [set_solver|].
      by rewrite decide_False by lia.
    - destruct (Hnum _ _ Hold) as [Hin Hnumber]. split; [set_solver|].
      by rewrite decide_True by lia. }
  split; [done|]. rewrite Hnew'. cbn [Stage.name Stage.valid Stage.surfaceIndex
                                         Stage.withStageNumber].
  split; [done|]. split; [done|]. split; [done|].
  split.
  { intros stage (q & Hq)%list_elem_of_lookup.
    assert (Hne : newStage ≠ stage) by (intros <-; apply Hout; by eapply list_elem_of_lookup_2).
    destruct (decide (q < k)%nat) as [Hlt|Hge].
    - rewrite (Hat q stage) by (by rewrite insert_lookup_lt).
      by rewrite decide_False by lia.
    - rewrite (Hat (S q) stage) by (rewrite insert_lookup_gt; [done|lia|done]).
      rewrite decide_True by lia. by rewrite lookup_total_insert_ne. }
  split; [|done].
  intros Hid. rewrite bool_decide_eq_true_2 by done. by rewrite lookup_insert_eq.
Qed.

End Insert.

(** *** Deleting a stage *)

Section Delete.
(** Which surfaces the game holds valid. *)
Variable surfaceValid : SurfaceIndex → bool.

Lemma _doDelete_spec (stage : StageRef) (st : State) :
  let st' := _doDelete surfaceValid stage st in
  let this := objects st !!! stage in
  stages st' = stages st ∧ valid st' = valid st ∧ id st' = id st
  ∧ assemblies st' = assemblies st
  ∧ dom (objects st) ⊆ dom (objects st')
  ∧ Stage.valid (objects st' !!! stage) = false
  ∧ sameButNumber (Stage.withValid false (objects st' !!! stage)) (Stage.withValid false this)
  ∧ Stage.stageNumber (objects st' !!! stage) = Stage.stageNumber this
  ∧ (∀ other, other ≠ stage → objects st' !! other = objects st !! other)
  ∧ surfaceIndexToStage st'
    = (if Stage.valid this then base.delete (Stage.surfaceIndex this) (surfaceIndexToStage st)
       else surfaceIndexToStage st)
  ∧ calls st'
    = calls st ++ (if Stage.valid this && surfaceValid (Stage.surfaceIndex this)
                   then [delete_surface (Stage.surfaceIndex this)] else []).
Proof.
  cbn zeta. unfold _doDelete.
  destruct (Stage.valid (objects st !!! stage)) eqn:Hstage; cbn [negb andb].
  2: { rewrite app_nil_r. by repeat split. }
  destruct (surfaceValid _);
    cbn [call setObjects setSurfaceIndexToStage stages valid id assemblies objects
           surfaceIndexToStage calls];
    rewrite ?lookup_total_insert_eq, ?app_nil_r;
    (repeat split; [set_solver|]); by intros; rewrite lookup_insert_ne.
Qed.

Lemma lookup_total_eq (m1 m2 : gmap StageRef Stage.t) (stage : StageRef) :
  m1 !! stage = m2 !! stage → m1 !!! stage = m2 !!! stage.
Proof. intros Heq. unfold lookup_total, map_lookup_total. by rewrite Heq. Qed.

Lemma deleteStage_run (index : StageNumber) (st : State) (stage : StageRef) :
  wellNumbered st →
  valid st = true →
  getStage st index = Some stage →
  maxStage st ≠ 1 →
  ∃ objects',
    let this := objects st !!! stage in
    let stages' := base.delete (Z.to_nat (index - 1)) (stages st) in
    deleteStage surfaceValid index st
    = Returned
        {| id := id st; valid := true; stages := stages'; objects := objects';
           surfaceIndexToStage :=
             if Stage.valid this
             then base.delete (Stage.surfaceIndex this) (surfaceIndexToStage st)
             else surfaceIndexToStage st;
           assemblies := assemblies st;
           calls := (calls st ++ [raiseEvent "pre-stage-deleted" (Some stage)])
                    ++ (if Stage.valid this && surfaceValid (Stage.surfaceIndex this)
                        then [delete_surface (Stage.surfaceIndex this)] else [])
                    ++ [content_deleteStage index;
                        raiseEvent "stage-deleted" (Some stage)] |}
    ∧ NoDup stages'
    ∧ (stage ∉ stages')
    ∧ dom (objects st) ⊆ dom objects'
    ∧ Stage.valid (objects' !!! stage) = false
    ∧ (∀ (p : nat) other,
         stages' !! p = Some other →
         objects' !!! other
         = if decide (index ≤ Z.of_nat p + 1)
           then Stage.withStageNumber (Z.of_nat p + 1) (objects st !!! other)
           else objects st !!! other).
Proof.
  intros [Hnodup Hnum] Hvalid Hstage Hmax.
  apply getStage_Some in Hstage as Hindex. destruct Hindex as [Hindex Hk].
  unfold deleteStage. rewrite Hvalid, Hstage. cbn [negb].
  rewrite bool_decide_eq_false_2 by done.
  set (st1 := call (raiseEvent "pre-stage-deleted" (Some stage)) st).
  destruct (_doDelete_spec stage st1)
    as (Hstages & Hvalid2 & Hid & Hassemblies & Hdom2 & Hinvalid & _ & _ & Hothers
        & Hsurfaces & Hcalls).
  set (st2 := _doDelete surfaceValid stage st1) in *.
  change (objects st1) with (objects st) in *.
  change (stages st1) with (stages st) in *.
  rewrite Hstages. set (k := Z.to_nat (index - 1)) in *.
  set (stages' := base.delete k (stages st)).
  assert (Hnodup' : NoDup stages') by (eapply sublist_NoDup; [done|apply sublist_delete]).
  assert (Hlen : maxStage (setStages stages' st2) = maxStage st - 1).
  { unfold maxStage, stages'. cbn [stages setStages]. rewrite length_delete by by eexists.
    unfold maxStage in Hindex. lia. }
  assert (Hplace : ∀ (p : nat) other,
            stages' !! p = Some other →
            other ≠ stage
            ∧ stages st !! (if decide (p < k)%nat then p else S p) = Some other).
  { intros p other Hp. unfold stages' in Hp. destruct (decide (p < k)%nat) as [Hlt|Hge].
    - rewrite list_lookup_delete_lt in Hp by done. split; [|done].
      intros ->. pose proof (NoDup_lookup (stages st) p k stage Hnodup Hp Hk). lia.
    - rewrite list_lookup_delete_ge in Hp by lia. split; [|done].
      intros ->. pose proof (NoDup_lookup (stages st) (S p) k stage Hnodup Hp Hk). lia. }
  destruct (renumber_spec index (maxStage (setStages stages' st2)) (setStages stages' st2))
    as (objects' & Hrun & Hdom & Hat & Hout); [done|lia|lia|].
  rewrite Hrun. cbn [mbind outcome_bind]. exists objects'. cbn zeta.
  assert (Hgone : stage ∉ stages').
  { intros (p & Hp)%list_elem_of_lookup. by destruct (Hplace p stage Hp). }
  split.
  { f_equal. unfold call, setObjects, setStages.
    cbn [id valid stages objects surfaceIndexToStage assemblies calls].
    rewrite Hvalid2, Hid, Hassemblies, Hcalls, Hsurfaces, <- !app_assoc.
    subst st1. cbn [id valid stages objects surfaceIndexToStage assemblies calls call].
    rewrite Hvalid, <- !app_assoc. reflexivity. }
  split; [done|]. split; [done|].
  cbn [objects stages setStages] in Hdom, Hat, Hout.
  split; [set_solver|].
  split. { rewrite (lookup_total_eq _ _ _ (Hout stage Hgone)). done. }
  intros p other Hp. rewrite (Hat _ _ Hp), Hlen.
  destruct (Hplace p other Hp) as [Hne Hold].
  rewrite (lookup_total_eq _ _ _ (Hothers other Hne)).
  pose proof (lookup_lt_Some _ _ _ Hp) as Hlt. unfold stages' in Hlt.
  rewrite length_delete in Hlt by by eexists.
  unfold maxStage. repeat case_decide; try done; lia.
Qed.

Lemma delete_invalidates (st : State) :
  valid st = true →
  let st' := delete surfaceValid st in
  valid st' = false ∧ (id st ∉ assemblies st') ∧ stages st' = stages st
  ∧ ∀ stage, stage ∈ stages st → Stage.valid (objects st' !!! stage) = false.
Proof.
  intros Hvalid. cbn zeta. unfold delete. rewrite Hvalid. cbn [negb].
  set (st1 := setValid false (setAssemblies (assemblies st ∖ {[id st]}) st)).
  assert (Hfold : ∀ (l : list StageRef) st0,
            let st' := foldl (fun st stage => _doDelete surfaceValid stage st) st0 l in
            valid st' = valid st0 ∧ assemblies st' = assemblies st0
            ∧ stages st' = stages st0
            ∧ ∀ stage, stage ∈ l ∨ Stage.valid (objects st0 !!! stage) = false →
                       Stage.valid (objects st' !!! stage) = false).
  { induction l as [|stage l IH]; intros st0; cbn zeta; cbn [foldl].
    - repeat split. intros stage [Hin|?]; [by apply elem_of_nil in Hin|done].
    - destruct (IH (_doDelete surfaceValid stage st0)) as (Hv & Ha & Hs & Hall).
      destruct (_doDelete_spec stage st0)
        as (Hs0 & Hv0 & _ & Ha0 & _ & Hinvalid & _ & _ & Hothers & _).
      rewrite Hv, Ha, Hs. repeat split; [done|done|done|].
      intros stage' Hstage'. apply Hall.
      destruct (decide (stage' = stage)) as [->|Hne]; [by right|].
      destruct Hstage' as [Hin|Hinv]; [left; set_solver|right].
      by rewrite (lookup_total_eq _ _ _ (Hothers stage' Hne)). }
  destruct (Hfold (stages st1) st1) as (Hv & Ha & Hs & Hall).
  cbn [call valid assemblies stages objects]. rewrite Hv, Ha, Hs.
  split; [done|]. split; [subst st1; cbn; set_solver|]. split; [done|].
  intros stage Hin. apply Hall. by left.
Qed.

(** X28.  [deleteStage] raises on an assembly that is not valid, and for
    a number at which the assembly has no stage.  Deleting the only stage
    deletes the assembly: it and its stage are no longer valid and its id
    leaves the global table.  Otherwise, on an assembly whose stages are
    numbered by their place, the stage leaves the table and is no longer
    valid, the stages after it move down by one, and every stage left
    again carries the number of its place and keeps its name, validity and
    surface.  A stage that was valid is no longer found under its surface,
    and that surface is deleted if the game still holds it valid. *)
Theorem deleteStage_keeps_numbering (index : StageNumber) (st : State) :
  (valid st = false → deleteStage surfaceValid index st = Raised "Assembly is invalid")
  ∧ (valid st = true → getStage st index = None →
     deleteStage surfaceValid index st = Raised "invalid stage number")
  ∧ (valid st = true → is_Some (getStage st index) → maxStage st = 1 →
     ∃ st',
       deleteStage surfaceValid index st = Returned st'
       ∧ valid st' = false
       ∧ (id st ∉ assemblies st')
       ∧ ∀ stage, stage ∈ stages st → Stage.valid (objects st' !!! stage) = false)
  ∧ (wellNumbered st → valid st = true → maxStage st ≠ 1 →
     ∀ stage, getStage st index = Some stage →
     ∃ st',
       let this := objects st !!! stage in
       deleteStage surfaceValid index st = Returned st'
       ∧ stages st' = base.delete (Z.to_nat (index - 1)) (stages st)
       ∧ (stage ∉ stages st')
       ∧ maxStage st' = maxStage st - 1
       ∧ wellNumbered st'
       ∧ valid st' = true
       ∧ Stage.valid (objects st' !!! stage) = false
       ∧ (∀ other, other ∈ stages st' →
            sameButNumber (objects st' !!! other) (objects st !!! other))
       ∧ (Stage.valid this = true → getStageAtSurface st' (Stage.surfaceIndex this) = None)
       ∧ calls st'
         = (calls st ++ [raiseEvent "pre-stage-deleted" (Some stage)])
           ++ (if Stage.valid this && surfaceValid (Stage.surfaceIndex this)
               then [delete_surface (Stage.surfaceIndex this)] else [])
           ++ [content_deleteStage index; raiseEvent "stage-deleted" (Some stage)]).
Proof.
  split; [|split; [|split]].
  { intros Hvalid. unfold deleteStage. by rewrite Hvalid. }
  { intros Hvalid Hnone. unfold deleteStage. by rewrite Hvalid, Hnone. }
  { intros Hvalid [stage Hstage] Hmax. unfold deleteStage.
    rewrite Hvalid, Hstage. cbn [negb]. rewrite bool_decide_eq_true_2 by done.
    destruct (delete_invalidates st Hvalid) as (? & ? & ? & ?). by eexists. }
  intros Hwell Hvalid Hmax stage Hstage.
  destruct (deleteStage_run index st stage Hwell Hvalid Hstage Hmax)
    as (objects' & Hrun & Hnodup & Hgone & Hdom & Hinvalid & Hat).
  destruct Hwell as [Hnodup0 Hnum].
  apply getStage_Some in Hstage as [Hindex Hk].
  set (k := Z.to_nat (index - 1)) in *.
  eexists. cbn zeta. split; [exact Hrun|].
  unfold wellNumbered, maxStage, getStageAtSurface.
  cbn [stages objects valid calls surfaceIndexToStage].
  assert (Hplace : ∀ (p : nat) other,
            base.delete k (stages st) !! p = Some other →
            stages st !! (if decide (p < k)%nat then p else S p) = Some other).
  { intros p other Hp. destruct (decide (p < k)%nat) as [Hlt|Hge].
    - by rewrite list_lookup_delete_lt in Hp.
    - by rewrite list_lookup_delete_ge in Hp by lia. }
  split; [done|]. split; [done|].
  split. { rewrite length_delete by (by eexists). unfold maxStage in Hindex. lia. }
  split.
  { split; [done|]. intros p other Hp. rewrite (Hat _ _ Hp).
    specialize (Hplace _ _ Hp). destruct (decide (p < k)%nat) as [Hlt|Hge].
    - destruct (Hnum _ _ Hplace) as [Hin Hnumber]. split; [set_solver|].
      by rewrite decide_False by lia.
    - destruct (Hnum _ _ Hplace) as [Hin Hnumber]. split; [set_solver|].
      by rewrite decide_True by lia. }
  split; [done|]. split; [done|].
  split.
  { intros other (p & Hp)%list_elem_of_lookup. rewrite (Hat _ _ Hp).
    by case_decide. }
  split; [|done].
  intros Hwas. rewrite Hwas. by rewrite lookup_delete_eq.
Qed.

End Delete.

(** An assembly of two stages that carry the first two names tried. *)
Definition twoStages : State :=
  {| id := 1; valid := true; stages := [1%positive; 2%positive];
     objects := {[ 1%positive := Stage.mkStage "<New stage>" true 10 1;
                   2%positive := Stage.mkStage "<New stage> (1)" true 11 2 ]};
     surfaceIndexToStage := {[ 10 := 1%positive; 11 := 2%positive ]};
     assemblies := {[ 1 ]};
     calls := [] |}.

Lemma twoStages_wellNumbered : wellNumbered twoStages.
Proof.
  split; [by apply (bool_decide_unpack _)|].
  intros [|[|p]] stage; cbn; intros [= <-]; (split; [|reflexivity]);
    apply elem_of_dom; eexists; reflexivity.
Qed.

Lemma pretty_writesApart (n : nat) : writesApart pretty n.
Proof. intros a b _ _ Heq. by apply (inj pretty). Qed.

Lemma getNewStageName_first_free_witness :
  ∃ j, (j ≤ 2)%nat
       ∧ getNewStageName pretty 3 twoStages = Some (candidate pretty j)
       ∧ (candidate pretty j ∉ names twoStages)
       ∧ ∀ m, (m < j)%nat → candidate pretty m ∈ names twoStages.
Proof.
  apply (getNewStageName_first_free pretty 3 twoStages (pretty_writesApart 2)).
  change (2 < 3)%nat. lia.
Defined.

Lemma insertStage_keeps_numbering_witness :
  ∃ newStage st',
    insertStage pretty 3 12 2 twoStages = Some (Returned (newStage, st'))
    ∧ getStage st' 2 = Some newStage
    ∧ wellNumbered st'.
Proof.
  destruct (proj2 (proj2 (insertStage_keeps_numbering pretty 3 12 2 twoStages))
              twoStages_wellNumbered eq_refl)
    as (newStage & st' & Hrun & _ & _ & Hat & _ & Hwell & _).
  - change (maxStage twoStages) with 2. lia.
  - apply pretty_writesApart.
  - change (2 < 3)%nat. lia.
  - by exists newStage, st'.
Defined.

Lemma deleteStage_keeps_numbering_witness :
  ∃ st',
    deleteStage (fun _ => true) 1 twoStages = Returned st'
    ∧ stages st' = [2%positive]
    ∧ wellNumbered st'.
Proof.
  destruct (proj2 (proj2 (proj2 (deleteStage_keeps_numbering (fun _ => true) 1 twoStages)))
              twoStages_wellNumbered eq_refl) with (stage := 1%positive)
    as (st' & Hrun & Hstages & _ & _ & Hwell & _).
  - change (maxStage twoStages) with 2. lia.
  - reflexivity.
  - by exists st'.
Defined.

End UserAssemblyFacts.

(* ===================================================================== *)
(** ** What an update from the world leaves alone *)
(* ===================================================================== *)

Module UpdateFrameFacts.
Import Util Diff ProjectEntity Connections AssemblyContent ProjectUpdates UpdateFacts.

Section Frame.
Variable imports : Imports.

(** What an update of [entity] at [stage] that answered [result] may have
    done to the project. *)
Definition updatedOnly (entity : EntityRef) (stage : StageNumber)
    (result : EntityUpdateResult.t) (project project' : Project) : Prop :=
  content project' = content project
  ∧ (∀ other, other ≠ entity → heap project' other = heap project other)
  ∧ match result with
    | EntityUpdateResult.NoChange =>
        heap project' entity = heap project entity ∧ calls project' = calls project
    | EntityUpdateResult.Updated =>
        calls project' = calls project ++ [updateWorldEntities entity stage None]
    | EntityUpdateResult.CannotRotate =>
        heap project' entity = heap project entity
        ∧ calls project' = calls project ++ [refreshWorldEntityAtStage entity stage]
    | EntityUpdateResult.CannotUpgradeChangedPair => False
    end.

Lemma adjustValueAtStage_unchanged this stage newValue this' :
  adjustValueAtStage this stage newValue = Returned (this', false) → this' = this.
Proof.
  unfold adjustValueAtStage. unfold mbind, outcome_bind, mret, outcome_ret.
  repeat case_match; intros; simplify_eq/=; done.
Qed.

Lemma applyUpgradeAtStage_unchanged this stage newName this' :
  applyUpgradeAtStage this stage newName = Returned (this', false) → this' = this.
Proof.
  unfold applyUpgradeAtStage. unfold mbind, outcome_bind, mret, outcome_ret.
  repeat case_match; intros; simplify_eq/=; done.
Qed.

Lemma handleUpdate_updatedOnly project entity entitySource stage targetDirection
    targetUpgrade getBpValue knownBpValue result project' :
  isUndergroundBelt (info imports) (heap project entity) = false →
  handleUpdate imports entity entitySource stage targetDirection targetUpgrade getBpValue
    knownBpValue project = Returned (result, project') →
  updatedOnly entity stage result project project'.
Proof.
  intros Hkind. unfold handleUpdate.
  rewrite (bind_run _ _ project (heap project entity) project) by reflexivity.
  rewrite Hkind.
  unfold applyValueFromWorld, checkUpgradeType, when, write, read, invoke, world, error,
    mbind, Update_bind, mret, Update_ret, updatedOnly.
  cbn [heap content calls].
  intros Hrun.
  repeat (case_match; simplify_eq/=);
    repeat match goal with
           | H : adjustValueAtStage _ _ _ = Returned (_, false) |- _ =>
               apply adjustValueAtStage_unchanged in H; subst
           | H : applyUpgradeAtStage _ _ _ = Returned (_, false) |- _ =>
               apply applyUpgradeAtStage_unchanged in H; subst
           end;
    rewrite ?fn_lookup_insert;
    (split; [done|]); (split; [by intros; rewrite ?fn_lookup_insert_ne|]); done.
Qed.

(** X29.  An update from the world of an entity that is not an
    underground belt, by [tryUpdateEntityFromWorld],
    [tryRotateEntityFromWorld] or [tryUpgradeEntityFromWorld], never
    changes the store nor any other entity.  When it answers [NoChange]
    the entity is as before and no call is made; when it answers
    [CannotRotate] the entity is as before and the one call made is
    [refreshWorldEntityAtStage]; when it answers [Updated] the one call
    made is [updateWorldEntities] at the stage.  It never answers
    [CannotUpgradeChangedPair]. *)
Theorem update_from_world_touches_only_the_entity (project : Project)
    (entity : EntityRef) (stage : StageNumber) (knownValue : option Entity)
    (run : Update EntityUpdateResult.t) (result : EntityUpdateResult.t)
    (project' : Project) :
  isUndergroundBelt (info imports) (heap project entity) = false →
  run = tryUpdateEntityFromWorld imports entity stage knownValue
  ∨ run = tryRotateEntityFromWorld imports entity stage
  ∨ run = tryUpgradeEntityFromWorld imports entity stage →
  run project = Returned (result, project') →
  updatedOnly entity stage result project project'.
Proof.
  intros Hkind Hrun.
  assert (Hnone : Returned (EntityUpdateResult.NoChange, project) = Returned (result, project')
                  → updatedOnly entity stage result project project').
  { intros [= <- <-]. by repeat split. }
  destruct Hrun as [-> | [-> | ->]];
    unfold tryUpdateEntityFromWorld, tryRotateEntityFromWorld, tryUpgradeEntityFromWorld;
    rewrite (bind_run _ _ project (heap project entity) project) by reflexivity;
    (destruct (getWorldEntity (heap project entity) stage) as [entitySource|];
     [by apply handleUpdate_updatedOnly|exact Hnone]).
Qed.

End Frame.

(** The second of two wired inserters, rendered at stage 1 and seen there
    facing north, is turned. *)
Lemma update_from_world_touches_only_the_entity_witness :
  ∃ project',
    tryRotateEntityFromWorld StageMoveFacts.plainImports 2%positive 1 (Tests.wiredProject true)
    = Returned (EntityUpdateResult.Updated, project')
    ∧ updatedOnly 2%positive 1 EntityUpdateResult.Updated (Tests.wiredProject true) project'.
Proof.
  eexists. split; [vm_compute; reflexivity|].
  apply (update_from_world_touches_only_the_entity StageMoveFacts.plainImports
           (Tests.wiredProject true) 2%positive 1 None
           (tryRotateEntityFromWorld StageMoveFacts.plainImports 2%positive 1)).
  - reflexivity.
  - right. left. reflexivity.
  - vm_compute. reflexivity.
Defined.

End UpdateFrameFacts.
